(** * SUMAC: distance-matrix construction and single-linkage clustering

    A shallow embedding of the clustering core of [sumac.py]:
    - [merge_closest_clusters] / [make_clusters] (the sequential engine),
    - [distance_matrix_worker] / [make_distance_matrix] (all-pairs builder),
    - [make_guided_clusters_worker] / [make_guided_clusters] (guided builder),

    and of the steps around it, which [alignments.py] has a second time:
    - [get_in_out_groups] (the keys of the ingroup and of the outgroup),
    - [assemble_fasta_clusters] (the clusters with at least 4 OTUs),
    - [align_cluster] / [align_clusters] (the names of the alignments),
    - [concatenate] / [make_gaps] (the supermatrix and its FASTA lines).

    Distances are Python floats (plus the integer literal 99).  Every finite
    float is a rational and the comparisons [<], [>], [==] of Python agree
    with those of the rationals on finite floats, so a distance is a [Q] and
    the tests of the source are written with [Qcompare].  Values that the
    source copies from one cell to another are copied here too, so equalities
    between cells are plain Leibniz equalities.  The only float arithmetic
    of the source, the two products of the length tests, is computed in
    binary64 with the rounding of the machine.

    The manager lists of [multiprocessing] hand out pickled copies:
    [row = dist_matrix[i]] yields a private copy of the row and
    [dist_matrix[i] = row] writes a whole row back.  A matrix is therefore a
    [list (list Q)] updated functionally, one whole row at a time. *)

From Stdlib Require Import QArith Qminmax ZArith Lia Lqa Ascii.
From Stdlib Require SpecFloat.
From stdpp Require Import base option list relations sorting strings gmap pretty.

(** * Part I: the program *)

(** ** Python results *)

(** A Python computation either returns, raises [IndexError] on a list
    access out of range, or (in this model) exhausts the step budget that
    stands for a loop or recursion that has not finished yet. *)
Inductive outcome (A : Type) : Type :=
| Done (a : A)
| IndexError
| OutOfFuel.
Arguments Done {A} a.
Arguments IndexError {A}.
Arguments OutOfFuel {A}.

Definition obind {A B} (m : outcome A) (k : A → outcome B) : outcome B :=
  match m with
  | Done a => k a
  | IndexError => IndexError
  | OutOfFuel => OutOfFuel
  end.

Notation "x ←' m ; k" := (obind m (λ x, k))
  (at level 100, m at next level, k at level 200, right associativity,
   format "x  ←'  m ;  '/' k").

(** [l[i]] *)
Definition getitem {A} (l : list A) (i : nat) : outcome A :=
  match l !! i with
  | Some a => Done a
  | None => IndexError
  end.

(** [l[i] = a] *)
Definition setitem {A} (l : list A) (i : nat) (a : A) : outcome (list A) :=
  if decide (i < length l) then Done (<[i:=a]> l) else IndexError.

(** [del l[i]] *)
Definition delitem {A} (l : list A) (i : nat) : outcome (list A) :=
  if decide (i < length l) then Done (delete i l) else IndexError.

(** ** Distances *)

Definition Qltb (a b : Q) : bool :=
  match (a ?= b)%Q with Lt => true | _ => false end.
Definition Qgtb (a b : Q) : bool :=
  match (a ?= b)%Q with Gt => true | _ => false end.
Definition Qeqb (a b : Q) : bool :=
  match (a ?= b)%Q with Eq => true | _ => false end.

(** The three distinguished values of the source. *)
Definition UNCOMPARED : Q := 99.
Definition LENGTH_GATE_FAILED : Q := 50.
Definition NO_HIT : Q := 10.

Abbreviation matrix := (list (list Q)).

(** [m[a][b]] as an outcome, and as an option for statements. *)
Definition getcell (m : matrix) (a b : nat) : outcome Q :=
  row ←' getitem m a; getitem row b.

Definition cell (m : matrix) (a b : nat) : option Q :=
  m !! a ≫= (.!! b).

Definition square (n : nat) (m : matrix) : Prop :=
  length m = n ∧ ∀ row, row ∈ m → length row = n.

(** ** ClusterEngine: [merge_closest_clusters] *)

(** The local variables of the scan, and the list of index pairs whose
    cell the scan has read so far (most recent last). *)
Record scan_state := ScanState {
  min_distance : Q;
  cluster1 : nat;
  cluster2 : nat;
  examined : list (nat * nat)
}.

Definition scan_init : scan_state :=
  {| min_distance := 99; cluster1 := 0; cluster2 := 0; examined := [] |}.

(** [if distance_matrix[x][y] < min_distance: ...], with [d] the cell read. *)
Definition scan_visit (st : scan_state) (x y : nat) (d : Q) : scan_state :=
  if Qltb d (min_distance st)
  then {| min_distance := d; cluster1 := x; cluster2 := y;
          examined := examined st ++ [(x, y)] |}
  else {| min_distance := min_distance st; cluster1 := cluster1 st;
          cluster2 := cluster2 st;
          examined := examined st ++ [(x, y)] |}.

(** The inner [while y < len(distance_matrix)] loop, run for the [todo]
    remaining values of [y]; it stops early on [break]. *)
Fixpoint scan_cols (m : matrix) (x y todo : nat) (st : scan_state)
  : outcome scan_state :=
  match todo with
  | 0 => Done st
  | S todo' =>
      if decide (x ≠ y) then
        d ←' getcell m x y;
        let st1 := scan_visit st x y d in
        if Qeqb (min_distance st1) 0 then Done st1
        else scan_cols m x (S y) todo' st1
      else scan_cols m x (S y) todo' st
  end.

(** The outer [while x < len(distance_matrix)] loop. *)
Fixpoint scan_rows (m : matrix) (x todo : nat) (st : scan_state)
  : outcome scan_state :=
  match todo with
  | 0 => Done st
  | S todo' =>
      st1 ←' scan_cols m x (S x) (length m - S x) st;
      if Qeqb (min_distance st1) 0 then Done st1
      else scan_rows m (S x) todo' st1
  end.

Definition scan (m : matrix) : outcome scan_state :=
  scan_rows m 0 (length m) scan_init.

(** One turn of [for i in range(len(distance_matrix[cluster1]))]. *)
Definition update_cell (m : matrix) (c1 c2 i : nat) : outcome matrix :=
  a ←' getcell m c1 i;
  b ←' getcell m c2 i;
  if Qgtb a b then
    row ←' getitem m c1;
    v ←' getcell m c2 i;
    row ←' setitem row i v;
    m1 ←' setitem m c1 row;
    row ←' getitem m1 i;
    v ←' getcell m1 c2 i;
    row ←' setitem row c1 v;
    setitem m1 i row
  else Done m.

Fixpoint update_loop (m : matrix) (c1 c2 : nat) (idxs : list nat)
  : outcome matrix :=
  match idxs with
  | [] => Done m
  | i :: idxs' => m1 ←' update_cell m c1 c2 i; update_loop m1 c1 c2 idxs'
  end.

(** [for i in range(len(distance_matrix)): row = distance_matrix[i];
    del row[cluster2]; distance_matrix[i] = row] *)
Fixpoint delete_column (m : matrix) (c2 : nat) (idxs : list nat)
  : outcome matrix :=
  match idxs with
  | [] => Done m
  | i :: idxs' =>
      row ←' getitem m i;
      row ←' delitem row c2;
      m1 ←' setitem m i row;
      delete_column m1 c2 idxs'
  end.

(** The matrix part of a merge (the code after "update distance matrix"). *)
Definition update_matrix (m : matrix) (c1 c2 : nat) : outcome matrix :=
  row ←' getitem m c1;
  m1 ←' update_loop m c1 c2 (seq 0 (length row));
  m2 ←' delitem m1 c2;
  delete_column m2 c2 (seq 0 (length m2)).

Section Engine.
Context {key : Type}.

Abbreviation cluster := (list key).

(** [for sequence in clusters[cluster2]: clusters[cluster1].append(sequence)]
    The [for] statement walks the list object [clusters[cluster2]] by
    position, looking at it again at each turn, while the body appends to
    the list object [clusters[cluster1]]; both live in [clusters]. *)
Fixpoint extend_loop (fuel : nat) (clusters : list cluster)
    (c1 c2 pos : nat) : outcome (list cluster) :=
  match fuel with
  | 0 => OutOfFuel
  | S fuel' =>
      src ←' getitem clusters c2;
      match src !! pos with
      | None => Done clusters
      | Some sequence =>
          dst ←' getitem clusters c1;
          extend_loop fuel' (<[c1 := dst ++ [sequence]]> clusters)
                      c1 c2 (S pos)
      end
  end.

(** The cluster part of a merge (the code after "merge the two clusters"). *)
Definition merge_clusters (fuel : nat) (clusters : list cluster)
    (c1 c2 : nat) : outcome (list cluster) :=
  cl ←' extend_loop fuel clusters c1 c2 0;
  delitem cl c2.

(** One pass through the body of [merge_closest_clusters], up to its
    [return]: either the early [return clusters], or the merged state
    with which the function calls itself. *)
Inductive pass :=
| Terminated (clusters : list cluster)
| Merged (clusters : list cluster) (m : matrix).

Definition engine_pass (fuel : nat) (clusters : list cluster)
    (m : matrix) (threshold : Q) : outcome pass :=
  st ←' scan m;
  if Qgtb (min_distance st) threshold then Done (Terminated clusters)
  else
    cl ←' merge_clusters fuel clusters (cluster1 st) (cluster2 st);
    m' ←' update_matrix m (cluster1 st) (cluster2 st);
    Done (Merged cl m').

Fixpoint merge_closest_clusters (fuel : nat) (clusters : list cluster)
    (m : matrix) (threshold : Q) : outcome (list cluster) :=
  match fuel with
  | 0 => OutOfFuel
  | S fuel' =>
      p ←' engine_pass fuel' clusters m threshold;
      match p with
      | Terminated cl => Done cl
      | Merged cl m' => merge_closest_clusters fuel' cl m' threshold
      end
  end.

Definition make_clusters (fuel : nat) (seq_keys : list key)
    (m : matrix) (threshold : Q) : outcome (list cluster) :=
  merge_closest_clusters fuel ((λ s, [s]) <$> seq_keys) m threshold.

End Engine.

(** ** Python floats in the length tests

    The two length tests are the only places where the source computes
    with floats: [length2 * (1 + float(length_threshold))] and
    [length2 * (1 - float(length_threshold))] are IEEE 754 binary64
    values, each operation rounded to nearest, ties to even, and the
    results are compared with the integer [length1].  The operations are
    those of the Standard Library's [SpecFloat], at precision 53 and
    maximal exponent 1024. *)

Abbreviation double := SpecFloat.spec_float.

(** [float(x)]: the binary64 value nearest to [x].  The argument is the
    number [length_threshold] stands for, the default [0.5] or the
    decimal given on the command line, as a rational; the quotient of
    its numerator and denominator is rounded once, to an infinity if it
    is too large.  An argument that is no number, on which [float]
    raises [ValueError] in the first worker that reaches a length test,
    and the arguments "nan" and "inf" are left out. *)
Definition float (x : Q) : double :=
  match Qnum x with
  | Z0 => SpecFloat.S754_zero false
  | Zpos n =>
      SpecFloat.SFdiv 53 1024 (SpecFloat.S754_finite false n 0)
        (SpecFloat.S754_finite false (Qden x) 0)
  | Zneg n =>
      SpecFloat.SFdiv 53 1024 (SpecFloat.S754_finite true n 0)
        (SpecFloat.S754_finite false (Qden x) 0)
  end.

(** The conversion of an [int] operand of a float operation. *)
Definition float_of_int (i : Z) : double :=
  SpecFloat.binary_normalize 53 1024 i 0 false.

Definition float_add (x y : double) : double := SpecFloat.SFadd 53 1024 x y.
Definition float_sub (x y : double) : double := SpecFloat.SFsub 53 1024 x y.
Definition float_mul (x y : double) : double := SpecFloat.SFmul 53 1024 x y.

(** The number a finite float stands for. *)
Definition finite_value (s : bool) (m : positive) (e : Z) : Q :=
  let n := if s then Zneg m else Zpos m in
  match e with
  | Z0 => inject_Z n
  | Zpos p => inject_Z (n * 2 ^ Zpos p)
  | Zneg p => n # 2 ^ p
  end.

(** [i > x] and [i < x] for an [int] and a float: Python compares the
    two numbers exactly; every integer lies between the infinities and
    no comparison with a NaN holds. *)
Definition int_gt_float (i : Z) (x : double) : bool :=
  match x with
  | SpecFloat.S754_nan => false
  | SpecFloat.S754_infinity s => s
  | SpecFloat.S754_zero _ => Qgtb (inject_Z i) 0
  | SpecFloat.S754_finite s m e => Qgtb (inject_Z i) (finite_value s m e)
  end.

Definition int_lt_float (i : Z) (x : double) : bool :=
  match x with
  | SpecFloat.S754_nan => false
  | SpecFloat.S754_infinity s => negb s
  | SpecFloat.S754_zero _ => Qltb (inject_Z i) 0
  | SpecFloat.S754_finite s m e => Qltb (inject_Z i) (finite_value s m e)
  end.

(** ** The worker pool *)

(** The two builders start [multiprocessing.cpu_count()] worker processes
    that share manager lists and one lock, and then join them.  A worker is
    modelled by its control point; each transition performs at most one
    operation on the shared objects (an operation on a manager list is served
    atomically by the manager process), together with the local computation
    that follows it.  The processes are interleaved by a schedule: the list
    of worker numbers in the order in which they take their transitions.

    Console output and the temporary FASTA/XML files, private to each worker,
    are left out. *)

(** What the caller of a builder observes. *)
Inductive build (A : Type) : Type :=
| SysExit                              (* [sys.exit(0)] before any worker started *)
| Joined (workers : nat) (result : A)  (* all started workers were joined *)
| Running.                             (* the schedule ended before the join *)
Arguments SysExit {A}.
Arguments Joined {A} workers result.
Arguments Running {A}.

(** One record of the BLAST XML output: its alignments, each given by the
    e-values ([expect]) of its HSPs. *)
Abbreviation blast_record := (list (list Q)).

(** ** DistanceMatrixBuilder: [distance_matrix_worker], [make_distance_matrix] *)

(** Control points of [distance_matrix_worker]; [i] and [j] are the
    counters of the source, which are also the positions of [key] and
    [key2] in [seq_keys]. *)
Inductive pc : Type :=
| AtKey (i : nat)
    (* top of [for key in seq_keys]; next: enter [with lock:] *)
| InLock (i : nat)
    (* lock held; next: [if key not in already_compared] *)
| Claiming (i : nat)
    (* lock held; next: [already_compared.append(key)] *)
| Unlocking (i : nat) (compare_row : bool)
    (* next: leave [with lock:], then [if compare_row:] *)
| AtCell (i j : nat)
    (* top of [for key2 in seq_keys]; next: read [dist_matrix[i][j]] *)
| DiagFetch (i j : nat)
    (* next: [row = dist_matrix[i]; row[j] = 0.0] *)
| DiagStore (i j : nat) (row : list Q)
    (* next: [dist_matrix[i] = row] *)
| Blasting (i j : nat)
    (* next: run blastn, parse its records *)
| PairFetch1 (i j : nat) (v : Q) (rest : list blast_record)
    (* next: [row = dist_matrix[i]; row[j] = v] *)
| PairStore1 (i j : nat) (v : Q) (row : list Q) (rest : list blast_record)
    (* next: [dist_matrix[i] = row] *)
| PairFetch2 (i j : nat) (v : Q) (rest : list blast_record)
    (* next: [row = dist_matrix[j]; row[i] = v] *)
| PairStore2 (i j : nat) (v : Q) (row : list Q) (rest : list blast_record)
    (* next: [dist_matrix[j] = row] *)
| Finished
| Crashed.

(** The shared objects, with two histories kept for the statements: the
    comparator invocations (subject, query) and the (worker, row) pairs
    for which a worker entered the per-row comparison loop. *)
Record shared {key : Type} := Shared {
  dist_matrix : matrix;
  already_compared : list key;
  lock : option nat;
  blast_calls : list (key * key);
  rows_entered : list (nat * nat)
}.
Arguments shared key : clear implicits.

Section Builder.
Context {key : Type} `{EqDecision key}.
Context (seq_length : key → Z).
Context (blastn : key → key → list blast_record).
Context (length_threshold : Q).
Context (seq_keys : list key).

(** [(length1 > length2 * (1 + float(length_threshold))) or
     (length1 < length2 * (1 - float(length_threshold)))]
    with [length1 = len(record1.seq)] the row's and [length2] the column's
    length; the sum, the difference and the two products are floats. *)
Definition length_gate_failed (length1 length2 : Z) : bool :=
  int_gt_float length1
    (float_mul (float_of_int length2)
       (float_add (float_of_int 1) (float length_threshold)))
  || int_lt_float length1
       (float_mul (float_of_int length2)
          (float_sub (float_of_int 1) (float length_threshold))).

(** [for blast_record in blast_records:] the next record that writes a
    distance, or the end of the loop and [j += 1]. *)
Fixpoint next_record (i j : nat) (records : list blast_record) : pc :=
  match records with
  | [] => AtCell i (S j)
  | [] :: rest => PairFetch1 i j NO_HIT rest
  | ([] :: _) :: rest => next_record i j rest
  | ((expect :: _) :: _) :: rest => PairFetch1 i j expect rest
  end.

Definition with_matrix (s : shared key) (m : matrix) : shared key :=
  {| dist_matrix := m; already_compared := already_compared s;
     lock := lock s; blast_calls := blast_calls s;
     rows_entered := rows_entered s |}.

(** [row = dist_matrix[a]; row[b] = v] *)
Definition fetch_row (s : shared key) (a b : nat) (v : Q) : outcome (list Q) :=
  row ←' getitem (dist_matrix s) a; setitem row b v.

(** [dist_matrix[a] = row] *)
Definition store_row (s : shared key) (a : nat) (row : list Q)
  : outcome (shared key) :=
  m ←' setitem (dist_matrix s) a row; Done (with_matrix s m).

(** One transition of worker [w]. *)
Definition worker_step (w : nat) (p : pc) (s : shared key) : pc * shared key :=
  match p with
  | AtKey i =>
      match seq_keys !! i with
      | None => (Finished, s)
      | Some _ =>
          match lock s with
          | Some _ => (AtKey i, s)
          | None =>
              (InLock i,
               {| dist_matrix := dist_matrix s;
                  already_compared := already_compared s;
                  lock := Some w; blast_calls := blast_calls s;
                  rows_entered := rows_entered s |})
          end
      end
  | InLock i =>
      match seq_keys !! i with
      | None => (Crashed, s)
      | Some k =>
          if decide (k ∈ already_compared s) then (Unlocking i false, s)
          else (Claiming i, s)
      end
  | Claiming i =>
      match seq_keys !! i with
      | None => (Crashed, s)
      | Some k =>
          (Unlocking i true,
           {| dist_matrix := dist_matrix s;
              already_compared := already_compared s ++ [k];
              lock := lock s; blast_calls := blast_calls s;
              rows_entered := rows_entered s |})
      end
  | Unlocking i compare_row =>
      if compare_row then
        (AtCell i 0,
         {| dist_matrix := dist_matrix s;
            already_compared := already_compared s;
            lock := None; blast_calls := blast_calls s;
            rows_entered := rows_entered s ++ [(w, i)] |})
      else
        (AtKey (S i),
         {| dist_matrix := dist_matrix s;
            already_compared := already_compared s;
            lock := None; blast_calls := blast_calls s;
            rows_entered := rows_entered s |})
  | AtCell i j =>
      match seq_keys !! i, seq_keys !! j with
      | Some k, Some k2 =>
          match getcell (dist_matrix s) i j with
          | Done d =>
              if Qeqb d 99 then
                if decide (k = k2) then (DiagFetch i j, s)
                else if length_gate_failed (seq_length k) (seq_length k2)
                then (PairFetch1 i j LENGTH_GATE_FAILED [], s)
                else (Blasting i j, s)
              else (AtCell i (S j), s)
          | _ => (Crashed, s)
          end
      | Some _, None => (AtKey (S i), s)
      | None, _ => (Crashed, s)
      end
  | DiagFetch i j =>
      match fetch_row s i j 0 with
      | Done row => (DiagStore i j row, s)
      | _ => (Crashed, s)
      end
  | DiagStore i j row =>
      match store_row s i row with
      | Done s' => (AtCell i (S j), s')
      | _ => (Crashed, s)
      end
  | Blasting i j =>
      match seq_keys !! i, seq_keys !! j with
      | Some k, Some k2 =>
          (next_record i j (blastn k k2),
           {| dist_matrix := dist_matrix s;
              already_compared := already_compared s;
              lock := lock s; blast_calls := blast_calls s ++ [(k, k2)];
              rows_entered := rows_entered s |})
      | _, _ => (Crashed, s)
      end
  | PairFetch1 i j v rest =>
      match fetch_row s i j v with
      | Done row => (PairStore1 i j v row rest, s)
      | _ => (Crashed, s)
      end
  | PairStore1 i j v row rest =>
      match store_row s i row with
      | Done s' => (PairFetch2 i j v rest, s')
      | _ => (Crashed, s)
      end
  | PairFetch2 i j v rest =>
      match fetch_row s j i v with
      | Done row => (PairStore2 i j v row rest, s)
      | _ => (Crashed, s)
      end
  | PairStore2 i j v row rest =>
      match store_row s j row with
      | Done s' => (next_record i j rest, s')
      | _ => (Crashed, s)
      end
  | Finished => (Finished, s)
  | Crashed => (Crashed, s)
  end.

(** The pool: the control points of the workers and the shared objects. *)
Definition pool_step (c : list pc * shared key) (w : nat)
  : list pc * shared key :=
  match c.1 !! w with
  | Some p => let r := worker_step w p c.2 in (<[w := r.1]> c.1, r.2)
  | None => c
  end.

Definition run (sched : list nat) (c : list pc * shared key)
  : list pc * shared key :=
  foldl pool_step c sched.

(** [row = [99] * n; dist_matrix = n copies of row] *)
Definition initial_matrix (n : nat) : matrix :=
  replicate n (replicate n UNCOMPARED).

Definition initial_pool (num_cores : nat) : list pc * shared key :=
  (replicate num_cores (AtKey 0),
   {| dist_matrix := initial_matrix (length seq_keys);
      already_compared := []; lock := None;
      blast_calls := []; rows_entered := [] |}).

Definition exited (p : pc) : bool :=
  match p with Finished | Crashed => true | _ => false end.

Definition make_distance_matrix (num_cores : nat) (sched : list nat)
  : build matrix :=
  let c := run sched (initial_pool num_cores) in
  if forallb exited c.1 then Joined (length c.1) (dist_matrix c.2)
  else Running.

End Builder.

(** ** GuidedClusterBuilder: [make_guided_clusters_worker], [make_guided_clusters] *)

(** Control points of [make_guided_clusters_worker]; [g] is the position
    of [guide] in [guide_sequences], which is what
    [guide_sequences.index(guide)] returns for the record objects of the
    list, and [k] the position of [key] in [all_seq_keys]. *)
Inductive gpc {key : Type} : Type :=
| GAtGuide (g : nat)
    (* top of [for guide in guide_sequences]; next: enter [with lock:] *)
| GInLock (g : nat)
    (* lock held; next: [if guide.id not in already_compared] *)
| GClaiming (g : nat)
    (* lock held; next: [already_compared.append(guide.id)] *)
| GUnlocking (g : nat) (compare_guide : bool)
    (* next: leave [with lock:], then [if compare_guide:] *)
| GAtKey (g k : nat)
    (* top of [for key in all_seq_keys]; next: the length test *)
| GBlasting (g k : nat)
    (* next: run blastn, parse its records *)
| GHit (g k : nat) (rest : list blast_record)
    (* a record with a hit; next: enter [with lock:] *)
| GHitFetch (g k : nat) (rest : list blast_record)
    (* lock held; next: [temp_cluster = clusters[...]; temp_cluster.append(key)] *)
| GHitStore (g k : nat) (temp_cluster : list key) (rest : list blast_record)
    (* lock held; next: [clusters[...] = temp_cluster] *)
| GHitUnlock (g k : nat) (rest : list blast_record)
    (* next: leave [with lock:] *)
| GFinished
| GCrashed.
Arguments gpc key : clear implicits.

(** The shared objects of the guided builder; the history
    [guide_blast_calls] lists the (guide, key) positions compared. *)
Record gshared {key gid : Type} := GShared {
  clusters : list (list key);
  guides_compared : list gid;
  glock : option nat;
  guide_blast_calls : list (nat * nat)
}.
Arguments gshared key gid : clear implicits.

Section Guided.
Context {key guide gid : Type} `{EqDecision gid}.
Context (guide_id : guide → gid).
Context (guide_length : guide → Z).
Context (seq_length : key → Z).
Context (blastn_guide : guide → key → list blast_record).
Context (length_threshold : Q).
Context (guide_sequences : list guide).
Context (all_seq_keys : list key).

(** [(length1 < length2 * (1 + float(length_threshold))) and
     (length1 > length2 * (1 - float(length_threshold)))]
    with [length1 = len(guide.seq)] and [length2 = len(record.seq)]; the
    sum, the difference and the two products are floats. *)
Definition length_gate_passed (length1 length2 : Z) : bool :=
  int_lt_float length1
    (float_mul (float_of_int length2)
       (float_add (float_of_int 1) (float length_threshold)))
  && int_gt_float length1
       (float_mul (float_of_int length2)
          (float_sub (float_of_int 1) (float length_threshold))).

(** [for blast_record in blast_records:] the next record with a hit, or
    the end of the loop. *)
Fixpoint gnext_record (g k : nat) (records : list blast_record) : gpc key :=
  match records with
  | [] => GAtKey g (S k)
  | ((_ :: _) :: _) :: rest => GHit g k rest
  | _ :: rest => gnext_record g k rest
  end.

Definition gworker_step (w : nat) (p : gpc key) (s : gshared key gid)
  : gpc key * gshared key gid :=
  match p with
  | GAtGuide g =>
      match guide_sequences !! g with
      | None => (GFinished, s)
      | Some _ =>
          match glock s with
          | Some _ => (GAtGuide g, s)
          | None =>
              (GInLock g,
               {| clusters := clusters s; guides_compared := guides_compared s;
                  glock := Some w; guide_blast_calls := guide_blast_calls s |})
          end
      end
  | GInLock g =>
      match guide_sequences !! g with
      | None => (GCrashed, s)
      | Some gd =>
          if decide (guide_id gd ∈ guides_compared s)
          then (GUnlocking g false, s)
          else (GClaiming g, s)
      end
  | GClaiming g =>
      match guide_sequences !! g with
      | None => (GCrashed, s)
      | Some gd =>
          (GUnlocking g true,
           {| clusters := clusters s;
              guides_compared := guides_compared s ++ [guide_id gd];
              glock := glock s; guide_blast_calls := guide_blast_calls s |})
      end
  | GUnlocking g compare_guide =>
      (if compare_guide then GAtKey g 0 else GAtGuide (S g),
       {| clusters := clusters s; guides_compared := guides_compared s;
          glock := None; guide_blast_calls := guide_blast_calls s |})
  | GAtKey g k =>
      match guide_sequences !! g, all_seq_keys !! k with
      | Some gd, Some key =>
          if length_gate_passed (guide_length gd) (seq_length key)
          then (GBlasting g k, s)
          else (GAtKey g (S k), s)
      | Some _, None => (GAtGuide (S g), s)
      | None, _ => (GCrashed, s)
      end
  | GBlasting g k =>
      match guide_sequences !! g, all_seq_keys !! k with
      | Some gd, Some key =>
          (gnext_record g k (blastn_guide gd key),
           {| clusters := clusters s; guides_compared := guides_compared s;
              glock := glock s;
              guide_blast_calls := guide_blast_calls s ++ [(g, k)] |})
      | _, _ => (GCrashed, s)
      end
  | GHit g k rest =>
      match glock s with
      | Some _ => (GHit g k rest, s)
      | None =>
          (GHitFetch g k rest,
           {| clusters := clusters s; guides_compared := guides_compared s;
              glock := Some w; guide_blast_calls := guide_blast_calls s |})
      end
  | GHitFetch g k rest =>
      match getitem (clusters s) g with
      | Done temp_cluster =>
          match all_seq_keys !! k with
          | Some key => (GHitStore g k (temp_cluster ++ [key]) rest, s)
          | None => (GCrashed, s)
          end
      | _ => (GCrashed, s)
      end
  | GHitStore g k temp_cluster rest =>
      match setitem (clusters s) g temp_cluster with
      | Done cl =>
          (GHitUnlock g k rest,
           {| clusters := cl; guides_compared := guides_compared s;
              glock := glock s; guide_blast_calls := guide_blast_calls s |})
      | _ => (GCrashed, s)
      end
  | GHitUnlock g k rest =>
      (gnext_record g k rest,
       {| clusters := clusters s; guides_compared := guides_compared s;
          glock := None; guide_blast_calls := guide_blast_calls s |})
  | GFinished => (GFinished, s)
  | GCrashed => (GCrashed, s)
  end.

Definition gpool_step (c : list (gpc key) * gshared key gid) (w : nat)
  : list (gpc key) * gshared key gid :=
  match c.1 !! w with
  | Some p => let r := gworker_step w p c.2 in (<[w := r.1]> c.1, r.2)
  | None => c
  end.

Definition grun (sched : list nat) (c : list (gpc key) * gshared key gid)
  : list (gpc key) * gshared key gid :=
  foldl gpool_step c sched.

(** [for guide in guide_sequences: clusters.append([])] *)
Definition ginitial_pool (num_cores : nat) : list (gpc key) * gshared key gid :=
  (replicate num_cores (GAtGuide 0),
   {| clusters := replicate (length guide_sequences) [];
      guides_compared := []; glock := None; guide_blast_calls := [] |}).

Definition gexited (p : gpc key) : bool :=
  match p with GFinished | GCrashed => true | _ => false end.

End Guided.

(** [make_guided_clusters]: [guide_file] is the content of the FASTA file
    named by [guide_seq], or [None] when [os.path.isfile] fails. *)
Definition make_guided_clusters {key guide gid : Type} `{EqDecision gid}
    (guide_id : guide → gid) (guide_length : guide → Z)
    (seq_length : key → Z)
    (blastn_guide : guide → key → list blast_record)
    (guide_file : option (list guide)) (all_seq_keys : list key)
    (length_threshold : Q) (num_cores : nat) (sched : list nat)
  : build (list (list key)) :=
  match guide_file with
  | None => SysExit
  | Some guide_sequences =>
      let c := grun guide_id guide_length seq_length blastn_guide
                 length_threshold guide_sequences all_seq_keys sched
                 (ginitial_pool (gid := gid) guide_sequences num_cores) in
      if forallb gexited c.1 then Joined (length c.1) (clusters c.2)
      else Running
  end.

(** ** Concrete scenarios *)

(** The concrete scenario of the specification: five sequences with
    AB = 0, AC = 1e-12, AD = 50, AE = 10, BC = 1e-8, the rest 10. *)
Definition scenario_matrix : matrix :=
  let e12 : Q := 1 # 1000000000000 in
  let e8 : Q := 1 # 100000000 in
  [ [0;   0;   e12; 50; 10];
    [0;   0;   e8;  10; 10];
    [e12; e8;  0;   10; 10];
    [50;  10;  10;  0;  10];
    [10;  10;  10;  10; 0] ]%Q.

(** The length-gate scenario of the specification: two sequences, of
    lengths 100 and 160, keyed 0 and 1; the comparator reports one hit with
    e-value 0.001 for every pair. *)
Definition gate_lengths (k : nat) : Z := if decide (k = 0) then 100 else 160.

Definition one_hit (subject query : nat) : list blast_record :=
  [[[1 # 1000]%Q]].

(** Three sequences of equal length, keyed 0, 1 and 2. *)
Definition equal_lengths (k : nat) : Z := 100.

(** Worker 0 alone, for long enough to finish. *)
Definition alone : list nat := replicate 100 0.

(** Two workers on two rows: worker 0 claims row 0, then worker 1 claims
    and completes row 1 before worker 0 resumes. *)
Definition second_row_first : list nat :=
  [0; 0; 0; 0] ++ replicate 40 1 ++ replicate 40 0.

(** Two workers on three rows: worker 0 claims row 0; worker 1 claims row
    1, computes the pair (1, 0), writes row 1 and fetches its copy of row 0;
    worker 0 then runs to the end; worker 1 finally writes its stale copy of
    row 0 back and finishes. *)
Definition stale_row : list nat :=
  [0; 0; 0; 0] ++ replicate 12 1 ++ replicate 60 0 ++ replicate 60 1.

(** A guided run: one guide of length 100 (a guide is its identifier and
    its length), candidates 0 and 1 of lengths 100 and 300. *)
Definition guided_lengths (k : nat) : Z := if decide (k = 0) then 100 else 300.

Definition guide_hit (gd : nat * Z) (query : nat) : list blast_record :=
  [[[1 # 1000]%Q]].

(** Lengths at which the rounding of the products decides the length
    tests: 63 against 45 with threshold 0.4, and 63 against 90 with
    threshold 0.3. *)
Definition rounding_lengths (k : nat) : Z := if decide (k = 0) then 63 else 45.

Definition rounding_guide_lengths (k : nat) : Z := 90.

(** * Part II: notions used in the statements *)

(** ** The scan order *)

Definition row_pairs (n x : nat) : list (nat * nat) :=
  pair x <$> seq (S x) (n - S x).

Definition rows_from (n x todo : nat) : list (nat * nat) :=
  seq x todo ≫= row_pairs n.

Definition all_pairs (n : nat) : list (nat * nat) := rows_from n 0 n.

Fixpoint scan_list (m : matrix) (ps : list (nat * nat)) (st : scan_state)
  : outcome scan_state :=
  match ps with
  | [] => Done st
  | (x, y) :: ps' =>
      d ←' getcell m x y;
      let st1 := scan_visit st x y d in
      if Qeqb (min_distance st1) 0 then Done st1 else scan_list m ps' st1
  end.

Definition nozero (m : matrix) (l : list (nat * nat)) : Prop :=
  ∀ p d, p ∈ l → cell m p.1 p.2 = Some d → ¬ (d == 0)%Q.

Record scan_inv (m : matrix) (st : scan_state) : Prop := {
  inv_le99 : (min_distance st <= 99)%Q;
  inv_lower : ∀ p d, p ∈ examined st → cell m p.1 p.2 = Some d →
              (min_distance st <= d)%Q;
  inv_found : (min_distance st < 99)%Q →
              ∃ l1 l2, examined st = l1 ++ (cluster1 st, cluster2 st) :: l2 ∧
                cell m (cluster1 st) (cluster2 st) = Some (min_distance st) ∧
                ∀ p d, p ∈ l1 → cell m p.1 p.2 = Some d →
                       (min_distance st < d)%Q;
  inv_none : ¬ (min_distance st < 99)%Q →
             min_distance st = 99%Q ∧ cluster1 st = 0 ∧ cluster2 st = 0
}.

(** ** Cells of a merged matrix *)

Definition set_cell (m : matrix) (a b : nat) (v : Q) : matrix :=
  match m !! a with
  | Some row => <[a := <[b := v]> row]> m
  | None => m
  end.

Definition skip (c k : nat) : nat := if decide (k < c) then k else S k.

Definition linkage (m : matrix) (c1 c2 a b : nat) : option Q :=
  if decide (a = c1) then
    x ← cell m c1 b; y ← cell m c2 b; Some (Qmin x y)
  else if decide (b = c1) then
    x ← cell m c1 a; y ← cell m c2 a; z ← cell m a c1;
    Some (if Qgtb x y then y else z)
  else cell m a b.

Definition linkage_upto (m : matrix) (c1 c2 i a b : nat) : option Q :=
  if decide ((a = c1 ∧ b < i) ∨ (b = c1 ∧ a < i))
  then linkage m c1 c2 a b else cell m a b.
(** [p] comes before [q] in row-major order: lower row first, then lower
    column. *)
Definition scanned_before (p q : nat * nat) : Prop :=
  p.1 < q.1 ∨ (p.1 = q.1 ∧ p.2 < q.2).

Definition squareb (n : nat) (m : matrix) : bool :=
  (length m =? n) && forallb (λ row, length row =? n) m.

(** ** The claim discipline of the all-pairs builder *)

Definition in_lock (p : pc) : bool :=
  match p with
  | InLock _ | Claiming _ | Unlocking _ _ => true
  | _ => false
  end.

(** The row whose key has been appended to [already_compared] by the
    worker that still holds the lock. *)
Definition pending {key} (ps : list pc) (s : shared key) : list nat :=
  match lock s with
  | Some w =>
      match ps !! w with
      | Some (Unlocking i true) => [i]
      | _ => []
      end
  | None => []
  end.

Record claim_inv {key} (seq_keys : list key) (c : list pc * shared key)
  : Prop := {
  ci_holder : ∀ w, lock c.2 = Some w →
                ∃ p, c.1 !! w = Some p ∧ in_lock p = true;
  ci_locked : ∀ w p, c.1 !! w = Some p → in_lock p = true →
                lock c.2 = Some w;
  ci_claimed : Forall2 (λ k i, seq_keys !! i = Some k)
                 (already_compared c.2)
                 ((snd <$> rows_entered c.2) ++ pending c.1 c.2);
  ci_nodup : NoDup (already_compared c.2);
  ci_fresh : ∀ w i k, c.1 !! w = Some (Claiming i) →
               seq_keys !! i = Some k → k ∉ already_compared c.2;
  ci_range : ∀ w i, c.1 !! w = Some (InLock i) ∨ c.1 !! w = Some (Claiming i) →
               is_Some (seq_keys !! i)
}.

(** The row whose comparison loop a control point belongs to. *)
Definition row_of (p : pc) : option nat :=
  match p with
  | AtCell i _ | DiagFetch i _ | DiagStore i _ _ | Blasting i _
  | PairFetch1 i _ _ _ | PairStore1 i _ _ _ _
  | PairFetch2 i _ _ _ | PairStore2 i _ _ _ _ => Some i
  | _ => None
  end.

(** Every worker inside a row loop is in the history of entered rows. *)
Definition rows_logged {key} (c : list pc * shared key) : Prop :=
  ∀ w p i, c.1 !! w = Some p → row_of p = Some i → (w, i) ∈ rows_entered c.2.

(** ** Keys that reach a cluster of the guided builder *)

Section GuidedInv.
Context {key guide : Type}.
Context (guide_length : guide → Z) (seq_length : key → Z).
Context (length_threshold : Q).
Context (guide_sequences : list guide) (all_seq_keys : list key).

(** The key passes the length test against some guide. *)
Definition admitted (k : key) : Prop :=
  ∃ gd, gd ∈ guide_sequences ∧
        length_gate_passed length_threshold (guide_length gd) (seq_length k) = true.

Definition gpc_ok (p : gpc key) : Prop :=
  match p with
  | GBlasting _ k | GHit _ k _ | GHitFetch _ k _ | GHitUnlock _ k _ =>
      ∀ key, all_seq_keys !! k = Some key → admitted key
  | GHitStore _ k temp_cluster _ =>
      (∀ key, key ∈ temp_cluster → admitted key) ∧
      (∀ key, all_seq_keys !! k = Some key → admitted key)
  | _ => True
  end.

Definition guided_inv {gid} (c : list (gpc key) * gshared key gid) : Prop :=
  (∀ cl key, cl ∈ clusters c.2 → key ∈ cl → admitted key) ∧
  (∀ w p, c.1 !! w = Some p → gpc_ok p).

End GuidedInv.

(** ** Symmetry and diagonal *)

(** [matrix[i][j] == matrix[j][i]] *)
Definition symmetric (m : matrix) : Prop :=
  ∀ a b x y, cell m a b = Some x → cell m b a = Some y → (x == y)%Q.

(** [matrix[i][i] == 0] *)
Definition zero_diagonal (m : matrix) : Prop :=
  ∀ a d, cell m a a = Some d → (d == 0)%Q.

Definition nonnegative (m : matrix) : Prop :=
  ∀ a b d, cell m a b = Some d → (0 <= d)%Q.

Definition matrix_ok (n : nat) (m : matrix) : Prop :=
  square n m ∧ symmetric m ∧ zero_diagonal m ∧ nonnegative m.

(** A comparator whose e-values are non-negative. *)
Definition nonnegative_scores {key} (blastn : key → key → list blast_record)
  : Prop :=
  ∀ k k2 record alignment expect,
    record ∈ blastn k k2 → alignment ∈ record → expect ∈ alignment →
    (0 <= expect)%Q.

(** One state of the engine follows another by a merging pass. *)
Definition merges_to {key} (threshold : Q)
    (s s' : list (list key) * matrix) : Prop :=
  ∃ fuel, engine_pass fuel s.1 s.2 threshold = Done (Merged s'.1 s'.2).

(** *** The build by a single worker *)

Section SingleWorker.
Context {key : Type} (seq_keys : list key).

(** Cells mirror each other, except possibly the pair being written. *)
Definition mirrored (m : matrix) : Prop :=
  ∀ a b, cell m a b = cell m b a.

Definition mirrored_except (m : matrix) (i j : nat) : Prop :=
  ∀ a b, ¬ (a = i ∧ b = j) → ¬ (a = j ∧ b = i) → cell m a b = cell m b a.

(** The diagonal is 0 on the first [i] rows and still 99 below. *)
Definition diagonal_upto (i : nat) (m : matrix) : Prop :=
  ∀ r, r < length seq_keys →
       cell m r r = Some (if decide (r < i) then 0%Q else UNCOMPARED).

(** Rows of the diagonal done when the worker is at column [j] of row [i]. *)
Definition progress (i j : nat) : nat := if decide (j ≤ i) then i else S i.

Definition records_nonneg (records : list blast_record) : Prop :=
  ∀ record alignment expect,
    record ∈ records → alignment ∈ record → expect ∈ alignment →
    (0 <= expect)%Q.

(** What holds of the shared objects when the only worker is at [p]. *)
Definition single_inv (p : pc) (s : shared key) : Prop :=
  let n := length seq_keys in
  let m := dist_matrix s in
  square n m ∧ nonnegative m ∧
  match p with
  | AtKey i =>
      i ≤ n ∧ already_compared s = take i seq_keys ∧
      mirrored m ∧ diagonal_upto i m
  | InLock i | Claiming i =>
      i < n ∧ already_compared s = take i seq_keys ∧
      mirrored m ∧ diagonal_upto i m
  | Unlocking i b =>
      b = true ∧ i < n ∧ already_compared s = take (S i) seq_keys ∧
      mirrored m ∧ diagonal_upto i m
  | AtCell i j =>
      i < n ∧ j ≤ n ∧ already_compared s = take (S i) seq_keys ∧
      mirrored m ∧ diagonal_upto (progress i j) m
  | DiagFetch i j =>
      i < n ∧ j = i ∧ already_compared s = take (S i) seq_keys ∧
      mirrored m ∧ diagonal_upto i m
  | DiagStore i j row =>
      i < n ∧ j = i ∧ already_compared s = take (S i) seq_keys ∧
      mirrored m ∧ diagonal_upto i m ∧
      ∃ row', m !! i = Some row' ∧ row = <[i := 0%Q]> row'
  | Blasting i j =>
      i < n ∧ j < n ∧ i ≠ j ∧ already_compared s = take (S i) seq_keys ∧
      mirrored m ∧ diagonal_upto (progress i j) m
  | PairFetch1 i j v rest =>
      i < n ∧ j < n ∧ i ≠ j ∧ already_compared s = take (S i) seq_keys ∧
      mirrored m ∧ diagonal_upto (progress i j) m ∧
      (0 <= v)%Q ∧ records_nonneg rest
  | PairStore1 i j v row rest =>
      i < n ∧ j < n ∧ i ≠ j ∧ already_compared s = take (S i) seq_keys ∧
      mirrored m ∧ diagonal_upto (progress i j) m ∧
      (0 <= v)%Q ∧ records_nonneg rest ∧
      ∃ row', m !! i = Some row' ∧ row = <[j := v]> row'
  | PairFetch2 i j v rest =>
      i < n ∧ j < n ∧ i ≠ j ∧ already_compared s = take (S i) seq_keys ∧
      mirrored_except m i j ∧ cell m i j = Some v ∧
      diagonal_upto (progress i j) m ∧
      (0 <= v)%Q ∧ records_nonneg rest
  | PairStore2 i j v row rest =>
      i < n ∧ j < n ∧ i ≠ j ∧ already_compared s = take (S i) seq_keys ∧
      mirrored_except m i j ∧ cell m i j = Some v ∧
      diagonal_upto (progress i j) m ∧
      (0 <= v)%Q ∧ records_nonneg rest ∧
      ∃ row', m !! j = Some row' ∧ row = <[i := v]> row'
  | Finished => mirrored m ∧ diagonal_upto n m
  | Crashed => False
  end.

End SingleWorker.

(** ** The threshold graph of a distance matrix *)

(** Positions [i] and [j] are at a distance of at most the threshold. *)
Definition close (d : matrix) (threshold : Q) (i j : nat) : Prop :=
  ∃ x, cell d i j = Some x ∧ (x <= threshold)%Q.

(** How the clusters of positions [cl] and the current matrix [m] relate
    to the matrix [d] the engine started from: a cell of [m] is the least
    distance in [d] between members of the two clusters, and the members
    of one cluster are chained by close pairs. *)
Record linkage_inv (d : matrix) (threshold : Q)
    (cl : list (list nat)) (m : matrix) : Prop := {
  li_ok : matrix_ok (length cl) m;
  li_members : ∀ A i, A ∈ cl → i ∈ A → i < length d;
  li_nonempty : ∀ A, A ∈ cl → A ≠ [];
  li_lower : ∀ a b A B i j x y,
    a ≠ b → cl !! a = Some A → cl !! b = Some B → i ∈ A → j ∈ B →
    cell d i j = Some x → cell m a b = Some y → (y <= x)%Q;
  li_attained : ∀ a b A B y,
    a ≠ b → cl !! a = Some A → cl !! b = Some B → cell m a b = Some y →
    ∃ i j x, i ∈ A ∧ j ∈ B ∧ cell d i j = Some x ∧ (x == y)%Q;
  li_chain : ∀ A i j, A ∈ cl → i ∈ A → j ∈ A → rtc (close d threshold) i j
}.

Definition outcome_map {A B} (f : A → B) (r : outcome A) : outcome B :=
  match r with
  | Done a => Done (f a)
  | IndexError => IndexError
  | OutOfFuel => OutOfFuel
  end.

(** The clusters with every key replaced by its image. *)
Definition rename {A B} (f : A → B) (cl : list (list A)) : list (list B) :=
  fmap (M := list) f <$> cl.

(** ** What every schedule of the all-pairs builder preserves *)

Section PoolInvariant.
Context {key : Type} `{EqDecision key}.
Context (seq_length : key → Z).
Context (blastn : key → key → list blast_record).
Context (length_threshold : Q).
Context (seq_keys : list key).

(** A record of some comparison of two of the keys. *)
Definition reported_record (r : blast_record) : Prop :=
  ∃ k k2, k ∈ seq_keys ∧ k2 ∈ seq_keys ∧ r ∈ blastn k k2.

(** The values a cell can hold: the initial 99, the 0 of a key against
    itself, the 50 of a failed length test, the 10 of a record without
    alignment, or the e-value of the first HSP of the first alignment of
    a record of some comparison. *)
Definition cell_value (x : Q) : Prop :=
  x = UNCOMPARED ∨ x = 0%Q ∨ x = LENGTH_GATE_FAILED ∨ x = NO_HIT ∨
  ∃ hsps alignments, reported_record ((x :: hsps) :: alignments).

(** A comparison the worker may start: two different keys whose lengths
    pass the test of the worker. *)
Definition comparable (k k2 : key) : Prop :=
  k ∈ seq_keys ∧ k2 ∈ seq_keys ∧ k ≠ k2 ∧
  length_gate_failed length_threshold (seq_length k) (seq_length k2) = false.

Definition pc_ok (p : pc) : Prop :=
  let n := length seq_keys in
  match p with
  | AtKey _ => True
  | InLock i | Claiming i => i < n
  | Unlocking i compare_row => compare_row = true → i < n
  | AtCell i _ => i < n
  | DiagFetch i j => i < n ∧ j < n
  | DiagStore i j row => i < n ∧ length row = n ∧ Forall cell_value row
  | Blasting i j =>
      ∃ k k2, seq_keys !! i = Some k ∧ seq_keys !! j = Some k2 ∧
              comparable k k2
  | PairFetch1 i j v rest | PairFetch2 i j v rest =>
      i < n ∧ j < n ∧ cell_value v ∧ Forall reported_record rest
  | PairStore1 i j v row rest | PairStore2 i j v row rest =>
      i < n ∧ j < n ∧ cell_value v ∧ Forall reported_record rest ∧
      length row = n ∧ Forall cell_value row
  | Finished => True
  | Crashed => False
  end.

Definition shared_ok (s : shared key) : Prop :=
  square (length seq_keys) (dist_matrix s) ∧
  Forall (Forall cell_value) (dist_matrix s) ∧
  Forall (λ c, comparable c.1 c.2) (blast_calls s).

Definition pool_ok (c : list pc * shared key) : Prop :=
  Forall pc_ok c.1 ∧ shared_ok c.2.

(** How far a worker is: at or beyond column [j] of row [i]. *)
Definition passed (i j : nat) (p : pc) : Prop :=
  match p with
  | AtKey i' | InLock i' | Claiming i' | Unlocking i' _ => i < i'
  | AtCell i' j' | DiagFetch i' j' | DiagStore i' j' _ | Blasting i' j' =>
      i < i' ∨ (i = i' ∧ j < j')
  | PairFetch1 i' j' _ _ | PairStore1 i' j' _ _ _
  | PairFetch2 i' j' _ _ | PairStore2 i' j' _ _ _ =>
      i < i' ∨ (i = i' ∧ j ≤ j')
  | Finished | Crashed => True
  end.

(** Every comparison in the history was started by the worker that
    entered its row, and that worker has left its column behind. *)
Definition calls_inv (c : list pc * shared key) : Prop :=
  NoDup (blast_calls c.2) ∧
  ∀ i j k k2, seq_keys !! i = Some k → seq_keys !! j = Some k2 →
    (k, k2) ∈ blast_calls c.2 →
    ∃ w p, (w, i) ∈ rows_entered c.2 ∧ c.1 !! w = Some p ∧ passed i j p.

(** The comparison a transition from control point [p] starts. *)
Definition new_call (p : pc) : list (key * key) :=
  match p with
  | Blasting i j =>
      match seq_keys !! i, seq_keys !! j with
      | Some k, Some k2 => [(k, k2)]
      | _, _ => []
      end
  | _ => []
  end.

End PoolInvariant.

(** ** What the guided builder computes *)

Section GuidedSpec.
Context {key guide gid : Type} `{EqDecision gid}.
Context (guide_id : guide → gid).
Context (guide_length : guide → Z).
Context (seq_length : key → Z).
Context (blastn_guide : guide → key → list blast_record).
Context (length_threshold : Q).
Context (guide_sequences : list guide).
Context (all_seq_keys : list key).

(** What one comparison appends to the cluster of the guide: the key,
    once for every record whose first alignment has an HSP. *)
Fixpoint hits (key0 : key) (records : list blast_record) : list key :=
  match records with
  | [] => []
  | ((_ :: _) :: _) :: rest => key0 :: hits key0 rest
  | _ :: rest => hits key0 rest
  end.

Definition guide_hits (gd : guide) (key0 : key) : list key :=
  if length_gate_passed length_threshold (guide_length gd) (seq_length key0)
  then hits key0 (blastn_guide gd key0) else [].

Definition guide_cluster (gd : guide) (keys : list key) : list key :=
  concat (guide_hits gd <$> keys).

(** The clusters of the guides, each from one pass over the keys. *)
Definition guided_clusters : list (list key) :=
  (λ gd, guide_cluster gd all_seq_keys) <$> guide_sequences.

Definition g_in_lock (p : gpc key) : bool :=
  match p with
  | GInLock _ | GClaiming _ | GUnlocking _ _
  | GHitFetch _ _ _ | GHitStore _ _ _ _ | GHitUnlock _ _ _ => true
  | _ => false
  end.

(** The guide whose keys a worker is comparing. *)
Definition guide_of (p : gpc key) : option nat :=
  match p with
  | GUnlocking g true | GAtKey g _ | GBlasting g _ | GHit g _ _
  | GHitFetch g _ _ | GHitStore g _ _ _ | GHitUnlock g _ _ => Some g
  | _ => None
  end.

(** The number of guides a worker has left behind or taken. *)
Definition position (p : gpc key) : nat :=
  match p with
  | GAtGuide g | GInLock g | GClaiming g => g
  | GUnlocking g _ | GAtKey g _ | GBlasting g _ | GHit g _ _
  | GHitFetch g _ _ | GHitStore g _ _ _ | GHitUnlock g _ _ => S g
  | GFinished => length guide_sequences
  | GCrashed => 0
  end.

(** The cluster of guide [gd] as it must be when its worker is at [p]. *)
Definition cluster_at (p : gpc key) (gd : guide) (cl : list key) : Prop :=
  match p with
  | GUnlocking _ true => cl = []
  | GAtKey _ k => cl = guide_cluster gd (take k all_seq_keys)
  | GBlasting _ k =>
      cl = guide_cluster gd (take k all_seq_keys) ∧
      ∃ key0, all_seq_keys !! k = Some key0 ∧
        length_gate_passed length_threshold (guide_length gd) (seq_length key0)
        = true
  | GHit _ k rest | GHitFetch _ k rest =>
      ∃ key0, all_seq_keys !! k = Some key0 ∧
        cl ++ key0 :: hits key0 rest
        = guide_cluster gd (take (S k) all_seq_keys)
  | GHitStore _ k temp_cluster rest =>
      ∃ key0, all_seq_keys !! k = Some key0 ∧
        temp_cluster ++ hits key0 rest
        = guide_cluster gd (take (S k) all_seq_keys)
  | GHitUnlock _ k rest =>
      ∃ key0, all_seq_keys !! k = Some key0 ∧
        cl ++ hits key0 rest = guide_cluster gd (take (S k) all_seq_keys)
  | _ => True
  end.

(** What holds of a worker whatever the others do. *)
Definition gpc_fine (p : gpc key) (s : gshared key gid) : Prop :=
  p ≠ GCrashed ∧
  (∀ g, p = GInLock g ∨ p = GClaiming g ∨ guide_of p = Some g →
        g < length guide_sequences) ∧
  (∀ g gd, p = GClaiming g → guide_sequences !! g = Some gd →
           guide_id gd ∉ guides_compared s) ∧
  (∀ g gd, g < position p → guide_sequences !! g = Some gd →
           guide_id gd ∈ guides_compared s).

(** A guide is untouched, being compared by exactly one worker, or done. *)
Definition guide_state (c : list (gpc key) * gshared key gid)
    (g : nat) (gd : guide) : Prop :=
  (¬ (guide_id gd ∈ guides_compared c.2) ∧ clusters c.2 !! g = Some [] ∧
   ∀ w p, c.1 !! w = Some p → guide_of p ≠ Some g) ∨
  (guide_id gd ∈ guides_compared c.2 ∧
   ∃ w p cl, c.1 !! w = Some p ∧ guide_of p = Some g ∧
     clusters c.2 !! g = Some cl ∧ cluster_at p gd cl ∧
     ∀ w' p', c.1 !! w' = Some p' → guide_of p' = Some g → w' = w) ∨
  (guide_id gd ∈ guides_compared c.2 ∧
   clusters c.2 !! g = Some (guide_cluster gd all_seq_keys) ∧
   ∀ w p, c.1 !! w = Some p → guide_of p ≠ Some g).

Record guided_run_inv (c : list (gpc key) * gshared key gid) : Prop := {
  gr_holder : ∀ w, glock c.2 = Some w →
                ∃ p, c.1 !! w = Some p ∧ g_in_lock p = true;
  gr_locked : ∀ w p, c.1 !! w = Some p → g_in_lock p = true →
                glock c.2 = Some w;
  gr_fine : ∀ w p, c.1 !! w = Some p → gpc_fine p c.2;
  gr_length : length (clusters c.2) = length guide_sequences;
  gr_guides : ∀ g gd, guide_sequences !! g = Some gd → guide_state c g gd
}.

(** *** How many transitions a worker needs when it is not kept waiting *)

Definition gkey_cost (gd : guide) (key0 : key) : nat :=
  2 + 4 * length (blastn_guide gd key0).

Definition gkeys_rest (g k : nat) : nat :=
  match guide_sequences !! g with
  | Some gd => sum_list (gkey_cost gd <$> drop k all_seq_keys)
  | None => 0
  end + 1.

Definition gguide_cost (gd : guide) : nat :=
  4 + (sum_list (gkey_cost gd <$> all_seq_keys) + 1).

Definition gguides_rest (g : nat) : nat :=
  sum_list (gguide_cost <$> drop g guide_sequences) + 1.

Definition grecords_at (g k : nat) : nat :=
  match guide_sequences !! g, all_seq_keys !! k with
  | Some gd, Some key0 => length (blastn_guide gd key0)
  | _, _ => 0
  end.

Definition gsteps_left (p : gpc key) : nat :=
  match p with
  | GAtGuide g => gguides_rest g
  | GInLock g => 3 + gkeys_rest g 0 + gguides_rest (S g)
  | GClaiming g => 2 + gkeys_rest g 0 + gguides_rest (S g)
  | GUnlocking g _ => 1 + gkeys_rest g 0 + gguides_rest (S g)
  | GAtKey g k => gkeys_rest g k + gguides_rest (S g)
  | GBlasting g k =>
      1 + 4 * grecords_at g k + gkeys_rest g (S k) + gguides_rest (S g)
  | GHit g k rest =>
      4 + 4 * length rest + gkeys_rest g (S k) + gguides_rest (S g)
  | GHitFetch g k rest =>
      3 + 4 * length rest + gkeys_rest g (S k) + gguides_rest (S g)
  | GHitStore g k _ rest =>
      2 + 4 * length rest + gkeys_rest g (S k) + gguides_rest (S g)
  | GHitUnlock g k rest =>
      1 + 4 * length rest + gkeys_rest g (S k) + gguides_rest (S g)
  | GFinished | GCrashed => 0
  end.

(** Transitions after which a worker that is never kept waiting for the
    lock has finished. *)
Definition gstep_budget : nat := gguides_rest 0.

(** The workers other than [w] are outside the locked blocks. *)
Definition alone_at (w : nat) (ps : list (gpc key)) : Prop :=
  ∀ w' q, ps !! w' = Some q → w' ≠ w → g_in_lock q = false.

(** The schedule in which the workers run one after the other, each for
    [N] transitions. *)
Definition in_turn (N num_cores : nat) : list nat :=
  concat (replicate N <$> seq 0 num_cores).

End GuidedSpec.

(** ** What a single worker leaves in the matrix *)

Section SequentialSpec.
Context {key : Type} `{EqDecision key}.
Context (seq_length : key → Z).
Context (blastn : key → key → list blast_record).
Context (length_threshold : Q).
Context (seq_keys : list key).

(** The distance a record writes into the two cells of its pair: 10 if
    it has no alignment, the e-value of the first HSP of its first
    alignment if there is one, and nothing otherwise. *)
Definition record_value (r : blast_record) : option Q :=
  match r with
  | [] => Some NO_HIT
  | [] :: _ => None
  | (expect :: _) :: _ => Some expect
  end.

Definition writes (records : list blast_record) : list Q :=
  omap record_value records.

(** The value in the cells once the records [rest] have been gone
    through, [v] being the value written last. *)
Definition settle (v : Q) (rest : list blast_record) : Q :=
  from_option id v (last (writes rest)).

(** What comparing the key of a row with the key of a column leaves in
    the two cells of the pair, if it writes at all. *)
Definition direction (k k2 : key) : option Q :=
  if length_gate_failed length_threshold (seq_length k) (seq_length k2)
  then Some LENGTH_GATE_FAILED
  else last (writes (blastn k k2)).

Definition direction_at (a b : nat) : option Q :=
  k ← seq_keys !! a; k2 ← seq_keys !! b; direction k k2.

(** Column [b] of row [a] lies behind a worker at column [j] of row [i]. *)
Definition reached (i j a b : nat) : Prop := a < i ∨ (a = i ∧ b < j).

(** The cell (a, b) when the only worker is at column [j] of row [i]. *)
Definition content (i j a b : nat) : Q :=
  if decide (a = b) then
    if decide (reached i j a a) then 0%Q else UNCOMPARED
  else
    let lo := a `min` b in
    let hi := a `max` b in
    if decide (reached i j lo hi) then
      match direction_at lo hi with
      | Some v => v
      | None =>
          if decide (reached i j hi lo)
          then from_option id UNCOMPARED (direction_at hi lo)
          else UNCOMPARED
      end
    else UNCOMPARED.

(** The cell (a, b) of the matrix a single worker builds: 0 on the
    diagonal; off the diagonal what the comparison of the key that comes
    first in [seq_keys] with the other one leaves, else what the
    comparison in the other direction leaves, else the initial 99. *)
Definition pair_value (a b : nat) : Q :=
  if decide (a = b) then 0%Q
  else
    match direction_at (a `min` b) (a `max` b) with
    | Some v => v
    | None => from_option id UNCOMPARED (direction_at (a `max` b) (a `min` b))
    end.

Definition sequential_matrix : matrix :=
  (λ a, pair_value a <$> seq 0 (length seq_keys)) <$> seq 0 (length seq_keys).

Definition agrees (m : matrix) (i j : nat) : Prop :=
  ∀ a b, a < length seq_keys → b < length seq_keys →
         cell m a b = Some (content i j a b).

(** The matrix while the pair (i, j) is being written. *)
Definition pair_pending (m : matrix) (i j : nat) (v : Q)
    (rest : list blast_record) : Prop :=
  (∀ a b, a < length seq_keys → b < length seq_keys →
          ¬ (a = i ∧ b = j) → ¬ (a = j ∧ b = i) →
          cell m a b = Some (content i (S j) a b)) ∧
  settle v rest = content i (S j) i j.

Definition values_inv (p : pc) (s : shared key) : Prop :=
  let n := length seq_keys in
  let m := dist_matrix s in
  square n m ∧
  match p with
  | AtKey i =>
      i ≤ n ∧ already_compared s = take i seq_keys ∧ agrees m i 0
  | InLock i | Claiming i =>
      i < n ∧ already_compared s = take i seq_keys ∧ agrees m i 0
  | Unlocking i b =>
      b = true ∧ i < n ∧ already_compared s = take (S i) seq_keys ∧
      agrees m i 0
  | AtCell i j =>
      i < n ∧ j ≤ n ∧ already_compared s = take (S i) seq_keys ∧
      agrees m i j
  | DiagFetch i j =>
      i < n ∧ j = i ∧ already_compared s = take (S i) seq_keys ∧
      agrees m i i
  | DiagStore i j row =>
      i < n ∧ j = i ∧ already_compared s = take (S i) seq_keys ∧
      agrees m i i ∧
      ∃ row', m !! i = Some row' ∧ row = <[i := 0%Q]> row'
  | Blasting i j =>
      i < n ∧ j < n ∧ i ≠ j ∧ already_compared s = take (S i) seq_keys ∧
      agrees m i j ∧ Qeqb (content i j i j) 99 = true ∧
      ∃ k k2, seq_keys !! i = Some k ∧ seq_keys !! j = Some k2 ∧
        length_gate_failed length_threshold (seq_length k) (seq_length k2)
        = false
  | PairFetch1 i j v rest =>
      i < n ∧ j < n ∧ i ≠ j ∧ already_compared s = take (S i) seq_keys ∧
      pair_pending m i j v rest
  | PairStore1 i j v row rest =>
      i < n ∧ j < n ∧ i ≠ j ∧ already_compared s = take (S i) seq_keys ∧
      pair_pending m i j v rest ∧
      ∃ row', m !! i = Some row' ∧ row = <[j := v]> row'
  | PairFetch2 i j v rest =>
      i < n ∧ j < n ∧ i ≠ j ∧ already_compared s = take (S i) seq_keys ∧
      pair_pending m i j v rest ∧ cell m i j = Some v
  | PairStore2 i j v row rest =>
      i < n ∧ j < n ∧ i ≠ j ∧ already_compared s = take (S i) seq_keys ∧
      pair_pending m i j v rest ∧ cell m i j = Some v ∧
      ∃ row', m !! j = Some row' ∧ row = <[i := v]> row'
  | Finished => agrees m n 0
  | Crashed => False
  end.

(** The comparator never reports an e-value equal to the initial 99. *)
Definition below_sentinel : Prop :=
  ∀ k k2 expect hsps alignments,
    ((expect :: hsps) :: alignments) ∈ blastn k k2 → Qeqb expect 99 = false.

(** *** How many transitions a single worker needs *)

(** At most this many transitions lead from column [j] of row [i] to the
    next column. *)
Definition cell_cost (i j : nat) : nat :=
  match seq_keys !! i, seq_keys !! j with
  | Some k, Some k2 => 5 + 4 * length (blastn k k2)
  | _, _ => 5
  end.

Definition row_rest (i j : nat) : nat :=
  sum_list (cell_cost i <$> seq j (length seq_keys - j)) + 1.

Definition rows_rest (i : nat) : nat :=
  sum_list ((λ i', 4 + row_rest i' 0) <$> seq i (length seq_keys - i)) + 1.

Definition records_at (i j : nat) : nat :=
  match seq_keys !! i, seq_keys !! j with
  | Some k, Some k2 => length (blastn k k2)
  | _, _ => 0
  end.

Definition steps_left (p : pc) : nat :=
  match p with
  | AtKey i => rows_rest i
  | InLock i => 3 + row_rest i 0 + rows_rest (S i)
  | Claiming i => 2 + row_rest i 0 + rows_rest (S i)
  | Unlocking i _ => 1 + row_rest i 0 + rows_rest (S i)
  | AtCell i j => row_rest i j + rows_rest (S i)
  | DiagFetch i j => 2 + row_rest i (S j) + rows_rest (S i)
  | DiagStore i j _ => 1 + row_rest i (S j) + rows_rest (S i)
  | Blasting i j =>
      1 + 4 * records_at i j + row_rest i (S j) + rows_rest (S i)
  | PairFetch1 i j _ rest =>
      4 + 4 * length rest + row_rest i (S j) + rows_rest (S i)
  | PairStore1 i j _ _ rest =>
      3 + 4 * length rest + row_rest i (S j) + rows_rest (S i)
  | PairFetch2 i j _ rest =>
      2 + 4 * length rest + row_rest i (S j) + rows_rest (S i)
  | PairStore2 i j _ _ rest =>
      1 + 4 * length rest + row_rest i (S j) + rows_rest (S i)
  | Finished | Crashed => 0
  end.

(** Transitions after which a single worker has finished. *)
Definition step_budget : nat := rows_rest 0.

(** The lock when the only worker, worker 0, is at [p]. *)
Definition lock_at (p : pc) : option nat :=
  match p with
  | InLock _ | Claiming _ | Unlocking _ _ => Some 0
  | _ => None
  end.

End SequentialSpec.

(** ** Ingroup and outgroup: [get_in_out_groups] *)

(** [gb] is a dictionary of records; of a record the function reads the
    list [annotations['taxonomy']].  The dictionary is given by its keys,
    in the order in which [gb.keys()] lists them, and by the taxonomy of
    each key.  Progress output is left out. *)
Section Groups.
Context {key taxon : Type} `{EqDecision taxon}.
Context (taxonomy : key → list taxon).

(** [for key in keys:] with the two lists built by [append]. *)
Fixpoint group_loop (keys : list key) (ingroup outgroup : taxon)
    (ingroup_keys outgroup_keys : list key) : list key * list key :=
  match keys with
  | [] => (ingroup_keys, outgroup_keys)
  | key :: rest =>
      if decide (ingroup ∈ taxonomy key)
      then group_loop rest ingroup outgroup (ingroup_keys ++ [key]) outgroup_keys
      else if decide (outgroup ∈ taxonomy key)
      then group_loop rest ingroup outgroup ingroup_keys (outgroup_keys ++ [key])
      else group_loop rest ingroup outgroup ingroup_keys outgroup_keys
  end.

Definition get_in_out_groups (keys : list key) (ingroup outgroup : taxon)
  : list key * list key :=
  group_loop keys ingroup outgroup [] [].

(** [all_seq_keys = ingroup_keys + outgroup_keys] of [main]. *)
Definition all_seq_keys (keys : list key) (ingroup outgroup : taxon)
  : list key :=
  let r := get_in_out_groups keys ingroup outgroup in r.1 ++ r.2.

End Groups.

(** ** From clusters to the supermatrix *)

(** The remaining functions raise other exceptions than [IndexError]. *)
Inductive error : Type :=
| IndexErr            (* IndexError: list index out of range *)
| ValueErr            (* ValueError: [list.index], [str.index] *)
| KeyErr              (* KeyError: dictionary lookup *)
| UnboundLocalErr     (* a local variable read before assignment *)
| StepsExhausted.     (* the step budget of a [while] loop ran out *)

Inductive result (A : Type) : Type :=
| Ok (a : A)
| Raise (e : error).
Arguments Ok {A} a.
Arguments Raise {A} e.

Definition rbind {A B} (m : result A) (k : A → result B) : result B :=
  match m with
  | Ok a => k a
  | Raise e => Raise e
  end.

Notation "x ←? m ; k" := (rbind m (λ x, k))
  (at level 100, m at next level, k at level 200, right associativity,
   format "x  ←?  m ;  '/' k").

(** [l[i]] *)
Definition item {A} (l : list A) (i : nat) : result A :=
  match l !! i with
  | Some a => Ok a
  | None => Raise IndexErr
  end.

(** [l.index(x)]: the first position of an element equal to [x]. *)
Fixpoint list_index {A} `{EqDecision A} (x : A) (l : list A) : result nat :=
  match l with
  | [] => Raise ValueErr
  | y :: l' =>
      if decide (y = x) then Ok 0 else i ←? list_index x l'; Ok (S i)
  end.

(** [s.split(" ")]: the fields between single blanks; there is always at
    least one field, and two blanks in a row enclose an empty field. *)
Fixpoint str_split (s : string) : list string :=
  match s with
  | EmptyString => [EmptyString]
  | String c rest =>
      if decide (c = " "%char) then EmptyString :: str_split rest
      else match str_split rest with
           | field :: fields => String c field :: fields
           | [] => [String c EmptyString]
           end
  end.

(** [descriptors = description.split(" ")]
    [otu = descriptors[first] + " " + descriptors[first + 1]] *)
Definition otu_of (first : nat) (description : string) : result string :=
  let descriptors := str_split description in
  genus ←? item descriptors first;
  species ←? item descriptors (S first);
  Ok (genus +:+ " " +:+ species).

(** A sequence is a list of letters; a record has a description line and
    a sequence ([SeqRecord.description], [SeqRecord.seq]). *)
Module SeqRecord.
Record t : Type := Make { description : string; seq : list ascii }.
End SeqRecord.

(** *** [assemble_fasta_clusters] *)

(** [gb[seq_key]] for the keys of the clusters, all of which are keys of
    [gb].  The FASTA files written are kept as a log of (file name, records
    written), one entry for each [open(file_name, "wb")]. *)
Section Assemble.
Context {key : Type} `{EqDecision key}.
Context (gb : key → SeqRecord.t).

(** "get all OTUs in cluster" *)
Fixpoint collect_otus (cluster : list key) (otus : list string)
  : result (list string) :=
  match cluster with
  | [] => Ok otus
  | seq_key :: rest =>
      otu ←? otu_of 0 (SeqRecord.description (gb seq_key));
      collect_otus rest (if decide (otu ∈ otus) then otus else otus ++ [otu])
  end.

(** "do not allow duplicate OTUs in cluster" *)
Fixpoint collect_sequences (cluster : list key)
    (sequences : list SeqRecord.t) (otus_in_cluster : list string)
  : result (list SeqRecord.t) :=
  match cluster with
  | [] => Ok sequences
  | seq_key :: rest =>
      otu ←? otu_of 0 (SeqRecord.description (gb seq_key));
      if decide (otu ∈ otus_in_cluster)
      then collect_sequences rest sequences otus_in_cluster
      else collect_sequences rest (sequences ++ [gb seq_key])
                             (otus_in_cluster ++ [otu])
  end.

Record assembly : Type := Assembly {
  written : list (string * list SeqRecord.t);
  cluster_files : list string;
  to_delete : list (list key)
}.

(** [for cluster in clusters:] with the counter [i]. *)
Fixpoint assemble_loop (clusters : list (list key)) (i : nat) (a : assembly)
  : result assembly :=
  match clusters with
  | [] => Ok a
  | cluster :: rest =>
      otus ←? collect_otus cluster [];
      if decide (3 < length otus) then
        sequences ←? collect_sequences cluster [] [];
        let file_name := "clusters/" +:+ pretty i +:+ ".fasta" in
        assemble_loop rest (S i)
          {| written := written a ++ [(file_name, sequences)];
             cluster_files := cluster_files a ++ [file_name];
             to_delete := to_delete a |}
      else
        assemble_loop rest i
          {| written := written a;
             cluster_files := cluster_files a;
             to_delete := to_delete a ++ [cluster] |}
  end.

(** [for cluster in to_delete: del clusters[clusters.index(cluster)]] *)
Fixpoint delete_clusters (to_delete clusters : list (list key))
  : result (list (list key)) :=
  match to_delete with
  | [] => Ok clusters
  | cluster :: rest =>
      i ←? list_index cluster clusters;
      delete_clusters rest (delete i clusters)
  end.

(** The files written, [cluster_files] and the updated [clusters]. *)
Definition assemble_fasta_clusters (clusters : list (list key))
  : result (list (string * list SeqRecord.t) * list string * list (list key)) :=
  a ←? assemble_loop clusters 0
         {| written := []; cluster_files := []; to_delete := [] |};
  clusters' ←? delete_clusters (to_delete a) clusters;
  Ok (written a, cluster_files a, clusters').

End Assemble.

(** *** [align_cluster], [align_clusters] *)

(** [s.index(c)] for a one-letter [c], and [s[i:]]. *)
Fixpoint str_index (c : ascii) (s : string) : result nat :=
  match s with
  | EmptyString => Raise ValueErr
  | String a rest =>
      if decide (a = c) then Ok 0 else i ←? str_index c rest; Ok (S i)
  end.

Fixpoint str_from (i : nat) (s : string) : string :=
  match i, s with
  | S i', String _ rest => str_from i' rest
  | _, _ => s
  end.

(** The name of the alignment file; MUSCLE, which reads the cluster file
    and writes that file, is outside the program. *)
Definition align_cluster (cluster_file : string) : result string :=
  i ←? str_index "/"%char cluster_file;
  Ok ("alignments" +:+ str_from i cluster_file).

(** [pool.map(align_cluster, cluster_files)]: the results in the order of
    the arguments, or the exception of a failed call. *)
Fixpoint align_clusters (cluster_files : list string) : result (list string) :=
  match cluster_files with
  | [] => Ok []
  | cluster_file :: rest =>
      alignment_file ←? align_cluster cluster_file;
      alignment_files ←? align_clusters rest;
      Ok (alignment_file :: alignment_files)
  end.

(** *** [make_gaps], [concatenate] *)

(** [for i in range(length): gap = "-" + gap] *)
Fixpoint gaps_loop (length : nat) (gap : list ascii) : list ascii :=
  match length with
  | 0 => gap
  | S length' => gaps_loop length' ("-"%char :: gap)
  end.

Definition make_gaps (length : nat) : list ascii := gaps_loop length [].

(** The dictionary [otus], from OTU name to the sequence built so far. *)
Abbreviation otu_table := (gmap string (list ascii)).

(** "first build up a dictionary of all OTUs"; an alignment file is given
    by the records [SeqIO.parse] yields for it. *)
Fixpoint register_records (records : list SeqRecord.t) (otus : otu_table)
  : result otu_table :=
  match records with
  | [] => Ok otus
  | record :: rest =>
      otu ←? otu_of 1 (SeqRecord.description record);
      register_records rest
        (if decide (is_Some (otus !! otu)) then otus else <[otu := []]> otus)
  end.

Fixpoint register_alignments (alignment_files : list (list SeqRecord.t))
    (otus : otu_table) : result otu_table :=
  match alignment_files with
  | [] => Ok otus
  | records :: rest =>
      otus' ←? register_records records otus;
      register_alignments rest otus'
  end.

(** [for record in records:] of the second loop; [loci_length] is [None]
    as long as it has not been assigned. *)
Fixpoint add_records (records : list SeqRecord.t) (otus : otu_table)
    (already_added : list string) (loci_length : option nat)
  : result (otu_table * option nat) :=
  match records with
  | [] => Ok (otus, loci_length)
  | record :: rest =>
      otu ←? otu_of 1 (SeqRecord.description record);
      if decide (otu ∈ already_added) then
        add_records rest otus already_added
                    (Some (length (SeqRecord.seq record)))
      else
        match otus !! otu with
        | None => Raise KeyErr
        | Some sequence =>
            add_records rest (<[otu := sequence ++ SeqRecord.seq record]> otus)
                        (already_added ++ [otu])
                        (Some (length (SeqRecord.seq record)))
        end
  end.

(** "add gaps for any OTU that didn't have a sequence" *)
Definition add_gaps (otus : otu_table) (total_length loci_length : nat)
  : otu_table :=
  (λ sequence,
     if decide (length sequence < total_length)
     then sequence ++ make_gaps loci_length else sequence) <$> otus.

Fixpoint add_alignments (alignment_files : list (list SeqRecord.t))
    (otus : otu_table) (total_length : nat) (loci_length : option nat)
  : result otu_table :=
  match alignment_files with
  | [] => Ok otus
  | records :: rest =>
      r ←? add_records records otus [] loci_length;
      match r.2 with
      | None => Raise UnboundLocalErr
      | Some loci =>
          add_alignments rest (add_gaps r.1 (total_length + loci) loci)
                         (total_length + loci) (Some loci)
      end
  end.

(** The dictionary at the comment "write to FASTA file". *)
Definition concatenate_otus (alignment_files : list (list SeqRecord.t))
  : result otu_table :=
  otus ←? register_alignments alignment_files ∅;
  add_alignments alignment_files otus 0 None.

(** [while i < len(sequence): f.write(sequence[i:i+80] + "\n"); i += 80]:
    the lines written, without their line ends. *)
Fixpoint write_lines (fuel : nat) (sequence : list ascii) (i : nat)
  : result (list (list ascii)) :=
  match fuel with
  | 0 => Raise StepsExhausted
  | S fuel' =>
      if decide (i < length sequence) then
        lines ←? write_lines fuel' sequence (i + 80);
        Ok (take 80 (drop i sequence) :: lines)
      else Ok []
  end.

(** The lines of [alignments/final.fasta] for one OTU: the header
    ["> " + otu] and the sequence lines. *)
Definition write_otu (fuel : nat) (otu : string) (sequence : list ascii)
  : result (list string) :=
  lines ←? write_lines fuel sequence 0;
  Ok (("> " +:+ otu) :: (String.string_of_list_ascii <$> lines)).

(** [for otu in otus:] walks the dictionary in an order that Python does
    not specify; the model takes the order of [map_to_list]. *)
Fixpoint write_otus (fuel : nat) (entries : list (string * list ascii))
  : result (list string) :=
  match entries with
  | [] => Ok []
  | (otu, sequence) :: rest =>
      lines ←? write_otu fuel otu sequence;
      more ←? write_otus fuel rest;
      Ok (lines ++ more)
  end.

Definition concatenate (fuel : nat) (alignment_files : list (list SeqRecord.t))
  : result (list string) :=
  otus ←? concatenate_otus alignment_files;
  write_otus fuel (map_to_list otus).

(** ** Notions for the statements about the pipeline *)

(** The OTU name read from a description that has the two fields. *)
Definition otu_name (first : nat) (description : string) : string :=
  match otu_of first description with
  | Ok otu => otu
  | Raise _ => EmptyString
  end.

(** The OTU names of a list of records or keys, each name once. *)
Definition distinct_otus {A} (name : A → string) (l : list A) : list string :=
  remove_dups (name <$> l).

Definition cluster_file_name (i : nat) : string :=
  "clusters/" +:+ pretty i +:+ ".fasta".

Definition alignment_file_name (i : nat) : string :=
  "alignments/" +:+ pretty i +:+ ".fasta".

(** The letters an alignment contributes to the row of an OTU: the
    sequence of the first record of that OTU, or as many gaps as the last
    record of the alignment has letters. *)
Definition first_of (otu : string) (records : list SeqRecord.t)
  : option SeqRecord.t :=
  head (filter (λ r, otu_name 1 (SeqRecord.description r) = otu) records).

(** The sequence of the first record of an OTU, empty without one. *)
Definition first_seq (otu : string) (records : list SeqRecord.t) : list ascii :=
  from_option SeqRecord.seq [] (first_of otu records).

Definition locus_length (records : list SeqRecord.t) : nat :=
  from_option (λ r, length (SeqRecord.seq r)) 0 (last records).

Definition locus_of (otu : string) (records : list SeqRecord.t) : list ascii :=
  match first_of otu records with
  | Some r => SeqRecord.seq r
  | None => replicate (locus_length records) "-"%char
  end.

Definition supermatrix_row (otu : string)
    (alignment_files : list (list SeqRecord.t)) : list ascii :=
  concat (locus_of otu <$> alignment_files).

(** The records of an alignment file have sequences of one length. *)
Definition aligned (records : list SeqRecord.t) : Prop :=
  ∀ r r', r ∈ records → r' ∈ records →
    length (SeqRecord.seq r) = length (SeqRecord.seq r').

(** Every description has the fields the OTU name is read from. *)
Definition described (first : nat) (records : list SeqRecord.t) : Prop :=
  ∀ r, r ∈ records → ∃ otu, otu_of first (SeqRecord.description r) = Ok otu.

(** What [assemble_fasta_clusters] writes for a cluster [c] it keeps: the
    records of the keys of [c] that are the first of their OTU, in the
    order of the cluster, and at least four of them. *)
Definition file_of {key} (gb : key → SeqRecord.t) (c : list key)
    (f : string * list SeqRecord.t) : Prop :=
  let name k := otu_name 0 (SeqRecord.description (gb k)) in
  ∃ kept, f.2 = gb <$> kept ∧
    sublist kept c ∧
    NoDup (name <$> kept) ∧
    (∀ k, k ∈ c → name k ∈ name <$> kept) ∧
    (∀ l1 k l2, c = l1 ++ k :: l2 → name k ∉ name <$> l1 → k ∈ kept) ∧
    3 < length kept.

(** The number of blanks of a string. *)
Definition blanks (s : string) : nat :=
  length (filter (λ c, c = " "%char) (String.list_ascii_of_string s)).

(** A sequence cut into [n] lines of 80 letters: line [k] is
    [sequence[80*k : 80*k + 80]]. *)
Definition wrap (n : nat) (sequence : list ascii) : list (list ascii) :=
  (λ k, take 80 (drop (80 * k) sequence)) <$> seq 0 n.

(** The lines of one OTU in final.fasta: its header and its row in [n]
    lines. *)
Definition fasta_block (n : nat) (entry : string * list ascii) : list string :=
  ("> " +:+ entry.1) :: (String.string_of_list_ascii <$> wrap n entry.2).

(** ** A small run of the pipeline *)

(** Seven records; 0 and 4 are of the same OTU, 6 has a one-word
    description. *)
Definition sample_gb (k : nat) : SeqRecord.t :=
  match k with
  | 0 => SeqRecord.Make "Lythrum salicaria rbcL gene" (String.list_ascii_of_string "ACGT")
  | 1 => SeqRecord.Make "Lythrum alatum rbcL gene" (String.list_ascii_of_string "ACGA")
  | 2 => SeqRecord.Make "Cuphea hyssopifolia rbcL gene" (String.list_ascii_of_string "ACG")
  | 3 => SeqRecord.Make "Punica granatum rbcL gene" (String.list_ascii_of_string "ACGTT")
  | 4 => SeqRecord.Make "Lythrum salicaria voucher 12 rbcL gene" (String.list_ascii_of_string "ACGC")
  | 5 => SeqRecord.Make "Trapa natans rbcL gene" (String.list_ascii_of_string "AC")
  | _ => SeqRecord.Make "unverified" (String.list_ascii_of_string "A")
  end.

Definition sample_clusters : list (list nat) :=
  [[0; 1; 4]; [0; 1; 2; 4; 3]; [5]; [0; 1; 4]].

(** Two aligned files as [SeqIO.parse] returns them: the description of a
    FASTA record starts with its identifier. *)
Definition sample_alignments : list (list SeqRecord.t) :=
  [ [ SeqRecord.Make "AF1.1 Lythrum salicaria rbcL" (String.list_ascii_of_string "ACGT");
      SeqRecord.Make "AF2.1 Lythrum alatum rbcL" (String.list_ascii_of_string "AC-T");
      SeqRecord.Make "AF3.1 Lythrum salicaria rbcL" (String.list_ascii_of_string "TTTT") ];
    [ SeqRecord.Make "AF4.1 Trapa natans matK" (String.list_ascii_of_string "GG");
      SeqRecord.Make "AF5.1 Lythrum alatum matK" (String.list_ascii_of_string "G-") ] ].

(** * Part III: properties *)

(** ** Comparisons *)

Lemma Qltb_lt a b : Qltb a b = true ↔ (a < b)%Q.
Proof. unfold Qltb. rewrite Qlt_alt. destruct (a ?= b)%Q; split; congruence. Qed.

Lemma Qgtb_gt a b : Qgtb a b = true ↔ (b < a)%Q.
Proof. unfold Qgtb. rewrite Qgt_alt. destruct (a ?= b)%Q; split; congruence. Qed.

Lemma Qeqb_eq a b : Qeqb a b = true ↔ (a == b)%Q.
Proof. unfold Qeqb. rewrite Qeq_alt. destruct (a ?= b)%Q; split; congruence. Qed.

Lemma Qltb_ge a b : Qltb a b = false ↔ (b <= a)%Q.
Proof.
  rewrite <- not_true_iff_false, Qltb_lt. split; [apply Qnot_lt_le | apply Qle_not_lt].
Qed.

Lemma Qgtb_le a b : Qgtb a b = false ↔ (a <= b)%Q.
Proof.
  rewrite <- not_true_iff_false, Qgtb_gt. split; [apply Qnot_lt_le | apply Qle_not_lt].
Qed.

Lemma Qeqb_neq a b : Qeqb a b = false ↔ ¬ (a == b)%Q.
Proof. rewrite <- not_true_iff_false, Qeqb_eq. tauto. Qed.

Lemma Qmin_gtb a b : Qmin a b = if Qgtb a b then b else a.
Proof. unfold Qmin, GenericMinMax.gmin, Qgtb. destruct (a ?= b)%Q; reflexivity. Qed.

(** ** List and cell bookkeeping *)

Lemma getitem_Done {A} (l : list A) i a : getitem l i = Done a ↔ l !! i = Some a.
Proof. unfold getitem. destruct (l !! i); split; congruence. Qed.

Lemma getitem_lookup {A} (l : list A) i a : l !! i = Some a → getitem l i = Done a.
Proof. apply getitem_Done. Qed.

Lemma getcell_cell m a b d : cell m a b = Some d → getcell m a b = Done d.
Proof.
  unfold cell, getcell, getitem. destruct (m !! a) as [row|]; simpl; [|done].
  intros ->. done.
Qed.

Lemma square_row n m a row : square n m → m !! a = Some row → length row = n.
Proof. intros [_ H] Ha. apply H. eapply list_elem_of_lookup_2, Ha. Qed.

Lemma square_cell n m a b :
  square n m → a < n → b < n → is_Some (cell m a b).
Proof.
  intros Hsq Ha Hb. unfold cell.
  destruct (lookup_lt_is_Some_2 m a) as [row Hrow]; [by rewrite (proj1 Hsq)|].
  rewrite Hrow. simpl. apply lookup_lt_is_Some_2.
  by rewrite (square_row _ _ _ _ Hsq Hrow).
Qed.

Lemma cell_lt n m a b d : square n m → cell m a b = Some d → a < n ∧ b < n.
Proof.
  intros Hsq. unfold cell. destruct (m !! a) as [row|] eqn:Hrow; simpl; [|done].
  intros Hb. apply lookup_lt_Some in Hb.
  rewrite (square_row _ _ _ _ Hsq Hrow) in Hb.
  apply lookup_lt_Some in Hrow. rewrite (proj1 Hsq) in Hrow. done.
Qed.
(** ** The length tests round as the machine does *)

(** [float("0.3")] is 0x1.3333333333333p-2, [1 + 0.3] is
    0x1.4cccccccccccdp+0 and [1 - 0.3] is 0x1.6666666666666p-1. *)
Lemma float_rounds_to_nearest :
  float (3 # 10) = SpecFloat.S754_finite false 5404319552844595 (-54) ∧
  float_add (float_of_int 1) (float (3 # 10))
  = SpecFloat.S754_finite false 5854679515581645 (-52) ∧
  float_sub (float_of_int 1) (float (3 # 10))
  = SpecFloat.S754_finite false 6305039478318694 (-53).
Proof. by vm_compute. Qed.

(** [90 * (1 - 0.3)] and [45 * (1 + 0.4)] are 62.99999999999999, so a
    length of 63 lies above them, although both products are 63 on the
    reals; [10 * (1 + 0.3)] is 13.0, so a length of 13 does not lie
    above it, although the float 0.3 is below 3/10. *)
Lemma length_tests_round :
  length_gate_passed (3 # 10) 63 90 = true ∧
  length_gate_failed (2 # 5) 63 45 = true ∧
  length_gate_failed (3 # 10) 13 10 = false.
Proof. by vm_compute. Qed.

(** The builders on these lengths: the all-pairs builder writes 50.0
    for the pair of lengths 63 and 45 without a comparison, and the
    guided builder puts the key of length 90 into the cluster of the
    guide of length 63. *)
Lemma rounding_decides_the_builders :
  make_distance_matrix rounding_lengths one_hit (2 # 5) [0; 1] 1 alone
  = Joined 1 [[0; 50]; [50; 0]]%Q ∧
  make_guided_clusters (key := nat) fst snd rounding_guide_lengths guide_hit
    (Some [(7, 63%Z)]) [0] (3 # 10) 1 (replicate 30 0)
  = Joined 1 [[0]].
Proof. split; by vm_compute. Qed.

(** ** The scan of [merge_closest_clusters] *)

Lemma scan_cols_list m x y todo st :
  x < y →
  scan_cols m x y todo st = scan_list m (pair x <$> seq y todo) st.
Proof.
  revert y st. induction todo as [|todo IH]; intros y st Hxy; [done|].
  simpl. destruct (decide (x ≠ y)) as [_|Hn]; [|lia].
  destruct (getcell m x y) as [d| |]; simpl; [|done..].
  unfold scan_visit.
  destruct (Qltb d (min_distance st)); simpl;
    (destruct (Qeqb _ 0); [done|]; apply IH; lia).
Qed.

Lemma scan_list_app m l1 l2 st :
  Qeqb (min_distance st) 0 = false →
  scan_list m (l1 ++ l2) st =
  (st1 ←' scan_list m l1 st;
   if Qeqb (min_distance st1) 0 then Done st1 else scan_list m l2 st1).
Proof.
  revert st. induction l1 as [|[x y] l1 IH]; intros st Hst; simpl.
  - by rewrite Hst.
  - destruct (getcell m x y) as [d| |]; simpl; [|done..].
    destruct (Qeqb (min_distance (scan_visit st x y d)) 0) eqn:Hz; simpl.
    + by rewrite Hz.
    + by apply IH.
Qed.

Lemma scan_rows_list m x todo st :
  Qeqb (min_distance st) 0 = false →
  scan_rows m x todo st = scan_list m (rows_from (length m) x todo) st.
Proof.
  revert x st. induction todo as [|todo IH]; intros x st Hst; [done|].
  unfold rows_from. simpl. fold (rows_from (length m) (S x) todo).
  rewrite scan_list_app by done. unfold row_pairs.
  rewrite scan_cols_list by lia.
  destruct (scan_list m _ st) as [st1| |]; simpl; [|done..].
  destruct (Qeqb (min_distance st1) 0) eqn:Hz; [done|]. by apply IH.
Qed.

Lemma scan_all_pairs m : scan m = scan_list m (all_pairs (length m)) scan_init.
Proof. apply scan_rows_list. done. Qed.

Lemma scan_inv_init m : scan_inv m scan_init.
Proof.
  split; simpl.
  - apply Qle_refl.
  - intros p d Hp. by apply elem_of_nil in Hp.
  - intros H. by apply Qlt_irrefl in H.
  - done.
Qed.

Lemma scan_visit_inv m st x y d :
  scan_inv m st → cell m x y = Some d →
  scan_inv m (scan_visit st x y d).
Proof.
  intros [Hle Hlow Hfound Hnone] Hd. unfold scan_visit.
  destruct (Qltb d (min_distance st)) eqn:Hlt.
  - apply Qltb_lt in Hlt. split; simpl.
    + lra.
    + intros p d' [Hp|Hp]%elem_of_app Hc.
      * specialize (Hlow p d' Hp Hc). lra.
      * apply list_elem_of_singleton in Hp as ->. simpl in Hc.
        rewrite Hd in Hc. injection Hc as <-. lra.
    + intros _. exists (examined st), []. split; [done|]. split; [done|].
      intros p d' Hp Hc. specialize (Hlow p d' Hp Hc). lra.
    + intros H. exfalso. apply H. lra.
  - apply Qltb_ge in Hlt. split; simpl.
    + done.
    + intros p d' [Hp|Hp]%elem_of_app Hc.
      * by apply (Hlow p d').
      * apply list_elem_of_singleton in Hp as ->. simpl in Hc.
        rewrite Hd in Hc. by injection Hc as <-.
    + intros H. destruct (Hfound H) as (l1 & l2 & He & Hc & Hbefore).
      exists l1, (l2 ++ [(x, y)]). rewrite He, <- app_assoc. done.
    + done.
Qed.

Lemma scan_visit_zero st x y d :
  (0 < min_distance st)%Q → (0 <= d)%Q →
  (Qeqb (min_distance (scan_visit st x y d)) 0 = true ↔ (d == 0)%Q) ∧
  (¬ (d == 0)%Q → (0 < min_distance (scan_visit st x y d))%Q).
Proof.
  intros Hpos Hd. unfold scan_visit.
  destruct (Qltb d (min_distance st)) eqn:Hlt; simpl.
  - rewrite Qeqb_eq. split; [done|]. intros. lra.
  - apply Qltb_ge in Hlt. rewrite Qeqb_eq. split; [|done].
    split; intros; lra.
Qed.

Lemma scan_visit_examined st x y d :
  examined (scan_visit st x y d) = examined st ++ [(x, y)].
Proof. unfold scan_visit. by destruct (Qltb _ _). Qed.

Lemma scan_list_spec m ps st :
  (∀ p, p ∈ ps → ∃ d, cell m p.1 p.2 = Some d ∧ (0 <= d)%Q) →
  scan_inv m st → (0 < min_distance st)%Q → nozero m (examined st) →
  ∃ st' seen rest,
    scan_list m ps st = Done st' ∧ ps = seen ++ rest ∧
    examined st' = examined st ++ seen ∧ scan_inv m st' ∧
    ((rest = [] ∧ nozero m (examined st') ∧ (0 < min_distance st')%Q) ∨
     (∃ l p d, examined st' = l ++ [p] ∧ nozero m l ∧
               cell m p.1 p.2 = Some d ∧ (d == 0)%Q ∧
               (min_distance st' == 0)%Q)).
Proof.
  revert st. induction ps as [|[x y] ps IH]; intros st Hps Hinv Hpos Hnz.
  - exists st, [], [].
    split; [done|]. split; [done|]. split; [by rewrite app_nil_r|].
    split; [done|]. by left.
  - destruct (Hps (x, y)) as (d & Hd & Hd0); [apply list_elem_of_here|].
    simpl in Hd. simpl. rewrite (getcell_cell _ _ _ _ Hd). simpl.
    pose proof (scan_visit_inv m st x y d Hinv Hd) as Hinv1.
    destruct (scan_visit_zero st x y d Hpos Hd0) as [Hz Hpos1].
    pose proof (scan_visit_examined st x y d) as Hex.
    destruct (Qeqb (min_distance (scan_visit st x y d)) 0) eqn:Hq.
    + exists (scan_visit st x y d), [(x, y)], ps.
      split; [done|]. split; [done|]. split; [done|]. split; [done|].
      right. exists (examined st), (x, y), d.
      split; [done|]. split; [done|]. split; [done|].
      split; [by apply Hz|]. by apply Qeqb_eq.
    + assert (¬ (d == 0)%Q) as Hdz by (intros H; apply Hz in H; congruence).
      destruct (IH (scan_visit st x y d)) as (st' & seen & rest & Hrun & Hsplit & Hseen & Hinv' & Hend).
      * intros p Hp. apply Hps. by apply list_elem_of_further.
      * done.
      * by apply Hpos1.
      * rewrite Hex. intros p d' [Hp|Hp]%elem_of_app Hc.
        -- by apply (Hnz p d').
        -- apply list_elem_of_singleton in Hp as ->. simpl in Hc.
           rewrite Hd in Hc. by injection Hc as <-.
      * exists st', ((x, y) :: seen), rest.
        split; [done|]. split; [by rewrite Hsplit|].
        split; [by rewrite Hseen, Hex, <- app_assoc|]. done.
Qed.

Lemma elem_of_row_pairs n x p : p ∈ row_pairs n x ↔ p.1 = x ∧ x < p.2 < n.
Proof.
  unfold row_pairs. rewrite list_elem_of_fmap. split.
  - intros (y & -> & Hy). apply elem_of_seq in Hy. simpl. lia.
  - destruct p as [a b]. simpl. intros [-> H]. exists b. split; [done|].
    apply elem_of_seq. lia.
Qed.

Lemma elem_of_all_pairs n x y : (x, y) ∈ all_pairs n ↔ x < y < n.
Proof.
  unfold all_pairs, rows_from. rewrite list_elem_of_bind. split.
  - intros (x' & Hp & _). apply elem_of_row_pairs in Hp. simpl in Hp. lia.
  - intros H. exists x. split; [apply elem_of_row_pairs; simpl; lia|].
    apply elem_of_seq. lia.
Qed.

Lemma getcell_cases m a b :
  getcell m a b = match cell m a b with Some d => Done d | None => IndexError end.
Proof.
  unfold getcell, cell, getitem. destruct (m !! a) as [row|]; simpl; [|done].
  by destruct (row !! b).
Qed.

(** Whatever the shape of the matrix, the scan either raises or returns
    with its invariant; it cannot run forever. *)
Lemma scan_list_inv m ps st :
  scan_inv m st →
  scan_list m ps st = IndexError ∨
  ∃ st' seen rest,
    scan_list m ps st = Done st' ∧ ps = seen ++ rest ∧
    examined st' = examined st ++ seen ∧ scan_inv m st'.
Proof.
  revert st. induction ps as [|[x y] ps IH]; intros st Hinv.
  - right. exists st, [], [].
    split; [done|]. split; [done|]. split; [by rewrite app_nil_r|]. done.
  - simpl. rewrite getcell_cases.
    destruct (cell m x y) as [d|] eqn:Hd; simpl; [|by left].
    pose proof (scan_visit_inv m st x y d Hinv Hd) as Hinv1.
    pose proof (scan_visit_examined st x y d) as Hex.
    destruct (Qeqb (min_distance (scan_visit st x y d)) 0) eqn:Hq.
    + right. by exists (scan_visit st x y d), [(x, y)], ps.
    + destruct (IH (scan_visit st x y d) Hinv1)
        as [Herr|(st' & seen & rest & Hrun & Hsplit & Hseen & Hinv')];
        [by left|right].
      exists st', ((x, y) :: seen), rest.
      split; [done|]. split; [by rewrite Hsplit|].
      split; [by rewrite Hseen, Hex, <- app_assoc|]. done.
Qed.

Lemma scan_list_defined m ps st :
  (∀ p, p ∈ ps → is_Some (cell m p.1 p.2)) →
  scan_list m ps st ≠ IndexError.
Proof.
  revert st. induction ps as [|[x y] ps IH]; intros st Hps; [done|].
  simpl. rewrite getcell_cases.
  destruct (Hps (x, y)) as (d & Hd); [apply list_elem_of_here|].
  simpl in Hd. rewrite Hd. simpl.
  destruct (Qeqb _ 0); [done|].
  apply IH. intros p Hp. apply Hps. by apply list_elem_of_further.
Qed.

(** The scan of any matrix: an [IndexError], or a state satisfying the
    invariant whose examined pairs are proper index pairs. *)
Lemma scan_any m :
  scan m = IndexError ∨
  ∃ st, scan m = Done st ∧ scan_inv m st ∧
        (∀ p, p ∈ examined st → p.1 < p.2 < length m).
Proof.
  rewrite scan_all_pairs.
  destruct (scan_list_inv m (all_pairs (length m)) scan_init (scan_inv_init m))
    as [Herr|(st & seen & rest & Hrun & Hsplit & Hseen & Hinv)]; [by left|right].
  exists st. split; [done|]. split; [done|].
  intros [x y] Hp. apply elem_of_all_pairs. rewrite Hsplit.
  rewrite Hseen in Hp. simpl in Hp. apply elem_of_app. by left.
Qed.

(** On a square matrix the scan returns. *)
Lemma scan_square n m :
  square n m →
  ∃ st, scan m = Done st ∧ scan_inv m st ∧
        (∀ p, p ∈ examined st → p.1 < p.2 < n).
Proof.
  intros Hsq. destruct (scan_any m) as [Herr|H].
  - exfalso. rewrite scan_all_pairs in Herr. revert Herr.
    apply scan_list_defined. intros [x y] Hp.
    apply elem_of_all_pairs in Hp. simpl.
    apply (square_cell (length m)); [by rewrite (proj1 Hsq)|lia..].
  - by rewrite (proj1 Hsq) in H.
Qed.

Lemma scan_found m st :
  scan m = Done st → (min_distance st < 99)%Q →
  cluster1 st < cluster2 st < length m ∧
  cell m (cluster1 st) (cluster2 st) = Some (min_distance st).
Proof.
  intros Hrun Hlt. destruct (scan_any m) as [Herr|(st' & Hrun' & Hinv & Hex)];
    [congruence|].
  rewrite Hrun in Hrun'. injection Hrun' as <-.
  destruct (inv_found _ _ Hinv Hlt) as (l1 & l2 & He & Hc & _).
  split; [|done]. apply (Hex (cluster1 st, cluster2 st)).
  rewrite He. apply elem_of_app. right. apply list_elem_of_here.
Qed.

Lemma scan_none m st :
  scan m = Done st → ¬ (min_distance st < 99)%Q →
  min_distance st = 99%Q ∧ cluster1 st = 0 ∧ cluster2 st = 0.
Proof.
  intros Hrun Hlt. destruct (scan_any m) as [Herr|(st' & Hrun' & Hinv & Hex)];
    [congruence|].
  rewrite Hrun in Hrun'. injection Hrun' as <-.
  by apply (inv_none _ _ Hinv).
Qed.

(** With at most one cluster there is no pair to examine. *)
Lemma scan_single m st :
  length m ≤ 1 → scan m = Done st → min_distance st = 99%Q.
Proof.
  intros Hlen Hrun.
  destruct (Qlt_le_dec (min_distance st) 99) as [Hlt|Hge].
  - destruct (scan_found m st Hrun Hlt) as [? _]. lia.
  - apply (scan_none m st Hrun). by apply Qle_not_lt.
Qed.

Lemma scan_first_minimum n (m : matrix) :
  square n m →
  (∀ x y d, cell m x y = Some d → (0 <= d)%Q) →
  ∃ st rest,
    scan m = Done st ∧
    all_pairs n = examined st ++ rest ∧
    (∀ l p, examined st = l ++ [p] → nozero m l) ∧
    (rest ≠ [] → ∃ l p d, examined st = l ++ [p] ∧
                   cell m p.1 p.2 = Some d ∧ (d == 0)%Q) ∧
    (∀ x y d, x < y < n → cell m x y = Some d → (min_distance st <= d)%Q) ∧
    ((min_distance st < 99)%Q →
       ∃ l1 l2, examined st = l1 ++ (cluster1 st, cluster2 st) :: l2 ∧
         cell m (cluster1 st) (cluster2 st) = Some (min_distance st) ∧
         ∀ p d, p ∈ l1 → cell m p.1 p.2 = Some d → (min_distance st < d)%Q).
Proof.
  intros Hsq Hnn. rewrite scan_all_pairs, (proj1 Hsq).
  destruct (scan_list_spec m (all_pairs n) scan_init)
    as (st & seen & rest & Hrun & Hsplit & Hseen & Hinv & Hend).
  - intros [x y] Hp. apply elem_of_all_pairs in Hp. simpl.
    destruct (square_cell n m x y Hsq ltac:(lia) ltac:(lia)) as [d Hd]. eauto.
  - apply scan_inv_init.
  - done.
  - intros p d Hp. by apply elem_of_nil in Hp.
  - simpl in Hseen. subst seen. exists st, rest.
    split; [done|]. split; [done|].
    split; [|split; [|split]].
    + intros l p He. destruct Hend as [(_ & Hnz & _)|(l' & p' & d & He' & Hnz & _)].
      * intros q d Hq. apply Hnz. rewrite He. apply elem_of_app. by left.
      * rewrite He in He'. by apply app_inj_tail in He' as [-> _].
    + intros Hrest. destruct Hend as [(? & _)|(l & p & d & He & _ & Hc & Hd & _)]; [done|].
      by exists l, p, d.
    + intros x y d Hxy Hc.
      destruct Hend as [(-> & _)|(l & p & d' & _ & _ & _ & _ & Hz)].
      * apply (inv_lower _ _ Hinv (x, y)); [|done].
        rewrite app_nil_r in Hsplit. rewrite <- Hsplit. by apply elem_of_all_pairs.
      * specialize (Hnn x y d Hc). lra.
    + apply (inv_found _ _ Hinv).
Qed.

(** ** Row-major order *)

Lemma squareb_square n m : squareb n m = true → square n m.
Proof.
  unfold squareb. intros [Hlen Hrows]%andb_prop. split.
  - by apply Nat.eqb_eq.
  - intros row Hrow. rewrite forallb_forall in Hrows.
    apply Nat.eqb_eq, Hrows. by apply list_elem_of_In.
Qed.

Lemma row_pairs_sorted n x : StronglySorted scanned_before (row_pairs n x).
Proof.
  unfold row_pairs. generalize (S x) (n - S x). intros y k. revert y.
  induction k as [|k IH]; intros y; simpl; [constructor|].
  constructor; [apply IH|]. apply Forall_forall. intros p Hp.
  apply list_elem_of_fmap in Hp as (y' & -> & Hy').
  apply elem_of_seq in Hy'. right. simpl. lia.
Qed.

Lemma rows_from_sorted n x todo : StronglySorted scanned_before (rows_from n x todo).
Proof.
  revert x. induction todo as [|todo IH]; intros x; [constructor|].
  unfold rows_from. simpl. fold (rows_from n (S x) todo).
  apply StronglySorted_app_2; [|apply row_pairs_sorted|apply IH].
  intros p q Hp Hq. apply elem_of_row_pairs in Hp as [Hp _].
  unfold rows_from in Hq. apply list_elem_of_bind in Hq as (x' & Hq & Hx').
  apply elem_of_row_pairs in Hq as [Hq _]. apply elem_of_seq in Hx'.
  left. lia.
Qed.

Lemma all_pairs_sorted n : StronglySorted scanned_before (all_pairs n).
Proof. apply rows_from_sorted. Qed.

(** ** Single cells *)

Lemma square_set_cell n m a b v : square n m → square n (set_cell m a b v).
Proof.
  intros [Hlen Hrows]. unfold set_cell.
  destruct (m !! a) as [row|] eqn:Hrow; [|done].
  split; [by rewrite length_insert|].
  intros r Hr. apply list_elem_of_lookup in Hr as [k Hk].
  destruct (decide (k = a)) as [->|Hne].
  - rewrite list_lookup_insert_eq in Hk by (by eapply lookup_lt_Some).
    injection Hk as <-. rewrite length_insert.
    apply Hrows. by eapply list_elem_of_lookup_2.
  - rewrite list_lookup_insert_ne in Hk by done.
    apply Hrows. by eapply list_elem_of_lookup_2.
Qed.

Lemma cell_set_cell n m a b v a' b' :
  square n m → a < n → b < n →
  cell (set_cell m a b v) a' b' =
  if decide (a' = a ∧ b' = b) then Some v else cell m a' b'.
Proof.
  intros Hsq Ha Hb. unfold set_cell, cell.
  destruct (lookup_lt_is_Some_2 m a) as [row Hrow]; [by rewrite (proj1 Hsq)|].
  rewrite Hrow. pose proof (square_row _ _ _ _ Hsq Hrow) as Hlen.
  destruct (decide (a' = a)) as [->|Hne].
  - rewrite list_lookup_insert_eq by (by eapply lookup_lt_Some). simpl.
    rewrite Hrow. simpl.
    destruct (decide (b' = b)) as [->|Hne'].
    + rewrite list_lookup_insert_eq by lia. by rewrite decide_True.
    + rewrite list_lookup_insert_ne by done. rewrite decide_False by tauto. done.
  - rewrite list_lookup_insert_ne by done. rewrite decide_False by tauto. done.
Qed.

Lemma setitem_Done {A} (l : list A) i a :
  i < length l → setitem l i a = Done (<[i:=a]> l).
Proof. intros H. unfold setitem. by rewrite decide_True. Qed.

Lemma delitem_Done {A} (l : list A) i :
  i < length l → delitem l i = Done (delete i l).
Proof. intros H. unfold delitem. by rewrite decide_True. Qed.

Lemma update_cell_square n m c1 c2 i x y :
  square n m → c1 < n → c2 < n → c1 ≠ c2 → i < n →
  cell m c1 i = Some x → cell m c2 i = Some y →
  update_cell m c1 c2 i =
  Done (if Qgtb x y then set_cell (set_cell m c1 i y) i c1 y else m).
Proof.
  intros Hsq H1 H2 Hne Hi Hx Hy. unfold update_cell.
  rewrite (getcell_cell _ _ _ _ Hx). simpl.
  rewrite (getcell_cell _ _ _ _ Hy). simpl.
  destruct (Qgtb x y); [|done].
  destruct (lookup_lt_is_Some_2 m c1) as [row1 Hrow1]; [by rewrite (proj1 Hsq)|].
  rewrite (getitem_lookup _ _ _ Hrow1). simpl.
  pose proof (square_row _ _ _ _ Hsq Hrow1) as Hlen1.
  rewrite setitem_Done by lia. simpl.
  rewrite setitem_Done by (by rewrite (proj1 Hsq)). simpl.
  assert (set_cell m c1 i y = <[c1:=<[i:=y]> row1]> m) as Hm1
    by (unfold set_cell; by rewrite Hrow1).
  rewrite <- Hm1.
  pose proof (square_set_cell n m c1 i y Hsq) as Hsq1.
  destruct (lookup_lt_is_Some_2 (set_cell m c1 i y) i) as [rowi Hrowi];
    [by rewrite (proj1 Hsq1)|].
  rewrite (getitem_lookup _ _ _ Hrowi). simpl.
  assert (cell (set_cell m c1 i y) c2 i = Some y) as Hy1.
  { rewrite (cell_set_cell n) by done. rewrite decide_False by lia. done. }
  rewrite (getcell_cell _ _ _ _ Hy1). simpl.
  pose proof (square_row _ _ _ _ Hsq1 Hrowi) as Hleni.
  rewrite setitem_Done by lia. simpl.
  rewrite setitem_Done by (by rewrite (proj1 Hsq1)).
  f_equal. symmetry. generalize (set_cell m c1 i y) Hrowi. clear.
  intros m1 Hrowi. unfold set_cell. by rewrite Hrowi.
Qed.
(** ** The update loop of a merge *)

Lemma linkage_upto_S m c1 c2 i a b x y z :
  cell m c1 i = Some x → cell m c2 i = Some y → cell m i c1 = Some z →
  linkage_upto m c1 c2 (S i) a b =
  if decide ((a = c1 ∧ b = i) ∨ (a = i ∧ b = c1))
  then Some (if Qgtb x y then y else if decide (a = c1) then x else z)
  else linkage_upto m c1 c2 i a b.
Proof.
  intros Hx Hy Hz. unfold linkage_upto.
  destruct (decide ((a = c1 ∧ b = i) ∨ (a = i ∧ b = c1))) as [Hnew|Hold].
  - rewrite decide_True by lia. unfold linkage.
    destruct (decide (a = c1)) as [->|Hne].
    + assert (b = i) as -> by lia. rewrite Hx, Hy. simpl. by rewrite Qmin_gtb.
    + assert (a = i ∧ b = c1) as [-> ->] by lia.
      rewrite decide_True by done. rewrite Hx, Hy, Hz. done.
  - destruct (decide ((a = c1 ∧ b < i) ∨ (b = c1 ∧ a < i))) as [H|H].
    + rewrite decide_True by lia. done.
    + rewrite decide_False by lia. done.
Qed.

Lemma update_loop_upto n m c1 c2 :
  square n m → c1 < c2 < n →
  ∀ k i mi,
    i + k ≤ n → square n mi →
    (∀ a b, a < n → b < n → cell mi a b = linkage_upto m c1 c2 i a b) →
    ∃ m', update_loop mi c1 c2 (seq i k) = Done m' ∧ square n m' ∧
          ∀ a b, a < n → b < n → cell m' a b = linkage_upto m c1 c2 (i + k) a b.
Proof.
  intros Hsq Hc. induction k as [|k IH]; intros i mi Hik Hsqi Hcells.
  - exists mi. rewrite Nat.add_0_r. done.
  - destruct (square_cell n m c1 i Hsq ltac:(lia) ltac:(lia)) as [x Hx].
    destruct (square_cell n m c2 i Hsq ltac:(lia) ltac:(lia)) as [y Hy].
    destruct (square_cell n m i c1 Hsq ltac:(lia) ltac:(lia)) as [z Hz].
    assert (cell mi c1 i = Some x) as Hxi.
    { rewrite Hcells by lia. unfold linkage_upto. rewrite decide_False by lia. done. }
    assert (cell mi c2 i = Some y) as Hyi.
    { rewrite Hcells by lia. unfold linkage_upto. rewrite decide_False by lia. done. }
    simpl. rewrite (update_cell_square n mi c1 c2 i x y) by (done || lia). simpl.
    destruct (IH (S i) (if Qgtb x y then set_cell (set_cell mi c1 i y) i c1 y else mi))
      as (m' & Hrun & Hsq' & Hcells').
    + lia.
    + destruct (Qgtb x y); [|done]. by do 2 apply square_set_cell.
    + intros a b Ha Hb. rewrite (linkage_upto_S _ _ _ _ _ _ x y z) by done.
      destruct (Qgtb x y) eqn:Hgt.
      * rewrite (cell_set_cell n) by (try apply square_set_cell; done || lia).
        rewrite (cell_set_cell n) by (done || lia).
        destruct (decide (a = i ∧ b = c1)) as [[-> ->]|H1].
        { by rewrite decide_True by lia. }
        destruct (decide (a = c1 ∧ b = i)) as [[-> ->]|H2].
        { by rewrite decide_True by lia. }
        rewrite decide_False by lia. by apply Hcells.
      * destruct (decide ((a = c1 ∧ b = i) ∨ (a = i ∧ b = c1))) as [Hnew|Hold];
          [|by apply Hcells].
        destruct (decide (a = c1)) as [->|Hne].
        -- assert (b = i) as -> by lia. done.
        -- assert (a = i ∧ b = c1) as [-> ->] by lia.
           rewrite Hcells by lia. unfold linkage_upto.
           rewrite decide_False by lia. done.
    + exists m'. split; [done|]. split; [done|].
      intros a b Ha Hb. rewrite Hcells' by done. f_equal. lia.
Qed.
(** ** Deleting row and column [cluster2] *)

Lemma delete_column_lookup c2 :
  ∀ k i (m : matrix),
    i + k = length m →
    (∀ j row, i ≤ j → m !! j = Some row → c2 < length row) →
    ∃ m', delete_column m c2 (seq i k) = Done m' ∧
          ∀ j, m' !! j = if decide (i ≤ j) then delete c2 <$> m !! j else m !! j.
Proof.
  induction k as [|k IH]; intros i m Hlen Hrows.
  - exists m. split; [done|]. intros j. case_decide; [|done].
    rewrite lookup_ge_None_2 by lia. done.
  - destruct (lookup_lt_is_Some_2 m i) as [row Hrow]; [lia|].
    simpl. rewrite (getitem_lookup _ _ _ Hrow). simpl.
    rewrite delitem_Done by (by eapply Hrows). simpl.
    rewrite setitem_Done by lia. simpl.
    destruct (IH (S i) (<[i:=delete c2 row]> m)) as (m' & Hrun & Hlook).
    + rewrite length_insert. lia.
    + intros j r Hj Hr. rewrite list_lookup_insert_ne in Hr by lia.
      apply (Hrows j); [lia|done].
    + exists m'. split; [done|]. intros j. rewrite Hlook.
      destruct (decide (j = i)) as [->|Hne].
      * rewrite decide_False by lia. rewrite decide_True by lia.
        rewrite list_lookup_insert_eq by lia. by rewrite Hrow.
      * rewrite list_lookup_insert_ne by done.
        destruct (decide (S i ≤ j)); destruct (decide (i ≤ j)); (done || lia).
Qed.

Lemma delete_column_all c2 (m : matrix) :
  (∀ row, row ∈ m → c2 < length row) →
  delete_column m c2 (seq 0 (length m)) = Done (delete c2 <$> m).
Proof.
  intros Hrows.
  destruct (delete_column_lookup c2 (length m) 0 m) as (m' & Hrun & Hlook).
  - done.
  - intros j row _ Hj. apply Hrows. by eapply list_elem_of_lookup_2.
  - rewrite Hrun. f_equal. apply list_eq. intros j.
    rewrite Hlook, list_lookup_fmap. by rewrite decide_True by lia.
Qed.

Lemma cell_delete (m : matrix) c a b :
  cell (delete c <$> delete c m) a b = cell m (skip c a) (skip c b).
Proof.
  unfold cell, skip. rewrite list_lookup_fmap, list_lookup_delete.
  destruct (m !! _) as [row|]; simpl; [|done].
  by rewrite list_lookup_delete.
Qed.

Lemma square_delete n (m : matrix) c :
  square n m → c < n → square (n - 1) (delete c <$> delete c m).
Proof.
  intros [Hlen Hrows] Hc. split.
  - rewrite length_fmap, length_delete; [lia|].
    apply lookup_lt_is_Some_2. lia.
  - intros row Hrow. apply list_elem_of_fmap in Hrow as (r & -> & Hr).
    assert (r ∈ m) as Hrm.
    { apply list_elem_of_lookup in Hr as [j Hj].
      rewrite list_lookup_delete in Hj. by eapply list_elem_of_lookup_2. }
    rewrite length_delete; [by rewrite (Hrows r Hrm)|].
    apply lookup_lt_is_Some_2. rewrite (Hrows r Hrm). lia.
Qed.

(** The whole matrix update of a merge, cell by cell. *)
Lemma update_matrix_cells n m c1 c2 :
  square n m → c1 < c2 < n →
  ∃ m', update_matrix m c1 c2 = Done m' ∧ square (n - 1) m' ∧
        ∀ a b, a < n - 1 → b < n - 1 →
               cell m' a b = linkage m c1 c2 (skip c2 a) (skip c2 b).
Proof.
  intros Hsq Hc. unfold update_matrix.
  destruct (lookup_lt_is_Some_2 m c1) as [row1 Hrow1]; [rewrite (proj1 Hsq); lia|].
  rewrite (getitem_lookup _ _ _ Hrow1). simpl.
  rewrite (square_row _ _ _ _ Hsq Hrow1).
  destruct (update_loop_upto n m c1 c2 Hsq Hc n 0 m) as (m1 & Hrun & Hsq1 & Hcells).
  - lia.
  - done.
  - intros a b Ha Hb. unfold linkage_upto. rewrite decide_False by lia. done.
  - rewrite Hrun. simpl. rewrite delitem_Done by (rewrite (proj1 Hsq1); lia). simpl.
    rewrite length_delete by (apply lookup_lt_is_Some_2; rewrite (proj1 Hsq1); lia).
    assert (length m1 - 1 = length (delete c2 m1)) as ->.
    { rewrite length_delete; [done|].
      apply lookup_lt_is_Some_2. rewrite (proj1 Hsq1). lia. }
    rewrite delete_column_all.
    + eexists. split; [done|]. split; [apply square_delete; [done|lia]|].
      intros a b Ha Hb. rewrite cell_delete.
      assert (skip c2 a < n ∧ skip c2 b < n) as [Ha' Hb']
        by (unfold skip; repeat case_decide; lia).
      rewrite Hcells by done. unfold linkage_upto, linkage.
      generalize (skip c2 a) (skip c2 b) Ha' Hb'. intros a' b' ? ?.
      destruct (decide (a' = c1)); [by rewrite decide_True by lia|].
      destruct (decide (b' = c1)); [by rewrite decide_True by lia|].
      by rewrite decide_False by lia.
    + intros row Hrow. apply list_elem_of_lookup in Hrow as [j Hj].
      rewrite list_lookup_delete in Hj.
      rewrite (square_row _ _ _ _ Hsq1 Hj). lia.
Qed.
(** ** Merging two clusters *)

Section EngineFacts.
Context {key : Type}.
Implicit Types (clusters cl : list (list key)) (m : matrix).

Lemma extend_loop_distinct fuel clusters c1 c2 pos dst src :
  c1 ≠ c2 → clusters !! c1 = Some dst → clusters !! c2 = Some src →
  length src - pos < fuel →
  extend_loop fuel clusters c1 c2 pos = Done (<[c1 := dst ++ drop pos src]> clusters).
Proof.
  intros Hne. revert clusters pos dst.
  induction fuel as [|fuel IH]; intros clusters pos dst Hdst Hsrc Hfuel; [lia|].
  simpl. rewrite (getitem_lookup _ _ _ Hsrc). simpl.
  destruct (src !! pos) as [s|] eqn:Hs.
  - rewrite (getitem_lookup _ _ _ Hdst). simpl.
    apply lookup_lt_Some in Hs as Hpos.
    rewrite (IH _ _ (dst ++ [s])).
    + rewrite list_insert_insert_eq. rewrite (drop_S _ _ _ Hs).
      by rewrite <- app_assoc.
    + apply list_lookup_insert_eq. by eapply lookup_lt_Some.
    + by rewrite list_lookup_insert_ne.
    + lia.
  - apply lookup_ge_None in Hs. rewrite drop_ge by done.
    rewrite app_nil_r. by rewrite list_insert_id.
Qed.

(** Whatever the cluster list, merging two different positions does not
    run forever once the budget exceeds the length of the source. *)
Lemma extend_loop_distinct_total fuel clusters c1 c2 pos :
  c1 ≠ c2 →
  (∀ src, clusters !! c2 = Some src → length src - pos < fuel) → 0 < fuel →
  extend_loop fuel clusters c1 c2 pos ≠ OutOfFuel.
Proof.
  intros Hne Hfuel Hpos. destruct fuel as [|fuel]; [lia|].
  destruct (clusters !! c2) as [src|] eqn:Hsrc.
  - destruct (clusters !! c1) as [dst|] eqn:Hdst.
    + rewrite (extend_loop_distinct _ _ _ _ _ dst src); [done..|]. by apply Hfuel.
    + simpl. unfold getitem. rewrite Hsrc, Hdst. simpl. by destruct (src !! pos).
  - simpl. unfold getitem. by rewrite Hsrc.
Qed.

(** Merging a non-empty cluster into itself never finishes: the loop
    walks a list that grows by one element at every turn. *)
Lemma extend_loop_self fuel (c : list key) pos :
  pos < length c → extend_loop fuel [c] 0 0 pos = OutOfFuel.
Proof.
  revert c pos. induction fuel as [|fuel IH]; intros c pos Hpos; [done|].
  simpl. destruct (lookup_lt_is_Some_2 c pos Hpos) as [s Hs]. rewrite Hs.
  simpl. apply IH. rewrite length_app. simpl. lia.
Qed.

Lemma merge_clusters_distinct fuel clusters c1 c2 dst src :
  c1 ≠ c2 → clusters !! c1 = Some dst → clusters !! c2 = Some src →
  length src < fuel →
  merge_clusters fuel clusters c1 c2 = Done (delete c2 (<[c1 := dst ++ src]> clusters)).
Proof.
  intros Hne Hdst Hsrc Hfuel. unfold merge_clusters.
  rewrite (extend_loop_distinct _ _ _ _ _ dst src) by (done || lia). simpl.
  rewrite delitem_Done; [done|].
  rewrite length_insert. by eapply lookup_lt_Some.
Qed.

End EngineFacts.
(** ** Outcomes that are not a budget overrun *)

Lemma obind_Done {A B} (r : outcome A) (k : A → outcome B) b :
  obind r k = Done b → ∃ a, r = Done a ∧ k a = Done b.
Proof. destruct r as [a| |]; simpl; [|done..]. eauto. Qed.

Lemma obind_finished {A B} (r : outcome A) (k : A → outcome B) :
  r ≠ OutOfFuel → (∀ a, k a ≠ OutOfFuel) → obind r k ≠ OutOfFuel.
Proof. destruct r as [a| |]; simpl; [auto|done..]. Qed.

Lemma getitem_finished {A} (l : list A) i : getitem l i ≠ OutOfFuel.
Proof. unfold getitem. by destruct (l !! i). Qed.

Lemma setitem_finished {A} (l : list A) i a : setitem l i a ≠ OutOfFuel.
Proof. unfold setitem. by case_decide. Qed.

Lemma delitem_finished {A} (l : list A) i : delitem l i ≠ OutOfFuel.
Proof. unfold delitem. by case_decide. Qed.

Lemma getcell_finished m a b : getcell m a b ≠ OutOfFuel.
Proof. rewrite getcell_cases. by destruct (cell m a b). Qed.

Lemma setitem_length {A} (l l' : list A) i a :
  setitem l i a = Done l' → length l' = length l.
Proof.
  unfold setitem. case_decide; [|done]. intros [= <-]. apply length_insert.
Qed.

Lemma delitem_length {A} (l l' : list A) i :
  delitem l i = Done l' → i < length l ∧ length l' = length l - 1.
Proof.
  unfold delitem. case_decide; [|done]. intros [= <-]. split; [done|].
  apply length_delete. by apply lookup_lt_is_Some_2.
Qed.

Lemma update_cell_finished m c1 c2 i : update_cell m c1 c2 i ≠ OutOfFuel.
Proof.
  unfold update_cell.
  apply obind_finished; [apply getcell_finished|intros a].
  apply obind_finished; [apply getcell_finished|intros b].
  destruct (Qgtb a b); [|done].
  apply obind_finished; [apply getitem_finished|intros row].
  apply obind_finished; [apply getcell_finished|intros v].
  apply obind_finished; [apply setitem_finished|intros row'].
  apply obind_finished; [apply setitem_finished|intros m1].
  apply obind_finished; [apply getitem_finished|intros rowi].
  apply obind_finished; [apply getcell_finished|intros v'].
  apply obind_finished; [apply setitem_finished|intros rowi'].
  apply setitem_finished.
Qed.

Lemma update_cell_length m m' c1 c2 i :
  update_cell m c1 c2 i = Done m' → length m' = length m.
Proof.
  unfold update_cell. intros H.
  apply obind_Done in H as (a & _ & H). apply obind_Done in H as (b & _ & H).
  destruct (Qgtb a b); [|by injection H as <-].
  apply obind_Done in H as (row & _ & H). apply obind_Done in H as (v & _ & H).
  apply obind_Done in H as (row' & _ & H). apply obind_Done in H as (m1 & Hm1 & H).
  apply obind_Done in H as (rowi & _ & H). apply obind_Done in H as (v' & _ & H).
  apply obind_Done in H as (rowi' & _ & H).
  apply setitem_length in H. apply setitem_length in Hm1. congruence.
Qed.

Lemma update_loop_finished idxs : ∀ m c1 c2, update_loop m c1 c2 idxs ≠ OutOfFuel.
Proof.
  induction idxs as [|i idxs IH]; intros m c1 c2; [done|]. simpl.
  apply obind_finished; [apply update_cell_finished|]. intros m1. apply IH.
Qed.

Lemma update_loop_length idxs : ∀ m m' c1 c2,
  update_loop m c1 c2 idxs = Done m' → length m' = length m.
Proof.
  induction idxs as [|i idxs IH]; intros m m' c1 c2; simpl.
  - by intros [= <-].
  - intros H. apply obind_Done in H as (m1 & H1 & H).
    apply IH in H. apply update_cell_length in H1. congruence.
Qed.

Lemma delete_column_finished idxs : ∀ m c2, delete_column m c2 idxs ≠ OutOfFuel.
Proof.
  induction idxs as [|i idxs IH]; intros m c2; [done|]. simpl.
  apply obind_finished; [apply getitem_finished|intros row].
  apply obind_finished; [apply delitem_finished|intros row'].
  apply obind_finished; [apply setitem_finished|intros m1]. apply IH.
Qed.

Lemma delete_column_length idxs : ∀ m m' c2,
  delete_column m c2 idxs = Done m' → length m' = length m.
Proof.
  induction idxs as [|i idxs IH]; intros m m' c2; simpl.
  - by intros [= <-].
  - intros H. apply obind_Done in H as (row & _ & H).
    apply obind_Done in H as (row' & _ & H).
    apply obind_Done in H as (m1 & H1 & H).
    apply IH in H. apply setitem_length in H1. congruence.
Qed.

Lemma update_matrix_finished m c1 c2 : update_matrix m c1 c2 ≠ OutOfFuel.
Proof.
  unfold update_matrix.
  apply obind_finished; [apply getitem_finished|intros row].
  apply obind_finished; [apply update_loop_finished|intros m1].
  apply obind_finished; [apply delitem_finished|intros m2].
  apply delete_column_finished.
Qed.

Lemma update_matrix_length m m' c1 c2 :
  update_matrix m c1 c2 = Done m' → length m' = length m - 1.
Proof.
  unfold update_matrix. intros H.
  apply obind_Done in H as (row & _ & H).
  apply obind_Done in H as (m1 & H1 & H).
  apply obind_Done in H as (m2 & H2 & H).
  apply delete_column_length in H. apply delitem_length in H2 as [_ H2].
  apply update_loop_length in H1. congruence.
Qed.
(** ** Passes of the engine *)

Section EnginePasses.
Context {key : Type}.
Implicit Types (clusters cl : list (list key)) (m : matrix).

Lemma extend_loop_mono f f' clusters c1 c2 pos :
  f ≤ f' → extend_loop f clusters c1 c2 pos ≠ OutOfFuel →
  extend_loop f' clusters c1 c2 pos = extend_loop f clusters c1 c2 pos.
Proof.
  revert f' clusters pos. induction f as [|f IH]; intros f' clusters pos Hle Hfin;
    [done|].
  destruct f' as [|f']; [lia|]. simpl in *.
  destruct (getitem clusters c2) as [src| |]; simpl in *; [|done..].
  destruct (src !! pos); [|done].
  destruct (getitem clusters c1) as [dst| |]; simpl in *; [|done..].
  apply IH; [lia|done].
Qed.

Lemma merge_clusters_mono f f' clusters c1 c2 :
  f ≤ f' → merge_clusters f clusters c1 c2 ≠ OutOfFuel →
  merge_clusters f' clusters c1 c2 = merge_clusters f clusters c1 c2.
Proof.
  unfold merge_clusters. intros Hle Hfin.
  rewrite (extend_loop_mono f f'); [done|done|].
  intros H. by rewrite H in Hfin.
Qed.

Lemma engine_pass_mono f f' clusters m threshold :
  f ≤ f' → engine_pass f clusters m threshold ≠ OutOfFuel →
  engine_pass f' clusters m threshold = engine_pass f clusters m threshold.
Proof.
  unfold engine_pass. intros Hle Hfin.
  destruct (scan m) as [st| |]; simpl in *; [|done..].
  destruct (Qgtb (min_distance st) threshold); [done|].
  rewrite (merge_clusters_mono f f'); [done|done|].
  intros H. by rewrite H in Hfin.
Qed.

Lemma merge_closest_clusters_mono f f' clusters m threshold :
  f ≤ f' → merge_closest_clusters f clusters m threshold ≠ OutOfFuel →
  merge_closest_clusters f' clusters m threshold
  = merge_closest_clusters f clusters m threshold.
Proof.
  revert f' clusters m. induction f as [|f IH]; intros f' clusters m Hle Hfin;
    [done|].
  destruct f' as [|f']; [lia|]. simpl in *.
  rewrite (engine_pass_mono f f'); [|lia|].
  - destruct (engine_pass f clusters m threshold) as [[cl|cl m']| |];
      simpl in *; [done| |done..].
    apply IH; [lia|done].
  - intros H. by rewrite H in Hfin.
Qed.

(** The early return. *)
Lemma engine_pass_terminated fuel clusters m threshold st :
  scan m = Done st → (threshold < min_distance st)%Q →
  engine_pass fuel clusters m threshold = Done (Terminated clusters).
Proof.
  intros Hscan Hlt. unfold engine_pass. rewrite Hscan. simpl.
  apply Qgtb_gt in Hlt. by rewrite Hlt.
Qed.

(** The merge, on a matrix and a cluster list of the same size. *)
Lemma engine_pass_merged n clusters m threshold st :
  square n m → length clusters = n →
  scan m = Done st → (min_distance st <= threshold)%Q →
  (min_distance st < 99)%Q →
  ∃ dst src m',
    cluster1 st < cluster2 st < n ∧
    clusters !! cluster1 st = Some dst ∧ clusters !! cluster2 st = Some src ∧
    update_matrix m (cluster1 st) (cluster2 st) = Done m' ∧
    square (n - 1) m' ∧
    (∀ fuel, length src < fuel →
     engine_pass fuel clusters m threshold
     = Done (Merged (delete (cluster2 st)
                       (<[cluster1 st := dst ++ src]> clusters)) m')).
Proof.
  intros Hsq Hlen Hscan Hle Hlt.
  destruct (scan_found m st Hscan Hlt) as [Hc _]. rewrite (proj1 Hsq) in Hc.
  destruct (lookup_lt_is_Some_2 clusters (cluster1 st)) as [dst Hdst]; [lia|].
  destruct (lookup_lt_is_Some_2 clusters (cluster2 st)) as [src Hsrc]; [lia|].
  destruct (update_matrix_cells n m _ _ Hsq Hc) as (m' & Hm' & Hsq' & _).
  exists dst, src, m'. repeat (split; [done|]).
  intros fuel Hfuel. unfold engine_pass. rewrite Hscan. simpl.
  apply Qgtb_le in Hle. rewrite Hle.
  rewrite (merge_clusters_distinct _ _ _ _ dst src) by (done || lia). simpl.
  by rewrite Hm'.
Qed.

Lemma extend_loop_length fuel : ∀ clusters cl c1 c2 pos,
  extend_loop fuel clusters c1 c2 pos = Done cl → length cl = length clusters.
Proof.
  induction fuel as [|fuel IH]; intros clusters cl c1 c2 pos; [done|]. simpl.
  intros H. apply obind_Done in H as (src & _ & H).
  destruct (src !! pos); [|by injection H as <-].
  apply obind_Done in H as (dst & _ & H). apply IH in H.
  by rewrite length_insert in H.
Qed.

(** A pass that merges removes one cluster and one row, whatever the
    input. *)
Lemma engine_pass_merged_lengths fuel threshold clusters cl' m m' :
  engine_pass fuel clusters m threshold = Done (Merged cl' m') →
  length cl' = length clusters - 1 ∧ length m' = length m - 1 ∧
  0 < length clusters.
Proof.
  unfold engine_pass. intros H. apply obind_Done in H as (st & _ & H).
  destruct (Qgtb _ _); [done|].
  apply obind_Done in H as (cl & Hcl & H).
  apply obind_Done in H as (m1 & Hm1 & H). injection H as <- <-.
  unfold merge_clusters in Hcl. apply obind_Done in Hcl as (cl1 & Hcl1 & Hcl).
  apply extend_loop_length in Hcl1. apply delitem_length in Hcl as [Hlt Hcl].
  apply update_matrix_length in Hm1. repeat split; [congruence|done|lia].
Qed.

Lemma merged_length clusters c1 c2 (c : list key) :
  c2 < length clusters →
  length (delete c2 (<[c1 := c]> clusters)) = length clusters - 1.
Proof.
  intros H. rewrite length_delete; [by rewrite length_insert|].
  apply lookup_lt_is_Some_2. by rewrite length_insert.
Qed.

(** Below the sentinel 99 the recursion ends on every input, at the
    latest by raising [IndexError] on an ill-shaped one. *)
Lemma merge_closest_clusters_finishes threshold :
  (threshold < 99)%Q →
  ∀ n clusters m, length m ≤ n →
    ∃ fuel, merge_closest_clusters fuel clusters m threshold ≠ OutOfFuel.
Proof.
  intros HT. induction n as [|n IH]; intros clusters m Hn.
  - exists 1. simpl. unfold engine_pass.
    destruct m; [|simpl in Hn; lia]. simpl.
    assert (Qgtb 99 threshold = true) as -> by (by apply Qgtb_gt). done.
  - destruct (scan_any m) as [Herr|(st & Hscan & _)].
    { exists 1. simpl. unfold engine_pass. by rewrite Herr. }
    destruct (Qgtb (min_distance st) threshold) eqn:Hgt.
    { exists 1. simpl. unfold engine_pass. rewrite Hscan. simpl. by rewrite Hgt. }
    apply Qgtb_le in Hgt as Hle.
    assert (min_distance st < 99)%Q as Hlt by lra.
    destruct (scan_found m st Hscan Hlt) as [Hc _].
    set (f1 := S (default 0 (length <$> clusters !! cluster2 st))).
    assert (merge_clusters f1 clusters (cluster1 st) (cluster2 st) ≠ OutOfFuel)
      as Hfin1.
    { unfold merge_clusters. apply obind_finished; [|intros; apply delitem_finished].
      apply extend_loop_distinct_total; [lia| |unfold f1; lia].
      intros src Hsrc. unfold f1. rewrite Hsrc. simpl. lia. }
    destruct (merge_clusters f1 clusters (cluster1 st) (cluster2 st))
      as [cl1| |] eqn:Hcl1; [| |done].
    2:{ exists (S f1). simpl. unfold engine_pass. rewrite Hscan. simpl.
        by rewrite Hgt, Hcl1. }
    destruct (update_matrix m (cluster1 st) (cluster2 st)) as [m'| |] eqn:Hm'.
    2:{ exists (S f1). simpl. unfold engine_pass. rewrite Hscan. simpl.
        by rewrite Hgt, Hcl1, Hm'. }
    2:{ by apply update_matrix_finished in Hm'. }
    apply update_matrix_length in Hm' as Hlen'.
    destruct (IH cl1 m') as [f2 Hf2]; [lia|].
    exists (S (f1 `max` f2)). simpl.
    assert (engine_pass (f1 `max` f2) clusters m threshold = Done (Merged cl1 m'))
      as ->.
    { unfold engine_pass. rewrite Hscan. simpl. rewrite Hgt.
      rewrite (merge_clusters_mono f1); [|lia|by rewrite Hcl1].
      rewrite Hcl1. simpl. by rewrite Hm'. }
    simpl. rewrite (merge_closest_clusters_mono f2); [done|lia|done].
Qed.

(** On a matrix and a cluster list of the same size it returns a list. *)
Lemma merge_closest_clusters_returns threshold :
  (threshold < 99)%Q →
  ∀ n clusters m, square n m → length clusters = n →
    ∃ fuel result, merge_closest_clusters fuel clusters m threshold = Done result.
Proof.
  intros HT. induction n as [|n IH]; intros clusters m Hsq Hlen.
  - exists 1, clusters. simpl.
    destruct (scan_square 0 m Hsq) as (st & Hscan & _).
    rewrite (engine_pass_terminated _ _ _ _ st); [done..|].
    rewrite (scan_single m st); [done| |done]. rewrite (proj1 Hsq). lia.
  - destruct (scan_square _ m Hsq) as (st & Hscan & _).
    destruct (Qgtb (min_distance st) threshold) eqn:Hgt.
    { exists 1, clusters. simpl. apply Qgtb_gt in Hgt.
      by rewrite (engine_pass_terminated _ _ _ _ st). }
    apply Qgtb_le in Hgt as Hle.
    assert (min_distance st < 99)%Q as Hlt by lra.
    destruct (engine_pass_merged (S n) clusters m threshold st)
      as (dst & src & m' & Hc & Hdst & Hsrc & Hm' & Hsq' & Hpass); [done..|].
    simpl in Hsq'. rewrite Nat.sub_0_r in Hsq'.
    destruct (IH (delete (cluster2 st) (<[cluster1 st:=dst ++ src]> clusters)) m')
      as (f2 & result & Hrun); [done| |].
    { rewrite merged_length by lia. lia. }
    exists (S (S (length src) `max` f2)), result. simpl.
    rewrite Hpass by lia. simpl.
    rewrite (merge_closest_clusters_mono f2); [done|lia|by rewrite Hrun].
Qed.

(** With the threshold at or above 99 a single non-empty cluster is merged
    into itself, forever. *)
Lemma merge_closest_clusters_self fuel (c : list key) row threshold :
  c ≠ [] → (99 <= threshold)%Q →
  merge_closest_clusters fuel [c] [row] threshold = OutOfFuel.
Proof.
  intros Hc HT. destruct fuel as [|fuel]; [done|]. simpl.
  unfold engine_pass. simpl.
  assert (Qgtb 99 threshold = false) as -> by (by apply Qgtb_le).
  unfold merge_clusters. rewrite extend_loop_self; [done|].
  destruct c; [done|simpl; lia].
Qed.

End EnginePasses.
(** ** Claiming rows *)

Section Claims.
Context {key : Type} `{EqDecision key}.
Context (seq_length : key → Z).
Context (blastn : key → key → list blast_record).
Context (length_threshold : Q).
Context (seq_keys : list key).

Abbreviation step := (worker_step seq_length blastn length_threshold seq_keys).
Abbreviation pstep := (pool_step seq_length blastn length_threshold seq_keys).
Abbreviation prun := (run seq_length blastn length_threshold seq_keys).

Lemma next_record_in_lock i j records : in_lock (next_record i j records) = false.
Proof.
  induction records as [|[|[|e hsps] als] rest IH]; simpl; done.
Qed.

(** A transition outside the [with lock:] block leaves the lock, the
    claim set and the history of entered rows alone. *)
Lemma worker_step_quiet w p s :
  in_lock p = false → (∀ i, p = AtKey i → is_Some (lock s) ∨ seq_keys !! i = None) →
  in_lock (step w p s).1 = false ∧
  lock (step w p s).2 = lock s ∧
  already_compared (step w p s).2 = already_compared s ∧
  rows_entered (step w p s).2 = rows_entered s.
Proof.
  intros Hp Hkey. destruct p; simpl in *; try done.
  - destruct (Hkey i eq_refl) as [[w' Hw']|Hnone].
    + rewrite Hw'. by destruct (seq_keys !! i).
    + by rewrite Hnone.
  - destruct (seq_keys !! i) as [k|]; [|done].
    destruct (seq_keys !! j) as [k2|]; [|done].
    destruct (getcell _ _ _) as [d| |]; [|done..].
    destruct (Qeqb d 99); [|done].
    destruct (decide (k = k2)); [done|].
    by destruct (length_gate_failed _ _ _).
  - by destruct (fetch_row s i j 0).
  - unfold store_row. by destruct (setitem _ _ _).
  - destruct (seq_keys !! i) as [k|]; [|done].
    destruct (seq_keys !! j) as [k2|]; [|done].
    simpl. by rewrite next_record_in_lock.
  - by destruct (fetch_row s i j v).
  - unfold store_row. by destruct (setitem _ _ _).
  - by destruct (fetch_row s j i v).
  - unfold store_row. destruct (setitem _ _ _); simpl; [|done..].
    by rewrite next_record_in_lock.
Qed.

Lemma pending_quiet (ps : list pc) (s s' : shared key) w p p' :
  ps !! w = Some p → in_lock p = false → in_lock p' = false →
  lock s' = lock s →
  (∀ w', lock s = Some w' → ∃ q, ps !! w' = Some q ∧ in_lock q = true) →
  pending (<[w:=p']> ps) s' = pending ps s.
Proof.
  intros Hp Hq Hq' Hlock Hholder. unfold pending. rewrite Hlock.
  destruct (lock s) as [w'|] eqn:Hw'; [|done].
  destruct (Hholder w' eq_refl) as (q & Hlook & Hin).
  destruct (decide (w' = w)) as [->|Hne]; [congruence|].
  by rewrite list_lookup_insert_ne.
Qed.

Lemma claim_inv_quiet (ps : list pc) (s s' : shared key) w p p' :
  claim_inv seq_keys (ps, s) → ps !! w = Some p →
  in_lock p = false → in_lock p' = false →
  lock s' = lock s → already_compared s' = already_compared s →
  rows_entered s' = rows_entered s →
  claim_inv seq_keys (<[w:=p']> ps, s').
Proof.
  intros [Hholder Hlocked Hclaimed Hnodup Hfresh Hrange] Hp Hq Hq' Hlock Hac Hrows.
  simpl in *. split; simpl.
  - intros w' Hw'. rewrite Hlock in Hw'.
    destruct (Hholder w' Hw') as (q & Hlook & Hin).
    destruct (decide (w' = w)) as [->|Hne]; [congruence|].
    exists q. by rewrite list_lookup_insert_ne.
  - intros w' q Hlook Hin. rewrite Hlock.
    destruct (decide (w' = w)) as [->|Hne].
    + rewrite list_lookup_insert_eq in Hlook by (by eapply lookup_lt_Some).
      congruence.
    + rewrite list_lookup_insert_ne in Hlook by done. by eapply Hlocked.
  - rewrite Hac, Hrows. by rewrite (pending_quiet ps s s' w p p').
  - by rewrite Hac.
  - intros w' i k Hlook Hk. rewrite Hac.
    destruct (decide (w' = w)) as [->|Hne].
    + rewrite list_lookup_insert_eq in Hlook by (by eapply lookup_lt_Some).
      injection Hlook as ->. done.
    + rewrite list_lookup_insert_ne in Hlook by done. by eapply Hfresh.
  - intros w' i Hlook.
    destruct (decide (w' = w)) as [->|Hne].
    + rewrite list_lookup_insert_eq in Hlook by (by eapply lookup_lt_Some).
      destruct Hlook as [[= ->]|[= ->]]; done.
    + rewrite list_lookup_insert_ne in Hlook by done. by eapply Hrange.
Qed.

Lemma claim_inv_init num_cores :
  claim_inv seq_keys (initial_pool seq_keys num_cores).
Proof.
  split; simpl.
  - done.
  - intros w p Hp Hin. apply lookup_replicate in Hp as [-> _]. done.
  - constructor.
  - constructor.
  - intros w i k Hp. by apply lookup_replicate in Hp as [? _].
  - intros w i [Hp|Hp]; by apply lookup_replicate in Hp as [? _].
Qed.

Lemma claim_inv_step c w :
  claim_inv seq_keys c → claim_inv seq_keys (pstep c w).
Proof.
  destruct c as [ps s]. intros Hinv. unfold pool_step. simpl.
  destruct (ps !! w) as [p|] eqn:Hp; [|done].
  pose proof (lookup_lt_Some _ _ _ Hp) as Hw.
  destruct (in_lock p) eqn:Hin.
  - (* inside [with lock:] *)
    pose proof (ci_locked _ _ Hinv w p Hp Hin) as Hlock. simpl in Hlock.
    assert (∀ w' q, w' ≠ w → ps !! w' = Some q → in_lock q = false) as Hothers.
    { intros w' q Hne Hq. destruct (in_lock q) eqn:Hinq; [|done].
      pose proof (ci_locked _ _ Hinv w' q Hq Hinq). simpl in *. congruence. }
    destruct Hinv as [Hholder Hlocked Hclaimed Hnodup Hfresh Hrange].
    simpl in *.
    assert (pending ps s = match p with Unlocking i true => [i] | _ => [] end)
      as Hpend by (unfold pending; by rewrite Hlock, Hp).
    destruct p as [| i | i | i b | | | | | | | | | |]; try done; simpl.
    + (* the membership test *)
      destruct (Hrange w i (or_introl Hp)) as [k Hk]. rewrite Hk.
      destruct (decide (k ∈ already_compared s)) as [Hmem|Hmem]; simpl.
      * split; simpl.
        -- intros w' Hw'. assert (w' = w) as -> by congruence.
           eexists. by rewrite list_lookup_insert_eq.
        -- intros w' q Hq Hinq. destruct (decide (w' = w)) as [->|Hne]; [done|].
           rewrite list_lookup_insert_ne in Hq by done.
           by rewrite (Hothers w' q) in Hinq.
        -- unfold pending at 1. simpl. rewrite Hlock.
           rewrite list_lookup_insert_eq by done. by rewrite Hpend in Hclaimed.
        -- done.
        -- intros w' i' k' Hq. destruct (decide (w' = w)) as [->|Hne].
           ++ by rewrite list_lookup_insert_eq in Hq by done.
           ++ rewrite list_lookup_insert_ne in Hq by done.
              by pose proof (Hothers w' _ Hne Hq).
        -- intros w' i' Hq. destruct (decide (w' = w)) as [->|Hne].
           ++ rewrite list_lookup_insert_eq in Hq by done. by destruct Hq.
           ++ rewrite !list_lookup_insert_ne in Hq by done. by eapply Hrange.
      * split; simpl.
        -- intros w' Hw'. assert (w' = w) as -> by congruence.
           eexists. by rewrite list_lookup_insert_eq.
        -- intros w' q Hq Hinq. destruct (decide (w' = w)) as [->|Hne]; [done|].
           rewrite list_lookup_insert_ne in Hq by done.
           by rewrite (Hothers w' q) in Hinq.
        -- unfold pending at 1. simpl. rewrite Hlock.
           rewrite list_lookup_insert_eq by done. by rewrite Hpend in Hclaimed.
        -- done.
        -- intros w' i' k' Hq Hk'. destruct (decide (w' = w)) as [->|Hne].
           ++ rewrite list_lookup_insert_eq in Hq by done.
              injection Hq as <-. congruence.
           ++ rewrite list_lookup_insert_ne in Hq by done.
              by pose proof (Hothers w' _ Hne Hq).
        -- intros w' i' Hq. destruct (decide (w' = w)) as [->|Hne].
           ++ rewrite list_lookup_insert_eq in Hq by done.
              destruct Hq as [[=]|[= <-]]. eauto.
           ++ rewrite !list_lookup_insert_ne in Hq by done. by eapply Hrange.
    + (* the append *)
      destruct (Hrange w i (or_intror Hp)) as [k Hk]. rewrite Hk. simpl.
      split; simpl.
      * intros w' Hw'. assert (w' = w) as -> by congruence.
        eexists. by rewrite list_lookup_insert_eq.
      * intros w' q Hq Hinq. destruct (decide (w' = w)) as [->|Hne]; [done|].
        rewrite list_lookup_insert_ne in Hq by done.
        by rewrite (Hothers w' q) in Hinq.
      * unfold pending at 1. simpl. rewrite Hlock.
        rewrite list_lookup_insert_eq by done.
        rewrite Hpend, app_nil_r in Hclaimed.
        apply Forall2_app; [done|]. by constructor.
      * apply NoDup_app. split; [done|]. split; [|apply NoDup_singleton].
        intros k' Hk' ->%list_elem_of_singleton. by eapply Hfresh.
      * intros w' i' k' Hq. destruct (decide (w' = w)) as [->|Hne].
        -- by rewrite list_lookup_insert_eq in Hq by done.
        -- rewrite list_lookup_insert_ne in Hq by done.
           by pose proof (Hothers w' _ Hne Hq).
      * intros w' i' Hq. destruct (decide (w' = w)) as [->|Hne].
        -- rewrite list_lookup_insert_eq in Hq by done. by destruct Hq.
        -- rewrite !list_lookup_insert_ne in Hq by done. by eapply Hrange.
    + (* leaving the block *)
      assert (∀ p', in_lock p' = false →
        claim_inv seq_keys (<[w:=p']> ps,
          {| dist_matrix := dist_matrix s; already_compared := already_compared s;
             lock := None; blast_calls := blast_calls s;
             rows_entered := rows_entered s ++ (if b then [(w, i)] else []) |}))
        as Hleave.
      { intros p' Hp'. split; simpl.
        - done.
        - intros w' q Hq Hinq. destruct (decide (w' = w)) as [->|Hne].
          + rewrite list_lookup_insert_eq in Hq by done. congruence.
          + rewrite list_lookup_insert_ne in Hq by done.
            by rewrite (Hothers w' q) in Hinq.
        - unfold pending at 1. simpl. rewrite app_nil_r, fmap_app.
          rewrite Hpend in Hclaimed. destruct b; exact Hclaimed.
        - done.
        - intros w' i' k' Hq. destruct (decide (w' = w)) as [->|Hne].
          + rewrite list_lookup_insert_eq in Hq by done.
            injection Hq as ->. done.
          + rewrite list_lookup_insert_ne in Hq by done.
            by pose proof (Hothers w' _ Hne Hq).
        - intros w' i' Hq. destruct (decide (w' = w)) as [->|Hne].
          + rewrite list_lookup_insert_eq in Hq by done.
            destruct Hq as [[= ->]|[= ->]]; done.
          + rewrite !list_lookup_insert_ne in Hq by done. by eapply Hrange. }
      destruct b; simpl.
      * by apply (Hleave (AtCell i 0)).
      * specialize (Hleave (AtKey (S i)) eq_refl). by rewrite app_nil_r in Hleave.
  - (* outside *)
    assert ((∃ i, p = AtKey i ∧ lock s = None ∧ is_Some (seq_keys !! i)) ∨
            (∀ i, p = AtKey i → is_Some (lock s) ∨ seq_keys !! i = None))
      as [(i & -> & Hfree & [k Hk])|Hno].
    { destruct p as [i| | | | | | | | | | | | |]; try (right; intros i' [=]; fail).
      destruct (lock s) as [w'|]; [right; intros i' _; left; eauto|].
      destruct (seq_keys !! i) as [k|] eqn:Hk; [left; eauto|].
      right. intros i' [= <-]. by right. }
    + (* taking the lock *)
      simpl. rewrite Hk, Hfree. simpl.
      destruct Hinv as [Hholder Hlocked Hclaimed Hnodup Hfresh Hrange].
      simpl in *.
      assert (∀ w' q, ps !! w' = Some q → in_lock q = false) as Hothers.
      { intros w' q Hq. destruct (in_lock q) eqn:Hinq; [|done].
        pose proof (Hlocked w' q Hq Hinq). congruence. }
      split; simpl.
      * intros w' [= <-]. eexists. by rewrite list_lookup_insert_eq.
      * intros w' q Hq Hinq. destruct (decide (w' = w)) as [->|Hne]; [done|].
        rewrite list_lookup_insert_ne in Hq by done.
        by rewrite (Hothers w' q) in Hinq.
      * unfold pending in *. simpl. rewrite Hfree in Hclaimed.
        by rewrite list_lookup_insert_eq.
      * done.
      * intros w' i' k' Hq. destruct (decide (w' = w)) as [->|Hne].
        -- by rewrite list_lookup_insert_eq in Hq by done.
        -- rewrite list_lookup_insert_ne in Hq by done.
           by pose proof (Hothers w' _ Hq).
      * intros w' i' Hq. destruct (decide (w' = w)) as [->|Hne].
        -- rewrite list_lookup_insert_eq in Hq by done.
           destruct Hq as [[= <-]|[=]]. eauto.
        -- rewrite !list_lookup_insert_ne in Hq by done. by eapply Hrange.
    + destruct (worker_step_quiet w p s Hin Hno) as (Hq' & Hlock & Hac & Hrows).
      by apply (claim_inv_quiet ps s _ w p).
Qed.

Lemma next_record_row i j records : row_of (next_record i j records) = Some i.
Proof.
  induction records as [|[|[|e hsps] als] rest IH]; simpl; done.
Qed.

(** The history of entered rows only grows, by the row a worker enters
    when it leaves the lock with [compare_row] set. *)
Lemma worker_step_rows w p s :
  rows_entered (step w p s).2 =
  rows_entered s ++ match p with Unlocking i true => [(w, i)] | _ => [] end.
Proof.
  destruct p as [i|i|i|i b|i j|i j|i j row|i j|i j v rest|i j v row rest
                 |i j v rest|i j v row rest| |]; simpl;
    try (by rewrite app_nil_r).
  - destruct (seq_keys !! i); [|by rewrite app_nil_r].
    destruct (lock s); by rewrite app_nil_r.
  - destruct (seq_keys !! i); [|by rewrite app_nil_r].
    case_decide; by rewrite app_nil_r.
  - destruct (seq_keys !! i); by rewrite app_nil_r.
  - destruct b; [done|by rewrite app_nil_r].
  - destruct (seq_keys !! i) as [k|]; [|by rewrite app_nil_r].
    destruct (seq_keys !! j) as [k2|]; [|by rewrite app_nil_r].
    destruct (getcell _ _ _) as [d| |]; [|by rewrite app_nil_r..].
    destruct (Qeqb d 99); [|by rewrite app_nil_r].
    destruct (decide (k = k2)); [by rewrite app_nil_r|].
    destruct (length_gate_failed _ _ _); by rewrite app_nil_r.
  - destruct (fetch_row s i j 0); by rewrite app_nil_r.
  - unfold store_row. destruct (setitem _ _ _); by rewrite app_nil_r.
  - destruct (seq_keys !! i) as [k|]; [|by rewrite app_nil_r].
    destruct (seq_keys !! j) as [k2|]; by rewrite app_nil_r.
  - destruct (fetch_row s i j v); by rewrite app_nil_r.
  - unfold store_row. destruct (setitem _ _ _); by rewrite app_nil_r.
  - destruct (fetch_row s j i v); by rewrite app_nil_r.
  - unfold store_row. destruct (setitem _ _ _); by rewrite app_nil_r.
Qed.

(** A worker gets into the loop of row [i] only through that exit. *)
Lemma worker_step_row_of w p s i :
  row_of (step w p s).1 = Some i →
  row_of p = Some i ∨ p = Unlocking i true.
Proof.
  destruct p as [i'|i'|i'|i' b|i' j|i' j|i' j row|i' j|i' j v rest|i' j v row rest
                 |i' j v rest|i' j v row rest| |]; simpl; try done.
  - destruct (seq_keys !! i'); [|done]. by destruct (lock s).
  - destruct (seq_keys !! i'); [|done]. by case_decide.
  - by destruct (seq_keys !! i').
  - destruct b; simpl; [|done]. intros [= ->]. by right.
  - destruct (seq_keys !! i') as [k|]; [|done].
    destruct (seq_keys !! j) as [k2|]; [|done].
    destruct (getcell _ _ _) as [d| |]; [|done..].
    destruct (Qeqb d 99); [|by left].
    destruct (decide (k = k2)); [by left|].
    destruct (length_gate_failed _ _ _); by left.
  - destruct (fetch_row s i' j 0); [by left|done..].
  - unfold store_row. destruct (setitem _ _ _); [by left|done..].
  - destruct (seq_keys !! i') as [k|]; [|done].
    destruct (seq_keys !! j) as [k2|]; [|done].
    simpl. rewrite next_record_row. by left.
  - destruct (fetch_row s i' j v); [by left|done..].
  - unfold store_row. destruct (setitem _ _ _); [by left|done..].
  - destruct (fetch_row s j i' v); [by left|done..].
  - unfold store_row. destruct (setitem _ _ _); simpl; [|done..].
    rewrite next_record_row. by left.
Qed.

Lemma pool_step_rows c w :
  rows_entered c.2 `prefix_of` rows_entered (pstep c w).2.
Proof.
  destruct c as [ps s]. unfold pool_step. simpl.
  destruct (ps !! w) as [p|]; [|done]. simpl.
  rewrite worker_step_rows. by apply prefix_app_r.
Qed.

Lemma run_rows sched c :
  rows_entered c.2 `prefix_of` rows_entered (prun sched c).2.
Proof.
  revert c. induction sched as [|w sched IH]; intros c; [done|].
  simpl. etrans; [apply (pool_step_rows c w)|apply IH].
Qed.

Lemma rows_logged_step c w : rows_logged c → rows_logged (pstep c w).
Proof.
  destruct c as [ps s]. intros Hlog. unfold pool_step. simpl.
  destruct (ps !! w) as [p|] eqn:Hp; [|done].
  pose proof (lookup_lt_Some _ _ _ Hp) as Hw.
  intros w' q i Hq Hrow. simpl in *. rewrite worker_step_rows.
  destruct (decide (w' = w)) as [->|Hne].
  - rewrite list_lookup_insert_eq in Hq by done. injection Hq as <-.
    apply worker_step_row_of in Hrow as [Hrow| ->].
    + apply elem_of_app. left. by apply (Hlog w p i).
    + apply elem_of_app. right. apply list_elem_of_here.
  - rewrite list_lookup_insert_ne in Hq by done.
    apply elem_of_app. left. by apply (Hlog w' q i).
Qed.

Lemma rows_logged_run sched c : rows_logged c → rows_logged (prun sched c).
Proof.
  revert c. induction sched as [|w sched IH]; intros c Hlog; [done|].
  simpl. apply IH. by apply rows_logged_step.
Qed.

Lemma rows_logged_init num_cores : rows_logged (initial_pool seq_keys num_cores).
Proof.
  intros w p i Hp. simpl in Hp. apply lookup_replicate in Hp as [-> _]. done.
Qed.

(** The rows ever entered are pairwise different. *)
Lemma rows_entered_nodup c :
  claim_inv seq_keys c → NoDup (snd <$> rows_entered c.2).
Proof.
  intros [_ _ Hclaimed Hnodup _ _].
  apply Forall2_app_inv_r in Hclaimed as (ks1 & ks2 & Hrows & _ & Hks).
  rewrite Hks in Hnodup. apply NoDup_app in Hnodup as (Hnodup & _ & _).
  revert Hnodup. clear Hks. induction Hrows as [|k i ks rows Hk Hrows IH].
  - constructor.
  - intros [Hnotin Hnodup]%NoDup_cons. constructor; [|by apply IH].
    intros Hi. apply Hnotin.
    apply list_elem_of_lookup in Hi as [n Hn].
    destruct (Forall2_lookup_r _ _ _ _ _ Hrows Hn) as (k' & Hk' & Hkey).
    assert (k' = k) as -> by congruence.
    by eapply list_elem_of_lookup_2.
Qed.

Lemma claim_inv_run sched c :
  claim_inv seq_keys c → claim_inv seq_keys (prun sched c).
Proof.
  revert c. induction sched as [|w sched IH]; intros c Hinv; [done|].
  simpl. apply IH. by apply claim_inv_step.
Qed.

Lemma run_app sched1 sched2 c : prun (sched1 ++ sched2) c = prun sched2 (prun sched1 c).
Proof. unfold run. apply foldl_app. Qed.

(** With no sequence key, a worker finishes on its first transition and
    the shared objects stay as they were. *)
Lemma run_no_keys sched : ∀ (ps : list pc) (s : shared key),
  seq_keys = [] →
  (∀ w p, ps !! w = Some p → p = AtKey 0 ∨ p = Finished) →
  (prun sched (ps, s)).2 = s ∧
  length (prun sched (ps, s)).1 = length ps ∧
  (∀ w p, (prun sched (ps, s)).1 !! w = Some p →
     (p = AtKey 0 ∨ p = Finished) ∧
     (w ∈ sched ∨ ps !! w = Some Finished → p = Finished)).
Proof.
  induction sched as [|w sched IH]; intros ps s Hnil Hps.
  - simpl. split; [done|]. split; [done|]. intros w p Hp.
    split; [by eapply Hps|]. intros [Hin|Hfin]; [by apply elem_of_nil in Hin|].
    congruence.
  - destruct (ps !! w) as [p|] eqn:Hp.
    + pose proof (lookup_lt_Some _ _ _ Hp) as Hw.
      assert (pstep (ps, s) w = (<[w:=Finished]> ps, s)) as Hstep.
      { unfold pool_step. simpl. rewrite Hp.
        destruct (Hps w p Hp) as [-> | ->]; simpl; [|done]. by rewrite Hnil. }
      simpl. rewrite Hstep.
      destruct (IH (<[w:=Finished]> ps) s Hnil) as (Hs & Hlen & Hall).
      { intros w' q Hq. destruct (decide (w' = w)) as [->|Hne].
        - rewrite list_lookup_insert_eq in Hq by done. injection Hq as <-. by right.
        - rewrite list_lookup_insert_ne in Hq by done. by eapply Hps. }
      split; [done|]. split; [by rewrite Hlen, length_insert|].
      intros w' q Hq. destruct (Hall w' q Hq) as [Hq1 Hq2]. split; [done|].
      intros [Hin|Hfin]; apply Hq2.
      * apply elem_of_cons in Hin as [->|Hin]; [right|by left].
        by rewrite list_lookup_insert_eq.
      * right. destruct (decide (w' = w)) as [->|Hne].
        -- by rewrite list_lookup_insert_eq.
        -- by rewrite list_lookup_insert_ne.
    + assert (pstep (ps, s) w = (ps, s)) as Hstep.
      { unfold pool_step. simpl. by rewrite Hp. }
      simpl. rewrite Hstep.
      destruct (IH ps s Hnil Hps) as (Hs & Hlen & Hall).
      split; [done|]. split; [done|].
      intros w' q Hq. destruct (Hall w' q Hq) as [Hq1 Hq2]. split; [done|].
      intros [Hin|Hfin]; apply Hq2; [|by right].
      apply elem_of_cons in Hin as [->|Hin]; [|by left].
      apply lookup_lt_Some in Hq. rewrite Hlen in Hq.
      apply lookup_ge_None in Hp. lia.
Qed.

End Claims.
(** ** GuidedClusterBuilder *)

Section GuidedFacts.
Context {key guide gid : Type} `{EqDecision gid}.
Context (guide_id : guide → gid).
Context (guide_length : guide → Z).
Context (seq_length : key → Z).
Context (blastn_guide : guide → key → list blast_record).
Context (length_threshold : Q).
Context (guide_sequences : list guide).
Context (all_seq_keys : list key).

Abbreviation gstep := (gworker_step guide_id guide_length seq_length
  blastn_guide length_threshold guide_sequences all_seq_keys).
Abbreviation gpstep := (gpool_step guide_id guide_length seq_length
  blastn_guide length_threshold guide_sequences all_seq_keys).
Abbreviation gprun := (grun guide_id guide_length seq_length
  blastn_guide length_threshold guide_sequences all_seq_keys).
Abbreviation ok := (gpc_ok guide_length seq_length length_threshold
  guide_sequences all_seq_keys).
Abbreviation adm := (admitted guide_length seq_length length_threshold
  guide_sequences).
Abbreviation ginv := (guided_inv (gid := gid) guide_length seq_length
  length_threshold guide_sequences all_seq_keys).

Lemma gnext_record_ok g k records :
  (∀ key, all_seq_keys !! k = Some key → adm key) →
  ok (gnext_record g k records).
Proof.
  intros Hk. induction records as [|[|[|e hsps] als] rest IH]; simpl; done.
Qed.

(** A transition keeps the keys in the clusters, and those about to be
    written, among the admitted ones. *)
Lemma gworker_step_ok w p (s : gshared key gid) :
  (∀ cl key, cl ∈ clusters s → key ∈ cl → adm key) → ok p →
  (∀ cl key, cl ∈ clusters (gstep w p s).2 → key ∈ cl → adm key) ∧
  ok (gstep w p s).1.
Proof.
  intros Hcl Hp.
  destruct p as [g|g|g|g b|g k|g k|g k rest|g k rest|g k temp rest|g k rest| |];
    simpl in *.
  - destruct (guide_sequences !! g); [|done]. by destruct (glock s).
  - destruct (guide_sequences !! g); [|done]. by case_decide.
  - by destruct (guide_sequences !! g).
  - by destruct b.
  - destruct (guide_sequences !! g) as [gd|] eqn:Hg; [|done].
    destruct (all_seq_keys !! k) as [key0|] eqn:Hk; [|done].
    destruct (length_gate_passed _ _ _) eqn:Hgate; [|done].
    split; [done|]. simpl. intros key1 Hk1. rewrite Hk in Hk1.
    injection Hk1 as <-. exists gd.
    split; [by eapply list_elem_of_lookup_2|done].
  - destruct (guide_sequences !! g) as [gd|]; [|done].
    destruct (all_seq_keys !! k) as [key0|] eqn:Hk; [|done].
    split; [done|]. simpl. apply gnext_record_ok. by rewrite Hk.
  - by destruct (glock s).
  - destruct (getitem (clusters s) g) as [temp| |] eqn:Htemp; [|done..].
    destruct (all_seq_keys !! k) as [key0|] eqn:Hk; [|done].
    split; [done|]. simpl.
    split; [|intros key1 Hk1; apply Hp; congruence].
    intros key1 [Hin|Hin]%elem_of_app.
    + apply getitem_Done in Htemp. apply (Hcl temp); [|done].
      by eapply list_elem_of_lookup_2.
    + apply list_elem_of_singleton in Hin as ->. by apply Hp.
  - destruct Hp as [Htemp Hk].
    unfold setitem. case_decide; [|done]. simpl. split; [|done].
    intros cl key0 Hin Hkey. apply list_elem_of_lookup in Hin as [n Hn].
    destruct (decide (n = g)) as [->|Hne].
    + rewrite list_lookup_insert_eq in Hn by done. injection Hn as <-.
      by apply Htemp.
    + rewrite list_lookup_insert_ne in Hn by done.
      apply (Hcl cl); [by eapply list_elem_of_lookup_2|done].
  - split; [done|]. simpl. by apply gnext_record_ok.
  - done.
  - done.
Qed.

Lemma guided_inv_step c w : ginv c → ginv (gpstep c w).
Proof.
  destruct c as [ps s]. intros [Hcl Hps]. unfold gpool_step. simpl in *.
  destruct (ps !! w) as [p|] eqn:Hp; [|done].
  pose proof (lookup_lt_Some _ _ _ Hp) as Hw.
  destruct (gworker_step_ok w p s Hcl (Hps w p Hp)) as [Hcl' Hp'].
  split; simpl; [done|].
  intros w' q Hq. destruct (decide (w' = w)) as [->|Hne].
  - rewrite list_lookup_insert_eq in Hq by done. by injection Hq as <-.
  - rewrite list_lookup_insert_ne in Hq by done. by eapply Hps.
Qed.

Lemma guided_inv_run sched c : ginv c → ginv (gprun sched c).
Proof.
  revert c. induction sched as [|w sched IH]; intros c Hinv; [done|].
  simpl. apply IH. by apply guided_inv_step.
Qed.

Lemma guided_inv_init num_cores :
  ginv (ginitial_pool guide_sequences num_cores).
Proof.
  split; simpl.
  - intros cl key0 Hcl. apply elem_of_replicate in Hcl as [-> _].
    intros Hin. by apply elem_of_nil in Hin.
  - intros w p Hp. by apply lookup_replicate in Hp as [-> _].
Qed.

(** With no guide in the file, a worker finishes on its first transition
    and the shared objects stay as they were. *)
Lemma grun_no_guides sched : ∀ (ps : list (gpc key)) (s : gshared key gid),
  guide_sequences = [] →
  (∀ w p, ps !! w = Some p → p = GAtGuide 0 ∨ p = GFinished) →
  (gprun sched (ps, s)).2 = s ∧
  length (gprun sched (ps, s)).1 = length ps ∧
  (∀ w p, (gprun sched (ps, s)).1 !! w = Some p →
     (p = GAtGuide 0 ∨ p = GFinished) ∧
     (w ∈ sched ∨ ps !! w = Some GFinished → p = GFinished)).
Proof.
  induction sched as [|w sched IH]; intros ps s Hnil Hps.
  - simpl. split; [done|]. split; [done|]. intros w p Hp.
    split; [by eapply Hps|]. intros [Hin|Hfin]; [by apply elem_of_nil in Hin|].
    congruence.
  - destruct (ps !! w) as [p|] eqn:Hp.
    + pose proof (lookup_lt_Some _ _ _ Hp) as Hw.
      assert (gpstep (ps, s) w = (<[w:=GFinished]> ps, s)) as Hstep.
      { unfold gpool_step. simpl. rewrite Hp.
        destruct (Hps w p Hp) as [-> | ->]; simpl; [|done]. by rewrite Hnil. }
      simpl. rewrite Hstep.
      destruct (IH (<[w:=GFinished]> ps) s Hnil) as (Hs & Hlen & Hall).
      { intros w' q Hq. destruct (decide (w' = w)) as [->|Hne].
        - rewrite list_lookup_insert_eq in Hq by done. injection Hq as <-. by right.
        - rewrite list_lookup_insert_ne in Hq by done. by eapply Hps. }
      split; [done|]. split; [by rewrite Hlen, length_insert|].
      intros w' q Hq. destruct (Hall w' q Hq) as [Hq1 Hq2]. split; [done|].
      intros [Hin|Hfin]; apply Hq2.
      * apply elem_of_cons in Hin as [->|Hin]; [right|by left].
        by rewrite list_lookup_insert_eq.
      * right. destruct (decide (w' = w)) as [->|Hne].
        -- by rewrite list_lookup_insert_eq.
        -- by rewrite list_lookup_insert_ne.
    + assert (gpstep (ps, s) w = (ps, s)) as Hstep.
      { unfold gpool_step. simpl. by rewrite Hp. }
      simpl. rewrite Hstep.
      destruct (IH ps s Hnil Hps) as (Hs & Hlen & Hall).
      split; [done|]. split; [done|].
      intros w' q Hq. destruct (Hall w' q Hq) as [Hq1 Hq2]. split; [done|].
      intros [Hin|Hfin]; apply Hq2; [|by right].
      apply elem_of_cons in Hin as [->|Hin]; [|by left].
      apply lookup_lt_Some in Hq. rewrite Hlen in Hq.
      apply lookup_ge_None in Hp. lia.
Qed.

End GuidedFacts.
(** ** The build by a single worker *)

Lemma set_cell_insert (m : matrix) a b v row :
  m !! a = Some row → <[a := <[b := v]> row]> m = set_cell m a b v.
Proof. intros H. unfold set_cell. by rewrite H. Qed.

Lemma cell_initial_matrix n a b :
  a < n → b < n → cell (initial_matrix n) a b = Some UNCOMPARED.
Proof.
  intros Ha Hb. unfold cell, initial_matrix.
  rewrite lookup_replicate_2 by done. simpl. by rewrite lookup_replicate_2.
Qed.

Lemma square_initial_matrix n : square n (initial_matrix n).
Proof.
  split; [apply length_replicate|].
  intros row Hrow. apply elem_of_replicate in Hrow as [-> _].
  apply length_replicate.
Qed.

Lemma nonnegative_set_cell n m a b v :
  square n m → a < n → b < n → nonnegative m → (0 <= v)%Q →
  nonnegative (set_cell m a b v).
Proof.
  intros Hsq Ha Hb Hnn Hv a' b' d. rewrite (cell_set_cell n) by done.
  case_decide; [by intros [= <-]|apply Hnn].
Qed.

Section SingleWorkerFacts.
Context {key : Type} `{EqDecision key}.
Context (seq_length : key → Z).
Context (blastn : key → key → list blast_record).
Context (length_threshold : Q).
Context (seq_keys : list key).
Context (Hkeys : NoDup seq_keys).
Context (Hscores : nonnegative_scores blastn).

Abbreviation step1 := (worker_step seq_length blastn length_threshold seq_keys).
Abbreviation n_keys := (length seq_keys).
Abbreviation upto := (diagonal_upto seq_keys).
Abbreviation sinv := (single_inv seq_keys).

Lemma progress_ne i j : i ≠ j → progress i (S j) = progress i j.
Proof. intros H. unfold progress. repeat case_decide; lia. Qed.

Lemma mirrored_first_write n m i j v :
  square n m → i < n → j < n → i ≠ j → mirrored m →
  mirrored_except (set_cell m i j v) i j ∧ cell (set_cell m i j v) i j = Some v.
Proof.
  intros Hsq Hi Hj Hne Hm. split.
  - intros a b Hab Hba. rewrite !(cell_set_cell n) by done.
    rewrite !decide_False by tauto. apply Hm.
  - rewrite (cell_set_cell n) by done. by rewrite decide_True.
Qed.

Lemma mirrored_second_write n m i j v :
  square n m → i < n → j < n → i ≠ j →
  mirrored_except m i j → cell m i j = Some v →
  mirrored (set_cell m j i v).
Proof.
  intros Hsq Hi Hj Hne Hm Hv a b. rewrite !(cell_set_cell n) by done.
  destruct (decide (a = j ∧ b = i)) as [[-> ->]|Hab].
  - rewrite decide_False by lia. done.
  - destruct (decide (b = j ∧ a = i)) as [[-> ->]|Hba]; [done|].
    apply Hm; tauto.
Qed.

Lemma upto_off_diagonal m a b v d :
  square n_keys m → a < n_keys → b < n_keys → a ≠ b →
  upto d m → upto d (set_cell m a b v).
Proof.
  intros Hsq Ha Hb Hne Hd r Hr. rewrite (cell_set_cell n_keys) by done.
  rewrite decide_False by lia. by apply Hd.
Qed.

Lemma upto_diagonal m i :
  square n_keys m → i < n_keys → upto i m → upto (S i) (set_cell m i i 0).
Proof.
  intros Hsq Hi Hd r Hr. rewrite (cell_set_cell n_keys) by done.
  destruct (decide (r = i ∧ r = i)) as [[-> _]|Hne].
  - by rewrite decide_True by lia.
  - rewrite (Hd r Hr). repeat case_decide; (done || lia).
Qed.

Lemma key_not_claimed i k :
  seq_keys !! i = Some k → k ∉ take i seq_keys.
Proof.
  intros Hk Hin. apply list_elem_of_lookup in Hin as [i' Hi'].
  apply lookup_take_Some in Hi' as [Hi' Hlt].
  pose proof (NoDup_lookup _ _ _ _ Hkeys Hk Hi'). lia.
Qed.

Lemma records_nonneg_tail r rest :
  records_nonneg (r :: rest) → records_nonneg rest.
Proof.
  intros H record al e Hin. apply (H record al e). by apply list_elem_of_further.
Qed.

(** Where the loop over the BLAST records goes next. *)
Lemma next_record_inv i j records (s : shared key) :
  i < n_keys → j < n_keys → i ≠ j →
  square n_keys (dist_matrix s) → nonnegative (dist_matrix s) →
  already_compared s = take (S i) seq_keys →
  mirrored (dist_matrix s) → upto (progress i j) (dist_matrix s) →
  records_nonneg records →
  sinv (next_record i j records) s.
Proof.
  intros Hi Hj Hne Hsq Hnn Hac Hm Hd.
  induction records as [|[|[|e hsps] als] rest IH]; intros Hrec; simpl.
  - unfold single_inv. rewrite progress_ne by done.
    split; [done|]. split; [done|]. split; [lia|]. split; [lia|]. done.
  - unfold single_inv. repeat (split; [done|]).
    try (split; [by vm_compute|]). by eapply records_nonneg_tail.
  - apply IH. by eapply records_nonneg_tail.
  - unfold single_inv. repeat (split; [done|]). split.
    + apply (Hrec ((e :: hsps) :: als) (e :: hsps) e);
        apply list_elem_of_here.
    + by eapply records_nonneg_tail.
Qed.

Lemma mirrored_diagonal_write n m i v :
  square n m → i < n → mirrored m → mirrored (set_cell m i i v).
Proof.
  intros Hsq Hi Hm a b. rewrite !(cell_set_cell n) by done.
  destruct (decide (a = i ∧ b = i)) as [[-> ->]|Hab].
  - by rewrite decide_True.
  - rewrite decide_False by tauto. apply Hm.
Qed.

Lemma fetch_row_Done (s : shared key) a b v :
  square n_keys (dist_matrix s) → a < n_keys → b < n_keys →
  ∃ row', dist_matrix s !! a = Some row' ∧
          fetch_row s a b v = Done (<[b := v]> row').
Proof.
  intros Hsq Ha Hb.
  destruct (lookup_lt_is_Some_2 (dist_matrix s) a) as [row' Hrow'];
    [by rewrite (proj1 Hsq)|].
  exists row'. split; [done|]. unfold fetch_row.
  rewrite (getitem_lookup _ _ _ Hrow'). simpl.
  apply setitem_Done. by rewrite (square_row _ _ _ _ Hsq Hrow').
Qed.

Lemma store_row_Done (s : shared key) a b v row' :
  square n_keys (dist_matrix s) → dist_matrix s !! a = Some row' →
  store_row s a (<[b := v]> row')
  = Done (with_matrix s (set_cell (dist_matrix s) a b v)).
Proof.
  intros Hsq Hrow'. unfold store_row.
  rewrite setitem_Done by (by eapply lookup_lt_Some). simpl.
  by rewrite (set_cell_insert _ _ _ _ _ Hrow').
Qed.

(** Every transition of the only worker keeps the invariant. *)
Lemma single_inv_step w p (s : shared key) :
  sinv p s → sinv (step1 w p s).1 (step1 w p s).2.
Proof.
  unfold single_inv at 1. intros (Hsq & Hnn & Hp).
  destruct p as [i|i|i|i b|i j|i j|i j row|i j|i j v rest|i j v row rest
                 |i j v rest|i j v row rest| |]; simpl.
  - (* AtKey *)
    destruct Hp as (Hi & Hac & Hm & Hd).
    destruct (seq_keys !! i) as [k|] eqn:Hk.
    + apply lookup_lt_Some in Hk.
      destruct (lock s); unfold single_inv; simpl;
        (split; [done|]); (split; [done|]); repeat (split; [done || lia|]); done.
    + apply lookup_ge_None in Hk. assert (i = n_keys) as -> by lia.
      unfold single_inv. done.
  - (* InLock *)
    destruct Hp as (Hi & Hac & Hm & Hd).
    destruct (lookup_lt_is_Some_2 seq_keys i Hi) as [k Hk]. rewrite Hk.
    destruct (decide (k ∈ already_compared s)) as [Hin|Hin].
    + rewrite Hac in Hin. by apply key_not_claimed in Hin.
    + unfold single_inv. done.
  - (* Claiming *)
    destruct Hp as (Hi & Hac & Hm & Hd).
    destruct (lookup_lt_is_Some_2 seq_keys i Hi) as [k Hk]. rewrite Hk.
    unfold single_inv. simpl. repeat (split; [done|]).
    split; [|done]. by rewrite Hac, (take_S_r _ _ _ Hk).
  - (* Unlocking *)
    destruct Hp as (-> & Hi & Hac & Hm & Hd). unfold single_inv. simpl.
    repeat (split; [done || lia|]).
    unfold progress. by rewrite decide_True by lia.
  - (* AtCell *)
    destruct Hp as (Hi & Hj & Hac & Hm & Hd).
    destruct (lookup_lt_is_Some_2 seq_keys i Hi) as [k Hk]. rewrite Hk.
    destruct (seq_keys !! j) as [k2|] eqn:Hk2.
    + apply lookup_lt_Some in Hk2 as Hj'.
      destruct (square_cell _ _ i j Hsq Hi Hj') as [d Hcell].
      rewrite (getcell_cell _ _ _ _ Hcell).
      destruct (Qeqb d 99) eqn:Hd99.
      * destruct (decide (k = k2)) as [->|Hne].
        -- pose proof (NoDup_lookup _ _ _ _ Hkeys Hk Hk2) as ->.
           unfold single_inv. simpl. repeat (split; [done|]).
           unfold progress in Hd. by rewrite decide_True in Hd by lia.
        -- assert (i ≠ j) as Hij by (intros ->; congruence).
           destruct (length_gate_failed _ _ _); unfold single_inv; simpl.
           ++ repeat (split; [done|]). try (split; [by vm_compute|]).
              intros r al e Hr. by apply elem_of_nil in Hr.
           ++ repeat (split; [done|]). done.
      * assert (i ≠ j) as Hij.
        { intros ->. unfold progress in Hd. rewrite decide_True in Hd by lia.
          rewrite (Hd j Hj') in Hcell. rewrite decide_False in Hcell by lia.
          injection Hcell as <-. done. }
        unfold single_inv. simpl. rewrite progress_ne by done.
        repeat (split; [done || lia|]). done.
    + apply lookup_ge_None in Hk2. assert (j = n_keys) as -> by lia.
      unfold single_inv. simpl. repeat (split; [done || lia|]).
      unfold progress in Hd. by rewrite decide_False in Hd by lia.
  - (* DiagFetch *)
    destruct Hp as (Hi & -> & Hac & Hm & Hd).
    destruct (fetch_row_Done s i i 0 Hsq Hi Hi) as (row' & Hrow' & ->).
    unfold single_inv. simpl. repeat (split; [done|]). eauto.
  - (* DiagStore *)
    destruct Hp as (Hi & -> & Hac & Hm & Hd & row' & Hrow' & ->).
    rewrite (store_row_Done s i i 0 row' Hsq Hrow'). unfold single_inv. simpl.
    split; [by apply square_set_cell|].
    split; [by apply (nonnegative_set_cell n_keys)|].
    repeat (split; [done || lia|]).
    split; [by apply (mirrored_diagonal_write n_keys)|].
    unfold progress. rewrite decide_False by lia. by apply upto_diagonal.
  - (* Blasting *)
    destruct Hp as (Hi & Hj & Hij & Hac & Hm & Hd).
    destruct (lookup_lt_is_Some_2 seq_keys i Hi) as [k Hk]. rewrite Hk.
    destruct (lookup_lt_is_Some_2 seq_keys j Hj) as [k2 Hk2]. rewrite Hk2.
    simpl. apply next_record_inv; try done.
    intros r al e. apply Hscores.
  - (* PairFetch1 *)
    destruct Hp as (Hi & Hj & Hij & Hac & Hm & Hd & Hv & Hrest).
    destruct (fetch_row_Done s i j v Hsq Hi Hj) as (row' & Hrow' & ->).
    unfold single_inv. simpl. repeat (split; [done|]). eauto.
  - (* PairStore1 *)
    destruct Hp as (Hi & Hj & Hij & Hac & Hm & Hd & Hv & Hrest & row' & Hrow' & ->).
    rewrite (store_row_Done s i j v row' Hsq Hrow'). unfold single_inv. simpl.
    destruct (mirrored_first_write n_keys _ i j v Hsq Hi Hj Hij Hm) as [Hm' Hc'].
    split; [by apply square_set_cell|].
    split; [by apply (nonnegative_set_cell n_keys)|].
    repeat (split; [done|]).
    split; [by apply upto_off_diagonal|]. done.
  - (* PairFetch2 *)
    destruct Hp as (Hi & Hj & Hij & Hac & Hm & Hc & Hd & Hv & Hrest).
    destruct (fetch_row_Done s j i v Hsq Hj Hi) as (row' & Hrow' & ->).
    unfold single_inv. simpl. repeat (split; [done|]). eauto.
  - (* PairStore2 *)
    destruct Hp as (Hi & Hj & Hij & Hac & Hm & Hc & Hd & Hv & Hrest & row' & Hrow' & ->).
    rewrite (store_row_Done s j i v row' Hsq Hrow'). simpl.
    apply next_record_inv; simpl; try done.
    + by apply square_set_cell.
    + by apply (nonnegative_set_cell n_keys).
    + by apply (mirrored_second_write n_keys).
    + apply upto_off_diagonal; (done || lia).
  - done.
  - done.
Qed.

End SingleWorkerFacts.

Section SingleWorkerRun.
Context {key : Type} `{EqDecision key}.
Context (seq_length : key → Z).
Context (blastn : key → key → list blast_record).
Context (length_threshold : Q).
Context (seq_keys : list key).
Context (Hkeys : NoDup seq_keys).
Context (Hscores : nonnegative_scores blastn).

Lemma cell_initial_matrix_eq n a b :
  cell (initial_matrix n) a b
  = if decide (a < n ∧ b < n) then Some UNCOMPARED else None.
Proof.
  case_decide as H.
  - destruct H. by apply cell_initial_matrix.
  - destruct (cell (initial_matrix n) a b) as [d|] eqn:Hc; [|done].
    apply (cell_lt n) in Hc; [tauto|apply square_initial_matrix].
Qed.

Lemma single_inv_init :
  single_inv seq_keys (AtKey 0) (initial_pool seq_keys 1).2.
Proof.
  unfold single_inv. simpl.
  split; [apply square_initial_matrix|]. split; [|split; [lia|split; [done|split]]].
  - intros a b d. rewrite cell_initial_matrix_eq. case_decide; [|done].
    intros [= <-]. by vm_compute.
  - intros a b. rewrite !cell_initial_matrix_eq.
    destruct (decide (a < length seq_keys ∧ b < length seq_keys)).
    + by rewrite decide_True by tauto.
    + by rewrite decide_False by tauto.
  - intros r Hr. rewrite cell_initial_matrix by done. by rewrite decide_False by lia.
Qed.

Lemma single_inv_run sched : ∀ p (s : shared key),
  single_inv seq_keys p s →
  ∃ p' s', run seq_length blastn length_threshold seq_keys sched ([p], s)
           = ([p'], s') ∧ single_inv seq_keys p' s'.
Proof.
  induction sched as [|w sched IH]; intros p s Hinv; [by exists p, s|].
  assert (pool_step seq_length blastn length_threshold seq_keys ([p], s) w
          = match w with
            | 0 => ([(worker_step seq_length blastn length_threshold seq_keys
                        0 p s).1],
                    (worker_step seq_length blastn length_threshold seq_keys
                        0 p s).2)
            | S _ => ([p], s)
            end) as Hstep by (by destruct w).
  simpl. rewrite Hstep. destruct w as [|w].
  - apply IH. by apply single_inv_step.
  - by apply IH.
Qed.

Lemma single_inv_finished (s : shared key) :
  single_inv seq_keys Finished s → matrix_ok (length seq_keys) (dist_matrix s).
Proof.
  intros (Hsq & Hnn & Hm & Hd). split; [done|]. split; [|split; [|done]].
  - intros a b x y Hx Hy. rewrite Hm, Hy in Hx. by injection Hx as <-.
  - intros a d Hc. destruct (cell_lt _ _ _ _ _ Hsq Hc) as [Ha _].
    rewrite (Hd a Ha), decide_True in Hc by done. by injection Hc as <-.
Qed.

End SingleWorkerRun.

(** ** Symmetry and diagonal across a merge *)

Lemma update_loop_same n (m : matrix) c idxs :
  square n m → c < n → (∀ i, i ∈ idxs → i < n) →
  update_loop m c c idxs = Done m.
Proof.
  intros Hsq Hc. induction idxs as [|i idxs IH]; intros Hidxs; [done|].
  simpl. unfold update_cell.
  destruct (square_cell n m c i Hsq Hc) as [a Ha];
    [apply Hidxs, list_elem_of_here|].
  rewrite (getcell_cell _ _ _ _ Ha). simpl.
  assert (Qgtb a a = false) as -> by (apply Qgtb_le, Qle_refl). simpl.
  apply IH. intros i' Hi'. by apply Hidxs, list_elem_of_further.
Qed.

Lemma update_matrix_same n (m : matrix) c :
  square n m → c < n →
  update_matrix m c c = Done (delete c <$> delete c m).
Proof.
  intros Hsq Hc. unfold update_matrix.
  destruct (lookup_lt_is_Some_2 m c) as [row Hrow]; [by rewrite (proj1 Hsq)|].
  rewrite (getitem_lookup _ _ _ Hrow). simpl.
  rewrite (update_loop_same n) by
    (done || (intros i Hi; apply elem_of_seq in Hi;
              rewrite (square_row _ _ _ _ Hsq Hrow) in Hi; lia)).
  simpl. rewrite delitem_Done by (by rewrite (proj1 Hsq)). simpl.
  apply delete_column_all. intros r Hr.
  apply list_elem_of_lookup in Hr as [j Hj]. rewrite list_lookup_delete in Hj.
  by rewrite (square_row _ _ _ _ Hsq Hj).
Qed.

Lemma skip_lt c k n : c < n → k < n - 1 → skip c k < n.
Proof. unfold skip. case_decide; lia. Qed.

Lemma matrix_ok_delete n (m : matrix) c :
  matrix_ok n m → c < n → matrix_ok (n - 1) (delete c <$> delete c m).
Proof.
  intros (Hsq & Hsym & Hdiag & Hnn) Hc.
  split; [by apply square_delete|]. split; [|split].
  - intros a b x y. rewrite !cell_delete. apply Hsym.
  - intros a d. rewrite cell_delete. apply Hdiag.
  - intros a b d. rewrite cell_delete. apply Hnn.
Qed.

Lemma matrix_ok_update n (m m' : matrix) c1 c2 :
  matrix_ok n m → c1 < c2 < n → update_matrix m c1 c2 = Done m' →
  matrix_ok (n - 1) m'.
Proof.
  intros (Hsq & Hsym & Hdiag & Hnn) Hc Hrun.
  destruct (update_matrix_cells n m c1 c2 Hsq Hc) as (m1 & Hrun1 & Hsq' & Hcells).
  rewrite Hrun in Hrun1. injection Hrun1 as <-.
  assert (∀ a b d, cell m' a b = Some d →
            skip c2 a < n ∧ skip c2 b < n ∧
            linkage m c1 c2 (skip c2 a) (skip c2 b) = Some d) as Hlink.
  { intros a b d Hd. destruct (cell_lt _ _ _ _ _ Hsq' Hd) as [Ha Hb].
    rewrite Hcells in Hd by done.
    split; [apply skip_lt; lia|]. split; [apply skip_lt; lia|done]. }
  assert (∀ a b d, a < n → b < n → linkage m c1 c2 a b = Some d →
            (a = c1 ∧ ∃ p q, cell m c1 b = Some p ∧ cell m c2 b = Some q ∧
                             d = Qmin p q) ∨
            (a ≠ c1 ∧ b = c1 ∧ ∃ p q z, cell m c1 a = Some p ∧
               cell m c2 a = Some q ∧ cell m a c1 = Some z ∧
               d = if Qgtb p q then q else z) ∨
            (a ≠ c1 ∧ b ≠ c1 ∧ cell m a b = Some d)) as Hcases.
  { intros a b d Ha Hb. unfold linkage.
    destruct (decide (a = c1)) as [->|Ha1].
    - destruct (cell m c1 b) as [p|]; [|done].
      destruct (cell m c2 b) as [q|]; [|done]. simpl.
      intros [= <-]. left. eauto 10.
    - destruct (decide (b = c1)) as [->|Hb1]; [|by right; right].
      destruct (cell m c1 a) as [p|]; [|done].
      destruct (cell m c2 a) as [q|]; [|done].
      destruct (cell m a c1) as [z|]; [|done]. simpl.
      intros [= <-]. right. left. eauto 10. }
  split; [done|]. split; [|split].
  - intros a b x y Hx Hy.
    destruct (Hlink a b x Hx) as (Ha & Hb & Hlx).
    destruct (Hlink b a y Hy) as (_ & _ & Hly).
    destruct (Hcases _ _ x Ha Hb Hlx)
      as [(Ha1 & p & q & Hp & Hq & ->)
         |[(Ha1 & Hb1 & p & q & z & Hp & Hq & Hz & ->)
          |(Ha1 & Hb1 & Hxc)]];
    destruct (Hcases _ _ y Hb Ha Hly)
      as [(Hb2 & p' & q' & Hp' & Hq' & ->)
         |[(Hb2 & Ha2 & p' & q' & z' & Hp' & Hq' & Hz' & ->)
          |(Hb2 & Ha2 & Hyc)]]; try congruence.
    + rewrite Ha1 in *. assert (p' = p) as -> by congruence.
      assert (q' = q) as -> by congruence. rewrite Qmin_gtb.
      destruct (Qgtb p q); [apply Qeq_refl|]. by apply (Hsym c1 (skip c2 b)).
    + rewrite Hb1 in *. assert (p' = p) as -> by congruence.
      assert (q' = q) as -> by congruence. rewrite Qmin_gtb.
      destruct (Qgtb p q); [apply Qeq_refl|]. by apply (Hsym (skip c2 a) c1).
    + by apply (Hsym (skip c2 a) (skip c2 b)).
  - intros a d Hd. destruct (Hlink a a d Hd) as (Ha & _ & Hld).
    destruct (Hcases _ _ d Ha Ha Hld)
      as [(Ha1 & p & q & Hp & Hq & ->)
         |[(Ha1 & Hb1 & _)|(Ha1 & _ & Hdc)]]; [|done|by apply (Hdiag (skip c2 a))].
    rewrite Ha1 in *. pose proof (Hdiag c1 p Hp) as Hp0.
    pose proof (Hnn c2 c1 q Hq) as Hq0. rewrite Qmin_gtb.
    destruct (Qgtb p q) eqn:Hgt; [|done]. apply Qgtb_gt in Hgt. lra.
  - intros a b d Hd. destruct (Hlink a b d Hd) as (Ha & Hb & Hld).
    destruct (Hcases _ _ d Ha Hb Hld)
      as [(Ha1 & p & q & Hp & Hq & ->)
         |[(Ha1 & Hb1 & p & q & z & Hp & Hq & Hz & ->)
          |(Ha1 & Hb1 & Hdc)]].
    + rewrite Qmin_gtb. destruct (Qgtb p q); by eapply Hnn.
    + destruct (Qgtb p q); by eapply Hnn.
    + by eapply Hnn.
Qed.

(** A merging pass of the engine keeps a well-formed matrix well-formed. *)
Lemma matrix_ok_pass {key} n fuel threshold (cl cl' : list (list key)) m m' :
  matrix_ok n m →
  engine_pass fuel cl m threshold = Done (Merged cl' m') →
  matrix_ok (n - 1) m'.
Proof.
  intros Hok. unfold engine_pass. intros H.
  apply obind_Done in H as (st & Hscan & H).
  destruct (Qgtb _ _); [done|].
  apply obind_Done in H as (cl1 & _ & H).
  apply obind_Done in H as (m1 & Hm1 & H). injection H as _ <-.
  destruct (Qlt_le_dec (min_distance st) 99) as [Hlt|Hge].
  - destruct (scan_found m st Hscan Hlt) as [Hc _].
    rewrite (proj1 (proj1 Hok)) in Hc. by eapply matrix_ok_update.
  - destruct (scan_none m st Hscan) as (_ & Hc1 & Hc2); [by apply Qle_not_lt|].
    rewrite Hc1, Hc2 in Hm1.
    assert (0 < n) as Hn.
    { unfold update_matrix in Hm1. apply obind_Done in Hm1 as (row & Hrow & _).
      apply getitem_Done, lookup_lt_Some in Hrow.
      by rewrite (proj1 (proj1 Hok)) in Hrow. }
    rewrite (update_matrix_same n) in Hm1 by (done || apply Hok).
    injection Hm1 as <-. by apply matrix_ok_delete.
Qed.

Lemma matrix_ok_merges {key} threshold (s s' : list (list key) * matrix) :
  rtc (merges_to threshold) s s' →
  matrix_ok (length s.2) s.2 → matrix_ok (length s'.2) s'.2.
Proof.
  induction 1 as [s|s1 s2 s3 [fuel Hpass] _ IH]; [done|].
  intros Hok. apply IH.
  pose proof (matrix_ok_pass _ _ _ _ _ _ _ Hok Hpass) as Hok2.
  by rewrite <- (proj1 (proj1 Hok2)) in Hok2.
Qed.
(** ** Keys through a merge *)

Lemma list_delete_insert_same {A} (l : list A) i y :
  delete i (<[i:=y]> l) = delete i l.
Proof.
  revert i. induction l as [|x l IH]; intros [|i]; simpl; try done.
  by rewrite IH.
Qed.

Section KeysThroughMerge.
Context {key : Type}.
Implicit Types (clusters cl : list (list key)).

(** What the loop that extends [clusters[cluster1]] returns, when it
    returns. *)
Lemma extend_loop_Done fuel : ∀ clusters cl' c1 c2 pos,
  extend_loop fuel clusters c1 c2 pos = Done cl' →
  ∃ src, clusters !! c2 = Some src ∧
    ((length src ≤ pos ∧ cl' = clusters) ∨
     (pos < length src ∧ c1 ≠ c2 ∧
      ∃ dst, clusters !! c1 = Some dst ∧
             cl' = <[c1 := dst ++ drop pos src]> clusters)).
Proof.
  induction fuel as [|fuel IH]; intros clusters cl' c1 c2 pos; [done|].
  simpl. intros H. apply obind_Done in H as (src & Hsrc & H).
  apply getitem_Done in Hsrc. exists src. split; [done|].
  destruct (src !! pos) as [s|] eqn:Hs.
  - apply obind_Done in H as (dst & Hdst & H). apply getitem_Done in Hdst.
    apply lookup_lt_Some in Hs as Hpos.
    pose proof (lookup_lt_Some _ _ _ Hdst) as Hc1.
    apply IH in H as (src2 & Hsrc2 & Hcases). right. split; [done|].
    destruct (decide (c1 = c2)) as [->|Hne].
    + exfalso. rewrite list_lookup_insert_eq in Hsrc2 by done.
      injection Hsrc2 as <-. assert (dst = src) as -> by congruence.
      rewrite length_app in Hcases. simpl in Hcases.
      destruct Hcases as [[Hlen _]|(_ & Hne & _)]; [lia|done].
    + split; [done|]. exists dst. split; [done|].
      rewrite list_lookup_insert_ne in Hsrc2 by done.
      assert (src2 = src) as -> by congruence.
      rewrite (drop_S _ _ _ Hs).
      destruct Hcases as [[Hlen ->]|(_ & _ & dst2 & Hdst2 & ->)].
      * by rewrite (drop_ge src (S pos)) by lia.
      * rewrite list_lookup_insert_eq in Hdst2 by done. injection Hdst2 as <-.
        by rewrite list_insert_insert_eq, <- app_assoc.
  - injection H as <-. left. split; [|done]. by apply lookup_ge_None.
Qed.

(** The merge of two clusters moves keys, it neither drops nor copies
    one. *)
Lemma merge_clusters_Permutation fuel clusters cl' c1 c2 :
  merge_clusters fuel clusters c1 c2 = Done cl' →
  concat cl' ≡ₚ concat clusters.
Proof.
  unfold merge_clusters. intros H. apply obind_Done in H as (cl1 & Hcl1 & H).
  apply extend_loop_Done in Hcl1 as (src & Hsrc & Hcases).
  unfold delitem in H. case_decide as Hc2; [|done]. injection H as <-.
  destruct Hcases as [[Hlen ->]|(_ & Hne & dst & Hdst & ->)].
  - destruct src; [|simpl in Hlen; lia].
    rewrite (delete_Permutation clusters c2 [] Hsrc) at 2. done.
  - rewrite drop_0.
    assert (<[c1:=dst ++ src]> clusters !! c2 = Some src) as Hsrc'
      by (by rewrite list_lookup_insert_ne).
    assert (<[c1:=dst ++ src]> clusters !! c1 = Some (dst ++ src)) as Hdst'
      by (apply list_lookup_insert_eq; by eapply lookup_lt_Some).
    apply (Permutation_app_inv_l src).
    rewrite <- (concat_cons src).
    rewrite <- (delete_Permutation _ c2 src Hsrc').
    rewrite (delete_Permutation _ c1 _ Hdst'), list_delete_insert_same.
    rewrite (delete_Permutation clusters c1 dst Hdst) at 2.
    simpl. rewrite <- !app_assoc. rewrite (assoc_L (++) src dst).
    rewrite (Permutation_app_comm src dst). by rewrite <- app_assoc.
Qed.

Lemma merge_clusters_nonempty fuel clusters cl' c1 c2 :
  merge_clusters fuel clusters c1 c2 = Done cl' →
  (∀ c, c ∈ clusters → c ≠ []) → ∀ c, c ∈ cl' → c ≠ [].
Proof.
  unfold merge_clusters. intros H Hne.
  apply obind_Done in H as (cl1 & Hcl1 & H).
  apply extend_loop_Done in Hcl1 as (src & Hsrc & Hcases).
  unfold delitem in H. case_decide as Hc2; [|done]. injection H as <-.
  intros c Hc. apply list_elem_of_lookup in Hc as [k Hk].
  rewrite list_lookup_delete in Hk.
  destruct Hcases as [[Hlen ->]|(_ & Hne12 & dst & Hdst & ->)].
  - apply Hne. by eapply list_elem_of_lookup_2.
  - destruct (decide ((if decide (k < c2) then k else S k) = c1)) as [Hk1|Hk1].
    + rewrite Hk1, list_lookup_insert_eq in Hk by (by eapply lookup_lt_Some).
      injection Hk as <-. intros [Hd _]%app_eq_nil.
      apply (Hne dst); [by eapply list_elem_of_lookup_2|done].
    + rewrite list_lookup_insert_ne in Hk by done.
      apply Hne. by eapply list_elem_of_lookup_2.
Qed.

Lemma engine_pass_Merged_inv fuel clusters m threshold cl' m' :
  engine_pass fuel clusters m threshold = Done (Merged cl' m') →
  ∃ st, scan m = Done st ∧ (min_distance st <= threshold)%Q ∧
        merge_clusters fuel clusters (cluster1 st) (cluster2 st) = Done cl' ∧
        update_matrix m (cluster1 st) (cluster2 st) = Done m'.
Proof.
  unfold engine_pass. intros H. apply obind_Done in H as (st & Hscan & H).
  destruct (Qgtb _ _) eqn:Hgt; [done|]. apply Qgtb_le in Hgt.
  apply obind_Done in H as (cl1 & Hcl1 & H).
  apply obind_Done in H as (m1 & Hm1 & H). injection H as <- <-.
  by exists st.
Qed.

Lemma engine_pass_Terminated_inv fuel clusters m threshold cl' :
  engine_pass fuel clusters m threshold = Done (Terminated cl') →
  cl' = clusters ∧
  ∃ st, scan m = Done st ∧ (threshold < min_distance st)%Q.
Proof.
  unfold engine_pass. intros H. apply obind_Done in H as (st & Hscan & H).
  destruct (Qgtb _ _) eqn:Hgt.
  - injection H as <-. split; [done|]. exists st. split; [done|].
    by apply Qgtb_gt.
  - apply obind_Done in H as (cl1 & Hcl1 & H).
    by apply obind_Done in H as (m1 & Hm1 & H).
Qed.

Lemma merge_closest_clusters_Permutation fuel : ∀ clusters m threshold result,
  merge_closest_clusters fuel clusters m threshold = Done result →
  concat result ≡ₚ concat clusters ∧
  ((∀ c, c ∈ clusters → c ≠ []) → ∀ c, c ∈ result → c ≠ []) ∧
  length result ≤ length clusters.
Proof.
  induction fuel as [|fuel IH]; intros clusters m threshold result; [done|].
  simpl. intros H. apply obind_Done in H as ([cl'|cl' m'] & Hpass & H).
  - injection H as <-. apply engine_pass_Terminated_inv in Hpass as [-> _]. done.
  - pose proof (engine_pass_merged_lengths _ _ _ _ _ _ Hpass) as (Hlen & _ & _).
    apply engine_pass_Merged_inv in Hpass as (st & _ & _ & Hcl & _).
    apply IH in H as (Hperm & Hne & Hle).
    split; [by rewrite Hperm; eapply merge_clusters_Permutation|].
    split; [|lia]. intros Hcl0. apply Hne.
    by eapply merge_clusters_nonempty.
Qed.

End KeysThroughMerge.
(** ** Single linkage and the threshold graph *)

Lemma skip_ne c k : skip c k ≠ c.
Proof. unfold skip. case_decide; lia. Qed.

Lemma skip_inj c k k' : skip c k = skip c k' → k = k'.
Proof. unfold skip. repeat case_decide; lia. Qed.

Lemma linkage_cases (m : matrix) c1 c2 a b y :
  linkage m c1 c2 a b = Some y →
  (a = c1 ∧ ∃ p q, cell m c1 b = Some p ∧ cell m c2 b = Some q ∧
                   y = Qmin p q) ∨
  (a ≠ c1 ∧ b = c1 ∧ ∃ p q z, cell m c1 a = Some p ∧ cell m c2 a = Some q ∧
     cell m a c1 = Some z ∧ y = if Qgtb p q then q else z) ∨
  (a ≠ c1 ∧ b ≠ c1 ∧ cell m a b = Some y).
Proof.
  unfold linkage. destruct (decide (a = c1)) as [->|Ha1].
  - destruct (cell m c1 b) as [p|]; [|done].
    destruct (cell m c2 b) as [q|]; [|done]. simpl.
    intros [= <-]. left. eauto 10.
  - destruct (decide (b = c1)) as [->|Hb1]; [|by right; right].
    destruct (cell m c1 a) as [p|]; [|done].
    destruct (cell m c2 a) as [q|]; [|done].
    destruct (cell m a c1) as [z|]; [|done]. simpl.
    intros [= <-]. right. left. eauto 10.
Qed.

Lemma merged_lookup {A} (cl : list (list A)) c1 c2 A1 A2 a C :
  c1 < c2 → cl !! c1 = Some A1 →
  delete c2 (<[c1 := A1 ++ A2]> cl) !! a = Some C →
  (skip c2 a = c1 ∧ C = A1 ++ A2) ∨
  (skip c2 a ≠ c1 ∧ cl !! skip c2 a = Some C).
Proof.
  intros Hc Hc1. rewrite list_lookup_delete. fold (skip c2 a).
  destruct (decide (skip c2 a = c1)) as [->|Hne].
  - rewrite list_lookup_insert_eq by (by eapply lookup_lt_Some).
    intros [= <-]. by left.
  - rewrite list_lookup_insert_ne by done. by right.
Qed.

Section Components.
Context (d : matrix) (threshold : Q).
Context (Hd : matrix_ok (length d) d).

Lemma close_sym i j : close d threshold i j → close d threshold j i.
Proof.
  intros (x & Hx & Hle). destruct Hd as (Hsq & Hsym & _).
  destruct (cell_lt _ _ _ _ _ Hsq Hx) as [Hi Hj].
  destruct (square_cell _ _ j i Hsq Hj Hi) as [x' Hx'].
  exists x'. split; [done|]. pose proof (Hsym i j x x' Hx Hx'). lra.
Qed.

Lemma chain_sym i j : rtc (close d threshold) i j → rtc (close d threshold) j i.
Proof.
  induction 1 as [|i k j Hik _ IH]; [done|].
  eapply rtc_r; [done|]. by apply close_sym.
Qed.

(** The cell of [d] mirrored, with the same value up to [==]. *)
Lemma mirror_cell i j x :
  cell d i j = Some x → ∃ x', cell d j i = Some x' ∧ (x' == x)%Q.
Proof.
  intros Hx. destruct Hd as (Hsq & Hsym & _).
  destruct (cell_lt _ _ _ _ _ Hsq Hx) as [Hi Hj].
  destruct (square_cell _ _ j i Hsq Hj Hi) as [x' Hx'].
  exists x'. split; [done|]. by apply (Hsym j i).
Qed.

Lemma linkage_inv_merge cl m c1 c2 A1 A2 m' y0 :
  linkage_inv d threshold cl m →
  c1 < c2 < length cl →
  cl !! c1 = Some A1 → cl !! c2 = Some A2 →
  cell m c1 c2 = Some y0 → (y0 <= threshold)%Q →
  update_matrix m c1 c2 = Done m' →
  linkage_inv d threshold (delete c2 (<[c1 := A1 ++ A2]> cl)) m'.
Proof.
  intros [Hok Hmem Hne Hlow Hatt Hchain] Hc HA1 HA2 Hy0 Hy0T Hm'.
  set (cl' := delete c2 (<[c1 := A1 ++ A2]> cl)).
  assert (length cl' = length cl - 1) as Hlen'.
  { unfold cl'. apply merged_length. lia. }
  pose proof (matrix_ok_update _ _ _ _ _ Hok Hc Hm') as Hok'.
  destruct (update_matrix_cells _ m c1 c2 (proj1 Hok) Hc) as (m1 & Hm1 & Hsq' & Hcells).
  rewrite Hm' in Hm1. injection Hm1 as <-.
  assert (∀ a b y, cell m' a b = Some y →
            linkage m c1 c2 (skip c2 a) (skip c2 b) = Some y) as Hlink.
  { intros a b y Hy. destruct (cell_lt _ _ _ _ _ Hsq' Hy) as [Ha Hb].
    by rewrite Hcells in Hy. }
  assert (∀ C, C ∈ cl' → C = A1 ++ A2 ∨ C ∈ cl) as Hin'.
  { intros C [a Ha]%list_elem_of_lookup.
    destruct (merged_lookup cl c1 c2 A1 A2 a C) as [[_ ->]|[_ HC]];
      [lia|done|done|by left|right]. by eapply list_elem_of_lookup_2. }
  assert (A1 ∈ cl) as HA1in by (by eapply list_elem_of_lookup_2).
  assert (A2 ∈ cl) as HA2in by (by eapply list_elem_of_lookup_2).
  destruct Hok as (Hsq & Hsym & Hdiag & Hnn).
  split.
  - by rewrite Hlen'.
  - intros C i HC Hi. destruct (Hin' C HC) as [->|HC'].
    + apply elem_of_app in Hi as [Hi|Hi];
        [by apply (Hmem A1)|by apply (Hmem A2)].
    + by apply (Hmem C).
  - intros C HC. destruct (Hin' C HC) as [->|HC']; [|by apply Hne].
    intros [H1 _]%app_eq_nil. by apply (Hne A1).
  - (* lower bound *)
    intros a b A B i j x y Hab HA HB Hi Hj Hx Hy.
    apply Hlink in Hy.
    assert (skip c2 a ≠ skip c2 b) as Hab' by (intros H%skip_inj; done).
    destruct (merged_lookup cl c1 c2 A1 A2 a A ltac:(lia) HA1 HA)
      as [[Ha1 ->]|[Ha1 HA']];
    destruct (merged_lookup cl c1 c2 A1 A2 b B ltac:(lia) HA1 HB)
      as [[Hb1 ->]|[Hb1 HB']]; try congruence;
    destruct (linkage_cases _ _ _ _ _ _ Hy)
      as [(Ha2 & p & q & Hp & Hq & ->)
         |[(Ha2 & Hb2 & p & q & z & Hp & Hq & Hz & ->)
          |(Ha2 & Hb2 & Hyc)]]; try congruence.
    + (* the merged row *)
      pose proof (Q.le_min_l p q). pose proof (Q.le_min_r p q).
      apply elem_of_app in Hi as [Hi|Hi].
      * pose proof (Hlow c1 (skip c2 b) A1 B i j x p ltac:(congruence)
                      HA1 HB' Hi Hj Hx Hp). lra.
      * pose proof (Hlow c2 (skip c2 b) A2 B i j x q
                      ltac:(apply not_eq_sym, skip_ne) HA2 HB' Hi Hj Hx Hq). lra.
    + (* the merged column *)
      destruct (mirror_cell i j x Hx) as (x' & Hx' & Hxx).
      pose proof (Hsym _ _ _ _ Hz Hp) as Hzp.
      destruct (Qgtb p q) eqn:Hgt;
        [apply Qgtb_gt in Hgt|apply Qgtb_le in Hgt];
        apply elem_of_app in Hj as [Hj|Hj].
      * pose proof (Hlow c1 (skip c2 a) A1 A j i x' p ltac:(congruence)
                      HA1 HA' Hj Hi Hx' Hp). lra.
      * pose proof (Hlow c2 (skip c2 a) A2 A j i x' q
                      ltac:(apply not_eq_sym, skip_ne) HA2 HA' Hj Hi Hx' Hq). lra.
      * rewrite Hb1 in *.
        by apply (Hlow (skip c2 a) c1 A A1 i j x z).
      * pose proof (Hlow c2 (skip c2 a) A2 A j i x' q
                      ltac:(apply not_eq_sym, skip_ne) HA2 HA' Hj Hi Hx' Hq). lra.
    + by apply (Hlow (skip c2 a) (skip c2 b) A B i j x y).
  - (* attained *)
    intros a b A B y Hab HA HB Hy.
    apply Hlink in Hy.
    assert (skip c2 a ≠ skip c2 b) as Hab' by (intros H%skip_inj; done).
    destruct (merged_lookup cl c1 c2 A1 A2 a A ltac:(lia) HA1 HA)
      as [[Ha1 ->]|[Ha1 HA']];
    destruct (merged_lookup cl c1 c2 A1 A2 b B ltac:(lia) HA1 HB)
      as [[Hb1 ->]|[Hb1 HB']]; try congruence;
    destruct (linkage_cases _ _ _ _ _ _ Hy)
      as [(Ha2 & p & q & Hp & Hq & ->)
         |[(Ha2 & Hb2 & p & q & z & Hp & Hq & Hz & ->)
          |(Ha2 & Hb2 & Hyc)]]; try congruence.
    + rewrite Qmin_gtb. destruct (Qgtb p q).
      * destruct (Hatt c2 (skip c2 b) A2 B q ltac:(apply not_eq_sym, skip_ne)
                    HA2 HB' Hq) as (i & j & x & Hi & Hj & Hx & Hxq).
        exists i, j, x. split; [apply elem_of_app; by right|done].
      * destruct (Hatt c1 (skip c2 b) A1 B p ltac:(congruence)
                    HA1 HB' Hp) as (i & j & x & Hi & Hj & Hx & Hxp).
        exists i, j, x. split; [apply elem_of_app; by left|done].
    + destruct (Qgtb p q).
      * destruct (Hatt c2 (skip c2 a) A2 A q ltac:(apply not_eq_sym, skip_ne)
                    HA2 HA' Hq) as (i & j & x & Hi & Hj & Hx & Hxq).
        destruct (mirror_cell i j x Hx) as (x' & Hx' & Hxx).
        exists j, i, x'. split; [done|]. split; [apply elem_of_app; by right|].
        split; [done|]. lra.
      * rewrite Hb1 in *.
        destruct (Hatt (skip c2 a) c1 A A1 z ltac:(done) HA' HA1 Hz)
          as (i & j & x & Hi & Hj & Hx & Hxz).
        exists i, j, x. split; [done|]. split; [apply elem_of_app; by left|done].
    + by apply (Hatt (skip c2 a) (skip c2 b) A B y).
  - (* chains *)
    intros C i j HC Hi Hj. destruct (Hin' C HC) as [->|HC'];
      [|by apply (Hchain C)].
    destruct (Hatt c1 c2 A1 A2 y0 ltac:(lia) HA1 HA2 Hy0)
      as (i0 & j0 & x & Hi0 & Hj0 & Hx & Hxy).
    assert (close d threshold i0 j0) as Hclose
      by (exists x; split; [done|lra]).
    apply elem_of_app in Hi as [Hi|Hi]; apply elem_of_app in Hj as [Hj|Hj].
    + by apply (Hchain A1).
    + etrans; [by apply (Hchain A1 i i0)|].
      eapply rtc_l; [done|]. by apply (Hchain A2).
    + etrans; [by apply (Hchain A2 i j0)|].
      eapply rtc_l; [by apply close_sym|]. by apply (Hchain A1).
    + by apply (Hchain A2).
Qed.


Lemma linkage_inv_pass fuel cl m cl' m' :
  (threshold < 99)%Q →
  linkage_inv d threshold cl m →
  engine_pass fuel cl m threshold = Done (Merged cl' m') →
  linkage_inv d threshold cl' m'.
Proof.
  intros HT Hinv Hpass.
  apply engine_pass_Merged_inv in Hpass as (st & Hscan & Hmin & Hcl & Hm').
  destruct (scan_found m st Hscan ltac:(lra)) as [Hc Hcell].
  rewrite (proj1 (proj1 (li_ok _ _ _ _ Hinv))) in Hc.
  unfold merge_clusters in Hcl.
  apply obind_Done in Hcl as (cl1 & Hext & Hdel).
  apply extend_loop_Done in Hext as (A2 & HA2 & Hcase).
  assert (A2 ≠ []) as Hne.
  { apply (li_nonempty _ _ _ _ Hinv). by eapply list_elem_of_lookup_2. }
  destruct Hcase as [[Hlen _]|(_ & _ & A1 & HA1 & ->)].
  { destruct A2; [done|simpl in Hlen; lia]. }
  rewrite drop_0 in Hdel.
  unfold delitem in Hdel. case_decide; [|done]. injection Hdel as <-.
  by eapply linkage_inv_merge.
Qed.

Lemma linkage_inv_run fuel : ∀ cl m result,
  (threshold < 99)%Q →
  linkage_inv d threshold cl m →
  merge_closest_clusters fuel cl m threshold = Done result →
  ∃ m' st, linkage_inv d threshold result m' ∧ scan m' = Done st ∧
           (threshold < min_distance st)%Q.
Proof.
  induction fuel as [|fuel IH]; intros cl m result HT Hinv; [done|].
  simpl. intros H. apply obind_Done in H as ([cl'|cl' m'] & Hpass & H).
  - injection H as <-.
    apply engine_pass_Terminated_inv in Hpass as (-> & st & Hscan & Hlt).
    by exists m, st.
  - eapply IH; [done| |done]. by eapply linkage_inv_pass.
Qed.

(** Once the scan finds nothing within the threshold, members of
    different clusters are farther apart than the threshold. *)
Lemma linkage_separated cl m st a b A B i j x :
  linkage_inv d threshold cl m →
  scan m = Done st → (threshold < min_distance st)%Q →
  a ≠ b → cl !! a = Some A → cl !! b = Some B → i ∈ A → j ∈ B →
  cell d i j = Some x → (threshold < x)%Q.
Proof.
  intros Hinv Hscan Hlt Hab HA HB Hi Hj Hx.
  destruct (li_ok _ _ _ _ Hinv) as (Hsq & Hsym & _ & Hnn).
  pose proof (lookup_lt_Some _ _ _ HA) as Ha.
  pose proof (lookup_lt_Some _ _ _ HB) as Hb.
  destruct (square_cell _ _ a b Hsq Ha Hb) as [y Hy].
  destruct (square_cell _ _ b a Hsq Hb Ha) as [y' Hy'].
  pose proof (li_lower _ _ _ _ Hinv a b A B i j x y Hab HA HB Hi Hj Hx Hy).
  pose proof (Hsym a b y y' Hy Hy').
  destruct (scan_first_minimum _ m Hsq Hnn)
    as (st' & rest & Hscan' & _ & _ & _ & Hmin & _).
  rewrite Hscan in Hscan'. injection Hscan' as <-.
  destruct (decide (a < b)).
  - pose proof (Hmin a b y ltac:(lia) Hy). lra.
  - pose proof (Hmin b a y' ltac:(lia) Hy'). lra.
Qed.

Lemma linkage_inv_init :
  linkage_inv d threshold ((λ s, [s]) <$> seq 0 (length d)) d.
Proof.
  assert (∀ a A, ((λ s : nat, [s]) <$> seq 0 (length d)) !! a = Some A →
            a < length d ∧ A = [a]) as Hlook.
  { intros a A. rewrite list_lookup_fmap.
    destruct (seq 0 (length d) !! a) as [s|] eqn:Hs; [|done].
    apply lookup_seq in Hs as [-> ?]. simpl. intros [= <-]. done. }
  split.
  - by rewrite length_fmap, length_seq.
  - intros A i [a [Ha ->]%Hlook]%list_elem_of_lookup Hi.
    apply list_elem_of_singleton in Hi as ->. done.
  - intros A [a [Ha ->]%Hlook]%list_elem_of_lookup. done.
  - intros a b A B i j x y _ [_ ->]%Hlook [_ ->]%Hlook Hi Hj Hx Hy.
    apply list_elem_of_singleton in Hi as ->.
    apply list_elem_of_singleton in Hj as ->.
    rewrite Hx in Hy. injection Hy as <-. lra.
  - intros a b A B y _ [_ ->]%Hlook [_ ->]%Hlook Hy.
    exists a, b, y. repeat (split; [by apply list_elem_of_singleton|]).
    split; [done|lra].
  - intros A i j [a [Ha ->]%Hlook]%list_elem_of_lookup Hi Hj.
    apply list_elem_of_singleton in Hi as ->.
    apply list_elem_of_singleton in Hj as ->. done.
Qed.

End Components.

Lemma elem_of_concat {A} (l : list (list A)) x :
  x ∈ concat l ↔ ∃ c, c ∈ l ∧ x ∈ c.
Proof.
  induction l as [|c l IH]; simpl.
  - split; [by intros ?%elem_of_nil|by intros (c & ?%elem_of_nil & _)].
  - rewrite elem_of_app, IH. split.
    + intros [H|(c' & H1 & H2)].
      * exists c. split; [apply list_elem_of_here|done].
      * exists c'. split; [by apply list_elem_of_further|done].
    + intros (c' & [->|H1]%elem_of_cons & H2); [by left|right; eauto].
Qed.

Lemma concat_lookup_unique {A} (l : list (list A)) a b x y k :
  NoDup (concat l) → l !! a = Some x → l !! b = Some y →
  k ∈ x → k ∈ y → a = b.
Proof.
  revert a b. induction l as [|z l IH]; intros a b; [done|].
  simpl. intros [Hz [Hdisj Hl]]%NoDup_app Ha Hb Hx Hy.
  destruct a as [|a], b as [|b]; simpl in *.
  - done.
  - injection Ha as ->. exfalso. apply (Hdisj k Hx).
    apply elem_of_concat. exists y. split; [|done].
    by eapply list_elem_of_lookup_2.
  - injection Hb as ->. exfalso. apply (Hdisj k Hy).
    apply elem_of_concat. exists x. split; [|done].
    by eapply list_elem_of_lookup_2.
  - f_equal. by apply IH.
Qed.

(** The clusters of positions are the connected components of the
    threshold graph. *)
Lemma components_positions (d : matrix) threshold fuel result :
  matrix_ok (length d) d → (threshold < 99)%Q →
  make_clusters fuel (seq 0 (length d)) d threshold = Done result →
  NoDup (concat result) ∧
  (∀ i, i < length d → ∃ A, A ∈ result ∧ i ∈ A) ∧
  (∀ A i, A ∈ result → i ∈ A → i < length d) ∧
  ∀ i j, i < length d → j < length d →
    (∃ A, A ∈ result ∧ i ∈ A ∧ j ∈ A) ↔ rtc (close d threshold) i j.
Proof.
  intros Hd HT Hrun. unfold make_clusters in Hrun.
  destruct (merge_closest_clusters_Permutation _ _ _ _ _ Hrun) as (Hperm & _ & _).
  assert (concat ((λ s : nat, [s]) <$> seq 0 (length d)) = seq 0 (length d))
    as Hflat.
  { generalize (seq 0 (length d)). induction l as [|s l IH]; [done|].
    rewrite fmap_cons.
    change (s :: concat ((λ s : nat, [s]) <$> l) = s :: l). by rewrite IH. }
  rewrite Hflat in Hperm.
  destruct (linkage_inv_run d threshold Hd fuel _ _ _ HT
              (linkage_inv_init d threshold Hd) Hrun)
    as (m' & st & Hinv & Hscan & Hlt).
  assert (NoDup (concat result)) as Hnd.
  { rewrite Hperm. apply NoDup_seq. }
  assert (∀ i, i < length d → ∃ A, A ∈ result ∧ i ∈ A) as Hcover.
  { intros i Hi. assert (i ∈ concat result) as Hin.
    { rewrite Hperm. apply elem_of_seq. lia. }
    apply elem_of_concat in Hin as (A & ? & ?). eauto. }
  split; [done|]. split; [done|].
  split; [by apply (li_members _ _ _ _ Hinv)|].
  intros i j Hi Hj. split.
  - intros (A & HA & HiA & HjA). by apply (li_chain _ _ _ _ Hinv A).
  - intros Hchain. induction Hchain as [i|i k j Hik Hkj IH].
    + destruct (Hcover i Hi) as (A & ? & ?). eauto.
    + destruct Hik as (x & Hx & Hle).
      destruct (cell_lt _ _ _ _ _ (proj1 Hd) Hx) as [_ Hk].
      destruct (IH Hk Hj) as (A & HA & HkA & HjA).
      destruct (Hcover i Hi) as (B & HB & HiB).
      apply list_elem_of_lookup in HA as [a Ha].
      apply list_elem_of_lookup in HB as [b Hb].
      destruct (decide (b = a)) as [->|Hne].
      * rewrite Ha in Hb. injection Hb as <-.
        exists A. split; [by eapply list_elem_of_lookup_2|done].
      * pose proof (linkage_separated d threshold _ _ _ b a B A i k x
                      Hinv Hscan Hlt Hne Hb Ha HiB HkA Hx). lra.
Qed.
(** ** The engine does not look at the keys *)

Lemma extend_loop_fmap {A B} (f : A → B) fuel :
  ∀ (cl : list (list A)) c1 c2 pos,
  extend_loop fuel (rename f cl) c1 c2 pos
  = outcome_map (rename f) (extend_loop fuel cl c1 c2 pos).
Proof.
  induction fuel as [|fuel IH]; intros cl c1 c2 pos; [done|].
  simpl. unfold getitem, rename. rewrite !list_lookup_fmap.
  destruct (cl !! c2) as [src|]; simpl; [|done].
  rewrite list_lookup_fmap. destruct (src !! pos) as [s|]; simpl; [|done].
  destruct (cl !! c1) as [dst|]; simpl; [|done].
  fold (rename f cl). rewrite <- IH. f_equal. unfold rename.
  by rewrite list_fmap_insert, fmap_app.
Qed.

Lemma merge_clusters_fmap {A B} (f : A → B) fuel (cl : list (list A)) c1 c2 :
  merge_clusters fuel (rename f cl) c1 c2
  = outcome_map (rename f) (merge_clusters fuel cl c1 c2).
Proof.
  unfold merge_clusters. rewrite extend_loop_fmap.
  destruct (extend_loop fuel cl c1 c2 0) as [cl'| |]; simpl; [|done..].
  unfold delitem, rename. rewrite length_fmap. case_decide; [|done].
  simpl. by rewrite list_fmap_delete.
Qed.

Lemma merge_closest_clusters_fmap {A B} (f : A → B) fuel :
  ∀ (cl : list (list A)) m threshold,
  merge_closest_clusters fuel (rename f cl) m threshold
  = outcome_map (rename f) (merge_closest_clusters fuel cl m threshold).
Proof.
  induction fuel as [|fuel IH]; intros cl m threshold; [done|].
  simpl. unfold engine_pass.
  destruct (scan m) as [st| |]; simpl; [|done..].
  destruct (Qgtb (min_distance st) threshold); simpl; [done|].
  rewrite merge_clusters_fmap.
  destruct (merge_clusters fuel cl (cluster1 st) (cluster2 st))
    as [cl'| |]; simpl; [|done..].
  destruct (update_matrix m (cluster1 st) (cluster2 st))
    as [m'| |]; simpl; [|done..].
  apply IH.
Qed.

Lemma make_clusters_fmap {A B} (f : A → B) fuel (keys : list A) m threshold :
  make_clusters fuel (f <$> keys) m threshold
  = outcome_map (rename f) (make_clusters fuel keys m threshold).
Proof.
  unfold make_clusters. rewrite <- merge_closest_clusters_fmap.
  f_equal. unfold rename. rewrite <- !list_fmap_compose. done.
Qed.

Lemma keys_by_position {A} (l : list A) (x : A) :
  l = (λ p, default x (l !! p)) <$> seq 0 (length l).
Proof.
  apply list_eq. intros p. rewrite list_lookup_fmap.
  destruct (decide (p < length l)) as [Hp|Hp].
  - rewrite lookup_seq_lt by done. simpl.
    destruct (lookup_lt_is_Some_2 l p Hp) as [y Hy]. by rewrite Hy.
  - rewrite lookup_seq_ge by lia. simpl. apply lookup_ge_None_2. lia.
Qed.

(** * Part IV: the claims *)

(** ** ClusterEngine *)

(** C5.  On an n x n matrix of non-negative distances the scan reads the
    cells of the index pairs (x, y), x < y, in row-major order (lower x
    first, then lower y): the pairs it has examined are an initial segment
    of that enumeration.  It stops before the end only after reading a cell
    equal to 0, and it does so at the first such cell.  Its minimum is a
    lower bound of every off-diagonal cell, and when it is below the initial
    99 the selected pair (cluster1, cluster2) holds that minimum and every
    pair examined before it holds a strictly larger value, so that among
    equal minima the first pair in scan order is selected. *)
Theorem scan_row_major_first_minimum n (m : matrix) :
  square n m →
  (∀ x y d, cell m x y = Some d → (0 <= d)%Q) →
  StronglySorted scanned_before (all_pairs n) ∧
  (∀ x y, (x, y) ∈ all_pairs n ↔ x < y < n) ∧
  ∃ st rest,
    scan m = Done st ∧
    all_pairs n = examined st ++ rest ∧
    (∀ l p, examined st = l ++ [p] → nozero m l) ∧
    (rest ≠ [] → ∃ l p d, examined st = l ++ [p] ∧
                   cell m p.1 p.2 = Some d ∧ (d == 0)%Q) ∧
    (∀ x y d, x < y < n → cell m x y = Some d → (min_distance st <= d)%Q) ∧
    ((min_distance st < 99)%Q →
       ∃ l1 l2, examined st = l1 ++ (cluster1 st, cluster2 st) :: l2 ∧
         cell m (cluster1 st) (cluster2 st) = Some (min_distance st) ∧
         ∀ p d, p ∈ l1 → cell m p.1 p.2 = Some d → (min_distance st < d)%Q).
Proof.
  intros Hsq Hnn. split; [apply all_pairs_sorted|].
  split; [apply elem_of_all_pairs|]. by apply scan_first_minimum.
Qed.

Lemma scenario_square : square 5 scenario_matrix.
Proof. apply squareb_square. reflexivity. Qed.

Lemma scenario_nonneg x y d : cell scenario_matrix x y = Some d → (0 <= d)%Q.
Proof.
  intros Hc. destruct (cell_lt 5 _ _ _ _ scenario_square Hc) as [Hx Hy].
  do 5 (destruct x as [|x]; [do 5 (destruct y as [|y];
     [injection Hc as <-; by vm_compute|]); lia|]). lia.
Qed.

Lemma scan_row_major_first_minimum_witness :
  StronglySorted scanned_before (all_pairs 5) ∧
  (∀ x y, (x, y) ∈ all_pairs 5 ↔ x < y < 5) ∧
  ∃ st rest,
    scan scenario_matrix = Done st ∧
    all_pairs 5 = examined st ++ rest ∧
    (∀ l p, examined st = l ++ [p] → nozero scenario_matrix l) ∧
    (rest ≠ [] → ∃ l p d, examined st = l ++ [p] ∧
                   cell scenario_matrix p.1 p.2 = Some d ∧ (d == 0)%Q) ∧
    (∀ x y d, x < y < 5 → cell scenario_matrix x y = Some d →
              (min_distance st <= d)%Q) ∧
    ((min_distance st < 99)%Q →
       ∃ l1 l2, examined st = l1 ++ (cluster1 st, cluster2 st) :: l2 ∧
         cell scenario_matrix (cluster1 st) (cluster2 st)
           = Some (min_distance st) ∧
         ∀ p d, p ∈ l1 → cell scenario_matrix p.1 p.2 = Some d →
                (min_distance st < d)%Q).
Proof.
  exact (scan_row_major_first_minimum 5 scenario_matrix
           scenario_square scenario_nonneg).
Defined.

(** C4.  A merge of cluster [c2] into cluster [c1] (c1 < c2) on an n x n
    matrix leaves, for every remaining index k (k' after the deletion of
    row and column c2), the value min(m[c1][k], m[c2][k]) of the matrix
    before the merge in row c1; column c1 receives the same value,
    m[c2][k], whenever the row is lowered, and is left alone otherwise, so
    that row and column agree when they agreed before.  The new distance is
    at most both distances before the merge. *)
Theorem merge_takes_single_linkage_minimum n (m : matrix) c1 c2 :
  square n m → c1 < c2 < n →
  ∃ m', update_matrix m c1 c2 = Done m' ∧ square (n - 1) m' ∧
    ∀ k x y z, k < n → k ≠ c2 →
      cell m c1 k = Some x → cell m c2 k = Some y → cell m k c1 = Some z →
      let k' := if decide (k < c2) then k else k - 1 in
      cell m' c1 k' = Some (Qmin x y) ∧
      cell m' k' c1 = Some (if Qgtb x y then y else z) ∧
      (Qmin x y <= x)%Q ∧ (Qmin x y <= y)%Q ∧
      (z = x → cell m' k' c1 = cell m' c1 k').
Proof.
  intros Hsq Hc.
  destruct (update_matrix_cells n m c1 c2 Hsq Hc) as (m' & Hrun & Hsq' & Hcells).
  exists m'. split; [done|]. split; [done|].
  intros k x y z Hk Hne Hx Hy Hz k'.
  assert (k' < n - 1) as Hk' by (unfold k'; case_decide; lia).
  assert (skip c2 k' = k) as Hskip by (unfold k', skip; repeat case_decide; lia).
  assert (skip c2 c1 = c1) as Hskip1 by (unfold skip; case_decide; lia).
  assert (cell m' c1 k' = Some (Qmin x y)) as Hrow.
  { rewrite Hcells by lia. rewrite Hskip, Hskip1. unfold linkage.
    rewrite decide_True by done. by rewrite Hx, Hy. }
  assert (cell m' k' c1 = Some (if Qgtb x y then y else z)) as Hcol.
  { rewrite Hcells by lia. rewrite Hskip, Hskip1. unfold linkage.
    destruct (decide (k = c1)) as [->|Hkc].
    - rewrite Hx, Hy. simpl. rewrite Qmin_gtb.
      assert (z = x) as -> by congruence. done.
    - rewrite decide_True by done. by rewrite Hx, Hy, Hz. }
  split; [done|]. split; [done|].
  split; [apply Q.le_min_l|]. split; [apply Q.le_min_r|].
  intros ->. rewrite Hrow, Hcol. by rewrite Qmin_gtb.
Qed.

Lemma merge_takes_single_linkage_minimum_witness :
  ∃ m', update_matrix scenario_matrix 0 1 = Done m' ∧ square (5 - 1) m' ∧
    ∀ k x y z, k < 5 → k ≠ 1 →
      cell scenario_matrix 0 k = Some x → cell scenario_matrix 1 k = Some y →
      cell scenario_matrix k 0 = Some z →
      let k' := if decide (k < 1) then k else k - 1 in
      cell m' 0 k' = Some (Qmin x y) ∧
      cell m' k' 0 = Some (if Qgtb x y then y else z) ∧
      (Qmin x y <= x)%Q ∧ (Qmin x y <= y)%Q ∧
      (z = x → cell m' k' 0 = cell m' 0 k').
Proof.
  apply (merge_takes_single_linkage_minimum 5 scenario_matrix 0 1).
  - exact scenario_square.
  - lia.
Defined.

(** C1 (as the code has it).  With a threshold below the sentinel 99, on an
    n x n matrix and a list of n clusters, the engine returns the current
    cluster list, without merging, exactly when the minimum found by the
    scan exceeds the threshold or at most one cluster remains; in every
    other state it merges cluster2 into cluster1 (the keys of cluster2
    appended, in order, after those of cluster1), removes row and column
    cluster2, and continues with one cluster less. *)
Theorem engine_terminates_iff_minimum_exceeds_threshold
    {key : Type} n (clusters : list (list key)) (m : matrix) threshold :
  (threshold < 99)%Q → square n m → length clusters = n →
  ∃ st, scan m = Done st ∧
    (((threshold < min_distance st)%Q ∨ n ≤ 1) →
       ∀ fuel,
         engine_pass fuel clusters m threshold = Done (Terminated clusters) ∧
         merge_closest_clusters (S fuel) clusters m threshold = Done clusters) ∧
    (¬ ((threshold < min_distance st)%Q ∨ n ≤ 1) →
       ∃ dst src m',
         cluster1 st < cluster2 st < n ∧
         clusters !! cluster1 st = Some dst ∧
         clusters !! cluster2 st = Some src ∧
         update_matrix m (cluster1 st) (cluster2 st) = Done m' ∧
         square (n - 1) m' ∧
         let merged :=
           delete (cluster2 st) (<[cluster1 st := dst ++ src]> clusters) in
         length merged = n - 1 ∧
         ∀ fuel, length src < fuel →
           engine_pass fuel clusters m threshold = Done (Merged merged m') ∧
           merge_closest_clusters (S fuel) clusters m threshold
           = merge_closest_clusters fuel merged m' threshold).
Proof.
  intros HT Hsq Hlen. destruct (scan_square n m Hsq) as (st & Hscan & _).
  exists st. split; [done|]. split.
  - intros Hstop fuel.
    assert (threshold < min_distance st)%Q as Hlt.
    { destruct Hstop as [Hlt|Hn]; [done|].
      rewrite (scan_single m st); [done| |done]. by rewrite (proj1 Hsq). }
    pose proof (engine_pass_terminated fuel clusters m threshold st Hscan Hlt) as Hp.
    split; [done|]. simpl. by rewrite Hp.
  - intros Hgo.
    assert (min_distance st <= threshold)%Q as Hle.
    { apply Qnot_lt_le. tauto. }
    assert (min_distance st < 99)%Q as Hlt by lra.
    destruct (engine_pass_merged n clusters m threshold st Hsq Hlen Hscan Hle Hlt)
      as (dst & src & m' & Hc & Hdst & Hsrc & Hm' & Hsq' & Hpass).
    exists dst, src, m'. repeat (split; [done|]).
    split; [rewrite merged_length; lia|].
    intros fuel Hfuel. rewrite (Hpass fuel Hfuel). split; [done|].
    simpl. by rewrite (Hpass fuel Hfuel).
Qed.

Lemma engine_terminates_iff_minimum_exceeds_threshold_witness :
  ∃ st, scan scenario_matrix = Done st ∧
    (((1 # 10000000000 < min_distance st)%Q ∨ 5 ≤ 1) →
       ∀ fuel,
         engine_pass fuel [[1]; [2]; [3]; [4]; [5]] scenario_matrix
           (1 # 10000000000) = Done (Terminated [[1]; [2]; [3]; [4]; [5]]) ∧
         merge_closest_clusters (S fuel) [[1]; [2]; [3]; [4]; [5]]
           scenario_matrix (1 # 10000000000)
         = Done [[1]; [2]; [3]; [4]; [5]]) ∧
    (¬ ((1 # 10000000000 < min_distance st)%Q ∨ 5 ≤ 1) →
       ∃ dst src m',
         cluster1 st < cluster2 st < 5 ∧
         [[1]; [2]; [3]; [4]; [5]] !! cluster1 st = Some dst ∧
         [[1]; [2]; [3]; [4]; [5]] !! cluster2 st = Some src ∧
         update_matrix scenario_matrix (cluster1 st) (cluster2 st) = Done m' ∧
         square (5 - 1) m' ∧
         let merged :=
           delete (cluster2 st)
             (<[cluster1 st := dst ++ src]> [[1]; [2]; [3]; [4]; [5]]) in
         length merged = 5 - 1 ∧
         ∀ fuel, length src < fuel →
           engine_pass fuel [[1]; [2]; [3]; [4]; [5]] scenario_matrix
             (1 # 10000000000) = Done (Merged merged m') ∧
           merge_closest_clusters (S fuel) [[1]; [2]; [3]; [4]; [5]]
             scenario_matrix (1 # 10000000000)
           = merge_closest_clusters fuel merged m' (1 # 10000000000)).
Proof.
  apply (engine_terminates_iff_minimum_exceeds_threshold 5
           [[1]; [2]; [3]; [4]; [5]] scenario_matrix (1 # 10000000000)).
  - reflexivity.
  - exact scenario_square.
  - reflexivity.
Defined.

(** C1 as stated fails: with the threshold at 99 and one cluster
    remaining, the engine never returns the cluster list. *)
Lemma single_cluster_at_threshold_99_never_returns :
  square 1 [[0%Q]] ∧ length [[7]] = 1 ∧
  ∀ fuel, merge_closest_clusters fuel [[7]] [[0%Q]] 99 = OutOfFuel.
Proof.
  split; [by apply squareb_square|]. split; [done|].
  intros fuel. by apply merge_closest_clusters_self.
Qed.

(** C10.  Below the sentinel 99 the recursion of [merge_closest_clusters]
    ends on every input (on an ill-shaped one by raising [IndexError]), and
    on a matrix and cluster list of the same size it returns a cluster
    list.  Each pass that does not return removes exactly one cluster and
    one row of the matrix.  With at most one cluster left the scan keeps its
    minimum at 99 and the function returns.  The bound is necessary: with
    the threshold at 99 or above, a single non-empty cluster is merged into
    itself and no budget suffices. *)
Theorem merge_terminates_below_sentinel {key : Type} :
  (∀ threshold (clusters : list (list key)) m,
     (threshold < 99)%Q →
     ∃ fuel, merge_closest_clusters fuel clusters m threshold ≠ OutOfFuel) ∧
  (∀ threshold n (clusters : list (list key)) m,
     (threshold < 99)%Q → square n m → length clusters = n →
     ∃ fuel result,
       merge_closest_clusters fuel clusters m threshold = Done result) ∧
  (∀ fuel threshold (clusters cl' : list (list key)) m m',
     engine_pass fuel clusters m threshold = Done (Merged cl' m') →
     length cl' = length clusters - 1 ∧ length m' = length m - 1 ∧
     0 < length clusters) ∧
  (∀ threshold (clusters : list (list key)) m,
     (threshold < 99)%Q → length m ≤ 1 →
     ∃ st, scan m = Done st ∧ min_distance st = 99%Q ∧
       ∀ fuel,
         merge_closest_clusters (S fuel) clusters m threshold = Done clusters) ∧
  (∀ fuel threshold (c : list key) row,
     (99 <= threshold)%Q → c ≠ [] →
     merge_closest_clusters fuel [c] [row] threshold = OutOfFuel).
Proof.
  split; [|split; [|split; [|split]]].
  - intros threshold clusters m HT.
    by apply (merge_closest_clusters_finishes threshold HT (length m)).
  - intros threshold n clusters m HT Hsq Hlen.
    by apply (merge_closest_clusters_returns threshold HT n).
  - intros fuel threshold clusters cl' m m'. apply engine_pass_merged_lengths.
  - intros threshold clusters m HT Hlen.
    assert (scan m = Done scan_init) as Hscan.
    { rewrite scan_all_pairs. by destruct m as [|row [|row' m]]; [..|simpl in Hlen; lia]. }
    exists scan_init. split; [done|]. split; [done|]. intros fuel. simpl.
    by rewrite (engine_pass_terminated fuel clusters m threshold scan_init).
  - intros fuel threshold c row HT Hc. by apply merge_closest_clusters_self.
Qed.

Lemma merge_terminates_below_sentinel_witness :
  (∃ fuel result,
     merge_closest_clusters fuel [[1]; [2]; [3]; [4]; [5]] scenario_matrix
       (1 # 10000000000) = Done result) ∧
  (∀ fuel, merge_closest_clusters fuel [[7]] [[0%Q]] 99 = OutOfFuel).
Proof.
  split.
  - apply (proj1 (proj2 merge_terminates_below_sentinel)
             (1 # 10000000000)%Q 5 [[1]; [2]; [3]; [4]; [5]] scenario_matrix).
    + reflexivity.
    + exact scenario_square.
    + reflexivity.
  - intros fuel.
    apply (proj2 (proj2 (proj2 (proj2 merge_terminates_below_sentinel)))
             fuel 99%Q [7] [0%Q]).
    + discriminate.
    + discriminate.
Defined.

(** The concrete scenario of the specification: A, B and C end up in one
    cluster, D and E stay alone. *)
Example scenario_clusters :
  make_clusters 20 [1; 2; 3; 4; 5] scenario_matrix (1 # 10000000000)
  = Done [[1; 2; 3]; [4]; [5]].
Proof. vm_compute. reflexivity. Qed.
(** ** DistanceMatrixBuilder *)

(** C3, at the failing input.  Lengths 100 and 160 with L = 0.5: the test
    of the source compares the row's length against bounds taken from the
    column's length, so it fails for (160, 100) and passes for (100, 160).
    When row 0 (length 100) is processed first the comparator is invoked on
    the pair and the cell holds its e-value; only when row 1 is processed
    first is the cell 50 and the comparator not invoked.  The example of
    the docstring of [make_distance_matrix] (L = 0.25, one sequence of
    length 100, the other required within 75 to 125) behaves alike: a
    sequence of length 130 passes the test when it is the column. *)
Theorem length_gate_depends_on_row_order :
  length_gate_failed (1 # 2) 160 100 = true ∧
  length_gate_failed (1 # 2) 100 160 = false ∧
  length_gate_failed (1 # 4) 130 100 = true ∧
  length_gate_failed (1 # 4) 100 130 = false ∧
  (let c := run gate_lengths one_hit (1 # 2) [0; 1] alone
              (initial_pool [0; 1] 1) in
   c.1 = [Finished] ∧ blast_calls c.2 = [(0, 1)] ∧
   dist_matrix c.2 = [[0; 1 # 1000]; [1 # 1000; 0]]%Q) ∧
  (let c := run gate_lengths one_hit (1 # 2) [0; 1] second_row_first
              (initial_pool [0; 1] 2) in
   c.1 = [Finished; Finished] ∧ blast_calls c.2 = [] ∧
   dist_matrix c.2 = [[0; 50]; [50; 0]]%Q).
Proof. vm_compute. repeat split. Qed.

(** C8, at the failing input.  Three sequences of equal length and a
    comparator that answers every pair alike: the same call of the builder
    yields two different matrices under two schedules of its two workers.
    In the second one worker 1 writes back a copy of row 0 fetched before
    worker 0 filled it, which erases the cells (0, 0) and (0, 2).  The
    length test adds a second dependence: for lengths 100 and 160 the cell
    of the pair is the e-value or 50 according to the row that is processed
    first. *)
Theorem matrix_depends_on_schedule :
  make_distance_matrix equal_lengths one_hit (1 # 2) [0; 1; 2] 2
    (alone ++ replicate 20 1)
  = Joined 2 [[0; 1 # 1000; 1 # 1000];
              [1 # 1000; 0; 1 # 1000];
              [1 # 1000; 1 # 1000; 0]]%Q ∧
  make_distance_matrix equal_lengths one_hit (1 # 2) [0; 1; 2] 2 stale_row
  = Joined 2 [[99; 1 # 1000; 99];
              [1 # 1000; 0; 1 # 1000];
              [1 # 1000; 1 # 1000; 0]]%Q ∧
  make_distance_matrix gate_lengths one_hit (1 # 2) [0; 1] 2
    (alone ++ replicate 20 1)
  = Joined 2 [[0; 1 # 1000]; [1 # 1000; 0]]%Q ∧
  make_distance_matrix gate_lengths one_hit (1 # 2) [0; 1] 2 second_row_first
  = Joined 2 [[0; 50]; [50; 0]]%Q.
Proof. vm_compute. repeat split. Qed.

Lemma nodup_snd_agree {A B} (l : list (A * B)) a a' b :
  NoDup (snd <$> l) → (a, b) ∈ l → (a', b) ∈ l → a = a'.
Proof.
  intros Hnd [n Hn]%list_elem_of_lookup [n' Hn']%list_elem_of_lookup.
  assert (n = n') as ->.
  { apply (NoDup_lookup _ _ _ b Hnd); rewrite list_lookup_fmap.
    - by rewrite Hn.
    - by rewrite Hn'. }
  congruence.
Qed.

(** C9.  In every state the pool can reach, whatever the number of workers
    and the schedule: a worker between entering and leaving [with lock:]
    (the membership test and the append) holds the lock; while it holds it,
    a transition of any other worker changes neither the lock nor
    [already_compared], so the test and the append are one atomic
    check-and-insert; [already_compared] has no duplicates; and if a worker
    is ever inside the comparison loop of row i, and a worker is inside the
    loop of the same row i then or at any later time, they are the same
    worker. *)
Theorem row_claimed_by_at_most_one_worker
    {key : Type} `{EqDecision key} (seq_length : key → Z)
    (blastn : key → key → list blast_record) (length_threshold : Q)
    (seq_keys : list key) (num_cores : nat) (sched1 sched2 : list nat) :
  let c1 := run seq_length blastn length_threshold seq_keys sched1
              (initial_pool seq_keys num_cores) in
  let c2 := run seq_length blastn length_threshold seq_keys (sched1 ++ sched2)
              (initial_pool seq_keys num_cores) in
  (∀ w p, c1.1 !! w = Some p → in_lock p = true → lock c1.2 = Some w) ∧
  (∀ w w', lock c1.2 = Some w → w' ≠ w →
     let c' := pool_step seq_length blastn length_threshold seq_keys c1 w' in
     lock c'.2 = Some w ∧ already_compared c'.2 = already_compared c1.2) ∧
  NoDup (already_compared c1.2) ∧
  (∀ w w' p p' i,
     c1.1 !! w = Some p → row_of p = Some i →
     c2.1 !! w' = Some p' → row_of p' = Some i → w = w').
Proof.
  intros c1 c2.
  pose proof (claim_inv_run seq_length blastn length_threshold seq_keys sched1 _
                (claim_inv_init seq_keys num_cores)) as Hinv1.
  pose proof (claim_inv_run seq_length blastn length_threshold seq_keys
                (sched1 ++ sched2) _ (claim_inv_init seq_keys num_cores)) as Hinv2.
  pose proof (rows_logged_run seq_length blastn length_threshold seq_keys sched1 _
                (rows_logged_init seq_keys num_cores)) as Hlog1.
  pose proof (rows_logged_run seq_length blastn length_threshold seq_keys
                (sched1 ++ sched2) _ (rows_logged_init seq_keys num_cores)) as Hlog2.
  fold c1 in Hinv1, Hlog1. fold c2 in Hinv2, Hlog2.
  split; [apply (ci_locked _ _ Hinv1)|]. split; [|split; [apply (ci_nodup _ _ Hinv1)|]].
  - intros w w' Hlock Hne c'. subst c'. destruct c1 as [ps s]. simpl in *.
    unfold pool_step. simpl. destruct (ps !! w') as [q|] eqn:Hq; [|done]. simpl.
    assert (in_lock q = false) as Hin.
    { destruct (in_lock q) eqn:Hin; [|done].
      pose proof (ci_locked _ _ Hinv1 w' q Hq Hin). simpl in *. congruence. }
    destruct (worker_step_quiet seq_length blastn length_threshold seq_keys w' q s Hin)
      as (_ & Hl & Hac & _).
    + intros i _. left. rewrite Hlock. eauto.
    + by rewrite Hl, Hac.
  - intros w w' p p' i Hp Hrow Hp' Hrow'.
    apply (nodup_snd_agree (rows_entered c2.2) w w' i).
    + by apply (rows_entered_nodup seq_keys).
    + assert (rows_entered c1.2 `prefix_of` rows_entered c2.2) as [l Hl].
      { unfold c2. rewrite run_app. apply run_rows. }
      rewrite Hl. apply elem_of_app. left. by apply (Hlog1 w p i).
    + by apply (Hlog2 w' p' i).
Qed.

Lemma row_claimed_by_at_most_one_worker_witness :
  let c1 := run gate_lengths one_hit (1 # 2) [0; 1] [0; 0; 0; 0]
              (initial_pool [0; 1] 2) in
  c1.1 !! 0 = Some (AtCell 0 0) ∧ row_of (AtCell 0 0) = Some 0 ∧ 0 = 0.
Proof.
  intros c1. split; [reflexivity|]. split; [reflexivity|].
  apply (proj2 (proj2 (proj2
    (row_claimed_by_at_most_one_worker gate_lengths one_hit (1 # 2) [0; 1] 2
       [0; 0; 0; 0] [1; 1; 1]))) 0 0 (AtCell 0 0) (AtCell 0 0) 0);
    reflexivity.
Defined.
(** ** GuidedClusterBuilder and the configuration errors *)

Lemma all_finished_forallb (ps : list pc) :
  (∀ w p, ps !! w = Some p → p = Finished) → forallb exited ps = true.
Proof.
  intros H. apply forallb_forall. intros p Hp.
  apply list_elem_of_In, list_elem_of_lookup in Hp as [w Hw].
  by rewrite (H w p Hw).
Qed.

Lemma all_gfinished_forallb {key} (ps : list (gpc key)) :
  (∀ w p, ps !! w = Some p → p = GFinished) → forallb gexited ps = true.
Proof.
  intros H. apply forallb_forall. intros p Hp.
  apply list_elem_of_In, list_elem_of_lookup in Hp as [w Hw].
  by rewrite (H w p Hw).
Qed.

(** C6.  With an empty guide list [make_guided_clusters] returns the empty
    cluster list (once every worker has had a turn; no worker ever writes
    anything).  With any guide list, in every state the pool reaches and in
    the list returned, a key whose length fails the length test of the
    guided worker against every guide is in no cluster; the test is
    evaluated as the worker evaluates it, on floats. *)
Theorem guided_clusters_empty_and_gated
    {key guide gid : Type} `{EqDecision gid}
    (guide_id : guide → gid) (guide_length : guide → Z)
    (seq_length : key → Z)
    (blastn_guide : guide → key → list blast_record)
    (length_threshold : Q) (all_seq_keys : list key)
    (num_cores : nat) (sched : list nat) :
  ((∀ w, w < num_cores → w ∈ sched) →
   make_guided_clusters guide_id guide_length seq_length blastn_guide
     (Some []) all_seq_keys length_threshold num_cores sched
   = Joined num_cores []) ∧
  (∀ workers result,
     make_guided_clusters guide_id guide_length seq_length blastn_guide
       (Some []) all_seq_keys length_threshold num_cores sched
     = Joined workers result → result = []) ∧
  (∀ guide_sequences k,
     (∀ gd, gd ∈ guide_sequences →
        length_gate_passed length_threshold (guide_length gd) (seq_length k)
        = false) →
     (∀ cl, cl ∈ clusters
              (grun guide_id guide_length seq_length blastn_guide
                 length_threshold guide_sequences all_seq_keys sched
                 (ginitial_pool (gid := gid) guide_sequences num_cores)).2 →
            k ∉ cl) ∧
     (∀ workers result,
        make_guided_clusters guide_id guide_length seq_length blastn_guide
          (Some guide_sequences) all_seq_keys length_threshold num_cores sched
        = Joined workers result → ∀ cl, cl ∈ result → k ∉ cl)).
Proof.
  pose proof (grun_no_guides guide_id guide_length seq_length blastn_guide
    length_threshold [] all_seq_keys sched (replicate num_cores (GAtGuide 0))
    {| clusters := []; guides_compared := []; glock := None;
       guide_blast_calls := [] |} eq_refl) as Hidle.
  destruct Hidle as (Hs & Hlen & Hall).
  { intros w p Hp. apply lookup_replicate in Hp as [-> _]. by left. }
  split; [|split].
  - intros Hfair. unfold make_guided_clusters, ginitial_pool. simpl.
    rewrite all_gfinished_forallb.
    + rewrite Hlen, Hs, length_replicate. done.
    + intros w p Hp. apply (Hall w p Hp). left. apply Hfair.
      apply lookup_lt_Some in Hp. by rewrite Hlen, length_replicate in Hp.
  - intros workers result. unfold make_guided_clusters, ginitial_pool. simpl.
    destruct (forallb gexited _); [|done]. rewrite Hs. by intros [= _ <-].
  - intros guide_sequences k Hgate.
    pose proof (guided_inv_run guide_id guide_length seq_length blastn_guide
      length_threshold guide_sequences all_seq_keys sched _
      (guided_inv_init guide_length seq_length length_threshold
         guide_sequences all_seq_keys num_cores)) as [Hcl _].
    assert (∀ cl, cl ∈ clusters
              (grun guide_id guide_length seq_length blastn_guide
                 length_threshold guide_sequences all_seq_keys sched
                 (ginitial_pool (gid := gid) guide_sequences num_cores)).2 →
            k ∉ cl) as Hout.
    { intros cl Hin Hk. destruct (Hcl cl k Hin Hk) as (gd & Hgd & Hpass).
      rewrite (Hgate gd Hgd) in Hpass. done. }
    split; [done|]. intros workers result. unfold make_guided_clusters.
    destruct (forallb gexited _); [|done]. intros [= _ <-]. done.
Qed.

Lemma guided_clusters_empty_and_gated_witness :
  make_guided_clusters (key := nat) fst snd guided_lengths guide_hit
    (Some [(7, 100%Z)]) [0; 1] (1 # 2) 1 (replicate 30 0) = Joined 1 [[0]] ∧
  ∀ cl, cl ∈ [[0]] → 1 ∉ cl.
Proof.
  split; [reflexivity|].
  apply (proj2 (proj2 (proj2
    (guided_clusters_empty_and_gated (key := nat) fst snd guided_lengths
       guide_hit (1 # 2) [0; 1] 1 (replicate 30 0)))
    [(7, 100%Z)] 1
    ltac:(intros gd ->%list_elem_of_singleton; reflexivity)) 1 [[0]]).
  reflexivity.
Defined.

(** C7 as stated fails: with an existing but empty guide file, and with
    an empty key list, nothing is detected; two workers are started and
    joined, and the builders return. *)
Lemma empty_inputs_start_workers :
  make_guided_clusters (key := nat) fst snd guided_lengths guide_hit
    (Some []) [0; 1] (1 # 2) 2 [0; 1] = Joined 2 [] ∧
  make_distance_matrix gate_lengths one_hit (1 # 2) [] 2 [0; 1] = Joined 2 [].
Proof. split; reflexivity. Qed.

(** C7 (as the code has it).  The only configuration error detected before
    the workers are started is the missing guide file, on which
    [make_guided_clusters] exits.  An empty guide list and an empty key list
    are not detected: the builder starts its [num_cores] workers; none of
    them writes a cell or a cluster or invokes the comparator; and once
    every worker has had a turn the builder returns the empty cluster list,
    respectively the empty matrix. *)
Theorem empty_inputs_are_not_detected
    {key guide gid : Type} `{EqDecision key} `{EqDecision gid}
    (guide_id : guide → gid) (guide_length : guide → Z)
    (seq_length : key → Z)
    (blastn_guide : guide → key → list blast_record)
    (blastn : key → key → list blast_record)
    (length_threshold : Q) (all_seq_keys : list key)
    (num_cores : nat) (sched : list nat) :
  make_guided_clusters guide_id guide_length seq_length blastn_guide
    None all_seq_keys length_threshold num_cores sched = SysExit ∧
  (let c := grun guide_id guide_length seq_length blastn_guide
              length_threshold [] all_seq_keys sched
              (ginitial_pool (guide := guide) (gid := gid) [] num_cores) in
   length c.1 = num_cores ∧ clusters c.2 = [] ∧ guide_blast_calls c.2 = [] ∧
   make_guided_clusters guide_id guide_length seq_length blastn_guide
     (Some []) all_seq_keys length_threshold num_cores sched ≠ SysExit ∧
   ((∀ w, w < num_cores → w ∈ sched) →
    make_guided_clusters guide_id guide_length seq_length blastn_guide
      (Some []) all_seq_keys length_threshold num_cores sched
    = Joined num_cores [])) ∧
  (let c := run seq_length blastn length_threshold [] sched
              (initial_pool [] num_cores) in
   length c.1 = num_cores ∧ dist_matrix c.2 = [] ∧ blast_calls c.2 = [] ∧
   make_distance_matrix seq_length blastn length_threshold [] num_cores sched
   ≠ SysExit ∧
   ((∀ w, w < num_cores → w ∈ sched) →
    make_distance_matrix seq_length blastn length_threshold [] num_cores sched
    = Joined num_cores [])).
Proof.
  split; [done|]. split.
  - pose proof (grun_no_guides guide_id guide_length seq_length blastn_guide
      length_threshold [] all_seq_keys sched (replicate num_cores (GAtGuide 0))
      {| clusters := []; guides_compared := []; glock := None;
         guide_blast_calls := [] |} eq_refl) as Hidle.
    destruct Hidle as (Hs & Hlen & Hall).
    { intros w p Hp. apply lookup_replicate in Hp as [-> _]. by left. }
    intros c. subst c. unfold ginitial_pool. simpl.
    rewrite Hlen, Hs, length_replicate. simpl.
    split; [done|]. split; [done|]. split; [done|].
    unfold make_guided_clusters, ginitial_pool. simpl. split.
    + by destruct (forallb gexited _).
    + intros Hfair. rewrite all_gfinished_forallb.
      * by rewrite Hlen, Hs, length_replicate.
      * intros w p Hp. apply (Hall w p Hp). left. apply Hfair.
        apply lookup_lt_Some in Hp. by rewrite Hlen, length_replicate in Hp.
  - pose proof (run_no_keys seq_length blastn length_threshold [] sched
      (replicate num_cores (AtKey 0))
      {| dist_matrix := []; already_compared := []; lock := None;
         blast_calls := []; rows_entered := [] |} eq_refl) as Hidle.
    destruct Hidle as (Hs & Hlen & Hall).
    { intros w p Hp. apply lookup_replicate in Hp as [-> _]. by left. }
    intros c. subst c. unfold initial_pool, initial_matrix. simpl.
    rewrite Hlen, Hs, length_replicate. simpl.
    split; [done|]. split; [done|]. split; [done|].
    unfold make_distance_matrix, initial_pool, initial_matrix. simpl. split.
    + by destruct (forallb exited _).
    + intros Hfair. rewrite all_finished_forallb.
      * by rewrite Hlen, Hs, length_replicate.
      * intros w p Hp. apply (Hall w p Hp). left. apply Hfair.
        apply lookup_lt_Some in Hp. by rewrite Hlen, length_replicate in Hp.
Qed.

Lemma empty_inputs_are_not_detected_witness :
  make_guided_clusters (key := nat) fst snd guided_lengths guide_hit
    (Some []) [0; 1] (1 # 2) 2 [0; 1] = Joined 2 [] ∧
  make_distance_matrix gate_lengths one_hit (1 # 2) [] 2 [0; 1] = Joined 2 [].
Proof.
  pose proof (empty_inputs_are_not_detected (key := nat) fst snd guided_lengths
                guide_hit one_hit (1 # 2) [0; 1] 2 [0; 1])
    as (_ & (_ & _ & _ & _ & Hg) & (_ & _ & _ & _ & Hm)).
  split.
  - apply Hg. intros w Hw.
    destruct w as [|[|w]]; [apply list_elem_of_here
                           |apply list_elem_of_further, list_elem_of_here|lia].
  - apply Hm. intros w Hw.
    destruct w as [|[|w]]; [apply list_elem_of_here
                           |apply list_elem_of_further, list_elem_of_here|lia].
Defined.
(** ** Symmetry and zero diagonal *)

(** C2 as stated fails: the equalities do not hold "at all times, including
    during construction".  The fresh matrix has 99 on its diagonal, and
    after the first of the two writes of a pair the two cells differ. *)
Lemma diagonal_and_symmetry_fail_during_construction :
  let fresh := (initial_pool [0; 1] 1).2 in
  let c := run gate_lengths one_hit (1 # 2) [0; 1] (replicate 11 0)
             (initial_pool [0; 1] 1) in
  cell (dist_matrix fresh) 0 0 = Some 99%Q ∧
  c.1 = [PairFetch2 0 1 (1 # 1000) []] ∧
  cell (dist_matrix c.2) 0 1 = Some (1 # 1000)%Q ∧
  cell (dist_matrix c.2) 1 0 = Some 99%Q ∧
  ¬ zero_diagonal (dist_matrix fresh) ∧
  ¬ symmetric (dist_matrix c.2).
Proof.
  intros fresh c. split; [reflexivity|]. split; [reflexivity|].
  split; [reflexivity|]. split; [reflexivity|]. split.
  - intros H. by specialize (H 0 99%Q eq_refl).
  - intros H. by specialize (H 0 1 (1 # 1000)%Q 99%Q eq_refl eq_refl).
Qed.

(** C2 (as the code has it).  For distinct keys and a comparator with
    non-negative e-values, the matrix returned by a build in which a single
    worker processes the rows is square, symmetric, zero on the diagonal
    and non-negative; and from such a matrix every state in which the
    engine scans (every matrix reached by merging passes) is again square,
    symmetric, zero on the diagonal and non-negative. *)
Theorem symmetry_and_diagonal_between_steps
    {key : Type} `{EqDecision key} (seq_length : key → Z)
    (blastn : key → key → list blast_record) (length_threshold : Q)
    (seq_keys : list key) (threshold : Q) :
  NoDup seq_keys → nonnegative_scores blastn →
  (∀ sched workers m,
     make_distance_matrix seq_length blastn length_threshold seq_keys 1 sched
     = Joined workers m →
     matrix_ok (length seq_keys) m) ∧
  (∀ (s s' : list (list key) * matrix),
     matrix_ok (length s.2) s.2 → rtc (merges_to threshold) s s' →
     matrix_ok (length s'.2) s'.2).
Proof.
  intros Hkeys Hscores. split.
  - intros sched workers m. unfold make_distance_matrix.
    destruct (single_inv_run seq_length blastn length_threshold seq_keys
                Hkeys Hscores sched (AtKey 0) (initial_pool seq_keys 1).2
                (single_inv_init seq_keys)) as (p & s & Hrun & Hinv).
    change (initial_pool seq_keys 1)
      with ([AtKey 0], (initial_pool seq_keys 1).2).
    rewrite Hrun. simpl.
    destruct p; simpl; try done.
    + intros [= _ <-]. by apply single_inv_finished.
    + by destruct Hinv as (_ & _ & []).
  - intros s s' Hok Hrtc. by apply (matrix_ok_merges threshold s s').
Qed.

Lemma one_hit_nonnegative : nonnegative_scores one_hit.
Proof.
  intros k k2 record alignment expect Hr Ha He. unfold one_hit in Hr.
  apply list_elem_of_singleton in Hr as ->.
  apply list_elem_of_singleton in Ha as ->.
  apply list_elem_of_singleton in He as ->. by vm_compute.
Qed.

Lemma gate_keys_distinct : NoDup [0; 1].
Proof. by apply (bool_decide_unpack _). Qed.

Lemma symmetry_and_diagonal_between_steps_witness :
  matrix_ok 2 [[0; 1 # 1000]; [1 # 1000; 0]]%Q.
Proof.
  apply (proj1 (symmetry_and_diagonal_between_steps gate_lengths one_hit
                  (1 # 2) [0; 1] (1 # 10000000000)
                  gate_keys_distinct
                  one_hit_nonnegative) alone 1).
  reflexivity.
Defined.
(** ** Every schedule: ranges, values and comparisons *)

Section PoolFacts.
Context {key : Type} `{EqDecision key}.
Context (seq_length : key → Z).
Context (blastn : key → key → list blast_record).
Context (length_threshold : Q).
Context (seq_keys : list key).

Abbreviation step := (worker_step seq_length blastn length_threshold seq_keys).
Abbreviation pstep := (pool_step seq_length blastn length_threshold seq_keys).
Abbreviation prun := (run seq_length blastn length_threshold seq_keys).
Abbreviation ok_pc := (pc_ok seq_length blastn length_threshold seq_keys).
Abbreviation ok_shared := (shared_ok seq_length blastn length_threshold seq_keys).
Abbreviation ok_pool := (pool_ok seq_length blastn length_threshold seq_keys).
Abbreviation ok_value := (cell_value blastn seq_keys).
Abbreviation ok_record := (reported_record blastn seq_keys).

Lemma next_record_ok i j records :
  i < length seq_keys → j < length seq_keys →
  Forall ok_record records → ok_pc (next_record i j records).
Proof.
  intros Hi Hj. induction records as [|[|[|e hsps] als] rest IH];
    intros Hrec; simpl.
  - done.
  - apply Forall_cons in Hrec as [_ Hrest].
    repeat (split; [done|]). split; [|done]. right. right. right. by left.
  - apply Forall_cons in Hrec as [_ Hrest]. by apply IH.
  - apply Forall_cons in Hrec as [Hr Hrest].
    repeat (split; [done|]). split; [|done].
    do 4 right. by exists hsps, als.
Qed.

Lemma fetch_row_ok (s : shared key) a b v row :
  ok_shared s → ok_value v → fetch_row s a b v = Done row →
  length row = length seq_keys ∧ Forall ok_value row.
Proof.
  intros (Hsq & Hvals & _) Hv. unfold fetch_row, getitem.
  destruct (dist_matrix s !! a) as [r|] eqn:Hr; [|done]. simpl.
  unfold setitem. case_decide; [|done]. intros [= <-].
  split.
  - rewrite length_insert. by eapply square_row.
  - apply Forall_insert; [|done].
    eapply Forall_lookup_1; [exact Hvals|exact Hr].
Qed.

Lemma fetch_row_runs (s : shared key) a b v :
  ok_shared s → a < length seq_keys → b < length seq_keys →
  ∃ row, fetch_row s a b v = Done row.
Proof.
  intros (Hsq & _) Ha Hb. unfold fetch_row, getitem.
  destruct (lookup_lt_is_Some_2 (dist_matrix s) a) as [r Hr];
    [by rewrite (proj1 Hsq)|].
  rewrite Hr. simpl. unfold setitem.
  rewrite decide_True by (by rewrite (square_row _ _ _ _ Hsq Hr)). eauto.
Qed.

Lemma store_row_ok (s : shared key) a row :
  ok_shared s → a < length seq_keys →
  length row = length seq_keys → Forall ok_value row →
  ∃ s', store_row s a row = Done s' ∧ ok_shared s'.
Proof.
  intros (Hsq & Hvals & Hcalls) Ha Hlen Hrow. unfold store_row, setitem.
  rewrite decide_True by (by rewrite (proj1 Hsq)). simpl.
  eexists. split; [done|]. split; [|split]; simpl.
  - split; [by rewrite length_insert; apply Hsq|].
    intros r Hr. apply list_elem_of_lookup in Hr as [k Hk].
    destruct (decide (k = a)) as [->|Hne].
    + rewrite list_lookup_insert_eq in Hk by (by rewrite (proj1 Hsq)).
      by injection Hk as <-.
    + rewrite list_lookup_insert_ne in Hk by done.
      by eapply square_row.
  - by apply Forall_insert.
  - done.
Qed.

Lemma worker_step_ok w p (s : shared key) :
  ok_pc p → ok_shared s →
  ok_pc (step w p s).1 ∧
  ok_shared (step w p s).2.
Proof.
  intros Hp Hs.
  destruct p as [i|i|i|i b|i j|i j|i j row|i j|i j v rest|i j v row rest
                 |i j v rest|i j v row rest| |]; simpl in *.
  - (* AtKey *)
    destruct (seq_keys !! i) as [k|] eqn:Hk; [|done].
    destruct (lock s); [done|]. simpl. split; [by eapply lookup_lt_Some|done].
  - (* InLock *)
    destruct (lookup_lt_is_Some_2 seq_keys i Hp) as [k Hk]. rewrite Hk.
    by case_decide.
  - (* Claiming *)
    destruct (lookup_lt_is_Some_2 seq_keys i Hp) as [k Hk]. rewrite Hk.
    simpl. split; [intros _; exact Hp|exact Hs].
  - (* Unlocking *)
    destruct b; simpl; [|done]. split; [by apply Hp|done].
  - (* AtCell *)
    destruct (lookup_lt_is_Some_2 seq_keys i Hp) as [k Hk]. rewrite Hk.
    destruct (seq_keys !! j) as [k2|] eqn:Hk2; [|done].
    pose proof (lookup_lt_Some _ _ _ Hk2) as Hj.
    destruct (square_cell _ _ i j (proj1 Hs) Hp Hj) as [x Hx].
    rewrite (getcell_cell _ _ _ _ Hx).
    destruct (Qeqb x 99); [|done].
    destruct (decide (k = k2)) as [->|Hne]; [done|].
    destruct (length_gate_failed _ _ _) eqn:Hgate; simpl.
    + split; [|done]. repeat (split; [done|]). split; [|done].
      right. right. by left.
    + split; [|done]. exists k, k2. repeat (split; [done|]).
      split; [by eapply list_elem_of_lookup_2|].
      split; [by eapply list_elem_of_lookup_2|done].
  - (* DiagFetch *)
    destruct Hp as [Hi Hj].
    destruct (fetch_row_runs s i j 0 Hs Hi Hj) as [row Hrow]. rewrite Hrow.
    simpl. split; [|done]. split; [done|].
    eapply fetch_row_ok; [done| |done]. right. by left.
  - (* DiagStore *)
    destruct Hp as (Hi & Hlen & Hrow).
    destruct (store_row_ok s i row Hs Hi Hlen Hrow) as (s' & -> & Hs').
    done.
  - (* Blasting *)
    destruct Hp as (k & k2 & Hk & Hk2 & Hc). rewrite Hk, Hk2. simpl.
    split.
    + apply next_record_ok; [by eapply lookup_lt_Some..|].
      apply Forall_forall. intros r Hr. exists k, k2.
      split; [apply Hc|]. split; [apply Hc|done].
    + destruct Hs as (Hsq & Hvals & Hcalls). split; [done|]. split; [done|].
      simpl. apply Forall_app. split; [done|]. by apply Forall_singleton.
  - (* PairFetch1 *)
    destruct Hp as (Hi & Hj & Hv & Hrest).
    destruct (fetch_row_runs s i j v Hs Hi Hj) as [row Hrow]. rewrite Hrow.
    simpl. split; [|done]. repeat (split; [done|]).
    by eapply fetch_row_ok.
  - (* PairStore1 *)
    destruct Hp as (Hi & Hj & Hv & Hrest & Hlen & Hrow).
    destruct (store_row_ok s i row Hs Hi Hlen Hrow) as (s' & -> & Hs').
    done.
  - (* PairFetch2 *)
    destruct Hp as (Hi & Hj & Hv & Hrest).
    destruct (fetch_row_runs s j i v Hs Hj Hi) as [row Hrow]. rewrite Hrow.
    simpl. split; [|done]. repeat (split; [done|]).
    by eapply fetch_row_ok.
  - (* PairStore2 *)
    destruct Hp as (Hi & Hj & Hv & Hrest & Hlen & Hrow).
    destruct (store_row_ok s j row Hs Hj Hlen Hrow) as (s' & -> & Hs').
    simpl. split; [|done]. by apply next_record_ok.
  - done.
  - done.
Qed.

Lemma pool_ok_step c w :
  ok_pool c →
  ok_pool (pstep c w).
Proof.
  destruct c as [ps s]. intros [Hps Hs]. unfold pool_step. simpl in *.
  destruct (ps !! w) as [p|] eqn:Hp; [|done].
  pose proof (Forall_lookup_1 _ _ _ _ Hps Hp) as Hpok.
  destruct (worker_step_ok w p s Hpok Hs) as [Hp' Hs'].
  split; simpl; [|done]. by apply Forall_insert.
Qed.

Lemma pool_ok_run sched : ∀ c,
  ok_pool c → ok_pool (prun sched c).
Proof.
  induction sched as [|w sched IH]; intros c Hc; [done|].
  simpl. apply IH. by apply pool_ok_step.
Qed.

Lemma pool_ok_init num_cores : ok_pool (initial_pool seq_keys num_cores).
Proof.
  split; simpl.
  - apply Forall_forall. intros p Hp.
    apply elem_of_replicate in Hp as [-> _]. done.
  - split; [apply square_initial_matrix|]. split; [|done].
    unfold initial_matrix.
    apply Forall_forall. intros r [-> _]%elem_of_replicate.
    apply Forall_forall. intros x [-> _]%elem_of_replicate. by left.
Qed.

Lemma pool_step_length c w :
  length (pstep c w).1
  = length c.1.
Proof.
  unfold pool_step. destruct (c.1 !! w); [|done]. simpl.
  by rewrite length_insert.
Qed.

Lemma run_length sched : ∀ c,
  length (prun sched c).1
  = length c.1.
Proof.
  induction sched as [|w sched IH]; intros c; [done|].
  simpl. by rewrite IH, pool_step_length.
Qed.

End PoolFacts.
(** ** Every schedule: no comparison is started twice *)

Section CallsOnce.
Context {key : Type} `{EqDecision key}.
Context (seq_length : key → Z).
Context (blastn : key → key → list blast_record).
Context (length_threshold : Q).
Context (seq_keys : list key).

Abbreviation step := (worker_step seq_length blastn length_threshold seq_keys).
Abbreviation pstep := (pool_step seq_length blastn length_threshold seq_keys).
Abbreviation prun := (run seq_length blastn length_threshold seq_keys).

Lemma worker_step_calls w p s :
  blast_calls (step w p s).2 = blast_calls s ++ new_call seq_keys p.
Proof.
  destruct p as [i|i|i|i b|i j|i j|i j row|i j|i j v rest|i j v row rest
                 |i j v rest|i j v row rest| |]; simpl;
    try (by rewrite app_nil_r).
  - destruct (seq_keys !! i); [|by rewrite app_nil_r].
    destruct (lock s); by rewrite app_nil_r.
  - destruct (seq_keys !! i); [|by rewrite app_nil_r].
    case_decide; by rewrite app_nil_r.
  - destruct (seq_keys !! i); by rewrite app_nil_r.
  - destruct b; by rewrite app_nil_r.
  - destruct (seq_keys !! i) as [k|]; [|by rewrite app_nil_r].
    destruct (seq_keys !! j) as [k2|]; [|by rewrite app_nil_r].
    destruct (getcell _ _ _) as [d| |]; [|by rewrite app_nil_r..].
    destruct (Qeqb d 99); [|by rewrite app_nil_r].
    destruct (decide (k = k2)); [by rewrite app_nil_r|].
    destruct (length_gate_failed _ _ _); by rewrite app_nil_r.
  - destruct (fetch_row s i j 0); by rewrite app_nil_r.
  - unfold store_row. destruct (setitem _ _ _); by rewrite app_nil_r.
  - destruct (seq_keys !! i) as [k|]; [|by rewrite app_nil_r].
    destruct (seq_keys !! j) as [k2|]; [|by rewrite app_nil_r]. done.
  - destruct (fetch_row s i j v); by rewrite app_nil_r.
  - unfold store_row. destruct (setitem _ _ _); by rewrite app_nil_r.
  - destruct (fetch_row s j i v); by rewrite app_nil_r.
  - unfold store_row. destruct (setitem _ _ _); by rewrite app_nil_r.
Qed.

Lemma next_record_passed i j i' j' records :
  i < i' ∨ (i = i' ∧ j ≤ j') → passed i j (next_record i' j' records).
Proof.
  intros H. induction records as [|[|[|e hsps] als] rest IH]; simpl;
    [lia|done|done|done].
Qed.

Lemma worker_step_passed w p s i j :
  passed i j p → passed i j (step w p s).1.
Proof.
  intros Hp.
  destruct p as [i'|i'|i'|i' b|i' j'|i' j'|i' j' row|i' j'|i' j' v rest
                 |i' j' v row rest|i' j' v rest|i' j' v row rest| |];
    simpl in *.
  - destruct (seq_keys !! i'); [|done]. by destruct (lock s).
  - destruct (seq_keys !! i'); [|done]. by case_decide.
  - by destruct (seq_keys !! i').
  - destruct b; simpl; lia.
  - destruct (seq_keys !! i') as [k|]; [|done].
    destruct (seq_keys !! j') as [k2|]; [|simpl; lia].
    destruct (getcell _ _ _) as [d| |]; [|done..].
    destruct (Qeqb d 99); [|simpl; lia].
    destruct (decide (k = k2)); [done|].
    destruct (length_gate_failed _ _ _); simpl; [lia|done].
  - by destruct (fetch_row s i' j' 0).
  - unfold store_row. destruct (setitem _ _ _); simpl; [lia|done..].
  - destruct (seq_keys !! i') as [k|]; [|done].
    destruct (seq_keys !! j') as [k2|]; [|done]. simpl.
    apply next_record_passed. lia.
  - by destruct (fetch_row s i' j' v).
  - unfold store_row. by destruct (setitem _ _ _).
  - by destruct (fetch_row s j' i' v).
  - unfold store_row. destruct (setitem _ _ _); simpl; [|done..].
    by apply next_record_passed.
  - done.
  - done.
Qed.

Lemma calls_inv_step c w :
  NoDup seq_keys → claim_inv seq_keys c → rows_logged c →
  calls_inv seq_keys c → calls_inv seq_keys (pstep c w).
Proof.
  destruct c as [ps s]. intros Hkeys Hclaim Hlog [Hnd Hcalls].
  unfold pool_step, calls_inv. simpl in *.
  destruct (ps !! w) as [p|] eqn:Hp; [|done]. simpl.
  pose proof (lookup_lt_Some _ _ _ Hp) as Hw.
  rewrite worker_step_calls, worker_step_rows.
  assert (∀ i j k k2, seq_keys !! i = Some k → seq_keys !! j = Some k2 →
            (k, k2) ∈ blast_calls s →
            ∃ w0 p0, (w0, i) ∈ rows_entered s ∧
                     <[w := (step w p s).1]> ps !! w0 = Some p0 ∧
                     passed i j p0) as Hold.
  { intros i j k k2 Hk Hk2 Hin.
    destruct (Hcalls i j k k2 Hk Hk2 Hin) as (w0 & p0 & Hrow & Hp0 & Hpass).
    destruct (decide (w0 = w)) as [->|Hne].
    - exists w, (step w p s).1. split; [done|].
      split; [by rewrite list_lookup_insert_eq|].
      apply worker_step_passed. congruence.
    - exists w0, p0. split; [done|]. by rewrite list_lookup_insert_ne. }
  assert (∀ i j k k2, p = Blasting i j → seq_keys !! i = Some k →
            seq_keys !! j = Some k2 → (k, k2) ∉ blast_calls s) as Hfresh.
  { intros i j k k2 -> Hk Hk2 Hin.
    destruct (Hcalls i j k k2 Hk Hk2 Hin) as (w0 & p0 & Hrow & Hp0 & Hpass).
    assert ((w, i) ∈ rows_entered s) as Hrow'
      by (by apply (Hlog w (Blasting i j) i)).
    assert (w0 = w) as ->.
    { apply (nodup_snd_agree (rows_entered s) w0 w i);
        [by apply (rows_entered_nodup seq_keys (ps, s))|done|done]. }
    rewrite Hp in Hp0. injection Hp0 as <-. simpl in Hpass. lia. }
  split.
  - destruct p as [i|i|i|i b|i j|i j|i j row|i j|i j v rest|i j v row rest
                   |i j v rest|i j v row rest| |]; simpl;
      try (by rewrite app_nil_r).
    destruct (seq_keys !! i) as [k|] eqn:Hk; [|by rewrite app_nil_r].
    destruct (seq_keys !! j) as [k2|] eqn:Hk2; [|by rewrite app_nil_r].
    apply NoDup_app. split; [done|]. split; [|apply NoDup_singleton].
    intros c Hc ->%list_elem_of_singleton. by eapply Hfresh.
  - intros i j k k2 Hk Hk2 [Hin|Hin]%elem_of_app.
    + destruct (Hold i j k k2 Hk Hk2 Hin) as (w0 & p0 & Hrow & Hp0 & Hpass).
      exists w0, p0. split; [|done]. apply elem_of_app. by left.
    + destruct p as [i'|i'|i'|i' b|i' j'|i' j'|i' j' row|i' j'|i' j' v rest
                     |i' j' v row rest|i' j' v rest|i' j' v row rest| |];
        simpl in Hin; try (by apply elem_of_nil in Hin).
      destruct (seq_keys !! i') as [k'|] eqn:Hk';
        [|by apply elem_of_nil in Hin].
      destruct (seq_keys !! j') as [k2'|] eqn:Hk2';
        [|by apply elem_of_nil in Hin].
      apply list_elem_of_singleton in Hin. injection Hin as ? ?.
      subst k' k2'.
      assert (i = i') as -> by exact (NoDup_lookup seq_keys i i' k Hkeys Hk Hk').
      assert (j = j') as -> by exact (NoDup_lookup seq_keys j j' k2 Hkeys Hk2 Hk2').
      exists w, (step w (Blasting i' j') s).1.
      split; [|split].
      * apply elem_of_app. left. by apply (Hlog w (Blasting i' j') i').
      * by rewrite list_lookup_insert_eq.
      * simpl. rewrite Hk', Hk2'. simpl. apply next_record_passed. lia.
Qed.

Lemma calls_inv_run sched : ∀ c,
  NoDup seq_keys → claim_inv seq_keys c → rows_logged c →
  calls_inv seq_keys c → calls_inv seq_keys (prun sched c).
Proof.
  induction sched as [|w sched IH]; intros c Hkeys Hclaim Hlog Hcalls; [done|].
  simpl. apply IH; [done| | |].
  - by apply claim_inv_step.
  - by apply rows_logged_step.
  - by apply calls_inv_step.
Qed.

Lemma calls_inv_init num_cores :
  calls_inv seq_keys (initial_pool seq_keys num_cores).
Proof.
  split; simpl; [constructor|].
  intros i j k k2 _ _ Hin. by apply elem_of_nil in Hin.
Qed.

End CallsOnce.
(** ** Ingroup and outgroup keys *)

Section GroupFacts.
Context {key taxon : Type} `{EqDecision taxon}.
Context (taxonomy : key → list taxon).

Lemma group_loop_filter (keys : list key) ingroup outgroup :
  ∀ ingroup_keys outgroup_keys,
  group_loop taxonomy keys ingroup outgroup ingroup_keys outgroup_keys
  = (ingroup_keys ++ filter (λ k, ingroup ∈ taxonomy k) keys,
     outgroup_keys ++
       filter (λ k, ¬ (ingroup ∈ taxonomy k) ∧ outgroup ∈ taxonomy k) keys).
Proof.
  induction keys as [|k keys IH]; intros ingroup_keys outgroup_keys; simpl.
  - by rewrite !app_nil_r.
  - destruct (decide (ingroup ∈ taxonomy k)) as [Hin|Hin].
    + rewrite IH, filter_cons_True by done.
      rewrite filter_cons_False by (by intros [? _]).
      by rewrite <- app_assoc.
    + rewrite filter_cons_False by done.
      destruct (decide (outgroup ∈ taxonomy k)) as [Hout|Hout].
      * rewrite IH, filter_cons_True by done. by rewrite <- app_assoc.
      * rewrite IH, filter_cons_False by (by intros [_ ?]). done.
Qed.

End GroupFacts.
(** ** Results and strings *)

Arguments otu_of : simpl never.
Arguments otu_name : simpl never.

Lemma rbind_Ok {A B} (m : result A) (k : A → result B) b :
  rbind m k = Ok b → ∃ a, m = Ok a ∧ k a = Ok b.
Proof. destruct m as [a|e]; simpl; [eauto|done]. Qed.

Lemma otu_of_cases first description :
  (∃ otu, otu_of first description = Ok otu) ∨
  otu_of first description = Raise IndexErr.
Proof.
  unfold otu_of, item.
  destruct (str_split description !! first); simpl; [|by right].
  destruct (str_split description !! S first); simpl; [|by right].
  left. eauto.
Qed.

Lemma str_split_length s : length (str_split s) = S (blanks s).
Proof.
  unfold blanks. induction s as [|c s IH]; [done|].
  simpl. destruct (decide (c = " "%char)) as [->|Hc].
  - rewrite filter_cons_True by done. simpl. by rewrite IH.
  - rewrite filter_cons_False by done.
    destruct (str_split s) as [|field fields]; [done|]. by rewrite <- IH.
Qed.

Lemma otu_of_Ok_blanks first description :
  (∃ otu, otu_of first description = Ok otu) ↔ first < blanks description.
Proof.
  unfold otu_of, item. pose proof (str_split_length description) as Hlen.
  split.
  - intros [otu Hotu].
    destruct (str_split description !! first); simpl in Hotu; [|done].
    destruct (str_split description !! S first) eqn:H2; simpl in Hotu; [|done].
    apply lookup_lt_Some in H2. lia.
  - intros Hlt.
    destruct (lookup_lt_is_Some_2 (str_split description) first) as [a ->];
      [lia|].
    destruct (lookup_lt_is_Some_2 (str_split description) (S first)) as [b ->];
      [lia|].
    simpl. eauto.
Qed.

Lemma otu_name_Ok first description otu :
  otu_of first description = Ok otu → otu_name first description = otu.
Proof. unfold otu_name. by intros ->. Qed.

Lemma list_index_first {A} `{EqDecision A} (x : A) pre l :
  x ∉ pre → list_index x (pre ++ x :: l) = Ok (length pre).
Proof.
  induction pre as [|y pre IH]; intros Hx; simpl.
  - by rewrite decide_True.
  - rewrite decide_False by (intros ->; apply Hx, list_elem_of_here).
    rewrite IH; [done|]. intros H'. apply Hx. by apply list_elem_of_further.
Qed.

(** ** assemble_fasta_clusters *)

Section AssembleFacts.
Context {key : Type} `{EqDecision key}.
Context (gb : key → SeqRecord.t).

Abbreviation name := (λ k, otu_name 0 (SeqRecord.description (gb k))).
Abbreviation parses :=
  (λ k, ∃ otu, otu_of 0 (SeqRecord.description (gb k)) = Ok otu).
Abbreviation big := (λ c : list key, 3 < length (distinct_otus name c)).

Lemma collect_otus_Ok cluster : ∀ otus out,
  collect_otus gb cluster otus = Ok out →
  Forall parses cluster ∧
  (NoDup otus → NoDup out) ∧
  ∀ x, x ∈ out ↔ x ∈ otus ∨ x ∈ name <$> cluster.
Proof.
  induction cluster as [|k cluster IH]; intros otus out; simpl.
  - intros [= <-]. split; [done|]. split; [done|]. intros x.
    rewrite elem_of_nil. tauto.
  - intros (otu & Hotu & Hrun)%rbind_Ok.
    apply IH in Hrun as (Hall & Hnd & Hin).
    pose proof (otu_name_Ok _ _ _ Hotu) as Hname.
    split; [constructor; eauto|]. split.
    + intros Hnd0. apply Hnd. case_decide; [done|].
      apply NoDup_app. split; [done|]. split; [|apply NoDup_singleton].
      by intros x Hx ->%list_elem_of_singleton.
    + intros x. rewrite Hin, elem_of_cons, Hname. case_decide.
      * split; [tauto|]. intros [?|[->|?]]; auto.
      * rewrite elem_of_app, list_elem_of_singleton. tauto.
Qed.

Lemma collect_otus_runs cluster : ∀ otus,
  Forall parses cluster → ∃ out, collect_otus gb cluster otus = Ok out.
Proof.
  induction cluster as [|k cluster IH]; intros otus Hall; simpl; [eauto|].
  apply Forall_cons in Hall as [[otu Hotu] Hall]. rewrite Hotu. simpl.
  by apply IH.
Qed.

Lemma collect_otus_fails cluster : ∀ otus,
  ¬ Forall parses cluster → collect_otus gb cluster otus = Raise IndexErr.
Proof.
  induction cluster as [|k cluster IH]; intros otus Hall; simpl.
  - by destruct Hall.
  - destruct (otu_of_cases 0 (SeqRecord.description (gb k))) as [[otu Hotu]|Hotu];
      rewrite Hotu; simpl; [|done].
    apply IH. intros Hrest. apply Hall. constructor; eauto.
Qed.

Lemma parses_all_or_not cluster :
  Forall parses cluster ∨ ¬ Forall parses cluster.
Proof.
  induction cluster as [|k cluster [IH|IH]].
  - by left.
  - destruct (otu_of_cases 0 (SeqRecord.description (gb k))) as [Hk|Hk].
    + left. by constructor.
    + right. intros [[otu Hotu] _]%Forall_cons. congruence.
  - right. by intros [_ ?]%Forall_cons.
Qed.

Lemma unparsed_key cluster :
  ¬ Forall parses cluster →
  ∃ k, k ∈ cluster ∧ blanks (SeqRecord.description (gb k)) = 0.
Proof.
  induction cluster as [|k cluster IH]; intros Hall.
  - destruct Hall. constructor.
  - destruct (otu_of_cases 0 (SeqRecord.description (gb k))) as [Hk|Hk].
    + destruct IH as (k' & Hk' & Hb).
      * intros Hrest. apply Hall. by constructor.
      * exists k'. split; [by apply list_elem_of_further|done].
    + exists k. split; [apply list_elem_of_here|].
      destruct (blanks (SeqRecord.description (gb k))) eqn:Hb; [done|].
      destruct (proj2 (otu_of_Ok_blanks 0 (SeqRecord.description (gb k))))
        as [otu Hotu]; [lia|congruence].
Qed.

Lemma collect_otus_length cluster out :
  collect_otus gb cluster [] = Ok out →
  length out = length (distinct_otus name cluster).
Proof.
  intros (_ & Hnd & Hin)%collect_otus_Ok.
  apply Permutation_length, NoDup_Permutation.
  - apply Hnd. constructor.
  - apply NoDup_remove_dups.
  - intros x. rewrite Hin, elem_of_nil. unfold distinct_otus.
    rewrite elem_of_remove_dups. tauto.
Qed.

Lemma collect_sequences_Ok cluster : ∀ sequences seen out,
  collect_sequences gb cluster sequences seen = Ok out →
  ∃ kept, out = sequences ++ (gb <$> kept) ∧
    sublist kept cluster ∧
    (NoDup seen → NoDup (seen ++ (name <$> kept))) ∧
    (∀ k, k ∈ cluster → name k ∈ seen ∨ name k ∈ name <$> kept) ∧
    (∀ l1 k l2, cluster = l1 ++ k :: l2 → name k ∉ seen →
                name k ∉ name <$> l1 → k ∈ kept).
Proof.
  induction cluster as [|k cluster IH]; intros sequences seen out; simpl.
  - intros [= <-]. exists []. rewrite app_nil_r. split; [done|].
    split; [done|]. split; [by rewrite app_nil_r|].
    split; [by intros k ?%elem_of_nil|].
    intros l1 k l2 Hl. by destruct l1.
  - intros (otu & Hotu & Hrun)%rbind_Ok.
    pose proof (otu_name_Ok _ _ _ Hotu) as Hname. subst otu.
    destruct (decide (name k ∈ seen)) as [Hseen|Hseen].
    + apply IH in Hrun as (kept & -> & Hsub & Hnd & Hcov & Hfirst).
      exists kept. split; [done|]. split; [by apply sublist_cons|].
      split; [done|]. split.
      * intros k' [->|Hk']%elem_of_cons; [by left|by apply Hcov].
      * intros l1 k' l2 Hl Hk' Hl1. destruct l1 as [|k1 l1].
        -- simpl in Hl. injection Hl as -> ->. done.
        -- simpl in Hl. injection Hl as -> ->.
           apply (Hfirst l1 k' l2); [done|done|].
           intros Hin. apply Hl1. by apply list_elem_of_further.
    + apply IH in Hrun as (kept & -> & Hsub & Hnd & Hcov & Hfirst).
      exists (k :: kept). rewrite <- app_assoc.
      split; [done|]. split; [by apply sublist_skip|].
      split; [|split].
      * intros Hnd0.
        assert (seen ++ (name <$> k :: kept)
                = (seen ++ [name k]) ++ (name <$> kept)) as ->
          by (by rewrite <- app_assoc).
        apply Hnd. apply NoDup_app. split; [done|].
        split; [|apply NoDup_singleton].
        intros x Hx Hx'%list_elem_of_singleton. by subst x.
      * intros k' [->|Hk']%elem_of_cons.
        -- right. apply list_elem_of_here.
        -- destruct (Hcov k' Hk') as [[?|Hk1%list_elem_of_singleton]%elem_of_app|?].
           ++ by left.
           ++ right. rewrite Hk1. apply list_elem_of_here.
           ++ right. by apply list_elem_of_further.
      * intros l1 k' l2 Hl Hk' Hl1. destruct l1 as [|k1 l1].
        -- simpl in Hl. injection Hl as -> ->. apply list_elem_of_here.
        -- simpl in Hl. injection Hl as -> ->.
           apply list_elem_of_further. apply (Hfirst l1 k' l2); [done| |].
           ++ intros [?|Hk1%list_elem_of_singleton]%elem_of_app; [done|].
              apply Hl1. rewrite Hk1. apply list_elem_of_here.
           ++ intros Hin. apply Hl1. by apply list_elem_of_further.
Qed.

Lemma collect_sequences_runs cluster : ∀ sequences seen,
  Forall parses cluster →
  ∃ out, collect_sequences gb cluster sequences seen = Ok out.
Proof.
  induction cluster as [|k cluster IH]; intros sequences seen Hall; simpl;
    [eauto|].
  apply Forall_cons in Hall as [[otu Hotu] Hall]. rewrite Hotu. simpl.
  case_decide; by apply IH.
Qed.


Lemma big_length cluster otus :
  collect_otus gb cluster [] = Ok otus → 3 < length otus ↔ big cluster.
Proof. intros H. by rewrite (collect_otus_length _ _ H). Qed.

Lemma assemble_loop_Ok clusters : ∀ i a a',
  assemble_loop gb clusters i a = Ok a' →
  to_delete a' = to_delete a ++ filter (λ c, ¬ big c) clusters ∧
  cluster_files a'
  = cluster_files a ++
      (cluster_file_name <$> seq i (length (filter big clusters))) ∧
  ∃ new, written a' = written a ++ new ∧
    fst <$> new = cluster_file_name <$> seq i (length (filter big clusters)) ∧
    Forall2 (file_of gb) (filter big clusters) new.
Proof.
  induction clusters as [|c clusters IH]; intros i a a'; simpl.
  - intros [= <-]. rewrite !app_nil_r. split; [done|]. split; [done|].
    exists []. by rewrite app_nil_r.
  - intros (otus & Hotus & Hrun)%rbind_Ok.
    pose proof (big_length _ _ Hotus) as Hbig.
    destruct (decide (3 < length otus)) as [Hlen|Hlen].
    + apply rbind_Ok in Hrun as (sequences & Hseq & Hrun).
      apply IH in Hrun as (Hdel & Hfiles & new & Hnew & Hnames & Hall).
      simpl in *.
      assert (filter big (c :: clusters) = c :: filter big clusters) as ->
        by (apply filter_cons_True; by apply Hbig).
      assert (filter (λ c, ¬ big c) (c :: clusters)
              = filter (λ c, ¬ big c) clusters) as ->
        by (apply filter_cons_False; intros Hn; by apply Hn, Hbig).
      cbn [length seq]. rewrite !fmap_cons. split; [done|].
      split; [by rewrite Hfiles, <- app_assoc|].
      exists ((cluster_file_name i, sequences) :: new).
      split; [by rewrite Hnew, <- app_assoc|].
      split; [by rewrite fmap_cons, Hnames|].
      constructor; [|done].
      apply collect_sequences_Ok in Hseq
        as (kept & Hkept & Hsub & Hnd & Hcov & Hfirst).
      exists kept. simpl in *.
      assert (NoDup (name <$> kept)) as Hnd' by (apply Hnd; constructor).
      split; [done|]. split; [done|]. split; [done|].
      split; [|split].
      * intros k Hk. by destruct (Hcov k Hk) as [?%elem_of_nil|?].
      * intros l1 k l2 Hl Hk.
        apply (Hfirst l1 k l2 Hl); [by intros ?%elem_of_nil|done].
      * apply Hbig in Hlen.
        assert (length kept = length (distinct_otus name c)) as ->; [|done].
        rewrite <- (length_fmap name kept).
        apply Permutation_length, NoDup_Permutation;
          [done|apply NoDup_remove_dups|].
        intros x. unfold distinct_otus. rewrite elem_of_remove_dups.
        rewrite !list_elem_of_fmap. split.
        -- intros (k & -> & Hk). exists k. split; [done|].
           by apply (sublist_subseteq _ _ Hsub).
        -- intros (k & -> & Hk). apply list_elem_of_fmap.
           by destruct (Hcov k Hk) as [?%elem_of_nil|?].
    + apply IH in Hrun as (Hdel & Hfiles & new & Hnew & Hnames & Hall).
      simpl in *.
      assert (filter big (c :: clusters) = filter big clusters) as ->
        by (apply filter_cons_False; intros Hb; by apply Hlen, Hbig).
      assert (filter (λ c, ¬ big c) (c :: clusters)
              = c :: filter (λ c, ¬ big c) clusters) as ->
        by (apply filter_cons_True; intros Hb; by apply Hlen, Hbig).
      split; [by rewrite Hdel, <- app_assoc|]. split; [done|].
      by exists new.
Qed.

Lemma assemble_loop_runs clusters : ∀ i a,
  Forall (Forall parses) clusters →
  ∃ a', assemble_loop gb clusters i a = Ok a'.
Proof.
  induction clusters as [|c clusters IH]; intros i a Hall; simpl; [eauto|].
  apply Forall_cons in Hall as [Hc Hall].
  destruct (collect_otus_runs c [] Hc) as [otus ->]. simpl.
  case_decide; [|by apply IH].
  destruct (collect_sequences_runs c [] [] Hc) as [sequences ->]. simpl.
  by apply IH.
Qed.

Lemma assemble_loop_fails clusters : ∀ i a,
  ¬ Forall (Forall parses) clusters →
  assemble_loop gb clusters i a = Raise IndexErr.
Proof.
  induction clusters as [|c clusters IH]; intros i a Hall; simpl.
  - by destruct Hall.
  - destruct (parses_all_or_not c) as [Hc|Hc].
    + assert (¬ Forall (Forall parses) clusters) as Hrest.
      { intros Hrest. apply Hall. by constructor. }
      destruct (collect_otus_runs c [] Hc) as [otus ->]. simpl.
      case_decide; [|by apply IH].
      destruct (collect_sequences_runs c [] [] Hc) as [sequences ->]. simpl.
      by apply IH.
    + by rewrite collect_otus_fails.
Qed.

Lemma delete_clusters_filter (P : list key → Prop) `{∀ c, Decision (P c)}
    (l : list (list key)) : ∀ pre,
  Forall P pre →
  delete_clusters (filter (λ c, ¬ P c) l) (pre ++ l) = Ok (pre ++ filter P l).
Proof.
  induction l as [|c l IH]; intros pre Hpre.
  - done.
  - destruct (decide (P c)) as [Hc|Hc].
    + rewrite filter_cons_False by (by intros Hn).
      rewrite filter_cons_True by done.
      rewrite (cons_middle c pre l), app_assoc.
      rewrite IH by (apply Forall_app; split; [done|by constructor]).
      by rewrite <- app_assoc.
    + rewrite filter_cons_True by done.
      rewrite filter_cons_False by done. simpl.
      rewrite list_index_first.
      * simpl. rewrite delete_middle. by apply IH.
      * intros Hin. by apply (proj1 (Forall_forall _ _) Hpre) in Hin.
Qed.

End AssembleFacts.

(** ** align_cluster *)

Lemma align_cluster_name i :
  align_cluster (cluster_file_name i) = Ok (alignment_file_name i).
Proof. reflexivity. Qed.

Lemma align_clusters_names (l : list nat) :
  align_clusters (cluster_file_name <$> l) = Ok (alignment_file_name <$> l).
Proof.
  induction l as [|i l IH]; [done|].
  rewrite !fmap_cons. cbn [align_clusters].
  by rewrite align_cluster_name, IH.
Qed.

Lemma string_app_length a c :
  String.length (a +:+ c) = String.length a + String.length c.
Proof.
  induction a as [|x a IH]; [done|].
  change (S (String.length (a +:+ c)) = S (String.length a + String.length c)).
  by rewrite IH.
Qed.

Lemma string_app_cancel_r c : ∀ a b, a +:+ c = b +:+ c → a = b.
Proof.
  induction a as [|x a IH]; intros [|y b] Hab.
  - done.
  - apply (f_equal String.length) in Hab.
    rewrite !string_app_length in Hab. simpl in Hab. lia.
  - apply (f_equal String.length) in Hab.
    rewrite !string_app_length in Hab. simpl in Hab. lia.
  - change (String x (a +:+ c) = String y (b +:+ c)) in Hab.
    injection Hab as -> Hab. f_equal. by apply IH.
Qed.

Lemma cluster_file_name_inj i j :
  cluster_file_name i = cluster_file_name j → i = j.
Proof.
  unfold cluster_file_name. intros Hij.
  apply (inj (String.append _)) in Hij.
  apply string_app_cancel_r in Hij. by apply (inj pretty).
Qed.

Lemma alignment_file_name_inj i j :
  alignment_file_name i = alignment_file_name j → i = j.
Proof.
  unfold alignment_file_name. intros Hij.
  apply (inj (String.append _)) in Hij.
  apply string_app_cancel_r in Hij. by apply (inj pretty).
Qed.
(** ** make_gaps and concatenate *)

Lemma gaps_loop_replicate length : ∀ gap,
  gaps_loop length gap = replicate length "-"%char ++ gap.
Proof.
  induction length as [|n IH]; intros gap; [done|].
  cbn [gaps_loop]. rewrite IH.
  change (replicate (S n) "-"%char) with ("-"%char :: replicate n "-"%char).
  by rewrite replicate_cons_app, <- app_assoc.
Qed.

Lemma make_gaps_replicate length : make_gaps length = replicate length "-"%char.
Proof. unfold make_gaps. by rewrite gaps_loop_replicate, app_nil_r. Qed.

Section ConcatenateFacts.

Abbreviation nm := (λ r, otu_name 1 (SeqRecord.description r)).

Lemma first_of_cons otu r records :
  first_of otu (r :: records)
  = if decide (nm r = otu) then Some r else first_of otu records.
Proof.
  unfold first_of. case_decide.
  - by rewrite filter_cons_True.
  - by rewrite filter_cons_False.
Qed.

Lemma first_of_elem_of otu records r :
  first_of otu records = Some r → r ∈ records ∧ nm r = otu.
Proof.
  unfold first_of. intros H%head_Some_elem_of.
  apply list_elem_of_filter in H as [? ?]. done.
Qed.

Lemma first_of_None otu records :
  first_of otu records = None ↔ otu ∉ nm <$> records.
Proof.
  induction records as [|r records IH].
  { split; [by intros _ ?%elem_of_nil|done]. }
  rewrite first_of_cons, fmap_cons, not_elem_of_cons. case_decide.
  - split; [done|]. by intros [? _].
  - rewrite IH. split; [by split|by intros [_ ?]].
Qed.

Lemma register_records_Ok records : ∀ otus,
  described 1 records →
  ∃ otus', register_records records otus = Ok otus' ∧
    ∀ o, otus' !! o = match otus !! o with
                      | Some s => Some s
                      | None => if decide (o ∈ nm <$> records)
                                then Some [] else None
                      end.
Proof.
  induction records as [|r records IH]; intros otus Hdesc; simpl.
  - exists otus. split; [done|]. intros o. by destruct (otus !! o).
  - destruct (Hdesc r) as [otu Hotu]; [apply list_elem_of_here|].
    rewrite Hotu. simpl. pose proof (otu_name_Ok _ _ _ Hotu) as Hname.
    destruct (IH (if decide (is_Some (otus !! otu)) then otus
                  else <[otu := []]> otus)) as (otus' & -> & Hlook).
    { intros r' Hr'. apply Hdesc. by apply list_elem_of_further. }
    exists otus'. split; [done|]. intros o. rewrite Hlook, Hname.
    destruct (decide (is_Some (otus !! otu))) as [[s Hs]|Hnone].
    + destruct (otus !! o) eqn:Ho; [done|].
      assert (o ≠ otu) by congruence.
      destruct (decide (o ∈ nm <$> records)).
      * rewrite decide_True; [done|]. by apply list_elem_of_further.
      * rewrite decide_False; [done|]. by apply not_elem_of_cons.
    + destruct (decide (o = otu)) as [->|Hne].
      * rewrite lookup_insert_eq.
        apply eq_None_not_Some in Hnone. rewrite Hnone.
        rewrite decide_True; [done|]. apply list_elem_of_here.
      * rewrite lookup_insert_ne by done.
        destruct (otus !! o); [done|].
        destruct (decide (o ∈ nm <$> records)).
        -- rewrite decide_True; [done|]. by apply list_elem_of_further.
        -- rewrite decide_False; [done|]. by apply not_elem_of_cons.
Qed.

Lemma register_alignments_Ok alignment_files : ∀ otus,
  Forall (described 1) alignment_files →
  ∃ otus', register_alignments alignment_files otus = Ok otus' ∧
    ∀ o, otus' !! o = match otus !! o with
                      | Some s => Some s
                      | None => if decide (o ∈ nm <$> concat alignment_files)
                                then Some [] else None
                      end.
Proof.
  induction alignment_files as [|records rest IH]; intros otus Hdesc; simpl.
  - exists otus. split; [done|]. intros o. by destruct (otus !! o).
  - apply Forall_cons in Hdesc as [Hrecords Hrest].
    destruct (register_records_Ok records otus Hrecords)
      as (otus1 & -> & Hlook1). simpl.
    destruct (IH otus1 Hrest) as (otus' & -> & Hlook).
    exists otus'. split; [done|]. intros o. rewrite Hlook, Hlook1.
    destruct (otus !! o); [done|]. rewrite fmap_app.
    destruct (decide (o ∈ nm <$> records)).
    + rewrite decide_True; [done|]. apply elem_of_app. by left.
    + destruct (decide (o ∈ nm <$> concat rest)).
      * rewrite decide_True; [done|]. apply elem_of_app. by right.
      * rewrite decide_False; [done|]. rewrite elem_of_app. tauto.
Qed.

Lemma register_fails records : ∀ otus,
  ¬ described 1 records → register_records records otus = Raise IndexErr.
Proof.
  induction records as [|r records IH]; intros otus Hdesc; simpl.
  - destruct Hdesc. by intros r ?%elem_of_nil.
  - destruct (otu_of_cases 1 (SeqRecord.description r)) as [[otu Hotu]|Hotu];
      rewrite Hotu; simpl; [|done].
    apply IH. intros Hrest. apply Hdesc.
    intros r' [->|Hr']%elem_of_cons; eauto.
Qed.

Lemma described_or_not records :
  described 1 records ∨
  ∃ r, r ∈ records ∧ blanks (SeqRecord.description r) < 2.
Proof.
  induction records as [|r records [IH|(r' & Hr' & Hb)]].
  - left. by intros r ?%elem_of_nil.
  - destruct (decide (1 < blanks (SeqRecord.description r))) as [Hr|Hr].
    + left. intros r' [->|Hr']%elem_of_cons; [|by apply IH].
      by apply otu_of_Ok_blanks.
    + right. exists r. split; [apply list_elem_of_here|lia].
  - right. exists r'. split; [by apply list_elem_of_further|done].
Qed.

Lemma add_records_Ok records : ∀ otus added loci,
  described 1 records →
  (∀ r, r ∈ records → is_Some (otus !! nm r)) →
  ∃ otus',
    add_records records otus added loci
    = Ok (otus', match last records with
                 | Some r => Some (length (SeqRecord.seq r))
                 | None => loci
                 end) ∧
    ∀ o, otus' !! o
         = (λ s, s ++ if decide (o ∈ added) then [] else first_seq o records)
           <$> otus !! o.
Proof.
  induction records as [|r records IH]; intros otus added loci Hdesc Hreg.
  - exists otus. split; [done|]. intros o.
    destruct (otus !! o) as [s|]; [|done]. simpl.
    unfold first_seq, first_of. simpl. case_decide; by rewrite app_nil_r.
  - simpl. destruct (Hdesc r) as [otu Hotu]; [apply list_elem_of_here|].
    rewrite Hotu. simpl. pose proof (otu_name_Ok _ _ _ Hotu) as Hname.
    assert (described 1 records) as Hdesc'.
    { intros r' Hr'. apply Hdesc. by apply list_elem_of_further. }
    assert (match last (r :: records) with
            | Some r0 => Some (length (SeqRecord.seq r0))
            | None => loci
            end
            = match last records with
              | Some r0 => Some (length (SeqRecord.seq r0))
              | None => Some (length (SeqRecord.seq r))
              end) as ->.
    { rewrite last_cons. by destruct (last records). }
    destruct (decide (otu ∈ added)) as [Hadded|Hadded].
    + destruct (IH otus added (Some (length (SeqRecord.seq r))) Hdesc')
        as (otus' & -> & Hlook).
      { intros r' Hr'. apply Hreg. by apply list_elem_of_further. }
      exists otus'. split; [done|]. intros o. rewrite Hlook.
      destruct (decide (o ∈ added)) as [Ho|Ho]; [done|].
      unfold first_seq. rewrite first_of_cons.
      rewrite decide_False; [done|]. congruence.
    + destruct (Hreg r) as [sequence Hseq]; [apply list_elem_of_here|].
      rewrite Hname in Hseq. rewrite Hseq.
      destruct (IH (<[otu := sequence ++ SeqRecord.seq r]> otus)
                  (added ++ [otu]) (Some (length (SeqRecord.seq r))) Hdesc')
        as (otus' & -> & Hlook).
      { intros r' Hr'. apply lookup_insert_is_Some'. right.
        apply Hreg. by apply list_elem_of_further. }
      exists otus'. split; [done|]. intros o. rewrite Hlook.
      unfold first_seq. rewrite first_of_cons, Hname.
      destruct (decide (o = otu)) as [->|Hne].
      * rewrite lookup_insert_eq, Hseq. simpl.
        rewrite decide_True by (apply elem_of_app; right; apply list_elem_of_here).
        rewrite decide_False by done. rewrite decide_True by done.
        simpl. by rewrite app_nil_r.
      * rewrite lookup_insert_ne by done.
        rewrite (decide_False (P := otu = o)) by done.
        destruct (decide (o ∈ added)) as [Ho|Ho].
        -- rewrite decide_True; [done|]. apply elem_of_app. by left.
        -- rewrite decide_False; [done|].
           intros [?|?%list_elem_of_singleton]%elem_of_app; done.
Qed.

Lemma add_gaps_lookup otus total loci o :
  add_gaps otus total loci !! o
  = (λ s, if decide (length s < total)
          then s ++ replicate loci "-"%char else s) <$> otus !! o.
Proof.
  unfold add_gaps. rewrite lookup_fmap.
  destruct (otus !! o); [|done]. simpl. by rewrite make_gaps_replicate.
Qed.

Lemma locus_of_length otu records :
  aligned records → length (locus_of otu records) = locus_length records.
Proof.
  intros Hal. unfold locus_of, locus_length.
  destruct (first_of otu records) as [r|] eqn:Hfirst;
    [|by rewrite length_replicate].
  apply first_of_elem_of in Hfirst as [Hr _].
  destruct (last records) as [r'|] eqn:Hlast.
  - simpl. apply Hal; [done|]. by apply last_Some_elem_of.
  - apply last_None in Hlast. subst. by apply elem_of_nil in Hr.
Qed.

(** The dictionary after the records and the gaps of one alignment. *)
Lemma add_alignment_Ok records otus total loci :
  described 1 records → aligned records → records ≠ [] →
  (∀ r, r ∈ records → is_Some (otus !! nm r)) →
  (∀ o s, otus !! o = Some s → length s = total) →
  ∃ otus1,
    add_records records otus [] loci
    = Ok (otus1, Some (locus_length records)) ∧
    ∀ o, add_gaps otus1 (total + locus_length records)
                  (locus_length records) !! o
         = (λ s, s ++ locus_of o records) <$> otus !! o.
Proof.
  intros Hdesc Hal Hne Hreg Hlen.
  destruct (add_records_Ok records otus [] loci Hdesc Hreg)
    as (otus1 & Hrun & Hlook).
  exists otus1. split.
  - rewrite Hrun. unfold locus_length.
    destruct (last records) eqn:Hlast; [done|].
    by apply last_None in Hlast.
  - intros o. rewrite add_gaps_lookup, Hlook.
    destruct (otus !! o) as [s|] eqn:Ho; [|done]. simpl.
    pose proof (Hlen o s Ho) as Hs.
    pose proof (locus_of_length o records Hal) as Hloc.
    unfold first_seq, locus_of in *.
    destruct (first_of o records) as [r|]; simpl in *.
    + rewrite decide_False; [done|]. rewrite length_app. lia.
    + rewrite app_nil_r. case_decide; [done|].
      assert (locus_length records = 0) as -> by lia. by rewrite app_nil_r.
Qed.

Lemma add_alignments_Ok alignment_files : ∀ otus total loci,
  Forall (described 1) alignment_files →
  Forall aligned alignment_files →
  Forall (λ records, records ≠ []) alignment_files →
  (∀ records r, records ∈ alignment_files → r ∈ records →
                is_Some (otus !! nm r)) →
  (∀ o s, otus !! o = Some s → length s = total) →
  ∃ otus', add_alignments alignment_files otus total loci = Ok otus' ∧
    ∀ o, otus' !! o = (λ s, s ++ supermatrix_row o alignment_files) <$> otus !! o.
Proof.
  induction alignment_files as [|records rest IH];
    intros otus total loci Hdesc Hal Hne Hreg Hlen.
  - exists otus. split; [done|]. intros o.
    destruct (otus !! o); [|done]. simpl. by rewrite app_nil_r.
  - apply Forall_cons in Hdesc as [Hdesc Hdesc'].
    apply Forall_cons in Hal as [Hal Hal'].
    apply Forall_cons in Hne as [Hne Hne'].
    destruct (add_alignment_Ok records otus total loci Hdesc Hal Hne)
      as (otus1 & Hrun & Hlook); [|done|].
    { intros r Hr. apply (Hreg records r); [apply list_elem_of_here|done]. }
    simpl. rewrite Hrun. simpl.
    destruct (IH (add_gaps otus1 (total + locus_length records)
                    (locus_length records))
                 (total + locus_length records)
                 (Some (locus_length records)) Hdesc' Hal' Hne')
      as (otus' & -> & Hlook').
    + intros records' r Hrecords' Hr. rewrite Hlook.
      apply fmap_is_Some. apply (Hreg records' r); [|done].
      by apply list_elem_of_further.
    + intros o s. rewrite Hlook.
      destruct (otus !! o) as [s0|] eqn:Ho; [|done]. simpl.
      intros [= <-]. rewrite length_app, (Hlen o s0 Ho).
      by rewrite locus_of_length.
    + exists otus'. split; [done|]. intros o. rewrite Hlook', Hlook.
      destruct (otus !! o); [|done]. simpl.
      unfold supermatrix_row. rewrite fmap_cons. simpl.
      by rewrite app_assoc.
Qed.


Lemma supermatrix_row_length otu alignment_files :
  Forall aligned alignment_files →
  length (supermatrix_row otu alignment_files)
  = sum_list (locus_length <$> alignment_files).
Proof.
  unfold supermatrix_row.
  induction 1 as [|records rest Hal _ IH]; [done|].
  rewrite !fmap_cons. simpl. by rewrite length_app, IH, locus_of_length.
Qed.

Lemma register_alignments_fails alignment_files : ∀ otus,
  ¬ Forall (described 1) alignment_files →
  register_alignments alignment_files otus = Raise IndexErr.
Proof.
  induction alignment_files as [|records rest IH]; intros otus Hbad; simpl.
  - destruct Hbad. constructor.
  - destruct (described_or_not records) as [Hdesc|(r & Hr & Hb)].
    + destruct (register_records_Ok records otus Hdesc) as (otus1 & -> & _).
      simpl. apply IH. intros Hrest. apply Hbad. by constructor.
    + rewrite register_fails; [done|]. intros Hdesc.
      apply Hdesc, otu_of_Ok_blanks in Hr. lia.
Qed.

Lemma add_alignments_runs alignment_files : ∀ otus total loci,
  Forall (described 1) alignment_files →
  (∀ records r, records ∈ alignment_files → r ∈ records →
                is_Some (otus !! nm r)) →
  is_Some loci ∨ alignment_files = [] ∨
    (∃ r records rest, alignment_files = (r :: records) :: rest) →
  ∃ otus', add_alignments alignment_files otus total loci = Ok otus'.
Proof.
  induction alignment_files as [|records rest IH];
    intros otus total loci Hdesc Hreg Hloci; [by exists otus|].
  apply Forall_cons in Hdesc as [Hdesc Hdesc'].
  destruct (add_records_Ok records otus [] loci Hdesc) as (otus1 & Hrun & Hlook).
  { intros r Hr. apply (Hreg records r); [apply list_elem_of_here|done]. }
  simpl. rewrite Hrun. simpl.
  assert (∃ l, match last records with
               | Some r => Some (length (SeqRecord.seq r))
               | None => loci
               end = Some l) as [l ->].
  { destruct Hloci as [[l ->]|[?|(r & records' & rest' & [= -> ->])]].
    - destruct (last records); eauto.
    - done.
    - rewrite last_cons. destruct (last records'); eauto. }
  apply IH; [done| |left; eauto].
  intros records' r Hrecords' Hr. rewrite add_gaps_lookup, Hlook.
  apply fmap_is_Some, fmap_is_Some. apply (Hreg records' r); [|done].
  by apply list_elem_of_further.
Qed.

(** The three ways [concatenate] can go, up to the writing of the file. *)
Lemma concatenate_otus_cases alignment_files :
  ((∃ records r, records ∈ alignment_files ∧ r ∈ records ∧
                 blanks (SeqRecord.description r) < 2) ∧
   concatenate_otus alignment_files = Raise IndexErr) ∨
  (Forall (described 1) alignment_files ∧
   (∃ rest, alignment_files = [] :: rest) ∧
   concatenate_otus alignment_files = Raise UnboundLocalErr) ∨
  (Forall (described 1) alignment_files ∧
   (alignment_files = [] ∨
    ∃ r records rest, alignment_files = (r :: records) :: rest) ∧
   ∃ otus, concatenate_otus alignment_files = Ok otus).
Proof.
  assert (Forall (described 1) alignment_files ∨
          ∃ records r, records ∈ alignment_files ∧ r ∈ records ∧
                       blanks (SeqRecord.description r) < 2) as [Hdesc|Hbad].
  { induction alignment_files as [|records rest [IH|(rs & r & Hrs & Hr & Hb)]].
    - left. constructor.
    - destruct (described_or_not records) as [Hdesc|(r & Hr & Hb)].
      + left. by constructor.
      + right. exists records, r. split; [apply list_elem_of_here|done].
    - right. exists rs, r. split; [by apply list_elem_of_further|done]. }
  - right. unfold concatenate_otus.
    destruct (register_alignments_Ok alignment_files ∅ Hdesc)
      as (otus & -> & Hlook). simpl.
    assert (∀ records r, records ∈ alignment_files → r ∈ records →
                         is_Some (otus !! nm r)) as Hreg.
    { intros records r Hrecords Hr. rewrite Hlook, lookup_empty.
      rewrite decide_True; [eauto|].
      apply (list_elem_of_fmap_2 nm), elem_of_concat. eauto. }
    destruct alignment_files as [|[|r records] rest].
    + right. split; [done|]. split; [by left|]. by exists otus.
    + left. split; [done|]. split; [by exists rest|done].
    + right. split; [done|]. split; [right; eauto|].
      apply add_alignments_runs; [done|done|]. right. right. eauto.
  - left. split; [done|]. unfold concatenate_otus.
    rewrite register_alignments_fails; [done|].
    intros Hdesc. destruct Hbad as (records & r & Hrecords & Hr & Hb).
    apply (proj1 (Forall_forall _ _) Hdesc records Hrecords) in Hr.
    apply otu_of_Ok_blanks in Hr. lia.
Qed.

(** The dictionary [concatenate] writes, row by row. *)
Lemma concatenate_otus_rows alignment_files :
  Forall (described 1) alignment_files →
  Forall aligned alignment_files →
  Forall (λ records, records ≠ []) alignment_files →
  ∃ otus, concatenate_otus alignment_files = Ok otus ∧
    (∀ o, otus !! o
          = if decide (o ∈ nm <$> concat alignment_files)
            then Some (supermatrix_row o alignment_files) else None) ∧
    ∀ o s, otus !! o = Some s →
           length s = sum_list (locus_length <$> alignment_files).
Proof.
  intros Hdesc Hal Hne. unfold concatenate_otus.
  destruct (register_alignments_Ok alignment_files ∅ Hdesc)
    as (otus0 & -> & Hlook0). simpl.
  destruct (add_alignments_Ok alignment_files otus0 0 None Hdesc Hal Hne)
    as (otus & Hrun & Hlook).
  - intros records r Hrecords Hr. rewrite Hlook0, lookup_empty.
    rewrite decide_True; [eauto|].
    apply (list_elem_of_fmap_2 (λ r, otu_name 1 (SeqRecord.description r))),
      elem_of_concat. eauto.
  - intros o s. rewrite Hlook0, lookup_empty. case_decide; [|done].
    by intros [= <-].
  - exists otus. split; [done|].
    assert (∀ o, otus !! o
              = if decide (o ∈ (λ r, otu_name 1 (SeqRecord.description r))
                                 <$> concat alignment_files)
                then Some (supermatrix_row o alignment_files) else None)
      as Hrows.
    { intros o. rewrite Hlook, Hlook0, lookup_empty. by case_decide. }
    split; [done|]. intros o s. rewrite Hrows. case_decide; [|done].
    intros [= <-]. by apply supermatrix_row_length.
Qed.

End ConcatenateFacts.

(** ** The lines of a sequence *)

Lemma write_lines_Ok sequence fuel : ∀ i,
  length sequence - i + 80 ≤ 80 * fuel →
  ∃ lines, write_lines fuel sequence i = Ok lines ∧
    concat lines = drop i sequence ∧
    Forall (λ line, 0 < length line ≤ 80) lines ∧
    (∀ k line, lines !! k = Some line → S k < length lines →
               length line = 80) ∧
    length sequence - i ≤ 80 * length lines < length sequence - i + 80.
Proof.
  induction fuel as [|fuel IH]; intros i Hfuel; [lia|].
  simpl. destruct (decide (i < length sequence)) as [Hi|Hi].
  - destruct (IH (i + 80)) as (lines & -> & Hcat & Hall & Hfull & Hcount);
      [lia|].
    simpl. eexists. split; [done|]. split; [|split; [|split; [|simpl; lia]]].
    + simpl. rewrite Hcat, <- (drop_drop sequence 80 i).
      apply take_drop.
    + constructor; [|done]. rewrite length_take, length_drop. lia.
    + intros [|k] line Hline Hk; simpl in *.
      * injection Hline as <-. rewrite length_take, length_drop.
        destruct lines as [|line' lines]; [simpl in Hk; lia|].
        apply Forall_cons in Hall as [Hline' _].
        assert (length line' ≤ length (concat (line' :: lines))) as Hle
          by (simpl; rewrite length_app; lia).
        rewrite Hcat, length_drop in Hle. lia.
      * apply (Hfull k line Hline). lia.
  - exists []. split; [done|]. split; [|split; [|split; [|simpl; lia]]].
    + simpl. by rewrite drop_ge by lia.
    + constructor.
    + by intros k line ?.
Qed.

Lemma write_lines_wrap sequence fuel : ∀ i n,
  length sequence - i + 80 ≤ 80 * fuel →
  length sequence - i ≤ 80 * n < length sequence - i + 80 →
  write_lines fuel sequence i
  = Ok ((λ k, take 80 (drop (i + 80 * k) sequence)) <$> seq 0 n).
Proof.
  induction fuel as [|fuel IH]; intros i n Hfuel Hn; [lia|].
  simpl. destruct (decide (i < length sequence)) as [Hi|Hi].
  - destruct n as [|n]; [lia|].
    rewrite (IH (i + 80) n) by lia. simpl.
    rewrite Nat.add_0_r. do 2 f_equal.
    rewrite <- fmap_S_seq, <- list_fmap_compose.
    apply list_fmap_ext. intros _ k _. simpl. do 2 f_equal. lia.
  - by assert (n = 0) as -> by lia.
Qed.

Lemma wrap_length n sequence : length (wrap n sequence) = n.
Proof. unfold wrap. by rewrite length_fmap, length_seq. Qed.

Lemma wrap_concat n sequence :
  length sequence ≤ 80 * n → concat (wrap n sequence) = sequence.
Proof.
  unfold wrap. intros Hn.
  assert (∀ m, concat ((λ k, take 80 (drop (80 * k) sequence)) <$> seq 0 m)
               = take (80 * m) sequence) as Hm.
  { induction m as [|m IH]; [done|].
    rewrite seq_S, fmap_app, concat_app, IH.
    replace (80 * S m) with (80 * m + 80) by lia.
    rewrite <- take_take_drop. f_equal.
    rewrite Nat.add_0_l. apply app_nil_r. }
  rewrite Hm. by apply take_ge.
Qed.

Lemma fasta_block_length n entry : length (fasta_block n entry) = S n.
Proof.
  unfold fasta_block. cbn [length]. by rewrite length_fmap, wrap_length.
Qed.

Lemma fasta_blocks_length n (entries : list (string * list ascii)) :
  length (concat (fasta_block n <$> entries)) = length entries * S n.
Proof.
  induction entries as [|e entries IH]; [done|]. rewrite fmap_cons.
  transitivity (length (fasta_block n e)
                + length (concat (fasta_block n <$> entries))).
  { apply length_app. }
  rewrite IH, fasta_block_length. simpl. lia.
Qed.

Lemma write_otus_blocks fuel total n (entries : list (string * list ascii)) :
  total + 80 ≤ 80 * fuel →
  total ≤ 80 * n < total + 80 →
  Forall (λ e, length e.2 = total) entries →
  write_otus fuel entries = Ok (concat (fasta_block n <$> entries)).
Proof.
  intros Hfuel Hn. induction 1 as [|[otu sequence] entries Hlen _ IH].
  - done.
  - simpl in Hlen. simpl. unfold write_otu.
    rewrite (write_lines_wrap sequence fuel 0 n) by lia.
    simpl. by rewrite IH.
Qed.

(** ** The two readings of an OTU *)

Lemma str_split_identifier identifier : ∀ description,
  blanks identifier = 0 →
  str_split (identifier +:+ " " +:+ description)
  = identifier :: str_split description.
Proof.
  unfold blanks.
  induction identifier as [|c identifier IH]; intros description Hb.
  - done.
  - simpl in Hb. destruct (decide (c = " "%char)) as [->|Hc].
    + by rewrite filter_cons_True in Hb.
    + rewrite filter_cons_False in Hb by done.
      change (str_split (String c (identifier +:+ " " +:+ description))
              = String c identifier :: str_split description).
      simpl. rewrite decide_False by done. by rewrite IH.
Qed.
(** ** The guided builder computes the same clusters under every schedule *)

Section GuidedRun.
Context {key guide gid : Type} `{EqDecision gid}.
Context (guide_id : guide → gid).
Context (guide_length : guide → Z).
Context (seq_length : key → Z).
Context (blastn_guide : guide → key → list blast_record).
Context (length_threshold : Q).
Context (guide_sequences : list guide).
Context (all_seq_keys : list key).
Context (Hids : NoDup (guide_id <$> guide_sequences)).

Abbreviation gstep := (gworker_step guide_id guide_length seq_length
  blastn_guide length_threshold guide_sequences all_seq_keys).
Abbreviation gpstep := (gpool_step guide_id guide_length seq_length
  blastn_guide length_threshold guide_sequences all_seq_keys).
Abbreviation gprun := (grun guide_id guide_length seq_length
  blastn_guide length_threshold guide_sequences all_seq_keys).
Abbreviation fine := (gpc_fine guide_id guide_sequences).
Abbreviation at_pc := (cluster_at guide_length seq_length blastn_guide
  length_threshold all_seq_keys).
Abbreviation cluster_of := (guide_cluster guide_length seq_length blastn_guide
  length_threshold).
Abbreviation gstate := (guide_state guide_id guide_length seq_length
  blastn_guide length_threshold all_seq_keys).
Abbreviation rinv := (guided_run_inv guide_id guide_length seq_length
  blastn_guide length_threshold guide_sequences all_seq_keys).

Lemma guide_cluster_snoc gd k key0 :
  all_seq_keys !! k = Some key0 →
  cluster_of gd (take (S k) all_seq_keys)
  = cluster_of gd (take k all_seq_keys)
    ++ guide_hits guide_length seq_length blastn_guide length_threshold gd key0.
Proof.
  intros Hk. unfold guide_cluster.
  rewrite (take_S_r _ _ _ Hk), fmap_app, concat_app. simpl.
  by rewrite app_nil_r.
Qed.

Lemma guide_cluster_all gd k :
  length all_seq_keys ≤ k →
  cluster_of gd (take k all_seq_keys) = cluster_of gd all_seq_keys.
Proof. intros Hk. by rewrite take_ge. Qed.

Lemma gnext_record_at g k key0 gd records : ∀ cl,
  all_seq_keys !! k = Some key0 →
  cl ++ hits key0 records = cluster_of gd (take (S k) all_seq_keys) →
  at_pc (gnext_record g k records) gd cl.
Proof.
  induction records as [|[|[|e hsps] als] rest IH]; intros cl Hk Hcl; simpl in *.
  - by rewrite app_nil_r in Hcl.
  - by apply IH.
  - by apply IH.
  - eauto.
Qed.

Lemma gnext_record_shape g k records :
  g_in_lock (gnext_record (key := key) g k records) = false ∧
  guide_of (gnext_record (key := key) g k records) = Some g ∧
  position guide_sequences (gnext_record (key := key) g k records) = S g ∧
  gnext_record (key := key) g k records ≠ GCrashed.
Proof. induction records as [|[|[|e hsps] als] rest IH]; simpl; done. Qed.

(** The lock is held by the worker inside a locked block, if any. *)
Lemma lock_step (ps : list (gpc key)) (s s' : gshared key gid) w p p' :
  (∀ w, glock s = Some w → ∃ p, ps !! w = Some p ∧ g_in_lock p = true) →
  (∀ w p, ps !! w = Some p → g_in_lock p = true → glock s = Some w) →
  ps !! w = Some p →
  (g_in_lock p' = true →
     glock s' = Some w ∧ (g_in_lock p = true ∨ glock s = None)) →
  (g_in_lock p' = false →
     if g_in_lock p then glock s' = None else glock s' = glock s) →
  (∀ w0, glock s' = Some w0 →
         ∃ q, <[w := p']> ps !! w0 = Some q ∧ g_in_lock q = true) ∧
  (∀ w0 q, <[w := p']> ps !! w0 = Some q → g_in_lock q = true →
           glock s' = Some w0).
Proof.
  intros Hholder Hlocked Hp Hin Hout.
  pose proof (lookup_lt_Some _ _ _ Hp) as Hw.
  assert (∀ w0 q, w0 ≠ w → ps !! w0 = Some q → g_in_lock q = true →
            g_in_lock p = false ∧ glock s = Some w0) as Hother.
  { intros w0 q Hne Hq Hqin. pose proof (Hlocked w0 q Hq Hqin) as Hl.
    split; [|done]. destruct (g_in_lock p) eqn:Hpin; [|done].
    pose proof (Hlocked w p Hp Hpin). congruence. }
  destruct (g_in_lock p') eqn:Hp'.
  - destruct (Hin eq_refl) as [Hl Hfree]. split.
    + intros w0 Hw0. assert (w0 = w) as -> by congruence.
      exists p'. by rewrite list_lookup_insert_eq.
    + intros w0 q Hq Hqin. destruct (decide (w0 = w)) as [->|Hne]; [done|].
      rewrite list_lookup_insert_ne in Hq by done.
      destruct (Hother w0 q Hne Hq Hqin) as [Hpin Hl0].
      destruct Hfree; congruence.
  - specialize (Hout eq_refl). split.
    + intros w0 Hw0. destruct (g_in_lock p) eqn:Hpin; [congruence|].
      rewrite Hout in Hw0. destruct (Hholder w0 Hw0) as (q & Hq & Hqin).
      assert (w0 ≠ w) by congruence.
      exists q. by rewrite list_lookup_insert_ne.
    + intros w0 q Hq Hqin. destruct (decide (w0 = w)) as [->|Hne].
      * rewrite list_lookup_insert_eq in Hq by done. congruence.
      * rewrite list_lookup_insert_ne in Hq by done.
        destruct (Hother w0 q Hne Hq Hqin) as [Hpin Hl0].
        rewrite Hpin in Hout. congruence.
Qed.

(** What another worker relies on survives a transition. *)
Lemma fine_others (ps : list (gpc key)) (s s' : gshared key gid) w p w' q :
  (∀ w p, ps !! w = Some p → g_in_lock p = true → glock s = Some w) →
  ps !! w = Some p → ps !! w' = Some q → w' ≠ w →
  guides_compared s' = guides_compared s ∨
    (g_in_lock p = true ∧ ∃ x, guides_compared s' = guides_compared s ++ [x]) →
  fine q s → fine q s'.
Proof.
  intros Hlocked Hp Hq Hne Hcmp (Hcrash & Hrange & Hfresh & Hpassed).
  split; [done|]. split; [done|]. split.
  - intros g gd -> Hgd. destruct Hcmp as [->|(Hpin & x & ->)]; [by eapply Hfresh|].
    pose proof (Hlocked w p Hp Hpin). pose proof (Hlocked w' _ Hq eq_refl).
    congruence.
  - intros g gd Hg Hgd. destruct Hcmp as [->|(_ & x & ->)]; [by eapply Hpassed|].
    apply elem_of_app. left. by eapply Hpassed.
Qed.

(** The worker inside a guide is the one the guide's state names. *)
Lemma own_guide (c : list (gpc key) * gshared key gid) w p g :
  rinv c → c.1 !! w = Some p → guide_of p = Some g →
  ∃ gd cl, guide_sequences !! g = Some gd ∧
    guide_id gd ∈ guides_compared c.2 ∧
    clusters c.2 !! g = Some cl ∧ at_pc p gd cl ∧
    ∀ w' p', c.1 !! w' = Some p' → guide_of p' = Some g → w' = w.
Proof.
  intros [_ _ Hfine _ Hguides] Hp Hg.
  destruct (Hfine w p Hp) as (_ & Hrange & _).
  destruct (lookup_lt_is_Some_2 guide_sequences g) as [gd Hgd]; [apply Hrange; auto|].
  exists gd.
  destruct (Hguides g gd Hgd)
    as [(_ & _ & Hnone)|[(Hin & w0 & p0 & cl & Hp0 & Hg0 & Hcl & Hat & Huniq)
       |(_ & _ & Hnone)]].
  - by destruct (Hnone w p Hp).
  - assert (w = w0) as -> by (by apply (Huniq w p)).
    assert (p0 = p) as -> by congruence. eauto 10.
  - by destruct (Hnone w p Hp).
Qed.

(** A transition inside a guide, or outside all guides. *)
Lemma guides_same (ps : list (gpc key)) (s s' : gshared key gid) w p p' :
  ps !! w = Some p →
  guides_compared s' = guides_compared s →
  guide_of p' = guide_of p →
  (∀ g, guide_of p ≠ Some g → clusters s' !! g = clusters s !! g) →
  (∀ g gd cl, guide_of p = Some g → guide_sequences !! g = Some gd →
     clusters s !! g = Some cl → at_pc p gd cl →
     ∃ cl', clusters s' !! g = Some cl' ∧ at_pc p' gd cl') →
  ∀ g gd, guide_sequences !! g = Some gd →
    gstate (ps, s) g gd → gstate (<[w := p']> ps, s') g gd.
Proof.
  intros Hp Hcmp Hsame Hframe Hown g gd Hgd.
  pose proof (lookup_lt_Some _ _ _ Hp) as Hw.
  assert (∀ w0 q, <[w := p']> ps !! w0 = Some q → guide_of q = Some g →
            ∃ q0, ps !! w0 = Some q0 ∧ guide_of q0 = Some g) as Hback.
  { intros w0 q Hq Hqg. destruct (decide (w0 = w)) as [->|Hne].
    - rewrite list_lookup_insert_eq in Hq by done. injection Hq as <-.
      exists p. split; [done|congruence].
    - rewrite list_lookup_insert_ne in Hq by done. eauto. }
  unfold guide_state. simpl. rewrite Hcmp.
  intros [(Hout & Hcl & Hnone)|[(Hin & w0 & p0 & cl & Hp0 & Hg0 & Hcl & Hat & Huniq)
         |(Hin & Hcl & Hnone)]].
  - left. split; [done|]. split.
    + rewrite Hframe; [done|]. intros Hpg. by destruct (Hnone w p Hp).
    + intros w0 q Hq Hqg. destruct (Hback w0 q Hq Hqg) as (q0 & Hq0 & Hq0g).
      by destruct (Hnone w0 q0 Hq0).
  - right. left. split; [done|].
    destruct (decide (w0 = w)) as [->|Hne].
    + assert (p0 = p) as -> by congruence.
      destruct (Hown g gd cl Hg0 Hgd Hcl Hat) as (cl' & Hcl' & Hat').
      exists w, p', cl'. split; [by rewrite list_lookup_insert_eq|].
      split; [congruence|]. split; [done|]. split; [done|].
      intros w' q Hq Hqg. destruct (Hback w' q Hq Hqg) as (q0 & Hq0 & Hq0g).
      by apply (Huniq w' q0).
    + assert (guide_of p ≠ Some g) as Hpg.
      { intros Hpg. by pose proof (Huniq w p Hp Hpg). }
      exists w0, p0, cl. split; [by rewrite list_lookup_insert_ne|].
      split; [done|]. split; [by rewrite Hframe|]. split; [done|].
      intros w' q Hq Hqg. destruct (Hback w' q Hq Hqg) as (q0 & Hq0 & Hq0g).
      by apply (Huniq w' q0).
  - right. right. split; [done|]. split.
    + rewrite Hframe; [done|]. intros Hpg. by destruct (Hnone w p Hp).
    + intros w0 q Hq Hqg. destruct (Hback w0 q Hq Hqg) as (q0 & Hq0 & Hq0g).
      by destruct (Hnone w0 q0 Hq0).
Qed.

(** A worker takes a guide. *)
Lemma guides_claim (ps : list (gpc key)) (s s' : gshared key gid) w g0 gd0 :
  ps !! w = Some (GClaiming g0) →
  guide_sequences !! g0 = Some gd0 →
  guide_id gd0 ∉ guides_compared s →
  guides_compared s' = guides_compared s ++ [guide_id gd0] →
  clusters s' = clusters s →
  ∀ g gd, guide_sequences !! g = Some gd →
    gstate (ps, s) g gd → gstate (<[w := GUnlocking g0 true]> ps, s') g gd.
Proof.
  intros Hp Hgd0 Hfresh Hcmp Hcl g gd Hgd.
  pose proof (lookup_lt_Some _ _ _ Hp) as Hw.
  unfold guide_state. simpl. rewrite Hcmp, Hcl.
  destruct (decide (g = g0)) as [->|Hne].
  - assert (gd = gd0) as -> by congruence.
    intros [(_ & Hempty & Hnone)|[(Hin & _)|(Hin & _)]]; [|done..].
    right. left. split; [apply elem_of_app; right; apply list_elem_of_here|].
    exists w, (GUnlocking g0 true), [].
    split; [by rewrite list_lookup_insert_eq|]. split; [done|].
    split; [done|]. split; [done|].
    intros w' q Hq Hqg. destruct (decide (w' = w)) as [->|Hne]; [done|].
    rewrite list_lookup_insert_ne in Hq by done. by destruct (Hnone w' q Hq).
  - assert (guide_id gd ≠ guide_id gd0) as Hid.
    { intros Hid. apply Hne.
      apply (NoDup_lookup _ g g0 (guide_id gd) Hids);
        rewrite list_lookup_fmap; [by rewrite Hgd|by rewrite Hgd0, Hid]. }
    assert (∀ w0 q, <[w := GUnlocking g0 true]> ps !! w0 = Some q →
              guide_of q = Some g → w0 ≠ w ∧ ps !! w0 = Some q) as Hback.
    { intros w0 q Hq Hqg. destruct (decide (w0 = w)) as [->|Hne'].
      - rewrite list_lookup_insert_eq in Hq by done. injection Hq as <-.
        simpl in Hqg. congruence.
      - by rewrite list_lookup_insert_ne in Hq. }
    intros [(Hout & Hempty & Hnone)
           |[(Hin & w0 & p0 & cl & Hp0 & Hg0 & Hcl0 & Hat & Huniq)
            |(Hin & Hfull & Hnone)]].
    + left. split.
      * intros [?|?%list_elem_of_singleton]%elem_of_app; done.
      * split; [done|]. intros w0 q Hq Hqg.
        destruct (Hback w0 q Hq Hqg) as [_ Hq0]. by destruct (Hnone w0 q Hq0).
    + right. left. split; [apply elem_of_app; by left|].
      assert (w0 ≠ w) by (intros ->; rewrite Hp in Hp0; by injection Hp0 as <-).
      exists w0, p0, cl. split; [by rewrite list_lookup_insert_ne|].
      split; [done|]. split; [done|]. split; [done|].
      intros w' q Hq Hqg. destruct (Hback w' q Hq Hqg) as [_ Hq0].
      by apply (Huniq w' q).
    + right. right. split; [apply elem_of_app; by left|].
      split; [done|]. intros w0 q Hq Hqg.
      destruct (Hback w0 q Hq Hqg) as [_ Hq0]. by destruct (Hnone w0 q Hq0).
Qed.

(** A worker has gone through all the keys for its guide. *)
Lemma guides_leave (ps : list (gpc key)) (s : gshared key gid) w g0 k p' :
  ps !! w = Some (GAtKey g0 k) → all_seq_keys !! k = None →
  guide_of p' = None →
  ∀ g gd, guide_sequences !! g = Some gd →
    gstate (ps, s) g gd → gstate (<[w := p']> ps, s) g gd.
Proof.
  intros Hp Hk Hp' g gd Hgd.
  pose proof (lookup_lt_Some _ _ _ Hp) as Hw.
  assert (∀ w0 q, <[w := p']> ps !! w0 = Some q →
            guide_of q = Some g → w0 ≠ w ∧ ps !! w0 = Some q) as Hback.
  { intros w0 q Hq Hqg. destruct (decide (w0 = w)) as [->|Hne'].
    - rewrite list_lookup_insert_eq in Hq by done. injection Hq as <-.
      congruence.
    - by rewrite list_lookup_insert_ne in Hq. }
  unfold guide_state. simpl.
  intros [(Hout & Hempty & Hnone)
         |[(Hin & w0 & p0 & cl & Hp0 & Hg0 & Hcl0 & Hat & Huniq)
          |(Hin & Hfull & Hnone)]].
  - left. split; [done|]. split; [done|]. intros w0 q Hq Hqg.
    destruct (Hback w0 q Hq Hqg) as [_ Hq0]. by destruct (Hnone w0 q Hq0).
  - destruct (decide (w0 = w)) as [->|Hne].
    + right. right. split; [done|].
      rewrite Hp in Hp0. injection Hp0 as <-. simpl in Hg0, Hat.
      injection Hg0 as <-. split.
      * rewrite Hcl0, Hat, guide_cluster_all; [done|].
        by apply lookup_ge_None.
      * intros w0 q Hq Hqg. destruct (Hback w0 q Hq Hqg) as [Hne Hq0].
        by pose proof (Huniq w0 q Hq0 Hqg).
    + right. left. split; [done|].
      exists w0, p0, cl. split; [by rewrite list_lookup_insert_ne|].
      split; [done|]. split; [done|]. split; [done|].
      intros w' q Hq Hqg. destruct (Hback w' q Hq Hqg) as [_ Hq0].
      by apply (Huniq w' q).
  - right. right. split; [done|]. split; [done|]. intros w0 q Hq Hqg.
    destruct (Hback w0 q Hq Hqg) as [_ Hq0]. by destruct (Hnone w0 q Hq0).
Qed.


Lemma rinv_update (ps : list (gpc key)) (s s' : gshared key gid) w p p' :
  rinv (ps, s) → ps !! w = Some p →
  (g_in_lock p' = true →
     glock s' = Some w ∧ (g_in_lock p = true ∨ glock s = None)) →
  (g_in_lock p' = false →
     if g_in_lock p then glock s' = None else glock s' = glock s) →
  guides_compared s' = guides_compared s ∨
    (g_in_lock p = true ∧ ∃ x, guides_compared s' = guides_compared s ++ [x]) →
  fine p' s' →
  length (clusters s') = length (clusters s) →
  (∀ g gd, guide_sequences !! g = Some gd →
     gstate (ps, s) g gd → gstate (<[w := p']> ps, s') g gd) →
  rinv (<[w := p']> ps, s').
Proof.
  intros [Hholder Hlocked Hfine Hlen Hguides] Hp Hin Hout Hcmp Hp' Hlen' Hg.
  simpl in *. pose proof (lookup_lt_Some _ _ _ Hp) as Hw.
  destruct (lock_step ps s s' w p p' Hholder Hlocked Hp Hin Hout)
    as [Hholder' Hlocked'].
  split; simpl; [done|done| |congruence|].
  - intros w0 q Hq. destruct (decide (w0 = w)) as [->|Hne].
    + rewrite list_lookup_insert_eq in Hq by done. by injection Hq as <-.
    + rewrite list_lookup_insert_ne in Hq by done.
      apply (fine_others ps s s' w p w0 q Hlocked Hp Hq Hne Hcmp).
      by apply (Hfine w0).
  - intros g gd Hgd. apply Hg; [done|]. by apply Hguides.
Qed.

(** A worker that stays where it is among the guides. *)
Lemma fine_same (s s' : gshared key gid) p p' :
  fine p s → guides_compared s' = guides_compared s →
  p' ≠ GCrashed → (∀ g, p' ≠ GInLock g) → (∀ g, p' ≠ GClaiming g) →
  guide_of p' = guide_of p →
  position guide_sequences p' = position guide_sequences p →
  fine p' s'.
Proof.
  intros (Hcrash & Hrange & Hfresh & Hpassed) Hcmp Hc Hi Hcl Hg Hpos.
  split; [done|]. split; [|split].
  - intros g [->|[->|Hg']]; [by destruct (Hi g)|by destruct (Hcl g)|].
    apply Hrange. right. right. congruence.
  - intros g gd ->. by destruct (Hcl g).
  - intros g gd. rewrite Hpos, Hcmp. apply Hpassed.
Qed.

Lemma rinv_step c w : rinv c → rinv (gpstep c w).
Proof.
  destruct c as [ps s]. intros Hinv. unfold gpool_step. simpl.
  destruct (ps !! w) as [p|] eqn:Hp; [|done]. simpl.
  pose proof (gr_fine _ _ _ _ _ _ _ _ Hinv w p Hp) as Hfine. simpl in Hfine.
  pose proof Hfine as (Hcrash & Hrange & Hfresh & Hpassed).
  pose proof (gr_locked _ _ _ _ _ _ _ _ Hinv w p Hp) as Hlock. simpl in Hlock.
  pose proof (gr_length _ _ _ _ _ _ _ _ Hinv) as Hlen. simpl in Hlen.
  destruct p as [g|g|g|g b|g k|g k|g k rest|g k rest|g k temp rest|g k rest| |];
    simpl.
  - (* GAtGuide *)
    destruct (guide_sequences !! g) as [gd|] eqn:Hgd.
    + destruct (glock s) as [w0|] eqn:Hl; simpl.
      * rewrite list_insert_id by done. done.
      * eapply (rinv_update ps s _ w _ _ Hinv Hp); simpl.
        -- auto.
        -- done.
        -- by left.
        -- split; [done|]. split; [|split; [done|done]].
           intros g' [[= ->]|[?|?]]; [|done..]. by eapply lookup_lt_Some.
        -- done.
        -- apply guides_same with (p := GAtGuide g); done.
    + eapply (rinv_update ps s _ w _ _ Hinv Hp); simpl.
      * done.
      * done.
      * by left.
      * split; [done|]. split; [by intros g' [?|[?|?]]|]. split; [done|].
        intros g' gd' Hg' Hgd'. apply (Hpassed g' gd'); [|done].
        apply lookup_ge_None in Hgd. simpl in *. lia.
      * done.
      * apply guides_same with (p := GAtGuide g); done.
  - (* GInLock *)
    destruct (lookup_lt_is_Some_2 guide_sequences g) as [gd Hgd];
      [apply Hrange; auto|].
    rewrite Hgd.
    destruct (decide (guide_id gd ∈ guides_compared s)) as [Hin|Hin].
    + eapply (rinv_update ps s _ w _ _ Hinv Hp); simpl.
      * auto.
      * done.
      * by left.
      * split; [done|]. split; [by intros g' [?|[?|?]]|]. split; [done|].
        intros g' gd' Hg' Hgd'. destruct (decide (g' = g)) as [->|Hne].
        -- congruence.
        -- apply (Hpassed g' gd'); [simpl in *; lia|done].
      * done.
      * apply guides_same with (p := GInLock g); done.
    + eapply (rinv_update ps s _ w _ _ Hinv Hp); simpl.
      * auto.
      * done.
      * by left.
      * split; [done|]. split; [|split; [|done]].
        -- intros g' [?|[[= ->]|?]]; [done| |done]. by eapply lookup_lt_Some.
        -- intros g' gd' [= ->] Hgd'. congruence.
      * done.
      * apply guides_same with (p := GInLock g); done.
  - (* GClaiming *)
    destruct (lookup_lt_is_Some_2 guide_sequences g) as [gd Hgd];
      [apply Hrange; auto|].
    rewrite Hgd. simpl.
    eapply (rinv_update ps s _ w _ _ Hinv Hp); simpl.
    + auto.
    + done.
    + right. eauto.
    + split; [done|]. split; [|split; [done|]].
      * intros g' [?|[?|[= ->]]]; [done..|]. by eapply lookup_lt_Some.
      * intros g' gd' Hg' Hgd'. apply elem_of_app.
        destruct (decide (g' = g)) as [->|Hne].
        -- right. assert (gd' = gd) as -> by congruence.
           apply list_elem_of_here.
        -- left. apply (Hpassed g' gd'); [simpl in *; lia|done].
    + done.
    + apply guides_claim with (gd0 := gd); try done. by eapply Hfresh.
  - (* GUnlocking *)
    destruct b; simpl.
    + eapply (rinv_update ps s _ w _ _ Hinv Hp); simpl.
      * done.
      * done.
      * by left.
      * by apply (fine_same s _ (GUnlocking g true)).
      * done.
      * apply guides_same with (p := GUnlocking g true); try done.
        intros g' gd cl [= ->] Hgd Hcl ->. exists []. done.
    + eapply (rinv_update ps s _ w _ _ Hinv Hp); simpl.
      * done.
      * done.
      * by left.
      * by apply (fine_same s _ (GUnlocking g false)).
      * done.
      * apply guides_same with (p := GUnlocking g false); done.
  - (* GAtKey *)
    destruct (lookup_lt_is_Some_2 guide_sequences g) as [gd Hgd];
      [apply Hrange; auto|].
    rewrite Hgd. destruct (all_seq_keys !! k) as [key0|] eqn:Hk.
    + destruct (length_gate_passed _ _ _) eqn:Hgate.
      * eapply (rinv_update ps s _ w _ _ Hinv Hp); simpl.
        -- done.
        -- done.
        -- by left.
        -- by apply (fine_same s _ (GAtKey g k)).
        -- done.
        -- apply guides_same with (p := GAtKey g k); try done.
           intros g' gd' cl [= ->] Hgd' Hcl ->. eexists. split; [done|].
           simpl. split; [done|]. exists key0. split; [done|]. congruence.
      * eapply (rinv_update ps s _ w _ _ Hinv Hp); simpl.
        -- done.
        -- done.
        -- by left.
        -- by apply (fine_same s _ (GAtKey g k)).
        -- done.
        -- apply guides_same with (p := GAtKey g k); try done.
           intros g' gd' cl [= ->] Hgd' Hcl ->. eexists. split; [done|].
           simpl. rewrite (guide_cluster_snoc gd' k key0 Hk).
           unfold guide_hits. assert (gd' = gd) as -> by congruence.
           by rewrite Hgate, app_nil_r.
    + eapply (rinv_update ps s _ w _ _ Hinv Hp); simpl.
      * done.
      * done.
      * by left.
      * split; [done|]. split; [by intros g' [?|[?|?]]|]. done.
      * done.
      * by apply guides_leave with (g0 := g) (k := k).
  - (* GBlasting *)
    destruct (own_guide (ps, s) w (GBlasting g k) g Hinv Hp eq_refl)
      as (gd & cl & Hgd & _ & Hcl & [Hat (key0 & Hk & Hgate)] & _).
    simpl in *. rewrite Hgd, Hk. simpl.
    destruct (gnext_record_shape g k (blastn_guide gd key0))
      as (Hnl & Hng & Hnp & Hnc).
    eapply (rinv_update ps s _ w _ _ Hinv Hp); simpl.
    + by rewrite Hnl.
    + done.
    + by left.
    + apply (fine_same s _ (GBlasting g k)); try done.
      * intros g' Hn. by rewrite Hn in Hnl.
      * intros g' Hn. by rewrite Hn in Hnl.
    + done.
    + apply guides_same with (p := GBlasting g k); try done.
      intros g' gd' cl' [= ->] Hgd' Hcl' [-> _]. eexists. split; [done|].
      assert (gd' = gd) as -> by congruence.
      apply (gnext_record_at _ k key0); [done|].
      rewrite (guide_cluster_snoc gd k key0 Hk). unfold guide_hits.
      by rewrite Hgate.
  - (* GHit *)
    destruct (glock s) as [w0|] eqn:Hl; simpl.
    + rewrite list_insert_id by done. done.
    + eapply (rinv_update ps s _ w _ _ Hinv Hp); simpl.
      * auto.
      * done.
      * by left.
      * by apply (fine_same s _ (GHit g k rest)).
      * done.
      * apply guides_same with (p := GHit g k rest); try done.
        intros g' gd cl [= ->] Hgd Hcl Hat. eauto.
  - (* GHitFetch *)
    destruct (own_guide (ps, s) w (GHitFetch g k rest) g Hinv Hp eq_refl)
      as (gd & cl & Hgd & _ & Hcl & (key0 & Hk & Hat) & _).
    simpl in *. rewrite (getitem_lookup _ _ _ Hcl), Hk.
    eapply (rinv_update ps s _ w _ _ Hinv Hp); simpl.
    + auto.
    + done.
    + by left.
    + by apply (fine_same s _ (GHitFetch g k rest)).
    + done.
    + apply guides_same with (p := GHitFetch g k rest); try done.
      intros g' gd' cl' [= ->] Hgd' Hcl' (key1 & Hk1 & Hat1).
      exists cl'. split; [done|]. exists key1. split; [done|].
      assert (cl' = cl) as -> by congruence.
      assert (key1 = key0) as -> by congruence.
      by rewrite <- app_assoc.
  - (* GHitStore *)
    assert (g < length (clusters s)) as Hg by (rewrite Hlen; apply Hrange; auto).
    rewrite setitem_Done by done.
    eapply (rinv_update ps s _ w _ _ Hinv Hp); simpl.
    + auto.
    + done.
    + by left.
    + by apply (fine_same s _ (GHitStore g k temp rest)).
    + by rewrite length_insert.
    + apply guides_same with (p := GHitStore g k temp rest); try done.
      * intros g' Hne. simpl in Hne. apply list_lookup_insert_ne. congruence.
      * intros g' gd cl [= ->] Hgd Hcl Hat. exists temp.
        split; [by apply list_lookup_insert_eq|done].
  - (* GHitUnlock *)
    destruct (own_guide (ps, s) w (GHitUnlock g k rest) g Hinv Hp eq_refl)
      as (gd & cl & Hgd & _ & Hcl & (key0 & Hk & Hat) & _).
    simpl in *.
    destruct (gnext_record_shape g k rest) as (Hnl & Hng & Hnp & Hnc).
    eapply (rinv_update ps s _ w _ _ Hinv Hp); simpl.
    + by rewrite Hnl.
    + done.
    + by left.
    + apply (fine_same s _ (GHitUnlock g k rest)); try done.
      * intros g' Hn. by rewrite Hn in Hnl.
      * intros g' Hn. by rewrite Hn in Hnl.
    + done.
    + apply guides_same with (p := GHitUnlock g k rest); try done.
      intros g' gd' cl' [= ->] Hgd' Hcl' (key1 & Hk1 & Hat1).
      exists cl'. split; [done|]. by apply (gnext_record_at _ k key1).
  - rewrite list_insert_id by done. done.
  - done.
Qed.

Lemma gpool_step_length c w : length (gpstep c w).1 = length c.1.
Proof.
  unfold gpool_step. destruct (c.1 !! w); [|done]. simpl.
  by rewrite length_insert.
Qed.

Lemma grun_length sched : ∀ c, length (gprun sched c).1 = length c.1.
Proof.
  induction sched as [|w sched IH]; intros c; [done|].
  simpl. by rewrite IH, gpool_step_length.
Qed.

Lemma rinv_run sched : ∀ c, rinv c → rinv (gprun sched c).
Proof.
  induction sched as [|w sched IH]; intros c Hc; [done|].
  simpl. apply IH. by apply rinv_step.
Qed.

Lemma rinv_init num_cores :
  rinv (ginitial_pool (gid := gid) guide_sequences num_cores).
Proof.
  split; simpl.
  - done.
  - intros w p Hp. by apply lookup_replicate in Hp as [-> _].
  - intros w p Hp. apply lookup_replicate in Hp as [-> _].
    split; [done|]. split; [by intros g [?|[?|?]]|]. split; [done|].
    intros g gd Hg. simpl in Hg. lia.
  - apply length_replicate.
  - intros g gd Hgd. left. simpl. split; [by intros ?%elem_of_nil|].
    split; [apply lookup_replicate_2; by eapply lookup_lt_Some|].
    intros w p Hp. by apply lookup_replicate in Hp as [-> _].
Qed.

(** Once a worker has finished, every guide has been taken; once all
    have, every cluster is complete. *)
Lemma rinv_finished (c : list (gpc key) * gshared key gid) :
  rinv c → c.1 ≠ [] → Forall (λ p, p = GFinished) c.1 →
  clusters c.2
  = guided_clusters guide_length seq_length blastn_guide length_threshold
      guide_sequences all_seq_keys.
Proof.
  intros Hinv Hne Hall. destruct c as [ps s]. simpl in *.
  destruct ps as [|p0 ps]; [done|].
  apply Forall_cons in Hall as [-> Hall].
  destruct (gr_fine _ _ _ _ _ _ _ _ Hinv 0 GFinished eq_refl)
    as (_ & _ & _ & Hpassed). simpl in Hpassed.
  apply list_eq. intros g. unfold guided_clusters. rewrite list_lookup_fmap.
  destruct (guide_sequences !! g) as [gd|] eqn:Hgd; simpl.
  - pose proof (lookup_lt_Some _ _ _ Hgd) as Hg.
    destruct (gr_guides _ _ _ _ _ _ _ _ Hinv g gd Hgd)
      as [(Hout & _)|[(_ & w & p & cl & Hp & Hpg & _)|(_ & Hfull & _)]].
    + destruct Hout. by apply (Hpassed g gd).
    + simpl in Hp. assert (p = GFinished) as ->.
      { apply (proj1 (Forall_forall _ _)
                 (Forall_cons_2 _ _ _ (eq_refl : GFinished = GFinished) Hall)).
        by eapply list_elem_of_lookup_2. }
      done.
    + done.
  - pose proof (gr_length _ _ _ _ _ _ _ _ Hinv) as Hl. simpl in Hl.
    apply lookup_ge_None. rewrite Hl. by apply lookup_ge_None.
Qed.

End GuidedRun.
(** ** The matrix of a single worker *)

Arguments set_cell : simpl never.

Section SequentialFacts.
Context {key : Type} `{EqDecision key}.
Context (seq_length : key → Z).
Context (blastn : key → key → list blast_record).
Context (length_threshold : Q).
Context (seq_keys : list key).
Context (Hkeys : NoDup seq_keys).
Context (H99 : below_sentinel blastn).

Abbreviation step1 := (worker_step seq_length blastn length_threshold seq_keys).
Abbreviation cont := (content seq_length blastn length_threshold seq_keys).
Abbreviation dir := (direction_at seq_length blastn length_threshold seq_keys).
Abbreviation vinv := (values_inv seq_length blastn length_threshold seq_keys).
Abbreviation agree := (agrees seq_length blastn length_threshold seq_keys).
Abbreviation pend := (pair_pending seq_length blastn length_threshold seq_keys).

Lemma writes_not_sentinel k k2 v :
  v ∈ writes (blastn k k2) → Qeqb v 99 = false.
Proof.
  unfold writes. intros (r & Hr & Hv)%list_elem_of_omap.
  destruct r as [|[|e hsps] als]; simpl in Hv; [|done|].
  - by injection Hv as <-.
  - injection Hv as <-. by eapply H99.
Qed.

Lemma direction_not_sentinel a b v : dir a b = Some v → Qeqb v 99 = false.
Proof.
  unfold direction_at, direction.
  destruct (seq_keys !! a) as [k|]; [|done].
  destruct (seq_keys !! b) as [k2|]; [|done]. simpl.
  destruct (length_gate_failed _ _ _).
  - by intros [= <-].
  - intros Hv%last_Some_elem_of. by eapply writes_not_sentinel.
Qed.

Lemma content_off_pair i j a b :
  ¬ (a = i ∧ b = j) → ¬ (a = j ∧ b = i) →
  cont i (S j) a b = cont i j a b.
Proof.
  intros Hab Hba. unfold content, reached.
  destruct (decide (a = b)) as [->|Hne].
  - repeat case_decide; (done || lia).
  - destruct (dir (a `min` b) (a `max` b));
      repeat case_decide; (done || lia).
Qed.

Lemma content_sym i j a b : cont i j a b = cont i j b a.
Proof.
  destruct (decide (a = b)) as [->|Hne]; [done|]. unfold content.
  rewrite (decide_False (P := a = b)), (decide_False (P := b = a)) by done.
  by rewrite (Nat.min_comm b a), (Nat.max_comm b a).
Qed.

Lemma content_initial a b : cont 0 0 a b = UNCOMPARED.
Proof. unfold content, reached. repeat case_decide; (done || lia). Qed.

Lemma content_row_end i a b :
  a < length seq_keys → b < length seq_keys →
  cont i (length seq_keys) a b = cont (S i) 0 a b.
Proof.
  intros Ha Hb. unfold content, reached.
  destruct (decide (a = b)) as [->|Hne].
  - repeat case_decide; (done || lia).
  - destruct (dir (a `min` b) (a `max` b));
      repeat case_decide; (done || lia).
Qed.

Lemma content_final a b :
  a < length seq_keys → b < length seq_keys →
  cont (length seq_keys) 0 a b
  = pair_value seq_length blastn length_threshold seq_keys a b.
Proof.
  intros Ha Hb. unfold content, pair_value, reached.
  destruct (decide (a = b)) as [->|Hne].
  - repeat case_decide; (done || lia).
  - destruct (dir (a `min` b) (a `max` b));
      repeat case_decide; (done || lia).
Qed.

Lemma content_diagonal i :
  cont i i i i = UNCOMPARED ∧ cont i (S i) i i = 0%Q.
Proof. unfold content, reached. split; repeat case_decide; (done || lia). Qed.

(** The cell tested is not 99: the comparison was made from the other
    row, and nothing changes. *)
Lemma content_skip i j a b :
  Qeqb (cont i j i j) 99 = false → cont i (S j) a b = cont i j a b.
Proof.
  intros Hskip.
  destruct (decide ((a = i ∧ b = j) ∨ (a = j ∧ b = i))) as [Hpair|Hoff];
    [|apply content_off_pair; tauto].
  assert (cont i (S j) i j = cont i j i j) as Hij.
  { revert Hskip. unfold content, reached.
    destruct (decide (i = j)) as [->|Hne].
    - rewrite (decide_False (P := j < j ∨ j = j ∧ j < j)) by lia. done.
    - destruct (dir (i `min` j) (i `max` j)) eqn:Hd;
        repeat case_decide; (done || lia). }
  destruct Hpair as [[-> ->]|[-> ->]]; [done|].
  by rewrite (content_sym i (S j)), (content_sym i j).
Qed.

(** The cell tested is 99: the comparison of row [i] with column [j]
    decides the pair. *)
Lemma content_compared i j :
  i ≠ j → Qeqb (cont i j i j) 99 = true →
  cont i j i j = UNCOMPARED ∧
  cont i (S j) i j = from_option id UNCOMPARED (dir i j).
Proof.
  intros Hne. unfold content, reached.
  rewrite !(decide_False (P := i = j)) by done.
  destruct (decide (i < j)) as [Hlt|Hge].
  - rewrite Nat.min_l, Nat.max_r by lia.
    rewrite (decide_True (P := i < i ∨ i = i ∧ j < S j)) by lia.
    rewrite (decide_False (P := j < i ∨ j = i ∧ i < S j)) by lia.
    rewrite (decide_False (P := i < i ∨ i = i ∧ j < j)) by lia.
    intros _. split; [done|]. by destruct (dir i j).
  - rewrite Nat.min_r, Nat.max_l by lia.
    rewrite (decide_True (P := j < i ∨ j = i ∧ i < j)) by lia.
    rewrite (decide_True (P := j < i ∨ j = i ∧ i < S j)) by lia.
    rewrite (decide_True (P := i < i ∨ i = i ∧ j < S j)) by lia.
    rewrite (decide_False (P := i < i ∨ i = i ∧ j < j)) by lia.
    destruct (dir j i) as [v|] eqn:Hd; [|done].
    intros Hv. by rewrite (direction_not_sentinel j i v Hd) in Hv.
Qed.

Lemma settle_cons_write v r rest x :
  record_value r = Some x → settle v (r :: rest) = settle x rest.
Proof.
  intros Hr. unfold settle, writes. simpl. rewrite Hr. simpl.
  rewrite last_cons. by destruct (last _).
Qed.

Lemma settle_cons_skip v r rest :
  record_value r = None → settle v (r :: rest) = settle v rest.
Proof. intros Hr. unfold settle, writes. simpl. by rewrite Hr. Qed.

(** Where the loop over the records goes next, both cells holding [v]. *)
Lemma next_record_values i j records (s : shared key) v :
  i < length seq_keys → j < length seq_keys → i ≠ j →
  square (length seq_keys) (dist_matrix s) →
  already_compared s = take (S i) seq_keys →
  (∀ a b, a < length seq_keys → b < length seq_keys →
          ¬ (a = i ∧ b = j) → ¬ (a = j ∧ b = i) →
          cell (dist_matrix s) a b = Some (cont i (S j) a b)) →
  cell (dist_matrix s) i j = Some v → cell (dist_matrix s) j i = Some v →
  settle v records = cont i (S j) i j →
  vinv (next_record i j records) s.
Proof.
  intros Hi Hj Hne Hsq Hac Hoff Hij Hji.
  induction records as [|[|[|e hsps] als] rest IH]; intros Hset; simpl.
  - split; [done|]. split; [done|]. split; [lia|]. split; [done|].
    intros a b Ha Hb.
    destruct (decide (a = i ∧ b = j)) as [[-> ->]|Hab]; [by rewrite Hij, <- Hset|].
    destruct (decide (a = j ∧ b = i)) as [[-> ->]|Hba]; [|by apply Hoff].
    by rewrite Hji, content_sym, <- Hset.
  - split; [done|]. repeat (split; [done|]).
    by rewrite <- Hset, (settle_cons_write v [] rest NO_HIT eq_refl).
  - apply IH. by rewrite <- Hset, (settle_cons_skip v ([] :: als) rest eq_refl).
  - split; [done|]. repeat (split; [done|]).
    by rewrite <- Hset, (settle_cons_write v ((e :: hsps) :: als) rest e eq_refl).
Qed.

Lemma values_inv_step w p (s : shared key) :
  vinv p s → vinv (step1 w p s).1 (step1 w p s).2.
Proof.
  intros [Hsq Hp].
  destruct p as [i|i|i|i b|i j|i j|i j row|i j|i j v rest|i j v row rest
                 |i j v rest|i j v row rest| |]; simpl in *.
  - (* AtKey *)
    destruct Hp as (Hi & Hac & Hm).
    destruct (seq_keys !! i) as [k|] eqn:Hk.
    + pose proof (lookup_lt_Some _ _ _ Hk).
      destruct (lock s); simpl; [done|]. done.
    + apply lookup_ge_None in Hk. split; [done|]. simpl.
      by assert (i = length seq_keys) as -> by lia.
  - (* InLock *)
    destruct Hp as (Hi & Hac & Hm).
    destruct (lookup_lt_is_Some_2 seq_keys i Hi) as [k Hk]. rewrite Hk.
    rewrite decide_False; [done|].
    rewrite Hac. by apply key_not_claimed.
  - (* Claiming *)
    destruct Hp as (Hi & Hac & Hm).
    destruct (lookup_lt_is_Some_2 seq_keys i Hi) as [k Hk]. rewrite Hk.
    split; [done|]. simpl. split; [done|]. split; [done|].
    split; [|done]. by rewrite Hac, (take_S_r _ _ _ Hk).
  - (* Unlocking *)
    destruct Hp as (-> & Hi & Hac & Hm). simpl.
    split; [done|]. split; [done|]. split; [lia|]. done.
  - (* AtCell *)
    destruct Hp as (Hi & Hj & Hac & Hm).
    destruct (lookup_lt_is_Some_2 seq_keys i Hi) as [k Hk]. rewrite Hk.
    destruct (seq_keys !! j) as [k2|] eqn:Hk2.
    + pose proof (lookup_lt_Some _ _ _ Hk2) as Hj'.
      rewrite (getcell_cell _ _ _ _ (Hm i j Hi Hj')).
      destruct (Qeqb (cont i j i j) 99) eqn:Hcell.
      * destruct (decide (k = k2)) as [->|Hkk].
        -- assert (j = i) as -> by (by eapply NoDup_lookup).
           done.
        -- assert (i ≠ j) as Hne by congruence.
           destruct (content_compared i j Hne Hcell) as [Hold Hnew].
           destruct (length_gate_failed _ _ _) eqn:Hgate.
           ++ split; [done|]. repeat (split; [done|]). split.
              ** intros a b Ha Hb Hab Hba.
                 rewrite content_off_pair by done. by apply Hm.
              ** rewrite Hnew. unfold direction_at, direction.
                 rewrite Hk, Hk2. simpl. by rewrite Hgate.
           ++ split; [done|]. repeat (split; [done|]). eauto 10.
      * split; [done|]. split; [done|]. split; [lia|]. split; [done|].
        intros a b Ha Hb. rewrite (content_skip i j a b Hcell). by apply Hm.
    + apply lookup_ge_None in Hk2.
      assert (j = length seq_keys) as -> by lia.
      split; [done|]. split; [lia|]. split; [done|].
      intros a b Ha Hb. rewrite <- content_row_end by done. by apply Hm.
  - (* DiagFetch *)
    destruct Hp as (Hi & -> & Hac & Hm).
    destruct (fetch_row_Done seq_keys s i i 0 Hsq Hi Hi) as (row' & Hrow & ->).
    split; [done|]. repeat (split; [done|]). eauto.
  - (* DiagStore *)
    destruct Hp as (Hi & -> & Hac & Hm & row' & Hrow & ->).
    rewrite (store_row_Done seq_keys s i i 0 row' Hsq Hrow).
    unfold with_matrix. simpl.
    split; [by apply square_set_cell|]. split; [done|]. split; [lia|].
    split; [done|]. intros a b Ha Hb.
    simpl. rewrite (cell_set_cell (length seq_keys)) by done.
    destruct (decide (a = i ∧ b = i)) as [[-> ->]|Hab].
    + by rewrite (proj2 (content_diagonal i)).
    + rewrite content_off_pair by done. by apply Hm.
  - (* Blasting *)
    destruct Hp as (Hi & Hj & Hne & Hac & Hm & Hcell & k & k2 & Hk & Hk2 & Hgate).
    rewrite Hk, Hk2. simpl.
    destruct (content_compared i j Hne Hcell) as [Hold Hnew].
    apply (next_record_values i j _ _ UNCOMPARED); simpl; try done.
    + intros a b Ha Hb Hab Hba. rewrite content_off_pair by done. by apply Hm.
    + by rewrite (Hm i j Hi Hj), Hold.
    + by rewrite (Hm j i Hj Hi), content_sym, Hold.
    + rewrite Hnew. unfold direction_at, direction, settle.
      rewrite Hk, Hk2. simpl. by rewrite Hgate.
  - (* PairFetch1 *)
    destruct Hp as (Hi & Hj & Hne & Hac & Hpend).
    destruct (fetch_row_Done seq_keys s i j v Hsq Hi Hj) as (row' & Hrow & ->).
    split; [done|]. repeat (split; [done|]). eauto.
  - (* PairStore1 *)
    destruct Hp as (Hi & Hj & Hne & Hac & [Hoff Hset] & row' & Hrow & ->).
    rewrite (store_row_Done seq_keys s i j v row' Hsq Hrow).
    unfold with_matrix. simpl.
    split; [by apply square_set_cell|]. repeat (split; [done|]).
    split; [split; [|done]|].
    + intros a b Ha Hb Hab Hba.
      simpl. rewrite (cell_set_cell (length seq_keys)) by done.
      rewrite decide_False by done. by apply Hoff.
    + simpl. rewrite (cell_set_cell (length seq_keys)) by done.
      by rewrite decide_True.
  - (* PairFetch2 *)
    destruct Hp as (Hi & Hj & Hne & Hac & Hpend & Hv).
    destruct (fetch_row_Done seq_keys s j i v Hsq Hj Hi) as (row' & Hrow & ->).
    split; [done|]. repeat (split; [done|]). eauto.
  - (* PairStore2 *)
    destruct Hp as (Hi & Hj & Hne & Hac & [Hoff Hset] & Hv & row' & Hrow & ->).
    rewrite (store_row_Done seq_keys s j i v row' Hsq Hrow).
    unfold with_matrix. simpl.
    apply (next_record_values i j _ _ v); simpl; try done.
    + by apply square_set_cell.
    + intros a b Ha Hb Hab Hba.
      simpl. rewrite (cell_set_cell (length seq_keys)) by done.
      rewrite decide_False by done. by apply Hoff.
    + simpl. rewrite (cell_set_cell (length seq_keys)) by done.
      rewrite decide_False by lia. done.
    + simpl. rewrite (cell_set_cell (length seq_keys)) by done.
      by rewrite decide_True.
  - done.
  - done.
Qed.

Lemma values_inv_init :
  vinv (AtKey 0)
    {| dist_matrix := initial_matrix (length seq_keys);
       already_compared := []; lock := None;
       blast_calls := []; rows_entered := [] |}.
Proof.
  split; [apply square_initial_matrix|]. simpl. split; [lia|]. split; [done|].
  intros a b Ha Hb. simpl. rewrite cell_initial_matrix by done.
  by rewrite content_initial.
Qed.

Lemma values_inv_run sched : ∀ p (s : shared key),
  vinv p s →
  ∃ p' s', run seq_length blastn length_threshold seq_keys sched ([p], s)
           = ([p'], s') ∧ vinv p' s'.
Proof.
  induction sched as [|w sched IH]; intros p s Hinv; [by exists p, s|].
  assert (pool_step seq_length blastn length_threshold seq_keys ([p], s) w
          = match w with
            | 0 => ([(step1 0 p s).1], (step1 0 p s).2)
            | S _ => ([p], s)
            end) as Hstep by (by destruct w).
  simpl. rewrite Hstep. destruct w as [|w].
  - apply IH. by apply values_inv_step.
  - by apply IH.
Qed.

Lemma matrix_of_cells n (m : matrix) (f : nat → nat → Q) :
  square n m →
  (∀ a b, a < n → b < n → cell m a b = Some (f a b)) →
  m = (λ a, f a <$> seq 0 n) <$> seq 0 n.
Proof.
  intros Hsq Hcells. apply list_eq. intros a.
  rewrite list_lookup_fmap.
  destruct (decide (a < n)) as [Ha|Ha].
  - rewrite lookup_seq_lt by done. simpl.
    destruct (lookup_lt_is_Some_2 m a) as [row Hrow];
      [by rewrite (proj1 Hsq)|].
    rewrite Hrow. f_equal. apply list_eq. intros b.
    rewrite list_lookup_fmap.
    destruct (decide (b < n)) as [Hb|Hb].
    + rewrite lookup_seq_lt by done. simpl.
      specialize (Hcells a b Ha Hb). unfold cell in Hcells.
      by rewrite Hrow in Hcells.
    + rewrite lookup_seq_ge by lia. simpl. apply lookup_ge_None.
      rewrite (square_row _ _ _ _ Hsq Hrow). lia.
  - rewrite lookup_seq_ge by lia. simpl. apply lookup_ge_None.
    rewrite (proj1 Hsq). lia.
Qed.


Lemma single_worker_matrix (s : shared key) :
  vinv Finished s →
  dist_matrix s
  = sequential_matrix seq_length blastn length_threshold seq_keys.
Proof.
  intros [Hsq Hm]. simpl in Hm.
  apply (matrix_of_cells (length seq_keys)); [done|].
  intros a b Ha Hb. rewrite (Hm a b Ha Hb). by rewrite content_final.
Qed.

(** *** The single worker finishes *)

Abbreviation left := (steps_left blastn seq_keys).
Abbreviation rrest := (row_rest blastn seq_keys).
Abbreviation rsrest := (rows_rest blastn seq_keys).

Lemma row_rest_S i j :
  j < length seq_keys →
  rrest i j = cell_cost blastn seq_keys i j + rrest i (S j).
Proof.
  intros Hj. unfold row_rest.
  replace (length seq_keys - j) with (S (length seq_keys - S j)) by lia.
  generalize (length seq_keys - S j). intros r. simpl.
  by rewrite <- Nat.add_assoc.
Qed.

Lemma row_rest_end i j : length seq_keys ≤ j → rrest i j = 1.
Proof.
  intros Hj. unfold row_rest.
  by replace (length seq_keys - j) with 0 by lia.
Qed.

Lemma rows_rest_S i :
  i < length seq_keys → rsrest i = 4 + rrest i 0 + rsrest (S i).
Proof.
  intros Hi. unfold rows_rest.
  replace (length seq_keys - i) with (S (length seq_keys - S i)) by lia.
  generalize (length seq_keys - S i). intros r. simpl.
  by rewrite <- Nat.add_assoc.
Qed.

Lemma rows_rest_end i : length seq_keys ≤ i → rsrest i = 1.
Proof.
  intros Hi. unfold rows_rest.
  by replace (length seq_keys - i) with 0 by lia.
Qed.

Lemma next_record_left i j records :
  left (next_record i j records)
  ≤ 4 * length records + rrest i (S j) + rsrest (S i).
Proof.
  induction records as [|[|[|e hsps] als] rest IH]; simpl; lia.
Qed.

Lemma next_record_lock_at i j records :
  lock_at (next_record i j records) = None.
Proof. induction records as [|[|[|e hsps] als] rest IH]; simpl; done. Qed.

(** Every transition of the worker brings the end nearer. *)
Lemma values_inv_progress p (s : shared key) :
  vinv p s → lock s = lock_at p → p ≠ Finished →
  left (step1 0 p s).1 < left p ∧
  lock (step1 0 p s).2 = lock_at (step1 0 p s).1.
Proof.
  intros [Hsq Hp] Hlock Hfin.
  destruct p as [i|i|i|i b|i j|i j|i j row|i j|i j v rest|i j v row rest
                 |i j v rest|i j v row rest| |]; simpl in *.
  - (* AtKey *)
    destruct Hp as (Hi & Hac & Hm).
    destruct (seq_keys !! i) as [k|] eqn:Hk.
    + pose proof (lookup_lt_Some _ _ _ Hk). rewrite Hlock. simpl.
      rewrite (rows_rest_S i) by done. split; [lia|done].
    + apply lookup_ge_None in Hk. simpl. rewrite rows_rest_end by done.
      split; [lia|done].
  - (* InLock *)
    destruct Hp as (Hi & Hac & Hm).
    destruct (lookup_lt_is_Some_2 seq_keys i Hi) as [k Hk]. rewrite Hk.
    rewrite decide_False; [simpl; split; [lia|done]|].
    rewrite Hac. by apply key_not_claimed.
  - (* Claiming *)
    destruct Hp as (Hi & Hac & Hm).
    destruct (lookup_lt_is_Some_2 seq_keys i Hi) as [k Hk]. rewrite Hk.
    simpl. split; [lia|done].
  - (* Unlocking *)
    destruct Hp as (-> & Hi & Hac & Hm). simpl. split; [lia|done].
  - (* AtCell *)
    destruct Hp as (Hi & Hj & Hac & Hm).
    destruct (lookup_lt_is_Some_2 seq_keys i Hi) as [k Hk]. rewrite Hk.
    destruct (seq_keys !! j) as [k2|] eqn:Hk2.
    + pose proof (lookup_lt_Some _ _ _ Hk2) as Hj'.
      rewrite (getcell_cell _ _ _ _ (Hm i j Hi Hj')).
      rewrite (row_rest_S i j Hj'). unfold cell_cost. rewrite Hk, Hk2.
      destruct (Qeqb (cont i j i j) 99); [|simpl; split; [lia|done]].
      destruct (decide (k = k2)); [simpl; split; [lia|done]|].
      destruct (length_gate_failed _ _ _); simpl.
      * split; [lia|done].
      * unfold records_at. rewrite Hk, Hk2. split; [lia|done].
    + apply lookup_ge_None in Hk2. simpl.
      rewrite (row_rest_end i j) by done. split; [lia|done].
  - (* DiagFetch *)
    destruct Hp as (Hi & -> & Hac & Hm).
    destruct (fetch_row_Done seq_keys s i i 0 Hsq Hi Hi) as (row' & Hrow & ->).
    simpl. split; [lia|done].
  - (* DiagStore *)
    destruct Hp as (Hi & -> & Hac & Hm & row' & Hrow & ->).
    rewrite (store_row_Done seq_keys s i i 0 row' Hsq Hrow).
    simpl. split; [lia|done].
  - (* Blasting *)
    destruct Hp as (Hi & Hj & Hne & Hac & Hm & Hcell & k & k2 & Hk & Hk2 & Hgate).
    rewrite Hk, Hk2. simpl. unfold records_at. rewrite Hk, Hk2.
    pose proof (next_record_left i j (blastn k k2)).
    split; [lia|]. by rewrite next_record_lock_at.
  - (* PairFetch1 *)
    destruct Hp as (Hi & Hj & Hne & Hac & Hpend).
    destruct (fetch_row_Done seq_keys s i j v Hsq Hi Hj) as (row' & Hrow & ->).
    simpl. split; [lia|done].
  - (* PairStore1 *)
    destruct Hp as (Hi & Hj & Hne & Hac & [Hoff Hset] & row' & Hrow & ->).
    rewrite (store_row_Done seq_keys s i j v row' Hsq Hrow).
    simpl. split; [lia|done].
  - (* PairFetch2 *)
    destruct Hp as (Hi & Hj & Hne & Hac & Hpend & Hv).
    destruct (fetch_row_Done seq_keys s j i v Hsq Hj Hi) as (row' & Hrow & ->).
    simpl. split; [lia|done].
  - (* PairStore2 *)
    destruct Hp as (Hi & Hj & Hne & Hac & [Hoff Hset] & Hv & row' & Hrow & ->).
    rewrite (store_row_Done seq_keys s j i v row' Hsq Hrow). simpl.
    pose proof (next_record_left i j rest).
    split; [lia|]. by rewrite next_record_lock_at.
  - done.
  - done.
Qed.

Lemma finished_stays N : ∀ (s : shared key),
  run seq_length blastn length_threshold seq_keys (replicate N 0)
    ([Finished], s) = ([Finished], s).
Proof. induction N as [|N IH]; intros s; [done|]. simpl. apply IH. Qed.

Lemma values_inv_finishes N : ∀ p (s : shared key),
  vinv p s → lock s = lock_at p → left p ≤ N →
  ∃ s', run seq_length blastn length_threshold seq_keys (replicate N 0)
          ([p], s) = ([Finished], s') ∧ vinv Finished s'.
Proof.
  induction N as [|N IH]; intros p s Hinv Hlock Hleft.
  - destruct p; simpl in Hleft; try (unfold rows_rest, row_rest in Hleft; lia).
    + by exists s.
    + by destruct Hinv.
  - assert (p = Finished ∨ p ≠ Finished) as [->|Hfin]
      by (destruct p; (by left) || (by right)).
    + exists s. split; [apply (finished_stays (S N))|done].
    + destruct (values_inv_progress p s Hinv Hlock Hfin) as [Hlt Hlock'].
      simpl.
      change (pool_step seq_length blastn length_threshold seq_keys ([p], s) 0)
        with ([(step1 0 p s).1], (step1 0 p s).2).
      apply IH; [by apply values_inv_step|done|lia].
Qed.

End SequentialFacts.
(** ** The guided builder returns *)

Section GuidedTermination.
Context {key guide gid : Type} `{EqDecision gid}.
Context (guide_id : guide → gid).
Context (guide_length : guide → Z).
Context (seq_length : key → Z).
Context (blastn_guide : guide → key → list blast_record).
Context (length_threshold : Q).
Context (guide_sequences : list guide).
Context (all_seq_keys : list key).
Context (Hids : NoDup (guide_id <$> guide_sequences)).

Abbreviation gstep := (gworker_step guide_id guide_length seq_length
  blastn_guide length_threshold guide_sequences all_seq_keys).
Abbreviation gpstep := (gpool_step guide_id guide_length seq_length
  blastn_guide length_threshold guide_sequences all_seq_keys).
Abbreviation gprun := (grun guide_id guide_length seq_length
  blastn_guide length_threshold guide_sequences all_seq_keys).
Abbreviation rinv := (guided_run_inv guide_id guide_length seq_length
  blastn_guide length_threshold guide_sequences all_seq_keys).
Abbreviation gleft := (gsteps_left blastn_guide guide_sequences all_seq_keys).
Abbreviation krest := (gkeys_rest blastn_guide guide_sequences all_seq_keys).
Abbreviation grest := (gguides_rest blastn_guide guide_sequences all_seq_keys).

Lemma gguides_rest_S g gd :
  guide_sequences !! g = Some gd →
  grest g = 4 + krest g 0 + grest (S g).
Proof.
  intros Hgd. unfold gguides_rest, gkeys_rest. rewrite Hgd.
  rewrite (drop_S _ _ _ Hgd), fmap_cons. rewrite drop_0.
  unfold gguide_cost. simpl. lia.
Qed.

Lemma gguides_rest_end g : guide_sequences !! g = None → grest g = 1.
Proof.
  intros Hg. apply lookup_ge_None in Hg. unfold gguides_rest.
  by rewrite drop_ge.
Qed.

Lemma gkeys_rest_S g k gd key0 :
  guide_sequences !! g = Some gd → all_seq_keys !! k = Some key0 →
  krest g k = 2 + 4 * length (blastn_guide gd key0) + krest g (S k).
Proof.
  intros Hgd Hk. unfold gkeys_rest. rewrite Hgd.
  rewrite (drop_S _ _ _ Hk), fmap_cons. unfold gkey_cost. simpl. lia.
Qed.

Lemma gkeys_rest_pos g k : 0 < krest g k.
Proof. unfold gkeys_rest. lia. Qed.

Lemma gnext_record_left g k records :
  gleft (gnext_record g k records)
  ≤ 4 * length records + krest g (S k) + grest (S g).
Proof.
  induction records as [|[|[|e hsps] als] rest IH]; simpl in *; lia.
Qed.

(** A worker that finds the lock free whenever it asks for it comes
    nearer to its end with every transition. *)
Lemma gworker_step_progress w p (s : gshared key gid) :
  (g_in_lock p = false → glock s = None) →
  p ≠ GFinished → p ≠ GCrashed →
  gleft (gstep w p s).1 < gleft p.
Proof.
  intros Hlock Hfin Hcrash.
  destruct p as [g|g|g|g b|g k|g k|g k rest|g k rest|g k temp rest|g k rest| |];
    simpl in *; try done.
  - destruct (guide_sequences !! g) as [gd|] eqn:Hgd.
    + rewrite (Hlock eq_refl). simpl. rewrite (gguides_rest_S g gd Hgd). lia.
    + simpl. rewrite (gguides_rest_end g Hgd). lia.
  - destruct (guide_sequences !! g) as [gd|] eqn:Hgd; simpl; [|lia].
    case_decide; simpl; lia.
  - destruct (guide_sequences !! g) as [gd|] eqn:Hgd; simpl; lia.
  - destruct b; simpl; lia.
  - pose proof (gkeys_rest_pos g k).
    destruct (guide_sequences !! g) as [gd|] eqn:Hgd; simpl; [|lia].
    destruct (all_seq_keys !! k) as [key0|] eqn:Hk; simpl; [|lia].
    rewrite (gkeys_rest_S g k gd key0 Hgd Hk).
    destruct (length_gate_passed _ _ _); simpl; [|lia].
    unfold grecords_at. rewrite Hgd, Hk. lia.
  - destruct (guide_sequences !! g) as [gd|] eqn:Hgd; simpl; [|lia].
    destruct (all_seq_keys !! k) as [key0|] eqn:Hk; simpl; [|lia].
    unfold grecords_at. rewrite Hgd, Hk.
    pose proof (gnext_record_left g k (blastn_guide gd key0)). lia.
  - rewrite (Hlock eq_refl). simpl. lia.
  - destruct (getitem _ _); simpl; try lia.
    destruct (all_seq_keys !! k); simpl; lia.
  - destruct (setitem _ _ _); simpl; lia.
  - pose proof (gnext_record_left g k rest). lia.
Qed.

Lemma finished_stays_in_pool N w : ∀ ps (s : gshared key gid),
  ps !! w = Some GFinished →
  gprun (replicate N w) (ps, s) = (ps, s).
Proof.
  induction N as [|N IH]; intros ps s Hw; [done|].
  simpl.
  assert (gpstep (ps, s) w = (ps, s)) as ->.
  { unfold gpool_step. simpl. rewrite Hw. simpl.
    by rewrite list_insert_id. }
  by apply IH.
Qed.

Lemma worker_runs_to_end N : ∀ ps (s : gshared key gid) w p,
  rinv (ps, s) → ps !! w = Some p → alone_at w ps → gleft p ≤ N →
  ∃ s', gprun (replicate N w) (ps, s) = (<[w := GFinished]> ps, s') ∧
        rinv (<[w := GFinished]> ps, s').
Proof.
  induction N as [|N IH]; intros ps s w p Hinv Hp Halone Hleft.
  - destruct (gr_fine _ _ _ _ _ _ _ _ Hinv w p Hp) as [Hcrash _].
    pose proof (gkeys_rest_pos 0 0).
    destruct p; simpl in Hleft;
      try (unfold gguides_rest, gkeys_rest in *; lia); [|done].
    exists s. rewrite list_insert_id by done. done.
  - assert (p = GFinished ∨ p ≠ GFinished) as [->|Hfin]
      by (destruct p; (by left) || (by right)).
    + exists s. rewrite list_insert_id by done.
      split; [by apply finished_stays_in_pool|done].
    + destruct (gr_fine _ _ _ _ _ _ _ _ Hinv w p Hp) as [Hcrash _].
      assert (g_in_lock p = false → glock s = None) as Hlock.
      { intros Hout. destruct (glock s) as [w0|] eqn:Hl; [|done].
        destruct (gr_holder _ _ _ _ _ _ _ _ Hinv w0 Hl) as (q & Hq & Hin).
        simpl in Hq. destruct (decide (w0 = w)) as [->|Hne].
        - congruence.
        - rewrite (Halone w0 q Hq Hne) in Hin. done. }
      pose proof (gworker_step_progress w p s Hlock Hfin Hcrash) as Hlt.
      pose proof (rinv_step guide_id guide_length seq_length blastn_guide
                    length_threshold guide_sequences all_seq_keys Hids
                    (ps, s) w Hinv) as Hinv'.
      assert (gpstep (ps, s) w
              = (<[w := (gstep w p s).1]> ps, (gstep w p s).2)) as Hstep.
      { unfold gpool_step. simpl. by rewrite Hp. }
      rewrite Hstep in Hinv'. simpl. rewrite Hstep.
      pose proof (lookup_lt_Some _ _ _ Hp) as Hw.
      destruct (IH (<[w := (gstep w p s).1]> ps) (gstep w p s).2 w
                  (gstep w p s).1 Hinv') as (s' & Hrun & Hinv'').
      * by rewrite list_lookup_insert_eq.
      * intros w' q Hq Hne. rewrite list_lookup_insert_ne in Hq by done.
        by apply (Halone w' q).
      * lia.
      * rewrite list_insert_insert_eq in Hrun, Hinv''. eauto.
Qed.

Lemma in_turn_finishes N :
  gstep_budget blastn_guide guide_sequences all_seq_keys ≤ N →
  ∀ m w (s : gshared key gid),
    rinv (replicate w GFinished ++ replicate m (GAtGuide 0), s) →
    ∃ s', gprun (concat (replicate N <$> seq w m))
            (replicate w GFinished ++ replicate m (GAtGuide 0), s)
          = (replicate (w + m) GFinished, s') ∧
          rinv (replicate (w + m) GFinished, s').
Proof.
  intros HN. induction m as [|m IH]; intros w s Hinv.
  - exists s. simpl in *. rewrite app_nil_r in *. by rewrite Nat.add_0_r.
  - simpl seq. rewrite fmap_cons. simpl concat. unfold grun.
    rewrite foldl_app.
    destruct (worker_runs_to_end N _ s w (GAtGuide 0) Hinv)
      as (s1 & Hrun & Hinv1).
    + rewrite lookup_app_r by (rewrite length_replicate; lia).
      rewrite length_replicate, Nat.sub_diag. done.
    + intros w' q Hq _. apply list_elem_of_lookup_2 in Hq.
      apply elem_of_app in Hq as [Hq|Hq];
        apply elem_of_replicate in Hq as [-> _]; done.
    + done.
    + assert (<[w := GFinished]> (replicate w GFinished
                                    ++ replicate (S m) (GAtGuide 0))
              = replicate (S w) (GFinished (key := key))
                ++ replicate m (GAtGuide 0)) as Heq.
      { rewrite insert_app_r_alt by (rewrite length_replicate; lia).
        rewrite length_replicate, Nat.sub_diag. simpl.
        by rewrite cons_middle, app_assoc, <- replicate_S_end. }
      rewrite Heq in Hrun, Hinv1.
      unfold grun in Hrun. rewrite Hrun.
      destruct (IH (S w) s1 Hinv1) as (s' & Hrun' & Hinv').
      exists s'. replace (w + S m) with (S w + m) by lia. done.
Qed.

End GuidedTermination.

(** * Part IV: further properties of the program *)

(** ** The clustering engine *)

(** X1.  Whatever the matrix and the threshold, when [make_clusters]
    returns, the clusters together hold exactly the sequence keys it was
    given, each as often as it was given: no key is lost, duplicated or
    invented by the merges.  No cluster is empty and there are at most as
    many clusters as keys. *)
Theorem make_clusters_partitions_keys {key : Type} (fuel : nat)
    (seq_keys : list key) (m : matrix) (threshold : Q)
    (result : list (list key)) :
  make_clusters fuel seq_keys m threshold = Done result →
  concat result ≡ₚ seq_keys ∧
  (∀ c, c ∈ result → c ≠ []) ∧
  length result ≤ length seq_keys.
Proof.
  unfold make_clusters. intros Hrun.
  destruct (merge_closest_clusters_Permutation _ _ _ _ _ Hrun)
    as (Hperm & Hne & Hlen).
  rewrite length_fmap in Hlen. split; [|split; [|done]].
  - rewrite Hperm. clear. induction seq_keys as [|s l IH]; [done|].
    rewrite fmap_cons.
    change (s :: concat ((λ s : key, [s]) <$> l) ≡ₚ s :: l). by rewrite IH.
  - apply Hne. intros c [s [-> _]]%list_elem_of_fmap. done.
Qed.

Lemma make_clusters_partitions_keys_witness :
  concat [[1; 2; 3]; [4]; [5]] ≡ₚ [1; 2; 3; 4; 5] ∧
  (∀ c, c ∈ [[1; 2; 3]; [4]; [5]] → c ≠ []) ∧
  length [[1; 2; 3]; [4]; [5]] ≤ length [1; 2; 3; 4; 5].
Proof.
  apply (make_clusters_partitions_keys 20 [1; 2; 3; 4; 5] scenario_matrix
           (1 # 10000000000)).
  vm_compute. reflexivity.
Defined.

(** X2.  Single linkage computes the connected components of the threshold
    graph.  For distinct keys, a square, symmetric matrix of non-negative
    distances with a zero diagonal and a threshold below 99, two keys end
    in the same cluster of [make_clusters] exactly when a chain of keys
    leads from one to the other in which every two neighbours are at a
    distance of at most the threshold in the matrix given to the engine.
    In particular two keys of different clusters are farther apart than
    the threshold. *)
Theorem clusters_are_threshold_components {key : Type} (seq_keys : list key)
    (d : matrix) (threshold : Q) (fuel : nat) (result : list (list key)) :
  NoDup seq_keys →
  matrix_ok (length seq_keys) d →
  (threshold < 99)%Q →
  make_clusters fuel seq_keys d threshold = Done result →
  ∀ i j ki kj, seq_keys !! i = Some ki → seq_keys !! j = Some kj →
    (∃ A, A ∈ result ∧ ki ∈ A ∧ kj ∈ A) ↔ rtc (close d threshold) i j.
Proof.
  intros Hnd Hd HT Hrun i j ki kj Hi Hj.
  assert (length d = length seq_keys) as Hlen by apply Hd.
  set (f := λ p, default ki (seq_keys !! p)).
  rewrite (keys_by_position seq_keys ki), make_clusters_fmap in Hrun.
  fold f in Hrun. rewrite <- Hlen in Hrun, Hd.
  destruct (make_clusters fuel (seq 0 (length d)) d threshold)
    as [r0| |] eqn:Hr0; [|done..].
  simpl in Hrun. injection Hrun as <-.
  destruct (components_positions d threshold fuel r0 Hd HT Hr0)
    as (_ & _ & Hmem & Hiff).
  pose proof (lookup_lt_Some _ _ _ Hi) as Hi'.
  pose proof (lookup_lt_Some _ _ _ Hj) as Hj'.
  rewrite <- Hiff by lia.
  assert (f i = ki) as Hfi by (unfold f; by rewrite Hi).
  assert (f j = kj) as Hfj by (unfold f; by rewrite Hj).
  assert (∀ p k, p < length d → f p = k → seq_keys !! p = Some k) as Hf.
  { intros p k Hp <-. unfold f.
    destruct (lookup_lt_is_Some_2 seq_keys p ltac:(lia)) as [y Hy].
    by rewrite Hy. }
  split.
  - intros (A & HA & HiA & HjA).
    unfold rename in HA. apply list_elem_of_fmap in HA as (A0 & -> & HA0).
    apply list_elem_of_fmap in HiA as (i' & Hi'' & HiA0).
    apply list_elem_of_fmap in HjA as (j' & Hj'' & HjA0).
    assert (i' = i) as ->.
    { apply (NoDup_lookup seq_keys i' i ki Hnd); [|done].
      apply Hf; [by eapply Hmem|done]. }
    assert (j' = j) as ->.
    { apply (NoDup_lookup seq_keys j' j kj Hnd); [|done].
      apply Hf; [by eapply Hmem|done]. }
    eauto.
  - intros (A0 & HA0 & HiA0 & HjA0). exists (f <$> A0).
    split; [unfold rename; by apply list_elem_of_fmap_2|].
    rewrite <- Hfi, <- Hfj. split; by apply list_elem_of_fmap_2.
Qed.

Lemma scenario_ok : matrix_ok 5 scenario_matrix.
Proof.
  split; [apply scenario_square|].
  split; [|split; [|exact scenario_nonneg]].
  - intros a b x y Hx Hy.
    destruct (cell_lt 5 _ _ _ _ scenario_square Hx) as [Ha Hb].
    do 5 (destruct a as [|a]; [do 5 (destruct b as [|b];
       [injection Hx as <-; injection Hy as <-; by vm_compute|]); lia|]). lia.
  - intros a x Hx.
    destruct (cell_lt 5 _ _ _ _ scenario_square Hx) as [Ha _].
    do 5 (destruct a as [|a]; [injection Hx as <-; by vm_compute|]). lia.
Qed.

Lemma scenario_keys_distinct : NoDup [1; 2; 3; 4; 5].
Proof. by apply (bool_decide_unpack _). Qed.

Lemma clusters_are_threshold_components_witness :
  (∃ A, A ∈ [[1; 2; 3]; [4]; [5]] ∧ 1 ∈ A ∧ 3 ∈ A) ↔
  rtc (close scenario_matrix (1 # 10000000000)) 0 2.
Proof.
  apply (clusters_are_threshold_components [1; 2; 3; 4; 5] scenario_matrix
           (1 # 10000000000) 20 [[1; 2; 3]; [4]; [5]]
           scenario_keys_distinct scenario_ok).
  - reflexivity.
  - vm_compute. reflexivity.
  - reflexivity.
  - reflexivity.
Defined.

(** X3.  The engine never looks at the keys: replacing every key by its
    image under any function, injective or not, replaces the keys in the
    returned clusters and changes nothing else; the clustering is decided
    by the matrix, the threshold and the number of keys alone. *)
Theorem make_clusters_ignores_key_names {A B : Type} (f : A → B)
    (fuel : nat) (seq_keys : list A) (m : matrix) (threshold : Q) :
  make_clusters fuel (f <$> seq_keys) m threshold
  = outcome_map (rename f) (make_clusters fuel seq_keys m threshold).
Proof. apply make_clusters_fmap. Qed.

(** ** The all-pairs builder, for every number of workers and schedule *)

(** X4.  No interleaving makes a worker of the all-pairs builder fail:
    in every state the pool reaches, no worker has stopped on an index
    out of range, the pool has the workers it was started with, and the
    shared matrix is n x n for the n sequence keys.  When the builder
    returns, it has joined all its workers, each at the end of its loop,
    and returns an n x n matrix. *)
Theorem workers_never_crash {key : Type} `{EqDecision key}
    (seq_length : key → Z) (blastn : key → key → list blast_record)
    (length_threshold : Q) (seq_keys : list key)
    (num_cores : nat) (sched : list nat) :
  let c := run seq_length blastn length_threshold seq_keys sched
             (initial_pool seq_keys num_cores) in
  length c.1 = num_cores ∧
  Forall (λ p, p ≠ Crashed) c.1 ∧
  square (length seq_keys) (dist_matrix c.2) ∧
  ∀ workers m,
    make_distance_matrix seq_length blastn length_threshold seq_keys
      num_cores sched = Joined workers m →
    workers = num_cores ∧ Forall (λ p, p = Finished) c.1 ∧
    square (length seq_keys) m.
Proof.
  intros c.
  destruct (pool_ok_run seq_length blastn length_threshold seq_keys sched _
              (pool_ok_init seq_length blastn length_threshold seq_keys
                 num_cores)) as [Hps (Hsq & _)].
  fold c in Hps, Hsq.
  assert (length c.1 = num_cores) as Hlen.
  { unfold c. rewrite run_length. simpl. apply length_replicate. }
  assert (Forall (λ p, p ≠ Crashed) c.1) as Hcrash.
  { eapply Forall_impl; [exact Hps|]. by intros p Hp ->. }
  split; [done|]. split; [done|]. split; [done|].
  intros workers m. unfold make_distance_matrix. fold c.
  destruct (forallb exited c.1) eqn:Hex; [|done].
  intros [= <- <-]. split; [done|]. split; [|done].
  apply Forall_forall. intros p Hp.
  assert (exited p = true) as Hpex.
  { rewrite forallb_forall in Hex. apply Hex. by apply list_elem_of_In. }
  pose proof (proj1 (Forall_forall _ _) Hcrash p Hp).
  by destruct p.
Qed.

(** X5.  The comparator is only ever run on two different keys of the
    input whose lengths pass the worker's length test (the row's length
    lies within the column's length times 1 -/+ the threshold): a key is
    never compared with itself, and a pair that fails the test in the
    direction in which it is reached is not compared in that direction. *)
Theorem comparator_runs_on_gated_pairs {key : Type} `{EqDecision key}
    (seq_length : key → Z) (blastn : key → key → list blast_record)
    (length_threshold : Q) (seq_keys : list key)
    (num_cores : nat) (sched : list nat) (k k2 : key) :
  (k, k2) ∈ blast_calls
              (run seq_length blastn length_threshold seq_keys sched
                 (initial_pool seq_keys num_cores)).2 →
  k ∈ seq_keys ∧ k2 ∈ seq_keys ∧ k ≠ k2 ∧
  length_gate_failed length_threshold (seq_length k) (seq_length k2) = false.
Proof.
  intros Hin.
  destruct (pool_ok_run seq_length blastn length_threshold seq_keys sched _
              (pool_ok_init seq_length blastn length_threshold seq_keys
                 num_cores)) as [_ (_ & _ & Hcalls)].
  by apply (proj1 (Forall_forall _ _) Hcalls (k, k2)).
Qed.

Lemma comparator_runs_on_gated_pairs_witness :
  0 ∈ [0; 1] ∧ 1 ∈ [0; 1] ∧ 0 ≠ 1 ∧
  length_gate_failed (1 # 2) (gate_lengths 0) (gate_lengths 1) = false.
Proof.
  apply (comparator_runs_on_gated_pairs gate_lengths one_hit (1 # 2) [0; 1]
           1 alone 0 1).
  vm_compute. apply list_elem_of_here.
Defined.

(** X6.  Whatever the schedule, a cell of the shared matrix only ever
    holds the initial 99, the 0 of a key against itself, the 50 of a
    failed length test, the 10 of a record without alignment, or the
    e-value of the first HSP of the first alignment of a record that the
    comparator returned for two keys of the input. *)
Theorem cells_hold_known_values {key : Type} `{EqDecision key}
    (seq_length : key → Z) (blastn : key → key → list blast_record)
    (length_threshold : Q) (seq_keys : list key)
    (num_cores : nat) (sched : list nat) (a b : nat) (x : Q) :
  cell (dist_matrix
          (run seq_length blastn length_threshold seq_keys sched
             (initial_pool seq_keys num_cores)).2) a b = Some x →
  x = 99%Q ∨ x = 0%Q ∨ x = 50%Q ∨ x = 10%Q ∨
  ∃ k k2 hsps alignments,
    k ∈ seq_keys ∧ k2 ∈ seq_keys ∧
    ((x :: hsps) :: alignments) ∈ blastn k k2.
Proof.
  intros Hx.
  destruct (pool_ok_run seq_length blastn length_threshold seq_keys sched _
              (pool_ok_init seq_length blastn length_threshold seq_keys
                 num_cores)) as [_ (_ & Hvals & _)].
  unfold cell in Hx.
  destruct (dist_matrix _ !! a) as [row|] eqn:Hrow; [|done]. simpl in Hx.
  pose proof (Forall_lookup_1 _ _ _ _ Hvals Hrow) as Hr.
  destruct (Forall_lookup_1 _ _ _ _ Hr Hx)
    as [->|[->|[->|[->|(hsps & als & k & k2 & ? & ? & ?)]]]]; eauto 12.
Qed.

Lemma cells_hold_known_values_witness :
  (1 # 1000)%Q = 99%Q ∨ (1 # 1000)%Q = 0%Q ∨ (1 # 1000)%Q = 50%Q ∨
  (1 # 1000)%Q = 10%Q ∨
  ∃ k k2 hsps alignments,
    k ∈ [0; 1] ∧ k2 ∈ [0; 1] ∧
    (((1 # 1000)%Q :: hsps) :: alignments) ∈ one_hit k k2.
Proof.
  apply (cells_hold_known_values gate_lengths one_hit (1 # 2) [0; 1]
           1 alone 0 1).
  reflexivity.
Defined.

(** X7.  With distinct sequence keys, no comparison is started twice:
    whatever the number of workers and the schedule, the comparator is
    run at most once on each ordered pair (row key, column key).  (The
    same two keys may still be compared once in each direction.) *)
Theorem no_comparison_started_twice {key : Type} `{EqDecision key}
    (seq_length : key → Z) (blastn : key → key → list blast_record)
    (length_threshold : Q) (seq_keys : list key)
    (num_cores : nat) (sched : list nat) :
  NoDup seq_keys →
  NoDup (blast_calls
           (run seq_length blastn length_threshold seq_keys sched
              (initial_pool seq_keys num_cores)).2).
Proof.
  intros Hkeys.
  apply (calls_inv_run seq_length blastn length_threshold seq_keys sched _
           Hkeys (claim_inv_init seq_keys num_cores)
           (rows_logged_init seq_keys num_cores)
           (calls_inv_init seq_keys num_cores)).
Qed.

Lemma no_comparison_started_twice_witness :
  NoDup (blast_calls
           (run equal_lengths one_hit (1 # 2) [0; 1; 2] stale_row
              (initial_pool [0; 1; 2] 2)).2).
Proof.
  apply (no_comparison_started_twice equal_lengths one_hit (1 # 2) [0; 1; 2]
           2 stale_row).
  by apply (bool_decide_unpack _).
Defined.

(** ** Ingroup and outgroup *)

(** X8.  [get_in_out_groups] returns, in the order of [gb.keys()], the
    keys whose taxonomy contains the ingroup name and the keys whose
    taxonomy contains the outgroup name but not the ingroup name: a
    record in both clades counts as ingroup only, and a record in neither
    is dropped. *)
Theorem groups_are_filters {key taxon : Type} `{EqDecision taxon}
    (taxonomy : key → list taxon) (keys : list key)
    (ingroup outgroup : taxon) :
  get_in_out_groups taxonomy keys ingroup outgroup
  = (filter (λ k, ingroup ∈ taxonomy k) keys,
     filter (λ k, ¬ (ingroup ∈ taxonomy k) ∧ outgroup ∈ taxonomy k) keys).
Proof. unfold get_in_out_groups. by rewrite group_loop_filter. Qed.

(** X9.  The list [all_seq_keys] that [main] hands to the builders holds
    exactly the keys of [gb] in one of the two clades, the ingroup keys
    before the outgroup keys, and, the keys of a dictionary being
    distinct, no key twice: the builders and the engine get the distinct
    keys they need. *)
Theorem all_seq_keys_distinct {key taxon : Type} `{EqDecision taxon}
    (taxonomy : key → list taxon) (keys : list key)
    (ingroup outgroup : taxon) :
  NoDup keys →
  NoDup (all_seq_keys taxonomy keys ingroup outgroup) ∧
  ∀ k, k ∈ all_seq_keys taxonomy keys ingroup outgroup ↔
       k ∈ keys ∧ (ingroup ∈ taxonomy k ∨ outgroup ∈ taxonomy k).
Proof.
  intros Hnd. unfold all_seq_keys, get_in_out_groups.
  rewrite group_loop_filter. simpl. split.
  - apply NoDup_app. split; [by apply NoDup_filter|].
    split; [|by apply NoDup_filter].
    intros k [Hin _]%list_elem_of_filter [[Hnot _] _]%list_elem_of_filter.
    done.
  - intros k. rewrite elem_of_app, !list_elem_of_filter.
    split.
    + intros [[Hi Hk]|[[Hn Ho] Hk]]; split; auto.
    + intros [Hk [Hi|Ho]]; [by left|].
      destruct (decide (ingroup ∈ taxonomy k)); [by left|by right].
Qed.

Lemma all_seq_keys_distinct_witness :
  NoDup (all_seq_keys (λ k : nat, if decide (k = 1) then [7; 8] else [k])
           [0; 1; 8; 7] 7 8) ∧
  ∀ k, k ∈ all_seq_keys (λ k : nat, if decide (k = 1) then [7; 8] else [k])
             [0; 1; 8; 7] 7 8 ↔
       k ∈ [0; 1; 8; 7] ∧
       (7 ∈ (if decide (k = 1) then [7; 8] else [k]) ∨
        8 ∈ (if decide (k = 1) then [7; 8] else [k])).
Proof.
  apply (all_seq_keys_distinct
           (λ k : nat, if decide (k = 1) then [7; 8] else [k]) [0; 1; 8; 7] 7 8).
  by apply (bool_decide_unpack _).
Defined.

(** ** From clusters to FASTA files and alignments *)

(** X10.  When [assemble_fasta_clusters] returns, the cluster list it
    returns is the given list without the clusters that have fewer than
    four different OTUs (the first two words of the description), the
    others in their order, also when equal clusters occur several times;
    the file names are clusters/0.fasta, clusters/1.fasta, ... in the
    order of the kept clusters, one file per kept cluster and no name
    twice; and the file of a kept cluster holds the records of those of
    its keys that are the first of their OTU in the cluster, in the order
    of the cluster: at least four records, no two of the same OTU, every
    OTU of the cluster present. *)
Theorem assemble_keeps_clusters_with_four_otus
    {key : Type} `{EqDecision key} (gb : key → SeqRecord.t)
    (clusters : list (list key))
    (files : list (string * list SeqRecord.t)) (names : list string)
    (clusters' : list (list key)) :
  assemble_fasta_clusters gb clusters = Ok (files, names, clusters') →
  clusters'
  = filter (λ c, 3 < length (distinct_otus
                   (λ k, otu_name 0 (SeqRecord.description (gb k))) c))
      clusters ∧
  names = cluster_file_name <$> seq 0 (length clusters') ∧
  fst <$> files = names ∧
  NoDup names ∧
  Forall2 (file_of gb) clusters' files.
Proof.
  unfold assemble_fasta_clusters.
  intros (a & Hloop & (cl & Hdel & [= <- <- <-])%rbind_Ok)%rbind_Ok.
  apply assemble_loop_Ok in Hloop
    as (Hto & Hfiles & new & Hnew & Hnames & Hall).
  simpl in Hto, Hfiles, Hnew. rewrite Hto in Hdel.
  pose proof (delete_clusters_filter
                (λ c, 3 < length (distinct_otus
                   (λ k, otu_name 0 (SeqRecord.description (gb k))) c))
                clusters [] ltac:(constructor)) as Hfilter.
  simpl in Hfilter. rewrite Hfilter in Hdel. injection Hdel as <-.
  subst new. split; [done|]. split; [done|]. split; [by rewrite Hfiles|].
  split; [|done]. rewrite Hfiles.
  apply NoDup_fmap_2_strong; [|apply NoDup_seq].
  intros i j _ _. apply cluster_file_name_inj.
Qed.

Lemma assemble_keeps_clusters_with_four_otus_witness :
  [[0; 1; 2; 4; 3]]
  = filter (λ c, 3 < length (distinct_otus
                   (λ k, otu_name 0 (SeqRecord.description (sample_gb k))) c))
      sample_clusters ∧
  ["clusters/0.fasta"] = cluster_file_name <$> seq 0 (length [[0; 1; 2; 4; 3]]) ∧
  fst <$> [("clusters/0.fasta", sample_gb <$> [0; 1; 2; 3])]
  = ["clusters/0.fasta"] ∧
  NoDup ["clusters/0.fasta"] ∧
  Forall2 (file_of sample_gb) [[0; 1; 2; 4; 3]]
    [("clusters/0.fasta", sample_gb <$> [0; 1; 2; 3])].
Proof.
  apply (assemble_keeps_clusters_with_four_otus sample_gb sample_clusters).
  vm_compute. reflexivity.
Defined.

(** X11.  [assemble_fasta_clusters] returns exactly when the description
    of every key of every cluster contains a blank, and raises
    [IndexError] exactly when some key of some cluster has a description
    without a blank, whether or not its cluster would be kept; it raises
    nothing else: [clusters.index] always finds the cluster to delete. *)
Theorem assemble_fails_on_description_without_blank
    {key : Type} `{EqDecision key} (gb : key → SeqRecord.t)
    (clusters : list (list key)) :
  ((∃ r, assemble_fasta_clusters gb clusters = Ok r) ↔
   ∀ c k, c ∈ clusters → k ∈ c →
          0 < blanks (SeqRecord.description (gb k))) ∧
  (assemble_fasta_clusters gb clusters = Raise IndexErr ↔
   ∃ c k, c ∈ clusters ∧ k ∈ c ∧
          blanks (SeqRecord.description (gb k)) = 0).
Proof.
  assert (Forall (Forall (λ k, ∃ otu,
            otu_of 0 (SeqRecord.description (gb k)) = Ok otu)) clusters ↔
          ∀ c k, c ∈ clusters → k ∈ c →
                 0 < blanks (SeqRecord.description (gb k))) as Hall.
  { rewrite Forall_forall. split.
    - intros Hall c k Hc Hk. apply otu_of_Ok_blanks.
      by apply (proj1 (Forall_forall _ _) (Hall c Hc)).
    - intros Hall c Hc. apply Forall_forall. intros k Hk.
      apply otu_of_Ok_blanks. by apply (Hall c k). }
  assert (Forall (Forall (λ k, ∃ otu,
            otu_of 0 (SeqRecord.description (gb k)) = Ok otu)) clusters →
          ∃ r, assemble_fasta_clusters gb clusters = Ok r) as Hruns.
  { intros Hok. unfold assemble_fasta_clusters.
    destruct (assemble_loop_runs gb clusters 0
                {| written := []; cluster_files := []; to_delete := [] |} Hok)
      as [a Ha].
    rewrite Ha. simpl.
    apply assemble_loop_Ok in Ha as (Hto & _). simpl in Hto. rewrite Hto.
    pose proof (delete_clusters_filter
                  (λ c, 3 < length (distinct_otus
                     (λ k, otu_name 0 (SeqRecord.description (gb k))) c))
                  clusters [] ltac:(constructor)) as Hfilter.
    simpl in Hfilter. rewrite Hfilter. simpl. eauto. }
  assert (¬ Forall (Forall (λ k, ∃ otu,
            otu_of 0 (SeqRecord.description (gb k)) = Ok otu)) clusters →
          assemble_fasta_clusters gb clusters = Raise IndexErr) as Hfails.
  { intros Hbad. unfold assemble_fasta_clusters.
    by rewrite assemble_loop_fails. }
  assert (Forall (Forall (λ k, ∃ otu,
            otu_of 0 (SeqRecord.description (gb k)) = Ok otu)) clusters ∨
          ∃ c k, c ∈ clusters ∧ k ∈ c ∧
                 blanks (SeqRecord.description (gb k)) = 0) as Hcases.
  { clear. induction clusters as [|c clusters [IH|(c' & k & Hc' & Hk & Hb)]].
    - left. constructor.
    - destruct (parses_all_or_not gb c) as [Hc|Hc].
      + left. by constructor.
      + right. destruct (unparsed_key gb c Hc) as (k & Hk & Hb).
        exists c, k. split; [apply list_elem_of_here|done].
    - right. exists c', k. split; [by apply list_elem_of_further|done]. }
  split.
  - split; [|intros Hok; by apply Hruns, Hall].
    intros [r Hr]. destruct Hcases as [Hok|(c & k & Hc & Hk & Hb)];
      [by apply Hall|].
    rewrite Hfails in Hr; [done|]. intros Hok.
    pose proof (proj1 Hall Hok c k Hc Hk). lia.
  - split.
    + intros Hr. destruct Hcases as [Hok|?]; [|done].
      destruct (Hruns Hok) as [r Hr']. congruence.
    + intros (c & k & Hc & Hk & Hb). apply Hfails. intros Hok.
      pose proof (proj1 Hall Hok c k Hc Hk). lia.
Qed.

(** X12.  The alignment step keeps clusters, files and alignments in
    step: for the file names that [assemble_fasta_clusters] returns,
    [align_clusters] returns alignments/0.fasta, alignments/1.fasta, ...,
    the i-th name for the i-th kept cluster, no name twice (no alignment
    overwrites another), and [cluster_file.index("/")] never fails. *)
Theorem alignments_follow_clusters
    {key : Type} `{EqDecision key} (gb : key → SeqRecord.t)
    (clusters : list (list key))
    (files : list (string * list SeqRecord.t)) (names : list string)
    (clusters' : list (list key)) :
  assemble_fasta_clusters gb clusters = Ok (files, names, clusters') →
  align_clusters names
  = Ok (alignment_file_name <$> seq 0 (length clusters')) ∧
  NoDup (alignment_file_name <$> seq 0 (length clusters')).
Proof.
  unfold assemble_fasta_clusters.
  intros (a & Hloop & (cl & Hdel & [= <- <- <-])%rbind_Ok)%rbind_Ok.
  apply assemble_loop_Ok in Hloop as (Hto & Hfiles & _).
  simpl in Hto, Hfiles. rewrite Hto in Hdel.
  pose proof (delete_clusters_filter
                (λ c, 3 < length (distinct_otus
                   (λ k, otu_name 0 (SeqRecord.description (gb k))) c))
                clusters [] ltac:(constructor)) as Hfilter.
  simpl in Hfilter. rewrite Hfilter in Hdel. injection Hdel as <-.
  rewrite Hfiles. split; [apply align_clusters_names|].
  apply NoDup_fmap_2_strong; [|apply NoDup_seq].
  intros i j _ _. apply alignment_file_name_inj.
Qed.

Lemma alignments_follow_clusters_witness :
  align_clusters ["clusters/0.fasta"]
  = Ok (alignment_file_name <$> seq 0 (length [[0; 1; 2; 4; 3]])) ∧
  NoDup (alignment_file_name <$> seq 0 (length [[0; 1; 2; 4; 3]])).
Proof.
  apply (alignments_follow_clusters sample_gb sample_clusters
           [("clusters/0.fasta", sample_gb <$> [0; 1; 2; 3])]).
  vm_compute. reflexivity.
Defined.

(** ** The supermatrix *)

(** X13.  For alignment files that are not empty, whose records have
    descriptions with at least three fields and, within one file,
    sequences of one length, [concatenate] builds the supermatrix: the
    dictionary it writes has one entry for each OTU (second and third
    word of a description) of any file, and the sequence of an OTU is the
    concatenation, in the order of the files, of the sequence of the
    first record of that OTU in the file or, if the file has none, of as
    many gaps as the file's sequences are long.  All rows have the same
    length, the sum of the lengths of the alignments. *)
Theorem concatenate_builds_supermatrix
    (alignment_files : list (list SeqRecord.t)) :
  Forall (described 1) alignment_files →
  Forall aligned alignment_files →
  Forall (λ records, records ≠ []) alignment_files →
  ∃ otus, concatenate_otus alignment_files = Ok otus ∧
    (∀ o, otus !! o
          = if decide (o ∈ (λ r, otu_name 1 (SeqRecord.description r))
                             <$> concat alignment_files)
            then Some (supermatrix_row o alignment_files) else None) ∧
    ∀ o s, otus !! o = Some s →
           length s = sum_list (locus_length <$> alignment_files).
Proof. apply concatenate_otus_rows. Qed.

Lemma sample_alignments_described : Forall (described 1) sample_alignments.
Proof.
  repeat constructor; intros r Hr; apply otu_of_Ok_blanks;
    repeat (apply elem_of_cons in Hr as [->|Hr]; [vm_compute; lia|]);
    by apply elem_of_nil in Hr.
Qed.

Lemma sample_alignments_aligned : Forall aligned sample_alignments.
Proof.
  repeat constructor; intros r r' Hr Hr';
    repeat (apply elem_of_cons in Hr as [->|Hr];
            [repeat (apply elem_of_cons in Hr' as [->|Hr']; [reflexivity|]);
             by apply elem_of_nil in Hr'|]);
    by apply elem_of_nil in Hr.
Qed.

Lemma concatenate_builds_supermatrix_witness :
  ∃ otus, concatenate_otus sample_alignments = Ok otus ∧
    (∀ o, otus !! o
          = if decide (o ∈ (λ r, otu_name 1 (SeqRecord.description r))
                             <$> concat sample_alignments)
            then Some (supermatrix_row o sample_alignments) else None) ∧
    ∀ o s, otus !! o = Some s →
           length s = sum_list (locus_length <$> sample_alignments).
Proof.
  apply (concatenate_builds_supermatrix sample_alignments
           sample_alignments_described sample_alignments_aligned).
  repeat constructor; discriminate.
Defined.

(** X14.  What [concatenate] raises.  It raises [IndexError] exactly when
    the description of some record of some file has fewer than two blanks
    (fewer than three fields); with all descriptions in order it raises
    [UnboundLocalError] exactly when the first file has no record
    ([loci_length] is read before any record has assigned it), and in
    every other case it reaches the writing of the file; a file without
    records that is not the first does not stop it.  The lookup
    [otus[otu]] never raises [KeyError]. *)
Theorem concatenate_raises (alignment_files : list (list SeqRecord.t)) :
  (concatenate_otus alignment_files = Raise IndexErr ↔
   ∃ records r, records ∈ alignment_files ∧ r ∈ records ∧
                blanks (SeqRecord.description r) < 2) ∧
  (concatenate_otus alignment_files = Raise UnboundLocalErr ↔
   Forall (described 1) alignment_files ∧
   ∃ rest, alignment_files = [] :: rest) ∧
  ((∃ otus, concatenate_otus alignment_files = Ok otus) ↔
   Forall (described 1) alignment_files ∧
   (alignment_files = [] ∨
    ∃ r records rest, alignment_files = (r :: records) :: rest)) ∧
  concatenate_otus alignment_files ≠ Raise KeyErr.
Proof.
  assert (∀ records r, Forall (described 1) alignment_files →
            records ∈ alignment_files → r ∈ records →
            blanks (SeqRecord.description r) < 2 → False) as Hexcl.
  { intros records r Hdesc Hrecords Hr Hb.
    apply (proj1 (Forall_forall _ _) Hdesc records Hrecords) in Hr.
    apply otu_of_Ok_blanks in Hr. lia. }
  destruct (concatenate_otus_cases alignment_files)
    as [[Hbad Hrun]|[(Hdesc & Hfirst & Hrun)|(Hdesc & Hfirst & otus & Hrun)]];
    rewrite Hrun.
  - destruct Hbad as (records & r & Hrecords & Hr & Hb).
    split; [split; [eauto|done]|].
    split; [split; [done|intros [Hdesc _]; by destruct (Hexcl records r)]|].
    split; [|done].
    split; [by intros [? ?]|intros [Hdesc _]; by destruct (Hexcl records r)].
  - split; [split; [done|]|].
    { intros (records & r & Hrecords & Hr & Hb). by destruct (Hexcl records r). }
    split; [done|]. split; [|done]. split; [by intros [? ?]|].
    destruct Hfirst as [rest ->].
    intros [_ [?|(r & records & rest' & ?)]]; done.
  - split; [split; [done|]|].
    { intros (records & r & Hrecords & Hr & Hb). by destruct (Hexcl records r). }
    split; [|split; [split; eauto|done]]. split; [done|].
    intros [_ [rest ->]]. by destruct Hfirst as [?|(r & records & rest' & ?)].
Qed.

(** X15.  The sequence lines of final.fasta.  With a step budget of at
    least len(sequence)/80 + 1 rounds the [while] loop ends, and the lines
    it writes, put together again, are the sequence: every line has
    between 1 and 80 letters, every line but the last has 80, and there
    are ceil(len(sequence)/80) lines, none for an empty sequence. *)
Theorem sequence_lines_wrap_at_80 (sequence : list ascii) (fuel : nat) :
  length sequence + 80 ≤ 80 * fuel →
  ∃ lines, write_lines fuel sequence 0 = Ok lines ∧
    concat lines = sequence ∧
    Forall (λ line, 0 < length line ≤ 80) lines ∧
    (∀ k line, lines !! k = Some line → S k < length lines →
               length line = 80) ∧
    length sequence ≤ 80 * length lines < length sequence + 80.
Proof.
  intros Hfuel.
  destruct (write_lines_Ok sequence fuel 0 ltac:(lia))
    as (lines & Hrun & Hcat & Hall & Hfull & Hcount).
  exists lines. rewrite drop_0 in Hcat. rewrite Nat.sub_0_r in Hcount. done.
Qed.

Lemma sequence_lines_wrap_at_80_witness :
  ∃ lines, write_lines 4 (replicate 170 "A"%char) 0 = Ok lines ∧
    concat lines = replicate 170 "A"%char ∧
    Forall (λ line, 0 < length line ≤ 80) lines ∧
    (∀ k line, lines !! k = Some line → S k < length lines →
               length line = 80) ∧
    length (replicate 170 "A"%char) ≤ 80 * length lines
      < length (replicate 170 "A"%char) + 80.
Proof.
  apply (sequence_lines_wrap_at_80 (replicate 170 "A"%char) 4).
  vm_compute. lia.
Defined.

(** X16.  The blocks of final.fasta.  Under the conditions of X13 and
    with a step budget for the rows, [concatenate] writes final.fasta,
    and the file is, for each OTU of the dictionary in the order the
    dictionary is walked, one block: the header line ["> " + otu]
    followed by the row of the OTU cut into n = ceil(total/80) lines of
    80 letters, total being the sum of the lengths of the alignments.
    Every OTU thus takes the same number of lines, 1 + n, the sequence
    lines of a block put together again are the row of its OTU, and the
    file has (number of OTUs) * (1 + n) lines. *)
Theorem concatenate_writes_equal_blocks
    (alignment_files : list (list SeqRecord.t)) (fuel n : nat) :
  Forall (described 1) alignment_files →
  Forall aligned alignment_files →
  Forall (λ records, records ≠ []) alignment_files →
  sum_list (locus_length <$> alignment_files) + 80 ≤ 80 * fuel →
  sum_list (locus_length <$> alignment_files) ≤ 80 * n
    < sum_list (locus_length <$> alignment_files) + 80 →
  ∃ otus,
    concatenate_otus alignment_files = Ok otus ∧
    concatenate fuel alignment_files
    = Ok (concat (fasta_block n <$> map_to_list otus)) ∧
    (∀ otu row, otus !! otu = Some row →
       fasta_block n (otu, row) ∈ fasta_block n <$> map_to_list otus ∧
       length (fasta_block n (otu, row)) = S n ∧
       concat (wrap n row) = row) ∧
    length (concat (fasta_block n <$> map_to_list otus)) = size otus * S n.
Proof.
  intros Hdesc Hal Hne Hfuel Hn.
  destruct (concatenate_otus_rows alignment_files Hdesc Hal Hne)
    as (otus & Hrun & _ & Hlen).
  exists otus. split; [done|]. split; [|split].
  - unfold concatenate. rewrite Hrun. simpl.
    apply (write_otus_blocks fuel _ n (map_to_list otus) Hfuel Hn).
    apply Forall_forall. intros [o s] Hin. simpl.
    apply elem_of_map_to_list in Hin. by apply (Hlen o).
  - intros otu row Hrow. split; [|split].
    + apply (list_elem_of_fmap_2 (fasta_block n)).
      by apply elem_of_map_to_list.
    + apply fasta_block_length.
    + apply wrap_concat. rewrite (Hlen otu row Hrow). lia.
  - by rewrite fasta_blocks_length, length_map_to_list.
Qed.

Lemma concatenate_writes_equal_blocks_witness :
  ∃ otus,
    concatenate_otus sample_alignments = Ok otus ∧
    concatenate 2 sample_alignments
    = Ok (concat (fasta_block 1 <$> map_to_list otus)) ∧
    (∀ otu row, otus !! otu = Some row →
       fasta_block 1 (otu, row) ∈ fasta_block 1 <$> map_to_list otus ∧
       length (fasta_block 1 (otu, row)) = S 1 ∧
       concat (wrap 1 row) = row) ∧
    length (concat (fasta_block 1 <$> map_to_list otus)) = size otus * S 1.
Proof.
  apply (concatenate_writes_equal_blocks sample_alignments 2 1
           sample_alignments_described sample_alignments_aligned).
  - repeat constructor; discriminate.
  - vm_compute. lia.
  - vm_compute. lia.
Defined.

(** X17.  The two readings of an OTU agree.  [assemble_fasta_clusters]
    takes the first two words of a GenBank description, [concatenate] the
    second and third word of a FASTA description; for a FASTA description
    made of an identifier without blank, a blank and the GenBank
    description, both give the same OTU, and fail on the same
    descriptions. *)
Theorem otu_readings_agree (identifier description : string) :
  blanks identifier = 0 →
  otu_of 1 (identifier +:+ " " +:+ description) = otu_of 0 description.
Proof.
  intros Hb. unfold otu_of. by rewrite str_split_identifier.
Qed.

Lemma otu_readings_agree_witness :
  otu_of 1 ("AF495760.1" +:+ " " +:+ "Lythrum salicaria chloroplast")
  = otu_of 0 "Lythrum salicaria chloroplast".
Proof.
  apply (otu_readings_agree "AF495760.1" "Lythrum salicaria chloroplast").
  reflexivity.
Defined.

(** ** The guided builder, for every number of workers and schedule *)

(** X18.  The guided builder computes the same clusters under every
    schedule, and it returns.  For guides with distinct identifiers and
    at least one worker, whenever [make_guided_clusters] returns, the
    cluster of each guide holds, in the order of [all_seq_keys], every
    key whose length passes the length test against the guide, once for
    each record of its comparison with the guide that has a hit: each
    guide is compared by exactly one worker, which alone writes its
    cluster, so no update is lost.  And the builder does return these
    clusters: it does so when the workers run one after the other, each
    for at least [gstep_budget] transitions (5 per guide, 2 per key of a
    guide and 4 per record of a comparison, plus 1 per guide and 1 at
    the end). *)
Theorem guided_clusters_do_not_depend_on_schedule
    {key guide gid : Type} `{EqDecision gid}
    (guide_id : guide → gid) (guide_length : guide → Z)
    (seq_length : key → Z)
    (blastn_guide : guide → key → list blast_record)
    (guide_sequences : list guide) (all_seq_keys : list key)
    (length_threshold : Q) (num_cores : nat) :
  NoDup (guide_id <$> guide_sequences) →
  0 < num_cores →
  (∀ sched workers result,
     make_guided_clusters guide_id guide_length seq_length blastn_guide
       (Some guide_sequences) all_seq_keys length_threshold num_cores sched
     = Joined workers result →
     result
     = guided_clusters guide_length seq_length blastn_guide length_threshold
         guide_sequences all_seq_keys) ∧
  (∀ N,
     gstep_budget blastn_guide guide_sequences all_seq_keys ≤ N →
     make_guided_clusters guide_id guide_length seq_length blastn_guide
       (Some guide_sequences) all_seq_keys length_threshold num_cores
       (in_turn N num_cores)
     = Joined num_cores
         (guided_clusters guide_length seq_length blastn_guide
            length_threshold guide_sequences all_seq_keys)).
Proof.
  intros Hids Hcores. split.
  - intros sched workers result. unfold make_guided_clusters.
    pose proof (rinv_run guide_id guide_length seq_length blastn_guide
                  length_threshold guide_sequences all_seq_keys Hids sched _
                  (rinv_init guide_id guide_length seq_length blastn_guide
                     length_threshold guide_sequences all_seq_keys num_cores))
      as Hinv.
    pose proof (grun_length guide_id guide_length seq_length blastn_guide
                  length_threshold guide_sequences all_seq_keys sched
                  (ginitial_pool (gid := gid) guide_sequences num_cores))
      as Hlen.
    simpl in Hlen. rewrite length_replicate in Hlen.
    destruct (forallb gexited _) eqn:Hex; [|done]. intros [= _ <-].
    apply (rinv_finished guide_id guide_length seq_length blastn_guide
             length_threshold guide_sequences all_seq_keys _ Hinv).
    + intros Hnil. rewrite Hnil in Hlen. simpl in Hlen. lia.
    + apply Forall_forall. intros p Hp.
      assert (gexited p = true) as Hpex.
      { rewrite forallb_forall in Hex. apply Hex. by apply list_elem_of_In. }
      apply list_elem_of_lookup in Hp as [w Hw].
      destruct (gr_fine _ _ _ _ _ _ _ _ Hinv w p Hw) as [Hcrash _].
      by destruct p.
  - intros N HN. unfold make_guided_clusters, in_turn.
    destruct (in_turn_finishes guide_id guide_length seq_length blastn_guide
                length_threshold guide_sequences all_seq_keys Hids N HN
                num_cores 0 _
                (rinv_init guide_id guide_length seq_length blastn_guide
                   length_threshold guide_sequences all_seq_keys num_cores))
      as (s' & Hrun & Hinv).
    unfold ginitial_pool. simpl in Hrun. rewrite Hrun. simpl.
    assert (forallb gexited (replicate num_cores (GFinished (key := key)))
            = true) as ->.
    { apply forallb_forall. intros p Hp. apply list_elem_of_In in Hp.
      by apply elem_of_replicate in Hp as [-> _]. }
    rewrite length_replicate. f_equal.
    apply (rinv_finished guide_id guide_length seq_length blastn_guide
             length_threshold guide_sequences all_seq_keys _ Hinv).
    + simpl. destruct num_cores; [lia|done].
    + simpl. apply Forall_forall. intros p Hp.
      by apply elem_of_replicate in Hp as [-> _].
Qed.

Lemma guide_ids_distinct : NoDup (fst <$> [(7, 100%Z); (8, 100%Z)]).
Proof. by apply (bool_decide_unpack _). Qed.

Lemma guided_clusters_do_not_depend_on_schedule_witness :
  [[0]; [0]]
  = guided_clusters snd guided_lengths guide_hit (1 # 2)
      [(7, 100%Z); (8, 100%Z)] [0; 1] ∧
  make_guided_clusters (key := nat) fst snd guided_lengths guide_hit
    (Some [(7, 100%Z); (8, 100%Z)]) [0; 1] (1 # 2) 2 (in_turn 35 2)
  = Joined 2
      (guided_clusters snd guided_lengths guide_hit (1 # 2)
         [(7, 100%Z); (8, 100%Z)] [0; 1]).
Proof.
  destruct (guided_clusters_do_not_depend_on_schedule (key := nat) fst snd
              guided_lengths guide_hit [(7, 100%Z); (8, 100%Z)] [0; 1]
              (1 # 2) 2 guide_ids_distinct ltac:(lia)) as [Hany Hturn].
  split.
  - apply (Hany ([0; 0; 0; 0; 1; 1; 1; 1] ++ replicate 20 0
                 ++ replicate 40 1 ++ replicate 40 0) 2 [[0]; [0]]).
    reflexivity.
  - apply (Hturn 35). vm_compute. lia.
Defined.

(** X19.  No interleaving makes a worker of the guided builder fail: for
    guides with distinct identifiers, in every state the pool reaches no
    worker has stopped on an index out of range, the list of clusters
    has one cluster for each guide, and the lock is held exactly by the
    worker that is inside one of the two locked blocks. *)
Theorem guided_workers_never_crash
    {key guide gid : Type} `{EqDecision gid}
    (guide_id : guide → gid) (guide_length : guide → Z)
    (seq_length : key → Z)
    (blastn_guide : guide → key → list blast_record)
    (guide_sequences : list guide) (all_seq_keys : list key)
    (length_threshold : Q) (num_cores : nat) (sched : list nat) :
  NoDup (guide_id <$> guide_sequences) →
  let c := grun guide_id guide_length seq_length blastn_guide
             length_threshold guide_sequences all_seq_keys sched
             (ginitial_pool (gid := gid) guide_sequences num_cores) in
  Forall (λ p, p ≠ GCrashed) c.1 ∧
  length c.1 = num_cores ∧
  length (clusters c.2) = length guide_sequences ∧
  ∀ w p, c.1 !! w = Some p → (g_in_lock p = true ↔ glock c.2 = Some w).
Proof.
  intros Hids c.
  pose proof (rinv_run guide_id guide_length seq_length blastn_guide
                length_threshold guide_sequences all_seq_keys Hids sched _
                (rinv_init guide_id guide_length seq_length blastn_guide
                   length_threshold guide_sequences all_seq_keys num_cores))
    as Hinv.
  fold c in Hinv. split; [|split; [|split]].
  - apply Forall_forall. intros p Hp.
    apply list_elem_of_lookup in Hp as [w Hw].
    by destruct (gr_fine _ _ _ _ _ _ _ _ Hinv w p Hw) as [Hcrash _].
  - unfold c. rewrite grun_length. simpl. apply length_replicate.
  - apply (gr_length _ _ _ _ _ _ _ _ Hinv).
  - intros w p Hp. split.
    + by apply (gr_locked _ _ _ _ _ _ _ _ Hinv).
    + intros Hl. destruct (gr_holder _ _ _ _ _ _ _ _ Hinv w Hl)
        as (q & Hq & Hqin). congruence.
Qed.

Lemma guided_workers_never_crash_witness :
  let c := grun (key := nat) fst snd guided_lengths guide_hit (1 # 2)
             [(7, 100%Z); (8, 100%Z)] [0; 1] [0; 0; 1; 0; 1]
             (ginitial_pool (gid := nat) [(7, 100%Z); (8, 100%Z)] 2) in
  Forall (λ p, p ≠ GCrashed) c.1 ∧
  length c.1 = 2 ∧
  length (clusters c.2) = length [(7, 100%Z); (8, 100%Z)] ∧
  ∀ w p, c.1 !! w = Some p → (g_in_lock p = true ↔ glock c.2 = Some w).
Proof.
  apply (guided_workers_never_crash (key := nat) fst snd guided_lengths
           guide_hit [(7, 100%Z); (8, 100%Z)] [0; 1] (1 # 2) 2
           [0; 0; 1; 0; 1] guide_ids_distinct).
Defined.

(** ** The all-pairs builder with one worker *)

(** X20.  What a single worker leaves in the matrix.  For distinct keys
    and a comparator that never reports an e-value equal to 99, the
    matrix [make_distance_matrix] returns with one worker has 0 on the
    diagonal and, for two keys, in both cells of the pair: 50 if the
    length test fails with the key that comes first in [seq_keys] as row
    and the other one as column, else what the last writing record of
    their comparison writes (10 for a record without alignment, the
    e-value for a record whose first alignment has an HSP); if no record
    of that comparison writes, the same for the opposite direction,
    which is then tried when the second key becomes the row; and 99 if
    neither direction writes. *)
Theorem single_worker_builds_sequential_matrix
    {key : Type} `{EqDecision key} (seq_length : key → Z)
    (blastn : key → key → list blast_record) (length_threshold : Q)
    (seq_keys : list key) (sched : list nat)
    (workers : nat) (m : matrix) :
  NoDup seq_keys →
  below_sentinel blastn →
  make_distance_matrix seq_length blastn length_threshold seq_keys 1 sched
  = Joined workers m →
  m = sequential_matrix seq_length blastn length_threshold seq_keys.
Proof.
  intros Hkeys H99. unfold make_distance_matrix, initial_pool.
  destruct (values_inv_run seq_length blastn length_threshold seq_keys
              Hkeys H99 sched _ _
              (values_inv_init seq_length blastn length_threshold seq_keys))
    as (p & s & Hrun & Hinv).
  simpl. rewrite Hrun. simpl.
  destruct p; simpl; try done; [|by destruct Hinv].
  intros [= _ <-].
  by apply (single_worker_matrix seq_length blastn length_threshold seq_keys).
Qed.

Lemma one_hit_below_sentinel : below_sentinel one_hit.
Proof.
  intros k k2 e hsps als Hin. unfold one_hit in Hin.
  apply list_elem_of_singleton in Hin. by injection Hin as -> _ _.
Qed.

Lemma single_worker_builds_sequential_matrix_witness :
  [[0; 1 # 1000]; [1 # 1000; 0]]%Q
  = sequential_matrix gate_lengths one_hit (1 # 2) [0; 1].
Proof.
  apply (single_worker_builds_sequential_matrix gate_lengths one_hit (1 # 2)
           [0; 1] alone 1 _ gate_keys_distinct one_hit_below_sentinel).
  reflexivity.
Defined.

(** X21.  A single worker finishes.  Under the conditions of X20 the
    worker needs at most [step_budget] transitions (4 per row, 5 per
    cell and 4 per record of a comparison, plus 1 per row and 1 at the
    end) to go through all rows, after which [make_distance_matrix]
    returns the matrix of X20. *)
Theorem single_worker_finishes
    {key : Type} `{EqDecision key} (seq_length : key → Z)
    (blastn : key → key → list blast_record) (length_threshold : Q)
    (seq_keys : list key) (N : nat) :
  NoDup seq_keys →
  below_sentinel blastn →
  step_budget blastn seq_keys ≤ N →
  make_distance_matrix seq_length blastn length_threshold seq_keys 1
    (replicate N 0)
  = Joined 1 (sequential_matrix seq_length blastn length_threshold seq_keys).
Proof.
  intros Hkeys H99 HN.
  destruct (values_inv_finishes seq_length blastn length_threshold seq_keys
              Hkeys H99 N _ _
              (values_inv_init seq_length blastn length_threshold seq_keys)
              eq_refl HN) as (s & Hrun & Hinv).
  pose proof (single_worker_matrix seq_length blastn length_threshold
                seq_keys s Hinv) as Hm.
  unfold make_distance_matrix, initial_pool. simpl.
  rewrite Hrun. simpl. by rewrite Hm.
Qed.

Lemma single_worker_finishes_witness :
  make_distance_matrix gate_lengths one_hit (1 # 2) [0; 1] 1 (replicate 100 0)
  = Joined 1 (sequential_matrix gate_lengths one_hit (1 # 2) [0; 1]).
Proof.
  apply (single_worker_finishes gate_lengths one_hit (1 # 2) [0; 1] 100
           gate_keys_distinct one_hit_below_sentinel).
  vm_compute. lia.
Defined.

